(** * MetaPhysFS: a shallow embedding of the virtual file system core

    The development follows the layout of the sources:
    - [physfs.cpp]: path sanitation, string hashing, the memory stream,
      the mount engine (search path, write dir, open lists) and the
      buffered file handle;
    - [physfs_tree.cpp]: the hashed directory tree;
    - [physfs_archiver_unpacked.cpp]: the unpacked-archive framework and
      its byte-range stream;
    - [archivers/physfs_archiver_grp.cpp], [archivers/physfs_archiver_qpak.cpp]:
      the GRP and QPAK directory loaders.

    Part I holds the definitions, Part II the lemmas and theorems. *)

From Stdlib Require Import ZArith Ascii String Bool List Lia.
From Stdlib.Strings Require Import Byte.
From stdpp Require Import base list option relations.
From Equations Require Import Equations.
Import ListNotations.

(* ===================================================================== *)
(** * Part I: the model                                                   *)
(* ===================================================================== *)

(** ** Error codes and results *)

(** The error kinds that the modelled functions set. *)
Inductive PHYSFS_ErrorCode : Type :=
  | PHYSFS_ERR_OK
  | PHYSFS_ERR_OTHER
  | PHYSFS_ERR_OUT_OF_MEMORY
  | PHYSFS_ERR_UNSUPPORTED
  | PHYSFS_ERR_PAST_EOF
  | PHYSFS_ERR_FILES_STILL_OPEN
  | PHYSFS_ERR_INVALID_ARGUMENT
  | PHYSFS_ERR_NOT_MOUNTED
  | PHYSFS_ERR_NOT_FOUND
  | PHYSFS_ERR_NO_WRITE_DIR
  | PHYSFS_ERR_OPEN_FOR_READING
  | PHYSFS_ERR_OPEN_FOR_WRITING
  | PHYSFS_ERR_NOT_A_FILE
  | PHYSFS_ERR_READ_ONLY
  | PHYSFS_ERR_CORRUPT
  | PHYSFS_ERR_IO
  | PHYSFS_ERR_BAD_FILENAME.

(** The outcome of a call that can fail.
    - [Ok a]: the call returned the success value [a];
    - [Bail e]: the call returned its failure value (0, -1 or a null
      pointer) after the thread's error code was set to [e], by the
      function itself ([BAIL], [BAIL_IF]) or by the callee whose failure
      it passes on;
    - [Failed]: the call returned its failure value and nobody set an
      error code on the way ([BAIL_IF_ERRPASS] after a callee that only
      returned a failure value). *)
Inductive res (A : Type) : Type :=
  | Ok (a : A)
  | Bail (e : PHYSFS_ErrorCode)
  | Failed.
Arguments Ok {A} a.
Arguments Bail {A} e.
Arguments Failed {A}.

Definition is_ok {A} (r : res A) : bool :=
  match r with Ok _ => true | _ => false end.

(** [BAIL_IF_ERRPASS]: pass a callee's failure on, whatever its type. *)
Definition errpass {A B} (r : res A) : res B :=
  match r with
  | Ok _ => Failed
  | Bail e => Bail e
  | Failed => Failed
  end.

(** ** Machine integers *)

#[export] Instance byte_eq_decision : EqDecision byte := Byte.byte_eq_dec.
#[export] Instance ascii_eq_decision : EqDecision ascii := Ascii.ascii_dec.

Definition u32 (z : Z) : Z := (z mod 2 ^ 32)%Z.
Definition u64 (z : Z) : Z := (z mod 2 ^ 64)%Z.

(** The cast of an unsigned 64-bit value to [PHYSFS_sint64]. *)
Definition s64 (z : Z) : Z :=
  if (u64 z <? 2 ^ 63)%Z then u64 z else (u64 z - 2 ^ 64)%Z.

(** ** C strings

    A C string is the list of its characters up to, and without, the
    terminating NUL. *)

Definition cstr (s : string) : list ascii := list_ascii_of_string s.

Definition NUL : ascii := Ascii.zero.

Definition is_char (c : ascii) (s : string) : bool :=
  match s with
  | String d EmptyString => Ascii.eqb c d
  | _ => false
  end.

(** The C string held in a character buffer: the characters before the
    first NUL. *)
Fixpoint c_str (buf : list ascii) : list ascii :=
  match buf with
  | [] => []
  | c :: rest => if Ascii.eqb c NUL then [] else c :: c_str rest
  end.

(** [strcmp]: the sign of the first difference, on unsigned characters. *)
Fixpoint strcmp (a b : list ascii) : Z :=
  match a, b with
  | [], [] => 0
  | [], _ :: _ => (-1)
  | _ :: _, [] => 1
  | x :: a', y :: b' =>
      if Ascii.eqb x y then strcmp a' b'
      else if (N_of_ascii x <? N_of_ascii y)%N then (-1) else 1
  end%Z.

(** [strrchr(name, '/')] followed by the chop at that place: the part of
    [name] before its last ['/'], or [None] when there is no ['/']. *)
Fixpoint chop_last_slash (name : list ascii) : option (list ascii) :=
  match name with
  | [] => None
  | c :: rest =>
      match chop_last_slash rest with
      | Some pre => Some (c :: pre)
      | None => if is_char c "/" then Some [] else None
      end
  end.

(** [strchr(name, ' ')] followed by the cut at that place. *)
Fixpoint cut_at_space (name : list ascii) : list ascii :=
  match name with
  | [] => []
  | c :: rest => if is_char c " " then [] else c :: cut_at_space rest
  end.

(** ** Path sanitation ([physfs.cpp], sanitizePlatformIndependentPath) *)

(** The loop that skips a run of ['/'] in the source. *)
Fixpoint skip_slashes (src : list ascii) : list ascii :=
  match src with
  | [] => []
  | c :: rest => if is_char c "/" then skip_slashes rest else src
  end.

Lemma skip_slashes_length (src : list ascii) :
  length (skip_slashes src) <= length src.
Proof.
  induction src as [|c rest IH]; cbn [skip_slashes length]; [lia|].
  destruct (is_char c "/"); cbn [length]; lia.
Qed.

(** [strcmp(s, ".") == 0 or strcmp(s, "..") == 0] *)
Definition dot_or_dotdot (s : list ascii) : bool :=
  (strcmp s (cstr ".") =? 0)%Z || (strcmp s (cstr "..") =? 0)%Z.

(** The [do ... while (ch)] loop.  [src] is what is left of the input,
    [dst] what has been written to the destination so far, and [prev]
    the index in the destination where the current segment starts (the
    C pointer [prev], as an offset from the start of the buffer).  The
    empty [src] stands for reading the terminating NUL, which is stored
    and ends the loop. *)
Equations sanitize_loop (src dst : list ascii) (prev : nat) : res (list ascii)
  by wf (length src) lt :=
  sanitize_loop [] dst prev := Ok dst;
  sanitize_loop (ch :: src) dst prev :=
    if is_char ch ":" || is_char ch "\" then Bail PHYSFS_ERR_BAD_FILENAME
    else if is_char ch "/" then
      if dot_or_dotdot (drop prev dst) then Bail PHYSFS_ERR_BAD_FILENAME
      else if bool_decide (skip_slashes src = []) then Ok dst
      else sanitize_loop (skip_slashes src) (dst ++ [ch]) (S (length dst))
    else sanitize_loop src (dst ++ [ch]) prev.
Next Obligation.
  pose proof (skip_slashes_length src). cbn [length]. lia.
Qed.

Definition sanitizePlatformIndependentPath (src : list ascii) : res (list ascii) :=
  let src := skip_slashes src in
  if dot_or_dotdot src then Bail PHYSFS_ERR_BAD_FILENAME
  else sanitize_loop src [] 0.

(** ** String hashing ([physfs.cpp]) *)

(** The value of a [char] once promoted and converted to 32 bits.  Whether
    plain [char] is signed is the platform's choice. *)
Definition char_to_u32 (char_signed : bool) (c : ascii) : Z :=
  let n := Z.of_N (N_of_ascii c) in
  if char_signed && (128 <=? n)%Z then u32 (n - 256) else n.

(** [hash = ((hash << 5) + hash) ^ ch] *)
Definition hash_step (hash ch : Z) : Z :=
  Z.lxor (u32 (u32 (Z.shiftl hash 5) + hash)) ch.

Definition __PHYSFS_hashString (char_signed : bool) (str : list ascii) : Z :=
  fold_left (fun hash ch => hash_step hash (char_to_u32 char_signed ch)) str 5381%Z.

(** [if (ch >= 'A' and ch <= 'Z') ch -= ('A' - 'a');] *)
Definition fold_usascii (ch : ascii) : ascii :=
  let n := N_of_ascii ch in
  if (65 <=? n)%N && (n <=? 90)%N then ascii_of_N (n + 32) else ch.

Definition __PHYSFS_hashStringCaseFoldUSAscii (char_signed : bool) (str : list ascii) : Z :=
  fold_left (fun hash ch => hash_step hash (char_to_u32 char_signed (fold_usascii ch)))
            str 5381%Z.

(** ** The stream interface ([PHYSFS_Io])

    A stream is a record of operations over a backing object.  The
    backing object is a value of the state type [S]; every operation
    that can change it returns the new state.  [io_read] returns the
    bytes it stored in the caller's buffer (its return value is their
    number), [io_write] the number of bytes written, [io_tell] and
    [io_length] the raw 64-bit result (-1 when unknown).  Lifetime
    management ([destroy], reference counts) is not modelled. *)
Class PHYSFS_Io (S : Type) : Type := {
  io_read : S -> Z -> S * res (list byte);
  io_write : S -> list byte -> S * res Z;
  io_seek : S -> Z -> S * res unit;
  io_tell : S -> Z;
  io_length : S -> Z;
  io_duplicate : S -> res S;
  io_flush : S -> S * res unit
}.

(** [__PHYSFS_readAll]: one read that must return exactly [len] bytes. *)
Definition __PHYSFS_readAll {S} `{PHYSFS_Io S} (io : S) (len : nat)
  : S * res (list byte) :=
  let '(io', rc) := io_read io (Z.of_nat len) in
  match rc with
  | Ok data => if bool_decide (length data = len) then (io', Ok data) else (io', Failed)
  | Bail e => (io', Bail e)
  | Failed => (io', Failed)
  end.

(** [PHYSFS_swapLE] of a 32-bit word read from the stream: the
    little-endian value of its four bytes. *)
Definition le32 (bs : list byte) : Z :=
  fold_right (fun b acc => (Z.of_N (Byte.to_N b) + 256 * acc)%Z) 0%Z (take 4 bs).

(** ** The memory stream ([physfs.cpp], the memoryIo functions)

    [mem_buf] is the pair of [buf] and [len] of the C structure. *)
Record MemoryIoInfo : Type := mkMemoryIoInfo {
  mem_buf : list byte;
  mem_pos : Z
}.

Definition mem_len (info : MemoryIoInfo) : Z := Z.of_nat (length (mem_buf info)).

Definition memoryIo_read (info : MemoryIoInfo) (len : Z) : MemoryIoInfo * res (list byte) :=
  let avail := u64 (mem_len info - mem_pos info) in
  if (avail =? 0)%Z then (info, Ok [])
  else
    let len := if (avail <? len)%Z then avail else len in
    (mkMemoryIoInfo (mem_buf info) (u64 (mem_pos info + len)),
     Ok (take (Z.to_nat len) (drop (Z.to_nat (mem_pos info)) (mem_buf info)))).

Definition memoryIo_write (info : MemoryIoInfo) (data : list byte) : MemoryIoInfo * res Z :=
  (info, Bail PHYSFS_ERR_OPEN_FOR_READING).

Definition memoryIo_seek (info : MemoryIoInfo) (offset : Z) : MemoryIoInfo * res unit :=
  if (mem_len info <? offset)%Z then (info, Bail PHYSFS_ERR_PAST_EOF)
  else (mkMemoryIoInfo (mem_buf info) offset, Ok tt).

Definition memoryIo_tell (info : MemoryIoInfo) : Z := s64 (mem_pos info).

Definition memoryIo_length (info : MemoryIoInfo) : Z := s64 (mem_len info).

(** The duplicate shares the buffer and starts at position 0. *)
Definition memoryIo_duplicate (info : MemoryIoInfo) : res MemoryIoInfo :=
  Ok (mkMemoryIoInfo (mem_buf info) 0).

Definition memoryIo_flush (info : MemoryIoInfo) : MemoryIoInfo * res unit := (info, Ok tt).

#[export] Instance __PHYSFS_memoryIoInterface : PHYSFS_Io MemoryIoInfo := {
  io_read := memoryIo_read;
  io_write := memoryIo_write;
  io_seek := memoryIo_seek;
  io_tell := memoryIo_tell;
  io_length := memoryIo_length;
  io_duplicate := memoryIo_duplicate;
  io_flush := memoryIo_flush
}.

Definition __PHYSFS_createMemoryIo (buf : list byte) : MemoryIoInfo :=
  mkMemoryIoInfo buf 0.

(** ** A stand-in for a native file

    A stream that can be positioned anywhere and holds no data: the
    behaviour of a native file under a seek past its end.  It serves as
    the parent of byte-range streams in examples. *)
Record SparseIo : Type := mkSparseIo { sparse_pos : Z }.

#[export] Instance sparseIo_interface : PHYSFS_Io SparseIo := {
  io_read := fun s _ => (s, Ok []);
  io_write := fun s _ => (s, Bail PHYSFS_ERR_OPEN_FOR_READING);
  io_seek := fun _ offset => (mkSparseIo offset, Ok tt);
  io_tell := sparse_pos;
  io_length := fun _ => 0%Z;
  io_duplicate := fun s => Ok s;
  io_flush := fun s => (s, Ok tt)
}.

(** ** The directory tree ([physfs_tree.hpp], [physfs_tree.cpp])

    Entries live in a store, [entries]; a pointer to an entry is its
    index there and [None] is the null pointer.  The three intrusive
    links of an entry are kept as the pointers they are.  The tree
    allocates [entrylen] bytes per entry, zeroed; all users in the
    sources pass the size of [UNPKentry], so the store holds
    [UNPKentry] values.  Allocation is taken to succeed. *)
Record __PHYSFS_DirTreeEntry : Type := mkDirTreeEntry {
  name : list ascii;
  hashnext : option nat;
  children : option nat;
  sibling : option nat;
  isdir : bool
}.

Record UNPKentry : Type := mkUNPKentry {
  tree : __PHYSFS_DirTreeEntry;
  startPos : Z;
  entry_size : Z;
  ctime : Z;
  mtime : Z
}.

Record __PHYSFS_DirTree : Type := mkDirTree {
  entries : list UNPKentry;
  root : nat;
  hash : list (option nat);
  hashBuckets : nat;
  case_sensitive : bool;
  only_usascii : bool
}.

(** What the sources take from [physfs_unicode.cpp] and from the
    platform, which are not part of the modelled files: whether plain
    [char] is signed, the comparison of names up to case, and the hash
    that folds case, whose loop in [physfs.cpp] rests on
    [__PHYSFS_utf8codepoint] and [PHYSFS_caseFold] of that file. *)
Class Platform : Type := {
  char_signed : bool;
  PHYSFS_utf8stricmp : list ascii -> list ascii -> Z;
  __PHYSFS_hashStringCaseFold : list ascii -> Z
}.

(** Modelled from the spec: [PHYSFS_utf8stricmp] lives in
    [physfs_unicode.cpp], and [__PHYSFS_hashStringCaseFold] decodes and
    folds with functions of that file, which is not among the sources.
    For names in US-ASCII the case-insensitive
    variants fold [A..Z] to [a..z]; this platform does that to every
    name, and takes plain [char] as signed.  It is used for examples
    only. *)
Definition usascii_stricmp (a b : list ascii) : Z :=
  strcmp (map fold_usascii a) (map fold_usascii b).

Definition usascii_platform : Platform := {|
  char_signed := true;
  PHYSFS_utf8stricmp := usascii_stricmp;
  __PHYSFS_hashStringCaseFold := __PHYSFS_hashStringCaseFoldUSAscii true
|}.

Section DirTree.
Context `{Platform}.

Definition with_tree (e : UNPKentry) (t : __PHYSFS_DirTreeEntry) : UNPKentry :=
  mkUNPKentry t (startPos e) (entry_size e) (ctime e) (mtime e).

Definition set_hashnext (p : nat) (nx : option nat) (es : list UNPKentry) : list UNPKentry :=
  match es !! p with
  | Some e =>
      <[p := with_tree e (mkDirTreeEntry (name (tree e)) nx (children (tree e))
                                         (sibling (tree e)) (isdir (tree e)))]> es
  | None => es
  end.

Definition set_children (p : nat) (c : option nat) (es : list UNPKentry) : list UNPKentry :=
  match es !! p with
  | Some e =>
      <[p := with_tree e (mkDirTreeEntry (name (tree e)) (hashnext (tree e)) c
                                         (sibling (tree e)) (isdir (tree e)))]> es
  | None => es
  end.

Definition __PHYSFS_DirTreeInit (case_sensitive only_usascii : bool) : __PHYSFS_DirTree :=
  mkDirTree [mkUNPKentry (mkDirTreeEntry (cstr "/") None None None true) 0 0 0 0]
            0 (replicate 64 None) 64 case_sensitive only_usascii.

Definition hashPathName (dt : __PHYSFS_DirTree) (nm : list ascii) : nat :=
  let hashval :=
    if case_sensitive dt then __PHYSFS_hashString char_signed nm
    else if only_usascii dt then __PHYSFS_hashStringCaseFoldUSAscii char_signed nm
    else __PHYSFS_hashStringCaseFold nm in
  Z.to_nat (u32 hashval mod Z.of_nat (hashBuckets dt)).

(** The comparison of [__PHYSFS_DirTreeFind]: [cmp == 0]. *)
Definition name_matches (dt : __PHYSFS_DirTree) (entry_name path : list ascii) : bool :=
  if case_sensitive dt then (strcmp entry_name path =? 0)%Z
  else (PHYSFS_utf8stricmp entry_name path =? 0)%Z.

Definition bucket_head (dt : __PHYSFS_DirTree) (hashval : nat) : option nat :=
  default None (hash dt !! hashval).

(** The bucket scan of [__PHYSFS_DirTreeFind].  [retval] is the entry
    under inspection and [prev] its predecessor in the chain.  The
    result is [None] when the walk leaves the store or does not end
    within [fuel] steps, which is what happens on a dangling or cyclic
    chain; otherwise it is the tree after the move to front, and the
    entry found, if any. *)
Fixpoint find_loop (fuel : nat) (dt : __PHYSFS_DirTree) (path : list ascii)
    (hashval : nat) (prev retval : option nat) : option (__PHYSFS_DirTree * option nat) :=
  match retval with
  | None => Some (dt, None)
  | Some r =>
      match fuel with
      | 0 => None
      | S fuel' =>
          e ← entries dt !! r;
          if name_matches dt (name (tree e)) path then
            match prev with
            | Some p =>
                let es1 := set_hashnext p (hashnext (tree e)) (entries dt) in
                let es2 := set_hashnext r (bucket_head dt hashval) es1 in
                Some (mkDirTree es2 (root dt) (<[hashval := Some r]> (hash dt))
                                (hashBuckets dt) (case_sensitive dt) (only_usascii dt),
                      Some r)
            | None => Some (dt, Some r)
            end
          else find_loop fuel' dt path hashval (Some r) (hashnext (tree e))
      end
  end.

Definition __PHYSFS_DirTreeFind (dt : __PHYSFS_DirTree) (path : list ascii)
  : option (__PHYSFS_DirTree * res nat) :=
  match path with
  | [] => Some (dt, Ok (root dt))
  | _ =>
      let hashval := hashPathName dt path in
      '(dt', r) ← find_loop (S (length (entries dt))) dt path hashval None
                            (bucket_head dt hashval);
      match r with
      | Some p => Some (dt', Ok p)
      | None => Some (dt', Bail PHYSFS_ERR_NOT_FOUND)
      end
  end.

(** [addAncestors], with the call back into [__PHYSFS_DirTreeAdd] as the
    argument [add]. *)
Definition addAncestors
    (add : __PHYSFS_DirTree -> list ascii -> bool -> option (__PHYSFS_DirTree * res nat))
    (dt : __PHYSFS_DirTree) (nm : list ascii) : option (__PHYSFS_DirTree * res nat) :=
  match chop_last_slash nm with
  | None => Some (dt, Ok (root dt))
  | Some pre =>
      '(dt1, r) ← __PHYSFS_DirTreeFind dt pre;
      match r with
      | Ok p =>
          e ← entries dt1 !! p;
          if isdir (tree e) then Some (dt1, Ok p)
          else Some (dt1, Bail PHYSFS_ERR_CORRUPT)
      | _ => add dt1 pre true
      end
  end.

(** [__PHYSFS_DirTreeAdd].  The recursion through [addAncestors] is on a
    strictly shorter name; [fuel] bounds its depth and [None] is the
    result when it does not suffice. *)
Fixpoint DirTreeAdd_rec (fuel : nat) (dt : __PHYSFS_DirTree) (nm : list ascii)
    (is_dir : bool) : option (__PHYSFS_DirTree * res nat) :=
  match fuel with
  | 0 => None
  | S fuel' =>
      '(dt1, found) ← __PHYSFS_DirTreeFind dt nm;
      match found with
      | Ok p => Some (dt1, Ok p)
      | _ =>
          '(dt2, par) ← addAncestors (DirTreeAdd_rec fuel') dt1 nm;
          match par with
          | Ok parent =>
              pe ← entries dt2 !! parent;
              let retval := length (entries dt2) in
              let hashval := hashPathName dt2 nm in
              let e := mkUNPKentry
                         (mkDirTreeEntry nm (bucket_head dt2 hashval) None
                                         (children (tree pe)) is_dir) 0 0 0 0 in
              Some (mkDirTree (set_children parent (Some retval) (entries dt2 ++ [e]))
                              (root dt2) (<[hashval := Some retval]> (hash dt2))
                              (hashBuckets dt2) (case_sensitive dt2) (only_usascii dt2),
                    Ok retval)
          | f => Some (dt2, errpass f)
          end
      end
  end.

Definition __PHYSFS_DirTreeAdd (dt : __PHYSFS_DirTree) (nm : list ascii) (is_dir : bool)
  : option (__PHYSFS_DirTree * res nat) :=
  DirTreeAdd_rec (S (length nm)) dt nm is_dir.

End DirTree.

(** ** The unpacked-archive framework ([physfs_archiver_unpacked.cpp]) *)

(** An opened archive: its directory tree and the stream it reads from. *)
Record UNPKinfo (S : Type) : Type := mkUNPKinfo {
  info_tree : __PHYSFS_DirTree;
  info_io : S
}.
Arguments mkUNPKinfo {S} _ _.
Arguments info_tree {S} _.
Arguments info_io {S} _.

(** The byte-range stream over an entry.  [finfo_entry] is the entry the
    C pointer [entry] refers to; its [startPos] and [entry_size] do not
    change once the archive is loaded.  [curPos] is a [PHYSFS_uint32]. *)
Record UNPKfileinfo (S : Type) : Type := mkUNPKfileinfo {
  finfo_io : S;
  finfo_entry : UNPKentry;
  curPos : Z
}.
Arguments mkUNPKfileinfo {S} _ _ _.
Arguments finfo_io {S} _.
Arguments finfo_entry {S} _.
Arguments curPos {S} _.

Inductive PHYSFS_FileType : Type :=
  | PHYSFS_FILETYPE_REGULAR
  | PHYSFS_FILETYPE_DIRECTORY
  | PHYSFS_FILETYPE_SYMLINK
  | PHYSFS_FILETYPE_OTHER.

Record PHYSFS_Stat : Type := mkStat {
  filesize : Z;
  modtime : Z;
  createtime : Z;
  accesstime : Z;
  filetype : PHYSFS_FileType;
  readonly : Z
}.

Section Unpacked.
Context {S : Type} `{PHYSFS_Io S}.

Definition UNPK_read (finfo : UNPKfileinfo S) (len : Z) : UNPKfileinfo S * res (list byte) :=
  let entry := finfo_entry finfo in
  let bytesLeft := u64 (entry_size entry - curPos finfo) in
  let len := if (bytesLeft <? len)%Z then bytesLeft else len in
  let '(io', rc) := io_read (finfo_io finfo) len in
  match rc with
  | Ok (b :: data) =>
      (mkUNPKfileinfo io' entry (u32 (curPos finfo + u32 (Z.of_nat (length (b :: data))))),
       Ok (b :: data))
  | _ => (mkUNPKfileinfo io' entry (curPos finfo), rc)
  end.

Definition UNPK_write (finfo : UNPKfileinfo S) (data : list byte) : UNPKfileinfo S * res Z :=
  (finfo, Bail PHYSFS_ERR_READ_ONLY).

Definition UNPK_tell (finfo : UNPKfileinfo S) : Z := curPos finfo.

Definition UNPK_seek (finfo : UNPKfileinfo S) (offset : Z) : UNPKfileinfo S * res unit :=
  let entry := finfo_entry finfo in
  if (entry_size entry <=? offset)%Z then (finfo, Bail PHYSFS_ERR_PAST_EOF)
  else
    let '(io', rc) := io_seek (finfo_io finfo) (u64 (startPos entry + offset)) in
    match rc with
    | Ok _ => (mkUNPKfileinfo io' entry (u32 offset), Ok tt)
    | _ => (mkUNPKfileinfo io' entry (curPos finfo), rc)
    end.

Definition UNPK_length (finfo : UNPKfileinfo S) : Z := s64 (entry_size (finfo_entry finfo)).

Definition UNPK_duplicate (origfinfo : UNPKfileinfo S) : res (UNPKfileinfo S) :=
  match io_duplicate (finfo_io origfinfo) with
  | Ok io => Ok (mkUNPKfileinfo io (finfo_entry origfinfo) 0)
  | f => errpass f
  end.

Definition UNPK_flush (finfo : UNPKfileinfo S) : UNPKfileinfo S * res unit := (finfo, Ok tt).

#[export] Instance UNPK_Io : PHYSFS_Io (UNPKfileinfo S) := {
  io_read := UNPK_read;
  io_write := UNPK_write;
  io_seek := UNPK_seek;
  io_tell := UNPK_tell;
  io_length := UNPK_length;
  io_duplicate := UNPK_duplicate;
  io_flush := UNPK_flush
}.

Context `{Platform}.

Definition findEntry (info : UNPKinfo S) (path : list ascii)
  : option (UNPKinfo S * res nat) :=
  '(dt, r) ← __PHYSFS_DirTreeFind (info_tree info) path;
  Some (mkUNPKinfo dt (info_io info), r).

Definition UNPK_openArchive (io : S) (case_sensitive only_usascii : bool) : UNPKinfo S :=
  mkUNPKinfo (__PHYSFS_DirTreeInit case_sensitive only_usascii) io.

Definition UNPK_addEntry (info : UNPKinfo S) (nm : list ascii) (is_dir : bool)
    (ctime mtime pos len : Z) : option (UNPKinfo S * res nat) :=
  '(dt, r) ← __PHYSFS_DirTreeAdd (info_tree info) nm is_dir;
  match r with
  | Ok p =>
      e ← entries dt !! p;
      let e' := mkUNPKentry (tree e) (if is_dir then 0%Z else pos)
                            (if is_dir then 0%Z else len) ctime mtime in
      Some (mkUNPKinfo (mkDirTree (<[p := e']> (entries dt)) (root dt) (hash dt)
                                  (hashBuckets dt) (case_sensitive dt) (only_usascii dt))
                       (info_io info),
            Ok p)
  | f => Some (mkUNPKinfo dt (info_io info), errpass f)
  end.

Definition UNPK_openRead (info : UNPKinfo S) (nm : list ascii)
  : option (UNPKinfo S * res (UNPKfileinfo S)) :=
  '(info1, r) ← findEntry info nm;
  match r with
  | Ok p =>
      entry ← entries (info_tree info1) !! p;
      if isdir (tree entry) then Some (info1, Bail PHYSFS_ERR_NOT_A_FILE)
      else
        match io_duplicate (info_io info1) with
        | Ok io =>
            let '(io', rc) := io_seek io (startPos entry) in
            match rc with
            | Ok _ => Some (info1, Ok (mkUNPKfileinfo io' entry 0))
            | f => Some (info1, errpass f)
            end
        | f => Some (info1, errpass f)
        end
  | f => Some (info1, errpass f)
  end.

Definition UNPK_openWrite (info : UNPKinfo S) (nm : list ascii) : res (UNPKfileinfo S) :=
  Bail PHYSFS_ERR_READ_ONLY.

Definition UNPK_openAppend (info : UNPKinfo S) (nm : list ascii) : res (UNPKfileinfo S) :=
  Bail PHYSFS_ERR_READ_ONLY.

Definition UNPK_remove (info : UNPKinfo S) (nm : list ascii) : res unit :=
  Bail PHYSFS_ERR_READ_ONLY.

Definition UNPK_mkdir (info : UNPKinfo S) (nm : list ascii) : res unit :=
  Bail PHYSFS_ERR_READ_ONLY.

Definition UNPK_stat (info : UNPKinfo S) (path : list ascii)
  : option (UNPKinfo S * res PHYSFS_Stat) :=
  '(info1, r) ← findEntry info path;
  match r with
  | Ok p =>
      entry ← entries (info_tree info1) !! p;
      Some (info1,
            Ok (mkStat (if isdir (tree entry) then 0%Z else entry_size entry)
                       (mtime entry) (ctime entry) (-1)
                       (if isdir (tree entry) then PHYSFS_FILETYPE_DIRECTORY
                        else PHYSFS_FILETYPE_REGULAR)
                       1))
  | f => Some (info1, errpass f)
  end.

(** ** The GRP loader ([archivers/physfs_archiver_grp.cpp])

    During the load the stream [io] and the stream stored in the archive
    are the same object; the model reads through [info_io]. *)

Definition chars_of_bytes (bs : list byte) : list ascii := map ascii_of_byte bs.

(** The body of the [for] loop, [n] iterations from now, with [pos] the
    running 32-bit offset. *)
Fixpoint grpLoadEntries_loop (n : nat) (pos : Z) (arc : UNPKinfo S)
  : option (UNPKinfo S * res unit) :=
  match n with
  | 0 => Some (arc, Ok tt)
  | Datatypes.S n' =>
      let '(io1, r1) := __PHYSFS_readAll (info_io arc) 12 in
      match r1 with
      | Ok namebuf =>
          let '(io2, r2) := __PHYSFS_readAll io1 4 in
          match r2 with
          | Ok sizebuf =>
              let nm := cut_at_space (c_str (chars_of_bytes namebuf)) in
              let size := le32 sizebuf in
              '(arc', r) ← UNPK_addEntry (mkUNPKinfo (info_tree arc) io2)
                                         nm false (-1) (-1) pos size;
              match r with
              | Ok _ => grpLoadEntries_loop n' (u32 (pos + size)) arc'
              | f => Some (arc', errpass f)
              end
          | f => Some (mkUNPKinfo (info_tree arc) io2, errpass f)
          end
      | f => Some (mkUNPKinfo (info_tree arc) io1, errpass f)
      end
  end.

Definition grpLoadEntries (count : Z) (arc : UNPKinfo S) : option (UNPKinfo S * res unit) :=
  grpLoadEntries_loop (Z.to_nat count) (u32 (16 + u32 (16 * count))) arc.

Definition GRP_SIG : list byte := list_byte_of_string "KenSilverman".

(** [GRP_openArchive]: the stream after the call, the [claimed] flag,
    and the archive or the failure. *)
Definition GRP_openArchive (io : S) (forWriting : bool)
  : option (S * bool * res (UNPKinfo S)) :=
  if forWriting then Some (io, false, Bail PHYSFS_ERR_READ_ONLY)
  else
    let '(io1, r1) := __PHYSFS_readAll io 12 in
    match r1 with
    | Ok buf =>
        if bool_decide (buf = GRP_SIG) then
          let '(io2, r2) := __PHYSFS_readAll io1 4 in
          match r2 with
          | Ok cnt =>
              let count := le32 cnt in
              let unpkarc := UNPK_openArchive io2 false true in
              '(arc, r) ← grpLoadEntries count unpkarc;
              match r with
              | Ok _ => Some (info_io arc, true, Ok arc)
              | f => Some (info_io arc, true, errpass f)
              end
          | f => Some (io2, true, errpass f)
          end
        else Some (io1, false, Bail PHYSFS_ERR_UNSUPPORTED)
    | f => Some (io1, false, errpass f)
    end.

(** ** The QPAK loader ([archivers/physfs_archiver_qpak.cpp]) *)

(** ["PACK"] as a little-endian word. *)
Definition QPAK_SIG : Z := 0x4B434150.

(** The 56-byte name field is handed over as a C string.  When it holds
    no NUL the string runs past the field, and the model has no result. *)
Definition qpak_name (field : list byte) : option (list ascii) :=
  let cs := chars_of_bytes field in
  if bool_decide (NUL ∈ cs) then Some (c_str cs) else None.

Fixpoint qpakLoadEntries_loop (n : nat) (arc : UNPKinfo S)
  : option (UNPKinfo S * res unit) :=
  match n with
  | 0 => Some (arc, Ok tt)
  | Datatypes.S n' =>
      let '(io1, r1) := __PHYSFS_readAll (info_io arc) 56 in
      match r1 with
      | Ok namebuf =>
          let '(io2, r2) := __PHYSFS_readAll io1 4 in
          match r2 with
          | Ok posbuf =>
              let '(io3, r3) := __PHYSFS_readAll io2 4 in
              match r3 with
              | Ok sizebuf =>
                  let size := le32 sizebuf in
                  let pos := le32 posbuf in
                  nm ← qpak_name namebuf;
                  '(arc', r) ← UNPK_addEntry (mkUNPKinfo (info_tree arc) io3)
                                             nm false (-1) (-1) pos size;
                  match r with
                  | Ok _ => qpakLoadEntries_loop n' arc'
                  | f => Some (arc', errpass f)
                  end
              | f => Some (mkUNPKinfo (info_tree arc) io3, errpass f)
              end
          | f => Some (mkUNPKinfo (info_tree arc) io2, errpass f)
          end
      | f => Some (mkUNPKinfo (info_tree arc) io1, errpass f)
      end
  end.

Definition qpakLoadEntries (count : Z) (arc : UNPKinfo S) : option (UNPKinfo S * res unit) :=
  qpakLoadEntries_loop (Z.to_nat count) arc.

Definition QPAK_openArchive (io : S) (forWriting : bool)
  : option (S * bool * res (UNPKinfo S)) :=
  if forWriting then Some (io, false, Bail PHYSFS_ERR_READ_ONLY)
  else
    let '(io1, r1) := __PHYSFS_readAll io 4 in
    match r1 with
    | Ok val =>
        if (le32 val =? QPAK_SIG)%Z then
          let '(io2, r2) := __PHYSFS_readAll io1 4 in
          match r2 with
          | Ok val2 =>
              let pos := le32 val2 in
              let '(io3, r3) := __PHYSFS_readAll io2 4 in
              match r3 with
              | Ok val3 =>
                  let count := le32 val3 in
                  if negb (count mod 64 =? 0)%Z then Some (io3, true, Bail PHYSFS_ERR_CORRUPT)
                  else
                    let count := (count / 64)%Z in
                    let '(io4, r4) := io_seek io3 pos in
                    match r4 with
                    | Ok _ =>
                        let unpkarc := UNPK_openArchive io4 true false in
                        '(arc, r) ← qpakLoadEntries count unpkarc;
                        match r with
                        | Ok _ => Some (info_io arc, true, Ok arc)
                        | f => Some (info_io arc, true, errpass f)
                        end
                    | f => Some (io4, true, errpass f)
                    end
              | f => Some (io3, true, errpass f)
              end
          | f => Some (io2, true, errpass f)
          end
        else Some (io1, false, Bail PHYSFS_ERR_UNSUPPORTED)
    | f => Some (io1, false, errpass f)
    end.

End Unpacked.

(** ** The user-facing file handle ([physfs.cpp])

    [buffer] is [None] for the null pointer.  [bufsize], [buffill] and
    [bufpos] are [size_t] quantities that index the in-memory buffer;
    they are natural numbers here, and the functions keep
    [bufpos <= buffill].  [dirHandle] is the address of the mount the
    handle was opened from. *)
Record FileHandle (S : Type) : Type := mkFileHandle {
  fh_io : S;
  forReading : bool;
  dirHandle : nat;
  buffer : option (list byte);
  bufsize : nat;
  buffill : nat;
  bufpos : nat
}.
Arguments mkFileHandle {S} _ _ _ _ _ _ _.
Arguments fh_io {S} _.
Arguments forReading {S} _.
Arguments dirHandle {S} _.
Arguments buffer {S} _.
Arguments bufsize {S} _.
Arguments buffill {S} _.
Arguments bufpos {S} _.

(** [memcpy(dst + at, src, length src)] on a buffer. *)
Definition memcpy_at (dst : list byte) (at_ : nat) (src : list byte) : list byte :=
  take at_ dst ++ src ++ drop (at_ + length src) dst.

Definition maxlen : Z := 0x7FFFFFFFFFFFFFFF.

(** A value together with the equation that names it, for definitions
    by cases that must remember the case. *)
Definition inspect {A : Type} (a : A) : {b : A | a = b} := exist _ a eq_refl.

Section Handle.
Context {S : Type} `{PHYSFS_Io S}.

Definition fh_buf (fh : FileHandle S) : list byte := default [] (buffer fh).

(** [doBufferedRead].  [out] is what has been copied to the caller's
    buffer so far; [retval] is its length. *)
Equations doBufferedRead (fh : FileHandle S) (len : nat) (out : list byte)
  : FileHandle S * res (list byte)
  by wf (2 * len + (if decide (buffill fh - bufpos fh = 0) then 1 else 0)) lt :=
  doBufferedRead fh 0 out := (fh, Ok out);
  doBufferedRead fh (Datatypes.S n) out with inspect (buffill fh - bufpos fh) := {
    | exist _ (Datatypes.S a) _ =>
        let cpy := Nat.min (Datatypes.S n) (Datatypes.S a) in
        doBufferedRead
          (mkFileHandle (fh_io fh) (forReading fh) (dirHandle fh) (buffer fh)
                        (bufsize fh) (buffill fh) (bufpos fh + cpy))
          (Datatypes.S n - cpy)
          (out ++ take cpy (drop (bufpos fh) (fh_buf fh)))
    | exist _ 0 _ with inspect (io_read (fh_io fh) (Z.of_nat (bufsize fh))) := {
        | exist _ (io', Ok (b :: data)) _ =>
            doBufferedRead
              (mkFileHandle io' (forReading fh) (dirHandle fh)
                            (Some (memcpy_at (fh_buf fh) 0 (b :: data)))
                            (bufsize fh) (length (b :: data)) 0)
              (Datatypes.S n) out
        | exist _ (io', rc) _ =>
            (mkFileHandle io' (forReading fh) (dirHandle fh) (buffer fh) (bufsize fh) 0 0,
             match out with
             | [] => rc
             | _ => Ok out
             end)
      }
  }.
Next Obligation.
  cbn [buffill bufpos length]. repeat case_decide; lia.
Qed.
Next Obligation.
  cbn [buffill bufpos length]. repeat case_decide; lia.
Qed.

Definition PHYSFS_readBytes (fh : FileHandle S) (_len : Z) : FileHandle S * res (list byte) :=
  if (maxlen <? _len)%Z then (fh, Bail PHYSFS_ERR_INVALID_ARGUMENT)
  else if negb (forReading fh) then (fh, Bail PHYSFS_ERR_OPEN_FOR_WRITING)
  else if (_len =? 0)%Z then (fh, Ok [])
  else
    match buffer fh with
    | Some _ => doBufferedRead fh (Z.to_nat _len) []
    | None =>
        let '(io', rc) := io_read (fh_io fh) _len in
        (mkFileHandle io' (forReading fh) (dirHandle fh) (buffer fh)
                      (bufsize fh) (buffill fh) (bufpos fh), rc)
    end.

Definition PHYSFS_flush (fh : FileHandle S) : FileHandle S * res unit :=
  if forReading fh || (bufpos fh =? buffill fh) then (fh, Ok tt)
  else
    let '(io', rc) :=
      io_write (fh_io fh) (take (buffill fh - bufpos fh) (drop (bufpos fh) (fh_buf fh))) in
    let fh' := mkFileHandle io' (forReading fh) (dirHandle fh) (buffer fh)
                            (bufsize fh) (buffill fh) (bufpos fh) in
    match rc with
    | Ok n =>
        if (n <=? 0)%Z then (fh', Failed)
        else (mkFileHandle io' (forReading fh) (dirHandle fh) (buffer fh) (bufsize fh) 0 0,
              Ok tt)
    | f => (fh', errpass f)
    end.

Definition doBufferedWrite (fh : FileHandle S) (data : list byte) : FileHandle S * res Z :=
  let len := length data in
  if buffill fh + len <? bufsize fh then
    (mkFileHandle (fh_io fh) (forReading fh) (dirHandle fh)
                  (Some (memcpy_at (fh_buf fh) (buffill fh) data))
                  (bufsize fh) (buffill fh + len) (bufpos fh),
     Ok (Z.of_nat len))
  else
    let '(fh1, rc) := PHYSFS_flush fh in
    match rc with
    | Ok _ =>
        let '(io', rc') := io_write (fh_io fh1) data in
        (mkFileHandle io' (forReading fh1) (dirHandle fh1) (buffer fh1)
                      (bufsize fh1) (buffill fh1) (bufpos fh1), rc')
    | f => (fh1, errpass f)
    end.

Definition PHYSFS_writeBytes (fh : FileHandle S) (data : list byte) : FileHandle S * res Z :=
  if (maxlen <? Z.of_nat (length data))%Z then (fh, Bail PHYSFS_ERR_INVALID_ARGUMENT)
  else if forReading fh then (fh, Bail PHYSFS_ERR_OPEN_FOR_READING)
  else if length data =? 0 then (fh, Ok 0%Z)
  else
    match buffer fh with
    | Some _ => doBufferedWrite fh data
    | None =>
        let '(io', rc) := io_write (fh_io fh) data in
        (mkFileHandle io' (forReading fh) (dirHandle fh) (buffer fh)
                      (bufsize fh) (buffill fh) (bufpos fh), rc)
    end.

Definition PHYSFS_eof (fh : FileHandle S) : bool :=
  if negb (forReading fh) then false
  else if bufpos fh =? buffill fh then
    let pos := io_tell (fh_io fh) in
    let len := io_length (fh_io fh) in
    if (pos <? 0)%Z || (len <? 0)%Z then false
    else (len <=? pos)%Z
  else false.

Definition PHYSFS_tell (fh : FileHandle S) : Z :=
  let pos := io_tell (fh_io fh) in
  if forReading fh then s64 ((pos - Z.of_nat (buffill fh)) + Z.of_nat (bufpos fh))
  else s64 (pos + Z.of_nat (buffill fh)).

(** [PHYSFS_setBuffer].  [newbuf] is what the allocator's [Realloc]
    returns: [None] for a null pointer, else the block. *)
Definition PHYSFS_setBuffer (fh : FileHandle S) (_bufsize : nat) (newbuf : option (list byte))
  : FileHandle S * res unit :=
  let '(fh1, rc) := PHYSFS_flush fh in
  match rc with
  | Ok _ =>
      let '(io2, rc2) :=
        if forReading fh1 && negb (buffill fh1 =? bufpos fh1) then
          let curpos := io_tell (fh_io fh1) in
          if (curpos =? -1)%Z then (fh_io fh1, Failed)
          else io_seek (fh_io fh1)
                       (u64 ((curpos - Z.of_nat (buffill fh1)) + Z.of_nat (bufpos fh1)))
        else (fh_io fh1, Ok tt) in
      let fh2 := mkFileHandle io2 (forReading fh1) (dirHandle fh1) (buffer fh1)
                              (bufsize fh1) (buffill fh1) (bufpos fh1) in
      match rc2 with
      | Ok _ =>
          if _bufsize =? 0 then
            (mkFileHandle io2 (forReading fh1) (dirHandle fh1) None 0 0 0, Ok tt)
          else
            match newbuf with
            | Some b =>
                (mkFileHandle io2 (forReading fh1) (dirHandle fh1) (Some b) _bufsize 0 0,
                 Ok tt)
            | None => (fh2, Bail PHYSFS_ERR_OUT_OF_MEMORY)
            end
      | f => (fh2, errpass f)
      end
  | f => (fh1, errpass f)
  end.

(** Reading a handle to the end: [PHYSFS_readBytes] with a request of
    [chunk] bytes, repeated until it returns no byte.  The result is
    [None] when [fuel] calls do not reach the end. *)
Fixpoint read_to_eof (fuel : nat) (fh : FileHandle S) (chunk : Z) : option (list byte) :=
  match fuel with
  | 0 => None
  | Datatypes.S fuel' =>
      let '(fh', rc) := PHYSFS_readBytes fh chunk in
      match rc with
      | Ok (b :: data) => rest ← read_to_eof fuel' fh' chunk; Some ((b :: data) ++ rest)
      | _ => Some []
      end
  end.

End Handle.

(** ** The mount engine ([physfs.cpp])

    A mounted archive.  The archive's opaque state and its table of
    functions belong to the backends and are not part of the record;
    what a backend does is an argument of the operations below. *)
Record DirHandle : Type := mkDirHandle {
  dirName : list ascii;
  mountPoint : option (list ascii);
  dh_root : option (list ascii)
}.

(** The global state.  The nodes of the linked lists are pairs of an
    address and the object stored there; [next_addr] is the address the
    allocator hands out next. *)
Record PhysfsState (S : Type) : Type := mkState {
  searchPath : list (nat * DirHandle);
  writeDir : option (nat * DirHandle);
  openWriteList : list (nat * FileHandle S);
  openReadList : list (nat * FileHandle S);
  next_addr : nat
}.
Arguments mkState {S} _ _ _ _ _.
Arguments searchPath {S} _.
Arguments writeDir {S} _.
Arguments openWriteList {S} _.
Arguments openReadList {S} _.
Arguments next_addr {S} _.

Definition initial_state {S : Type} : PhysfsState S := mkState [] None [] [] 0.

(** [createDirHandle].  [opened] is the outcome of [openDirectory], that
    is of the platform and of the registered backends. *)
Definition createDirHandle (opened : res unit) (newDir : list ascii)
    (mount_point : option (list ascii)) : res DirHandle :=
  let continue (mp : option (list ascii)) : res DirHandle :=
    match opened with
    | Ok _ =>
        Ok (mkDirHandle newDir
              (match mp with
               | Some (c :: m) => Some ((c :: m) ++ cstr "/")
               | _ => None
               end)
              None)
    | f => errpass f
    end in
  match mount_point with
  | Some mp =>
      match sanitizePlatformIndependentPath mp with
      | Ok tmpmntpnt => continue (Some tmpmntpnt)
      | f => errpass f
      end
  | None => continue None
  end.

Section MountEngine.
Context {S : Type} `{PHYSFS_Io S}.

Definition freeDirHandle (dh : nat * DirHandle) (openList : list (nat * FileHandle S))
  : res unit :=
  if existsb (fun i => dirHandle i.2 =? dh.1) openList
  then Bail PHYSFS_ERR_FILES_STILL_OPEN
  else Ok tt.

Definition doMount (opened : res unit) (fname : option (list ascii))
    (mount_point : option (list ascii)) (appendToPath : bool) (st : PhysfsState S)
  : PhysfsState S * res unit :=
  match fname with
  | None => (st, Bail PHYSFS_ERR_INVALID_ARGUMENT)
  | Some fname =>
      let mount_point := default (cstr "/") mount_point in
      if existsb (fun i => (strcmp fname (dirName i.2) =? 0)%Z) (searchPath st)
      then (st, Ok tt)
      else
        match createDirHandle opened fname (Some mount_point) with
        | Ok dh =>
            let node := (next_addr st, dh) in
            (mkState (if appendToPath then searchPath st ++ [node]
                      else node :: searchPath st)
                     (writeDir st) (openWriteList st) (openReadList st)
                     (Datatypes.S (next_addr st)),
             Ok tt)
        | f => (st, errpass f)
        end
  end.

Definition PHYSFS_mount (opened : res unit) (newDir mount_point : option (list ascii))
    (appendToPath : bool) (st : PhysfsState S) : PhysfsState S * res unit :=
  match newDir with
  | None => (st, Bail PHYSFS_ERR_INVALID_ARGUMENT)
  | Some _ => doMount opened newDir mount_point appendToPath st
  end.

(** The loop of [PHYSFS_unmount] over the search path: the new search
    path, or the failure. *)
Fixpoint unmount_loop (oldDir : list ascii) (openRead : list (nat * FileHandle S))
    (path : list (nat * DirHandle)) : res (list (nat * DirHandle)) :=
  match path with
  | [] => Bail PHYSFS_ERR_NOT_MOUNTED
  | i :: next =>
      if (strcmp (dirName i.2) oldDir =? 0)%Z then
        match freeDirHandle i openRead with
        | Ok _ => Ok next
        | f => errpass f
        end
      else
        match unmount_loop oldDir openRead next with
        | Ok next' => Ok (i :: next')
        | f => f
        end
  end.

Definition PHYSFS_unmount (oldDir : option (list ascii)) (st : PhysfsState S)
  : PhysfsState S * res unit :=
  match oldDir with
  | None => (st, Bail PHYSFS_ERR_INVALID_ARGUMENT)
  | Some oldDir =>
      match unmount_loop oldDir (openReadList st) (searchPath st) with
      | Ok path' =>
          (mkState path' (writeDir st) (openWriteList st) (openReadList st) (next_addr st),
           Ok tt)
      | f => (st, errpass f)
      end
  end.

Definition PHYSFS_setWriteDir (opened : res unit) (newDir : option (list ascii))
    (st : PhysfsState S) : PhysfsState S * res unit :=
  let freed :=
    match writeDir st with
    | Some wd => freeDirHandle wd (openWriteList st)
    | None => Ok tt
    end in
  match freed with
  | Ok _ =>
      match newDir with
      | Some d =>
          match createDirHandle opened d None with
          | Ok dh =>
              (mkState (searchPath st) (Some (next_addr st, dh)) (openWriteList st)
                       (openReadList st) (Datatypes.S (next_addr st)),
               Ok tt)
          | f =>
              (mkState (searchPath st) None (openWriteList st) (openReadList st)
                       (next_addr st),
               errpass f)
          end
      | None =>
          (mkState (searchPath st) None (openWriteList st) (openReadList st) (next_addr st),
           Ok tt)
      end
  | f => (st, errpass f)
  end.

(** The loop of [PHYSFS_openRead] over the search path.  [probe i fname]
    is the outcome of [verifyPath] followed by the backend's [openRead]
    on the mount [i]. *)
Fixpoint openRead_loop (probe : nat * DirHandle -> list ascii -> res S)
    (fname : list ascii) (path : list (nat * DirHandle)) : res (nat * S) :=
  match path with
  | [] => Failed
  | i :: next =>
      match probe i fname with
      | Ok io => Ok (i.1, io)
      | _ => openRead_loop probe fname next
      end
  end.

Definition PHYSFS_openRead (probe : nat * DirHandle -> list ascii -> res S)
    (_fname : option (list ascii)) (st : PhysfsState S) : PhysfsState S * res nat :=
  match _fname with
  | None => (st, Bail PHYSFS_ERR_INVALID_ARGUMENT)
  | Some _fname =>
      match searchPath st with
      | [] => (st, Bail PHYSFS_ERR_NOT_FOUND)
      | _ =>
          match sanitizePlatformIndependentPath _fname with
          | Ok fname =>
              match openRead_loop probe fname (searchPath st) with
              | Ok (i, io) =>
                  let fh := mkFileHandle io true i None 0 0 0 in
                  (mkState (searchPath st) (writeDir st) (openWriteList st)
                           ((next_addr st, fh) :: openReadList st)
                           (Datatypes.S (next_addr st)),
                   Ok (next_addr st))
              | f => (st, errpass f)
              end
          | f => (st, errpass f)
          end
      end
  end.

(** [doOpenWrite].  [probe h fname] is the outcome of [verifyPath]
    followed by the backend's [openWrite] or [openAppend]. *)
Definition doOpenWrite (probe : nat * DirHandle -> list ascii -> res S)
    (_fname : option (list ascii)) (appending : bool) (st : PhysfsState S)
  : PhysfsState S * res nat :=
  match _fname with
  | None => (st, Bail PHYSFS_ERR_INVALID_ARGUMENT)
  | Some _fname =>
      match writeDir st with
      | None => (st, Bail PHYSFS_ERR_NO_WRITE_DIR)
      | Some h =>
          match sanitizePlatformIndependentPath _fname with
          | Ok fname =>
              match probe h fname with
              | Ok io =>
                  let fh := mkFileHandle io false h.1 None 0 0 0 in
                  (mkState (searchPath st) (writeDir st)
                           ((next_addr st, fh) :: openWriteList st)
                           (openReadList st) (Datatypes.S (next_addr st)),
                   Ok (next_addr st))
              | f => (st, errpass f)
              end
          | f => (st, errpass f)
          end
      end
  end.

Definition PHYSFS_openWrite probe filename (st : PhysfsState S) :=
  doOpenWrite probe filename false st.

Definition PHYSFS_openAppend probe filename (st : PhysfsState S) :=
  doOpenWrite probe filename true st.

(** [closeHandleInOpenList]: the new list and the return code, which is
    -1 for a close failure, 0 when the handle is not in the list and 1
    on success. *)
Fixpoint closeHandleInOpenList (l : list (nat * FileHandle S)) (handle : nat)
  : list (nat * FileHandle S) * Z :=
  match l with
  | [] => ([], 0%Z)
  | i :: next =>
      if i.1 =? handle then
        if negb (forReading i.2) then
          let '(fh1, rc) := PHYSFS_flush i.2 in
          match rc with
          | Ok _ =>
              let '(io2, rc2) := io_flush (fh_io fh1) in
              match rc2 with
              | Ok _ => (next, 1%Z)
              | _ =>
                  ((i.1, mkFileHandle io2 (forReading fh1) (dirHandle fh1) (buffer fh1)
                                      (bufsize fh1) (buffill fh1) (bufpos fh1)) :: next,
                   (-1)%Z)
              end
          | _ => ((i.1, fh1) :: next, (-1)%Z)
          end
        else (next, 1%Z)
      else
        let '(next', rc) := closeHandleInOpenList next handle in
        (i :: next', rc)
  end.

Definition PHYSFS_close (handle : nat) (st : PhysfsState S) : PhysfsState S * res unit :=
  let '(rl, rc) := closeHandleInOpenList (openReadList st) handle in
  if (rc =? -1)%Z then
    (mkState (searchPath st) (writeDir st) (openWriteList st) rl (next_addr st), Failed)
  else if (rc =? 0)%Z then
    let '(wl, rc') := closeHandleInOpenList (openWriteList st) handle in
    if (rc' =? -1)%Z then
      (mkState (searchPath st) (writeDir st) wl rl (next_addr st), Failed)
    else if (rc' =? 0)%Z then
      (mkState (searchPath st) (writeDir st) wl rl (next_addr st),
       Bail PHYSFS_ERR_INVALID_ARGUMENT)
    else (mkState (searchPath st) (writeDir st) wl rl (next_addr st), Ok tt)
  else (mkState (searchPath st) (writeDir st) (openWriteList st) rl (next_addr st), Ok tt).

(** [closeFileHandleList]: the list that is left and the return code. *)
Fixpoint closeFileHandleList (l : list (nat * FileHandle S))
  : list (nat * FileHandle S) * bool :=
  match l with
  | [] => ([], true)
  | i :: next =>
      let '(io', rc) := io_flush (fh_io i.2) in
      match rc with
      | Ok _ => closeFileHandleList next
      | _ =>
          ((i.1, mkFileHandle io' (forReading i.2) (dirHandle i.2) (buffer i.2)
                              (bufsize i.2) (buffill i.2) (bufpos i.2)) :: next,
           false)
      end
  end.

(** [doDeinit], as far as the mount engine's state goes: the open write
    handles are closed, the write dir is dropped, then [freeSearchPath]
    closes the read handles and empties the search path. *)
Definition doDeinit (st : PhysfsState S) : PhysfsState S * res unit :=
  let '(wl, _) := closeFileHandleList (openWriteList st) in
  let st1 := mkState (searchPath st) (writeDir st) wl (openReadList st) (next_addr st) in
  let '(st2, rc) := PHYSFS_setWriteDir (Ok tt) None st1 in
  match rc with
  | Ok _ =>
      let '(rl, _) := closeFileHandleList (openReadList st2) in
      (mkState [] (writeDir st2) (openWriteList st2) rl (next_addr st2), Ok tt)
  | _ => (st2, Bail PHYSFS_ERR_FILES_STILL_OPEN)
  end.

(** The calls an application makes, with what the platform and the
    backends answer, and the states they lead to.  The last two rules
    are the calls that work on one open handle (read, write, seek, set
    buffer, flush): they change the handle in place and leave the mount
    it refers to alone. *)
Inductive api_step (st : PhysfsState S) : PhysfsState S -> Prop :=
  | step_mount opened newDir mount_point appendToPath :
      api_step st (PHYSFS_mount opened newDir mount_point appendToPath st).1
  | step_unmount oldDir :
      api_step st (PHYSFS_unmount oldDir st).1
  | step_setWriteDir opened newDir :
      api_step st (PHYSFS_setWriteDir opened newDir st).1
  | step_openRead probe fname :
      api_step st (PHYSFS_openRead probe fname st).1
  | step_openWrite probe fname :
      api_step st (PHYSFS_openWrite probe fname st).1
  | step_openAppend probe fname :
      api_step st (PHYSFS_openAppend probe fname st).1
  | step_close handle :
      api_step st (PHYSFS_close handle st).1
  | step_deinit :
      api_step st (doDeinit st).1
  | step_handle_io l1 a (fh fh' : FileHandle S) l2 :
      openReadList st = l1 ++ (a, fh) :: l2 ->
      dirHandle fh' = dirHandle fh ->
      api_step st (mkState (searchPath st) (writeDir st) (openWriteList st)
                           (l1 ++ (a, fh') :: l2) (next_addr st))
  | step_handle_io_w l1 a (fh fh' : FileHandle S) l2 :
      openWriteList st = l1 ++ (a, fh) :: l2 ->
      dirHandle fh' = dirHandle fh ->
      api_step st (mkState (searchPath st) (writeDir st)
                           (l1 ++ (a, fh') :: l2) (openReadList st) (next_addr st)).

Definition reachable (st : PhysfsState S) : Prop := rtc api_step initial_state st.

End MountEngine.

(** ** Paths against mount points ([physfs.cpp]) *)

(** [strncmp(a, b, n) == 0] on C strings. *)
Definition strncmp_eq (a b : list ascii) (n : nat) : bool :=
  (strcmp (take n a) (take n b) =? 0)%Z.

(** [s[i] == '/'], where [s[length s]] is the terminating NUL. *)
Definition slash_at (s : list ascii) (i : nat) : bool :=
  match s !! i with
  | Some c => is_char c "/"
  | None => false
  end.

(** [partOfMountPoint]: whether [fname], a sanitized path, names a
    directory on the way to the mount point of [h]. *)
Definition partOfMountPoint (h : DirHandle) (fname : list ascii) : bool :=
  match mountPoint h with
  | None => false
  | Some mp =>
      match fname with
      | [] => true
      | _ =>
          let len := length fname in
          let mntpntlen := length mp in
          if mntpntlen <? len then false
          else if len + 1 =? mntpntlen then false
          else if negb (strncmp_eq fname mp len) then false
          else slash_at mp len
      end
  end.

(** The ways out of [verifyPath]:
    - [Verified arcfname]: it returns 1 and [*_fname] is [arcfname];
    - [NotUnderMountPoint]: it bails out with NOT_FOUND;
    - [SymlinkForbidden]: it bails out with SYMLINK_FORBIDDEN;
    - [ElementMissing]: it returns 0 after the archive's [stat] failed
      on an element with NOT_FOUND as the thread's error code. *)
Inductive verify_outcome : Type :=
  | Verified (arcfname : list ascii)
  | NotUnderMountPoint
  | SymlinkForbidden
  | ElementMissing.

(** The thread's error code after a call that returned [r], when it was
    [cur] before. *)
Definition error_after {A} (cur : PHYSFS_ErrorCode) (r : res A) : PHYSFS_ErrorCode :=
  match r with
  | Bail e => e
  | _ => cur
  end.

Definition is_not_found (e : PHYSFS_ErrorCode) : bool :=
  match e with
  | PHYSFS_ERR_NOT_FOUND => true
  | _ => false
  end.

Definition is_symlink (t : PHYSFS_FileType) : bool :=
  match t with
  | PHYSFS_FILETYPE_SYMLINK => true
  | _ => false
  end.

(** What the loop of [verifyPath] learns about one element. *)
Inductive element_check : Type :=
  | ElemSymlink
  | ElemMissing
  | ElemPassed (cur : PHYSFS_ErrorCode).

(** The first part of [verifyPath]: the path below the mount point of
    [h], or [None] when [fname] is not under it.  The code asserts that
    a mount point is longer than one character; on an empty one
    [mntpntlen - 1] wraps around and every path is refused. *)
Definition strip_mount_point (h : DirHandle) (fname : list ascii) : option (list ascii) :=
  match mountPoint h with
  | None => Some fname
  | Some [] => None
  | Some mp =>
      let m := length mp - 1 in
      let len := length fname in
      if len <? m then None
      else if negb (strncmp_eq mp fname m) then None
      else if (m <? len) && negb (slash_at fname m) then None
      else
        let fname' := drop m fname in
        match fname' with
        | c :: rest => if is_char c "/" then Some rest else Some fname'
        | [] => Some []
        end
  end.

(** The second part: the root directory of [h], if any, goes in front. *)
Definition prepend_root (h : DirHandle) (fname : list ascii) : list ascii :=
  match dh_root h with
  | None => fname
  | Some root =>
      match fname with
      | [] => root
      | _ => root ++ "/"%char :: fname
      end
  end.

Section VerifyPath.

(** [stat] is the [stat] function of the archive of [h], on its opaque
    state; [allowSymLinks] is the global flag. *)
Variable stat : list ascii -> res PHYSFS_Stat.
Variable allowSymLinks : bool.

(** One turn of the loop on the path up to [end], which is [pre]; [cur]
    is the thread's error code. *)
Definition check_element (cur : PHYSFS_ErrorCode) (pre : list ascii) : element_check :=
  match stat pre with
  | Ok st => if is_symlink (filetype st) then ElemSymlink else ElemPassed cur
  | f =>
      let cur' := error_after cur f in
      if is_not_found cur' then ElemMissing else ElemPassed cur'
  end.

(** The loop of [verifyPath].  [pre] is the path before what [strchr]
    still has to scan, which is [rest]; [fname] is the whole path. *)
Fixpoint verify_elements (fname : list ascii) (allowMissing : bool)
    (cur : PHYSFS_ErrorCode) (pre rest : list ascii) : verify_outcome :=
  match rest with
  | [] =>
      match check_element cur pre with
      | ElemSymlink => SymlinkForbidden
      | _ => Verified fname
      end
  | c :: rest' =>
      if is_char c "/" then
        match check_element cur pre with
        | ElemSymlink => SymlinkForbidden
        | ElemMissing => if allowMissing then Verified fname else ElementMissing
        | ElemPassed cur' => verify_elements fname allowMissing cur' (pre ++ [c]) rest'
        end
      else verify_elements fname allowMissing cur (pre ++ [c]) rest'
  end.

Definition verifyPath (h : DirHandle) (fname : list ascii) (allowMissing : bool)
    (cur : PHYSFS_ErrorCode) : verify_outcome :=
  match fname, dh_root h with
  | [], None => Verified []
  | _, _ =>
      match strip_mount_point h fname with
      | None => NotUnderMountPoint
      | Some fname1 =>
          let fname2 := prepend_root h fname1 in
          if allowSymLinks then Verified fname2
          else verify_elements fname2 allowMissing cur [] fname2
      end
  end.

End VerifyPath.

(** The outcome of an enumeration callback. *)
Inductive PHYSFS_EnumerateCallbackResult : Type :=
  | PHYSFS_ENUM_ERROR
  | PHYSFS_ENUM_STOP
  | PHYSFS_ENUM_OK.

(** The part of a string before its first ['/'], and whether it has
    one. *)
Fixpoint before_slash (s : list ascii) : list ascii :=
  match s with
  | [] => []
  | c :: rest => if is_char c "/" then [] else c :: before_slash rest
  end.

Definition has_slash (s : list ascii) : bool := existsb (fun c => is_char c "/") s.

(** [enumerateFromMountPoint]: the callback is handed the element of
    the mount point that follows [arcfname].  [callback] takes the
    application's data and the name; the result is [None] where the
    code dereferences a null mount point or its assertion fails. *)
Definition enumerateFromMountPoint {D : Type} (i : DirHandle) (arcfname : list ascii)
    (callback : D -> list ascii -> D * PHYSFS_EnumerateCallbackResult) (data : D)
  : option (D * PHYSFS_EnumerateCallbackResult) :=
  mp ← mountPoint i;
  let len := length arcfname in
  let ptr := drop (if len =? 0 then 0 else len + 1) mp in
  if has_slash ptr then Some (callback data (before_slash ptr)) else None.

(** ** More of the file handle ([physfs.cpp]) *)

Section HandleMore.
Context {S : Type} `{PHYSFS_Io S}.


(** An application that writes the chunks [chunks] one after the other
    and stops at the first call that does not take its chunk whole. *)
Fixpoint write_all (fh : FileHandle S) (chunks : list (list byte)) : FileHandle S * bool :=
  match chunks with
  | [] => (fh, true)
  | data :: rest =>
      let '(fh', rc) := PHYSFS_writeBytes fh data in
      match rc with
      | Ok n => if (n =? Z.of_nat (length data))%Z then write_all fh' rest else (fh', false)
      | _ => (fh', false)
      end
  end.

End HandleMore.

(** A stand-in for a native file opened for appending: every write is
    taken whole and goes to the end.  It is used in examples only. *)
Record SinkIo : Type := mkSinkIo { sink_data : list byte }.

Definition sinkIo_interface : PHYSFS_Io SinkIo := {|
  io_read := fun s _ => (s, Bail PHYSFS_ERR_OPEN_FOR_WRITING);
  io_write := fun s data => (mkSinkIo (sink_data s ++ data), Ok (Z.of_nat (length data)));
  io_seek := fun s _ => (s, Bail PHYSFS_ERR_IO);
  io_tell := fun s => Z.of_nat (length (sink_data s));
  io_length := fun s => Z.of_nat (length (sink_data s));
  io_duplicate := fun s => Bail PHYSFS_ERR_IO;
  io_flush := fun s => (s, Ok tt)
|}.

(** ** Queries on the mount engine ([physfs.cpp]) *)

(** [enumStringListCallback]: the string goes to the end of the list.
    Allocation is taken to succeed. *)
Definition enumStringListCallback (strings : list (list ascii)) (str : list ascii)
  : list (list ascii) :=
  strings ++ [str].

Section MountQueries.
Context {S : Type}.

(** [PHYSFS_getSearchPathCallback]: the callback is called on the name
    of every mount, in the order of the search path. *)
Definition PHYSFS_getSearchPathCallback {D : Type} (callback : D -> list ascii -> D)
    (data : D) (st : PhysfsState S) : D :=
  fold_left (fun d i => callback d (dirName i.2)) (searchPath st) data.

(** [PHYSFS_getSearchPath], through [doEnumStringList]. *)
Definition PHYSFS_getSearchPath (st : PhysfsState S) : list (list ascii) :=
  PHYSFS_getSearchPathCallback enumStringListCallback [] st.

Fixpoint getMountPoint_loop (dir : list ascii) (path : list (nat * DirHandle))
  : res (list ascii) :=
  match path with
  | [] => Bail PHYSFS_ERR_NOT_MOUNTED
  | i :: next =>
      if (strcmp (dirName i.2) dir =? 0)%Z then Ok (default (cstr "/") (mountPoint i.2))
      else getMountPoint_loop dir next
  end.

Definition PHYSFS_getMountPoint (dir : list ascii) (st : PhysfsState S) : res (list ascii) :=
  getMountPoint_loop dir (searchPath st).

Definition PHYSFS_getWriteDir (st : PhysfsState S) : option (list ascii) :=
  match writeDir st with
  | Some wd => Some (dirName wd.2)
  | None => None
  end.

End MountQueries.

(** ** Enumeration of the directory tree ([physfs_tree.cpp]) *)

(** What [__PHYSFS_DirTreeEnumerate] hands to the callback: the part of
    an entry's name after its last ['/'], or all of it. *)
Fixpoint after_last_slash (nm : list ascii) : list ascii :=
  match nm with
  | [] => []
  | c :: rest =>
      if has_slash rest then after_last_slash rest
      else if is_char c "/" then rest
      else c :: rest
  end.

(** The error codes [__PHYSFS_DirTreeEnumerate] sets. *)
Inductive enumerate_error : Type :=
  | ENUM_ERR_NOT_FOUND
  | ENUM_ERR_APP_CALLBACK.

(** The loop of [__PHYSFS_DirTreeEnumerate] over the siblings, from
    [entry] on.  The callback takes the application's data and the name
    ([origdir] is handed through as it came and is left to the
    callback).  The result is the data, the value returned and the error
    code set, if one is; it is [None] when the walk leaves the store or
    does not end within [fuel] steps. *)
Fixpoint enumerate_loop {D : Type} (fuel : nat) (es : list UNPKentry)
    (cb : D -> list ascii -> D * PHYSFS_EnumerateCallbackResult) (data : D)
    (entry : option nat)
  : option (D * (PHYSFS_EnumerateCallbackResult * option enumerate_error)) :=
  match entry with
  | None => Some (data, (PHYSFS_ENUM_OK, None))
  | Some i =>
      match fuel with
      | 0 => None
      | S fuel' =>
          e ← es !! i;
          let '(data', retval) := cb data (after_last_slash (name (tree e))) in
          match retval with
          | PHYSFS_ENUM_ERROR => Some (data', (PHYSFS_ENUM_ERROR, Some ENUM_ERR_APP_CALLBACK))
          | PHYSFS_ENUM_STOP => Some (data', (PHYSFS_ENUM_STOP, None))
          | PHYSFS_ENUM_OK => enumerate_loop fuel' es cb data' (sibling (tree e))
          end
      end
  end.

Section DirTreeEnumerate.
Context `{Platform}.

(** [__PHYSFS_DirTreeEnumerate] (and [UNPK_enumerate], which is the same
    function): the tree after the search, the application's data, the
    value returned and the error code set. *)
Definition __PHYSFS_DirTreeEnumerate {D : Type} (dt : __PHYSFS_DirTree) (dname : list ascii)
    (cb : D -> list ascii -> D * PHYSFS_EnumerateCallbackResult) (data : D)
  : option (__PHYSFS_DirTree *
            (D * (PHYSFS_EnumerateCallbackResult * option enumerate_error))) :=
  '(dt', r) ← __PHYSFS_DirTreeFind dt dname;
  match r with
  | Ok p =>
      e ← entries dt' !! p;
      out ← enumerate_loop (Datatypes.S (length (entries dt'))) (entries dt') cb data
                           (children (tree e));
      Some (dt', out)
  | _ => Some (dt', (data, (PHYSFS_ENUM_ERROR, Some ENUM_ERR_NOT_FOUND)))
  end.

End DirTreeEnumerate.

(** ** The list of [PHYSFS_enumerateFiles] ([physfs.cpp]) *)

(** The loop of [locateInStringList]: a binary search for [str] in the
    [len] strings of the list from index [lo] on.  [lo], [len], [half_len]
    and [middle] are [PHYSFS_uint32].  The result is [Some None] when
    the string is found (the function returns 1 and leaves [*pos]
    alone), [Some (Some lo)] when it is not (it returns 0 after
    [*pos = lo]), and [None] when the search reads outside the list. *)
Equations locateInStringList_loop (str : list ascii) (strings : list (list ascii)) (lo len : Z)
  : option (option Z) by wf (Z.to_nat len) lt :=
  locateInStringList_loop str strings lo len with inspect (0 <? len)%Z := {
    | exist _ false _ => Some (Some lo)
    | exist _ true _ =>
        let half_len := Z.shiftr len 1 in
        let middle := u32 (lo + half_len) in
        match strings !! Z.to_nat middle with
        | None => None
        | Some s =>
            let cmp := strcmp s str in
            if (cmp =? 0)%Z then Some None
            else if (0 <? cmp)%Z then locateInStringList_loop str strings lo half_len
            else locateInStringList_loop str strings (u32 (middle + 1))
                                         (u32 (len - u32 (half_len + 1)))
        end
  }.
Next Obligation.
  apply Z.ltb_lt in e. rewrite Z.shiftr_div_pow2 by lia.
  change (2 ^ 1)%Z with 2%Z. apply Z2Nat.inj_lt; [apply Z.div_pos; lia|lia|].
  apply Z.div_lt; lia.
Qed.
Next Obligation.
  apply Z.ltb_lt in e. apply Z2Nat.inj_lt; [apply Z.mod_pos_bound; lia|lia|].
  unfold u32. rewrite Z.shiftr_div_pow2 by lia. change (2 ^ 1)%Z with 2%Z.
  destruct (Z.lt_ge_cases len (2 ^ 32)) as [Hsmall|Hbig].
  - assert (0 <= len / 2 < len)%Z by (split; [apply Z.div_pos; lia|apply Z.div_lt; lia]).
    rewrite (Z.mod_small (len / 2 + 1)) by lia. rewrite Z.mod_small by lia. lia.
  - pose proof (Z.mod_pos_bound (len - (len / 2 + 1) mod 2 ^ 32) (2 ^ 32) ltac:(lia)). lia.
Qed.

(** [locateInStringList], called with [*pos = pos]: whether the string
    is in the list, and [*pos] afterwards. *)
Definition locateInStringList (str : list ascii) (strings : list (list ascii)) (pos : Z)
  : option (bool * Z) :=
  r ← locateInStringList_loop str strings 0 pos;
  match r with
  | None => Some (true, pos)
  | Some lo => Some (false, lo)
  end.

(** [enumFilesCallback] on the list collected so far, whose [size] is a
    [PHYSFS_uint32]: a string that is not in the list is put in at the
    place the search gives.  Allocation is taken to succeed. *)
Definition enumFilesCallback (strings : list (list ascii)) (str : list ascii)
  : option (list (list ascii) * PHYSFS_EnumerateCallbackResult) :=
  let size := u32 (Z.of_nat (length strings)) in
  match locateInStringList str strings size with
  | None => None
  | Some (true, _) => Some (strings, PHYSFS_ENUM_OK)
  | Some (false, pos) =>
      Some (take (Z.to_nat pos) strings ++ str :: drop (Z.to_nat pos) strings,
            PHYSFS_ENUM_OK)
  end.

(** ** The error state of the threads ([physfs.cpp]) *)

(** A node of the list [errorStates]: the thread it belongs to and the
    thread's error code.  The list is kept head first; a pointer to a
    node is its index. *)
Record ErrState : Type := mkErrState {
  tid : nat;
  code : PHYSFS_ErrorCode
}.

(** [findErrorForCurrentThread], for the thread [t] that calls: the
    first node of the thread, if there is one. *)
Fixpoint findErrorForCurrentThread (errorStates : list ErrState) (t : nat) : option nat :=
  match errorStates with
  | [] => None
  | i :: next =>
      if tid i =? t then Some 0
      else Datatypes.S <$> findErrorForCurrentThread next t
  end.

Definition currentErrorCode (errorStates : list ErrState) (t : nat) : PHYSFS_ErrorCode :=
  match findErrorForCurrentThread errorStates t with
  | Some err => default PHYSFS_ERR_OK (code <$> errorStates !! err)
  | None => PHYSFS_ERR_OK
  end.

(** [PHYSFS_getLastErrorCode]: the list afterwards and the code
    returned. *)
Definition PHYSFS_getLastErrorCode (errorStates : list ErrState) (t : nat)
  : list ErrState * PHYSFS_ErrorCode :=
  match findErrorForCurrentThread errorStates t with
  | Some err =>
      match errorStates !! err with
      | Some e => (<[err := mkErrState (tid e) PHYSFS_ERR_OK]> errorStates, code e)
      | None => (errorStates, PHYSFS_ERR_OK)
      end
  | None => (errorStates, PHYSFS_ERR_OK)
  end.

(** [PHYSFS_setErrorCode]: nothing for [PHYSFS_ERR_OK]; else the
    thread's node gets the code, and the thread gets a node at the head
    of the list if it has none.  Allocation is taken to succeed. *)
Definition PHYSFS_setErrorCode (errorStates : list ErrState) (t : nat)
    (errcode : PHYSFS_ErrorCode) : list ErrState :=
  match errcode with
  | PHYSFS_ERR_OK => errorStates
  | _ =>
      match findErrorForCurrentThread errorStates t with
      | Some err =>
          match errorStates !! err with
          | Some e => <[err := mkErrState (tid e) errcode]> errorStates
          | None => errorStates
          end
      | None => mkErrState t errcode :: errorStates
      end
  end.

(** ** The MVL loader ([archivers/physfs_archiver_mvl.cpp]) *)

Section Mvl.
Context {S : Type} `{PHYSFS_Io S} `{Platform}.

(** The body of the [for] loop of [mvlLoadEntries], [n] iterations from
    now, with [pos] the running 32-bit offset.  The name is the 13-byte
    field with a NUL written over its last byte. *)
Fixpoint mvlLoadEntries_loop (n : nat) (pos : Z) (arc : UNPKinfo S)
  : option (UNPKinfo S * res unit) :=
  match n with
  | 0 => Some (arc, Ok tt)
  | Datatypes.S n' =>
      let '(io1, r1) := __PHYSFS_readAll (info_io arc) 13 in
      match r1 with
      | Ok namebuf =>
          let '(io2, r2) := __PHYSFS_readAll io1 4 in
          match r2 with
          | Ok sizebuf =>
              let nm := c_str (chars_of_bytes (take 12 namebuf)) in
              let size := le32 sizebuf in
              '(arc', r) ← UNPK_addEntry (mkUNPKinfo (info_tree arc) io2)
                                         nm false (-1) (-1) pos size;
              match r with
              | Ok _ => mvlLoadEntries_loop n' (u32 (pos + size)) arc'
              | f => Some (arc', errpass f)
              end
          | f => Some (mkUNPKinfo (info_tree arc) io2, errpass f)
          end
      | f => Some (mkUNPKinfo (info_tree arc) io1, errpass f)
      end
  end.

Definition mvlLoadEntries (count : Z) (arc : UNPKinfo S) : option (UNPKinfo S * res unit) :=
  mvlLoadEntries_loop (Z.to_nat count) (u32 (8 + u32 (17 * count))) arc.

Definition MVL_SIG : list byte := list_byte_of_string "DMVL".

(** [MVL_openArchive]: the stream after the call, the [claimed] flag,
    and the archive or the failure. *)
Definition MVL_openArchive (io : S) (forWriting : bool)
  : option (S * bool * res (UNPKinfo S)) :=
  if forWriting then Some (io, false, Bail PHYSFS_ERR_READ_ONLY)
  else
    let '(io1, r1) := __PHYSFS_readAll io 4 in
    match r1 with
    | Ok buf =>
        if bool_decide (buf = MVL_SIG) then
          let '(io2, r2) := __PHYSFS_readAll io1 4 in
          match r2 with
          | Ok cnt =>
              let count := le32 cnt in
              let unpkarc := UNPK_openArchive io2 false true in
              '(arc, r) ← mvlLoadEntries count unpkarc;
              match r with
              | Ok _ => Some (info_io arc, true, Ok arc)
              | f => Some (info_io arc, true, errpass f)
              end
          | f => Some (io2, true, errpass f)
          end
        else Some (io1, false, Bail PHYSFS_ERR_UNSUPPORTED)
    | f => Some (io1, false, errpass f)
    end.

End Mvl.

(* ===================================================================== *)
(** * Part II: lemmas and theorems                                        *)
(* ===================================================================== *)

(** ** Results and strings *)

Lemma strcmp_refl (a : list ascii) : strcmp a a = 0%Z.
Proof.
  induction a as [|x a IH]; cbn [strcmp]; [reflexivity|].
  rewrite Ascii.eqb_refl. exact IH.
Qed.

Lemma strcmp_eq (a b : list ascii) : strcmp a b = 0%Z <-> a = b.
Proof.
  split; [|intros ->; apply strcmp_refl].
  revert b. induction a as [|x a IH]; intros [|y b]; cbn [strcmp]; try discriminate.
  - reflexivity.
  - destruct (Ascii.eqb x y) eqn:E.
    + apply Ascii.eqb_eq in E. intros Hc. f_equal; [exact E | apply IH, Hc].
    + destruct (N_of_ascii x <? N_of_ascii y)%N; discriminate.
Qed.

Lemma strcmp_eqb (a b : list ascii) : (strcmp a b =? 0)%Z = bool_decide (a = b).
Proof.
  destruct (bool_decide_reflect (a = b)) as [->|Hne].
  - rewrite strcmp_refl. reflexivity.
  - apply Z.eqb_neq. intros Hc. apply Hne, strcmp_eq, Hc.
Qed.

(** ** C1: path sanitation *)

(** C1.  The path "a/.." is accepted and comes out unchanged: the check
    for "." and ".." runs when a separator is read and on the whole
    input, so the last segment of a path of several segments is never
    checked. *)
Theorem sanitize_accepts_trailing_dotdot :
  sanitizePlatformIndependentPath (cstr "a/..") = Ok (cstr "a/..").
Proof. vm_compute. reflexivity. Qed.

(** ** C10: end of file *)

(** C10.  [PHYSFS_eof] answers true exactly for a read handle whose
    buffer is drained and whose stream reports a position and a length
    that are both known (not negative) with the position at or past the
    length; in particular never for a handle opened for write or append,
    and never when [tell] or [length] reports -1. *)
Theorem PHYSFS_eof_spec {S : Type} `{PHYSFS_Io S} (fh : FileHandle S) :
  PHYSFS_eof fh = true <->
  forReading fh = true /\ bufpos fh = buffill fh /\
  (0 <= io_tell (fh_io fh))%Z /\ (0 <= io_length (fh_io fh))%Z /\
  (io_length (fh_io fh) <= io_tell (fh_io fh))%Z.
Proof.
  unfold PHYSFS_eof.
  destruct (forReading fh); cbn [negb].
  - destruct (Nat.eqb_spec (bufpos fh) (buffill fh)) as [Heq|Hne].
    + destruct (Z.ltb_spec (io_tell (fh_io fh)) 0);
        destruct (Z.ltb_spec (io_length (fh_io fh)) 0); cbn [orb];
        rewrite ?Z.leb_le; split; intros; try discriminate; try lia;
        repeat split; try tauto; try lia.
    + split; [discriminate|]. intros (_ & Hc & _). contradiction.
  - split; [discriminate|]. intros [Hc _]. discriminate.
Qed.

(** ** C7: buffered writes *)

Section BufferedWrite.
Context {S : Type} `{PHYSFS_Io S}.

Lemma doBufferedWrite_fits (fh : FileHandle S) (data : list byte) :
  buffill fh + length data < bufsize fh ->
  doBufferedWrite fh data =
    (mkFileHandle (fh_io fh) (forReading fh) (dirHandle fh)
                  (Some (memcpy_at (fh_buf fh) (buffill fh) data))
                  (bufsize fh) (buffill fh + length data) (bufpos fh),
     Ok (Z.of_nat (length data))).
Proof.
  intros Hlt. unfold doBufferedWrite.
  destruct (Nat.ltb_spec (buffill fh + length data) (bufsize fh)); [reflexivity|lia].
Qed.

Lemma doBufferedWrite_flushes (fh fh1 : FileHandle S) (data : list byte) :
  bufsize fh <= buffill fh + length data ->
  PHYSFS_flush fh = (fh1, Ok tt) ->
  doBufferedWrite fh data =
    (mkFileHandle (io_write (fh_io fh1) data).1 (forReading fh1) (dirHandle fh1)
                  (buffer fh1) (bufsize fh1) (buffill fh1) (bufpos fh1),
     (io_write (fh_io fh1) data).2).
Proof.
  intros Hge Hfl. unfold doBufferedWrite.
  destruct (Nat.ltb_spec (buffill fh + length data) (bufsize fh)); [lia|].
  rewrite Hfl. destruct (io_write (fh_io fh1) data); reflexivity.
Qed.

(** C7.  A write handle with an empty buffer of 4 bytes receives a
    payload of 4 bytes: the total does not exceed the buffer size, yet
    the payload goes to the stream's [write] and the buffer and its fill
    stay as they were.  The test in [doBufferedWrite] is a strict
    comparison. *)
Theorem doBufferedWrite_exact_fit_goes_to_stream (io : S) (dh : nat) (b : list byte) :
  let fh := mkFileHandle io false dh (Some b) 4 0 0 in
  let data := [x01; x02; x03; x04] in
  doBufferedWrite fh data =
    (mkFileHandle (io_write io data).1 false dh (Some b) 4 0 0, (io_write io data).2).
Proof.
  intros fh data.
  rewrite (doBufferedWrite_flushes fh fh data); [reflexivity | cbn; lia | reflexivity].
Qed.

End BufferedWrite.

(** ** C3: seeking in a byte-range stream *)

Section ByteRange.
Context {S : Type} `{PHYSFS_Io S}.

Lemma u32_small (z : Z) : (0 <= z < 2 ^ 32)%Z -> u32 z = z.
Proof. intros Hz. unfold u32. apply Z.mod_small. exact Hz. Qed.

(** C3, as amended.  A seek at or past the entry's size fails with
    PAST_EOF and touches neither the stream nor its parent.  A seek below
    the size is the parent's seek to [startPos + offset] (modulo 2^64):
    if that succeeds the seek succeeds and the cursor is the offset
    truncated to 32 bits, which is the offset itself below 2^32; if it
    fails the seek fails the same way and the cursor stays. *)
Theorem UNPK_seek_spec (finfo : UNPKfileinfo S) (offset : Z) :
  let entry := finfo_entry finfo in
  let parent := io_seek (finfo_io finfo) (u64 (startPos entry + offset)) in
  ((entry_size entry <= offset)%Z ->
     UNPK_seek finfo offset = (finfo, Bail PHYSFS_ERR_PAST_EOF)) /\
  ((offset < entry_size entry)%Z ->
     (UNPK_seek finfo offset).2 = parent.2 /\
     finfo_io (UNPK_seek finfo offset).1 = parent.1 /\
     finfo_entry (UNPK_seek finfo offset).1 = entry /\
     (parent.2 = Ok tt ->
        curPos (UNPK_seek finfo offset).1 = u32 offset /\
        ((0 <= offset < 2 ^ 32)%Z -> curPos (UNPK_seek finfo offset).1 = offset)) /\
     (parent.2 <> Ok tt -> curPos (UNPK_seek finfo offset).1 = curPos finfo)).
Proof.
  intros entry parent. unfold UNPK_seek. fold entry. split.
  - intros Hge. destruct (Z.leb_spec (entry_size entry) offset); [reflexivity|lia].
  - intros Hlt. destruct (Z.leb_spec (entry_size entry) offset); [lia|].
    subst parent. destruct (io_seek _ _) as [io' [[]| e |]]; cbn.
    + repeat split; try congruence. intros Hr. apply u32_small, Hr.
    + repeat split; congruence.
    + repeat split; congruence.
Qed.

End ByteRange.

(** C3, the claim as stated fails: over an entry of 2^32 + 2 bytes a seek
    to 2^32 + 1 is below the size and the parent's seek succeeds, the
    seek succeeds, and the cursor is 1. *)
Lemma UNPK_seek_cursor_is_truncated :
  let entry := mkUNPKentry (mkDirTreeEntry (cstr "big") None None None false)
                           0 (2 ^ 32 + 2) (-1) (-1) in
  let finfo := mkUNPKfileinfo (mkSparseIo 0) entry 0 in
  let offset := (2 ^ 32 + 1)%Z in
  (offset < entry_size entry)%Z /\
  (io_seek (finfo_io finfo) (startPos entry + offset)).2 = Ok tt /\
  (UNPK_seek finfo offset).2 = Ok tt /\
  curPos (UNPK_seek finfo offset).1 = 1%Z /\
  curPos (UNPK_seek finfo offset).1 <> offset.
Proof. vm_compute. repeat split; congruence. Qed.

Lemma UNPK_seek_spec_witness :
  let entry := mkUNPKentry (mkDirTreeEntry (cstr "f") None None None false) 16 5 (-1) (-1) in
  let finfo := mkUNPKfileinfo (mkMemoryIoInfo (replicate 32 x00) 0) entry 0 in
  UNPK_seek finfo 5 = (finfo, Bail PHYSFS_ERR_PAST_EOF) /\
  (UNPK_seek finfo 3).2 = Ok tt /\ curPos (UNPK_seek finfo 3).1 = 3%Z.
Proof.
  intros entry finfo.
  destruct (UNPK_seek_spec finfo 5) as [H5 _].
  destruct (UNPK_seek_spec finfo 3) as [_ H3].
  split; [apply H5; vm_compute; discriminate|].
  destruct H3 as (Hr & _ & _ & Hc & _); [vm_compute; reflexivity|].
  split; [rewrite Hr; vm_compute; reflexivity|].
  apply Hc; [vm_compute; reflexivity | vm_compute; split; [discriminate|reflexivity] ].
Defined.

(** ** The mount engine: invariants of the reachable states *)

Definition mount_names (path : list (nat * DirHandle)) : list (list ascii) :=
  (fun i => dirName i.2) <$> path.

Definition mount_addrs (path : list (nat * DirHandle)) : list nat := fst <$> path.

Lemma createDirHandle_dirName opened newDir mp dh :
  createDirHandle opened newDir mp = Ok dh -> dirName dh = newDir.
Proof.
  unfold createDirHandle. intros Hc.
  destruct mp as [mp|].
  - destruct (sanitizePlatformIndependentPath mp); try discriminate.
    destruct opened; try discriminate. injection Hc as <-. reflexivity.
  - destruct opened; try discriminate. injection Hc as <-. reflexivity.
Qed.

Lemma mounted_existsb (fname : list ascii) (path : list (nat * DirHandle)) :
  existsb (fun i => (strcmp fname (dirName i.2) =? 0)%Z) path = true <->
  fname ∈ mount_names path.
Proof.
  rewrite existsb_exists. unfold mount_names. rewrite list_elem_of_fmap. split.
  - intros (i & Hin & Hc). exists i. split; [|apply list_elem_of_In, Hin].
    apply Z.eqb_eq, strcmp_eq in Hc. exact Hc.
  - intros (i & -> & Hin). exists i. split; [apply list_elem_of_In, Hin|].
    apply Z.eqb_eq, strcmp_refl.
Qed.

Section MountInvariant.
Context {S : Type} `{PHYSFS_Io S}.

(** What every reachable state satisfies: mounted names are pairwise
    different, addresses in use are below the allocation counter, the
    write dir is not a node of the search path, and every open write
    handle was opened from the write dir. *)
Record mount_inv (st : PhysfsState S) : Prop := mkMountInv {
  inv_names : NoDup (mount_names (searchPath st));
  inv_addrs : forall i, i ∈ searchPath st -> i.1 < next_addr st;
  inv_write_dir : forall wd, writeDir st = Some wd ->
    wd.1 < next_addr st /\ wd.1 ∉ mount_addrs (searchPath st);
  inv_write_handles : forall h, h ∈ openWriteList st ->
    exists wd, writeDir st = Some wd /\ dirHandle h.2 = wd.1
}.

Lemma mount_inv_initial : mount_inv (initial_state (S := S)).
Proof.
  split; cbn.
  - constructor.
  - intros i Hi. inversion Hi.
  - discriminate.
  - intros h Hh. inversion Hh.
Qed.

Lemma not_in_addrs_above (path : list (nat * DirHandle)) (n a : nat) :
  (forall i, i ∈ path -> i.1 < n) -> n <= a -> a ∉ mount_addrs path.
Proof.
  intros Hlt Hle Hin. unfold mount_addrs in Hin.
  apply list_elem_of_fmap in Hin as (i & -> & Hi). apply Hlt in Hi. lia.
Qed.

Lemma doMount_inv opened fname mp app (st : PhysfsState S) :
  mount_inv st -> mount_inv (doMount opened fname mp app st).1.
Proof.
  intros [Hn Ha Hw Hh]. unfold doMount.
  destruct fname as [fname|]; [|split; assumption].
  destruct (existsb _ (searchPath st)) eqn:Hex; [split; assumption|].
  destruct (createDirHandle _ _ _) as [dh| |] eqn:Hc; [|split; assumption..].
  apply createDirHandle_dirName in Hc.
  assert (Hfresh : fname ∉ mount_names (searchPath st)).
  { intros Hin. apply mounted_existsb in Hin. congruence. }
  split; cbn.
  - destruct app; unfold mount_names.
    + rewrite fmap_app. cbn. rewrite Hc. apply NoDup_app. split; [exact Hn|]. split.
      * intros x Hx Hx'. apply list_elem_of_singleton in Hx'. subst x. contradiction.
      * apply NoDup_singleton.
    + cbn. rewrite Hc. apply NoDup_cons. split; assumption.
  - intros i Hi. assert (Hcase : i = (next_addr st, dh) \/ i ∈ searchPath st).
    { destruct app.
      - apply elem_of_app in Hi as [Hi|Hi]; [right; exact Hi|].
        apply list_elem_of_singleton in Hi. left. exact Hi.
      - apply elem_of_cons in Hi. exact Hi. }
    destruct Hcase as [->|Hi']; [cbn; lia|]. apply Ha in Hi'. lia.
  - intros wd Hwd. destruct (Hw wd Hwd) as [Hlt Hnin]. split; [lia|].
    intros Hin. unfold mount_addrs in Hin.
    destruct app.
    + rewrite fmap_app in Hin. apply elem_of_app in Hin as [Hin|Hin];
        [apply Hnin, Hin|]. cbn in Hin. apply list_elem_of_singleton in Hin. lia.
    + cbn in Hin. apply elem_of_cons in Hin as [Hin|Hin]; [lia|apply Hnin, Hin].
  - exact Hh.
Qed.

Lemma unmount_loop_removes oldDir (rl : list (nat * FileHandle S)) path path' :
  unmount_loop oldDir rl path = Ok path' ->
  exists l1 i l2, path = l1 ++ i :: l2 /\ path' = l1 ++ l2.
Proof.
  revert path'. induction path as [|i next IH]; intros path'; cbn [unmount_loop];
    [discriminate|].
  destruct (strcmp (dirName i.2) oldDir =? 0)%Z.
  - destruct (freeDirHandle i rl); try discriminate. intros [= <-].
    exists [], i, next. split; reflexivity.
  - destruct (unmount_loop oldDir rl next) as [next'| |]; try discriminate.
    intros [= <-]. destruct (IH next' eq_refl) as (l1 & j & l2 & -> & ->).
    exists (i :: l1), j, l2. split; reflexivity.
Qed.

Lemma PHYSFS_unmount_inv oldDir (st : PhysfsState S) :
  mount_inv st -> mount_inv (PHYSFS_unmount oldDir st).1.
Proof.
  intros Hinv. unfold PHYSFS_unmount.
  destruct oldDir as [oldDir|]; [|exact Hinv].
  destruct (unmount_loop _ _ _) as [path'| |] eqn:Hl; [|exact Hinv..].
  apply unmount_loop_removes in Hl as (l1 & i & l2 & Hp & ->).
  destruct Hinv as [Hn Ha Hw Hh]. rewrite Hp in *. split; cbn.
  - unfold mount_names in *. rewrite fmap_app in *. cbn in Hn.
    apply NoDup_app in Hn as (Hn1 & Hn12 & Hn2). apply NoDup_cons in Hn2 as [_ Hn2].
    apply NoDup_app. split; [exact Hn1|]. split; [|exact Hn2].
    intros x Hx Hx'. apply (Hn12 x Hx). right. exact Hx'.
  - intros j Hj. apply Ha. apply elem_of_app in Hj as [Hj|Hj];
      apply elem_of_app; [left; exact Hj | right; right; exact Hj].
  - intros wd Hwd. destruct (Hw wd Hwd) as [Hlt Hnin]. split; [exact Hlt|].
    intros Hin. apply Hnin. unfold mount_addrs in *. rewrite fmap_app in *.
    apply elem_of_app in Hin as [Hin|Hin]; apply elem_of_app;
      [left; exact Hin | right; right; exact Hin].
  - exact Hh.
Qed.

Lemma freeDirHandle_ok (dh : nat * DirHandle) (l : list (nat * FileHandle S)) :
  freeDirHandle dh l = Ok tt <-> forall h, h ∈ l -> dirHandle h.2 <> dh.1.
Proof.
  unfold freeDirHandle. destruct (existsb _ l) eqn:Hex.
  - split; [discriminate|]. intros Hall. apply existsb_exists in Hex as (h & Hin & Hc).
    apply Nat.eqb_eq in Hc. apply list_elem_of_In in Hin. destruct (Hall h Hin Hc).
  - split; [|reflexivity]. intros _ h Hin Hc.
    assert (existsb (fun i => dirHandle i.2 =? dh.1) l = true); [|congruence].
    apply existsb_exists. exists h. split; [apply list_elem_of_In, Hin|].
    apply Nat.eqb_eq, Hc.
Qed.

Lemma freeDirHandle_cases (dh : nat * DirHandle) (l : list (nat * FileHandle S)) :
  freeDirHandle dh l = Ok tt \/ freeDirHandle dh l = Bail PHYSFS_ERR_FILES_STILL_OPEN.
Proof. unfold freeDirHandle. destruct (existsb _ l); [right|left]; reflexivity. Qed.

Lemma PHYSFS_setWriteDir_inv opened newDir (st : PhysfsState S) :
  mount_inv st -> mount_inv (PHYSFS_setWriteDir opened newDir st).1.
Proof.
  intros Hinv. unfold PHYSFS_setWriteDir.
  assert (Hempty : match writeDir st with
                   | Some wd => freeDirHandle wd (openWriteList st)
                   | None => Ok tt
                   end = Ok tt -> openWriteList st = []).
  { intros Hfree. destruct (openWriteList st) as [|h l] eqn:Hl; [reflexivity|].
    destruct (inv_write_handles st Hinv h) as (wd & Hwd & Hdh).
    { rewrite Hl. left. }
    rewrite Hwd in Hfree.
    apply freeDirHandle_ok with (h := h) in Hfree; [contradiction|left]. }
  destruct (match writeDir st with Some _ => _ | None => _ end) as [[]| |];
    [|exact Hinv..].
  specialize (Hempty eq_refl). destruct Hinv as [Hn Ha Hw Hh].
  destruct newDir as [d|]; [destruct (createDirHandle _ _ _)|]; split; cbn;
    try exact Hn; try discriminate; try (rewrite Hempty; intros h Hin; inversion Hin);
    try exact Ha.
  - intros i Hi. apply Ha in Hi. lia.
  - intros wd [= <-]. cbn. split; [lia|]. apply (not_in_addrs_above _ (next_addr st)); [exact Ha|lia].
Qed.

Lemma PHYSFS_openRead_inv probe fname (st : PhysfsState S) :
  mount_inv st -> mount_inv (PHYSFS_openRead probe fname st).1.
Proof.
  intros Hinv. unfold PHYSFS_openRead.
  destruct fname as [fname|]; [|exact Hinv].
  destruct (searchPath st) eqn:Hp; [exact Hinv|]. rewrite <- Hp.
  destruct (sanitizePlatformIndependentPath fname); [|exact Hinv..].
  destruct (openRead_loop _ _ _) as [[i io]| |]; [|exact Hinv..].
  destruct Hinv as [Hn Ha Hw Hh]. split; cbn; try assumption.
  - intros j Hj. apply Ha in Hj. lia.
  - intros wd Hwd. destruct (Hw wd Hwd). split; [lia|assumption].
Qed.

Lemma doOpenWrite_inv probe fname appending (st : PhysfsState S) :
  mount_inv st -> mount_inv (doOpenWrite probe fname appending st).1.
Proof.
  intros Hinv. unfold doOpenWrite.
  destruct fname as [fname|]; [|exact Hinv].
  destruct (writeDir st) as [h|] eqn:Hwd; [|exact Hinv].
  destruct (sanitizePlatformIndependentPath fname); [|exact Hinv..].
  destruct (probe h _); [|exact Hinv..].
  destruct Hinv as [Hn Ha Hw Hh]. split; cbn; try assumption.
  - intros j Hj. apply Ha in Hj. lia.
  - intros wd Hwd'. rewrite <- Hwd in Hwd'. destruct (Hw wd Hwd'). split; [lia|assumption].
  - intros x Hx. apply elem_of_cons in Hx as [->|Hx].
    + exists h. split; reflexivity.
    + rewrite <- Hwd. apply Hh, Hx.
Qed.

(** Closing leaves in a list only handles that were there, up to their
    stream's state. *)
Lemma closeHandleInOpenList_handles (l : list (nat * FileHandle S)) handle h' :
  h' ∈ (closeHandleInOpenList l handle).1 ->
  exists h, h ∈ l /\ dirHandle h'.2 = dirHandle h.2.
Proof.
  induction l as [|i next IH]; cbn [closeHandleInOpenList]; [intros Hin; inversion Hin|].
  assert (Hnext : h' ∈ next -> exists h, h ∈ i :: next /\ dirHandle h'.2 = dirHandle h.2).
  { intros Hin. exists h'. split; [right; exact Hin|reflexivity]. }
  assert (Hflush : dirHandle (PHYSFS_flush i.2).1 = dirHandle i.2).
  { unfold PHYSFS_flush. destruct (_ || _); [reflexivity|].
    destruct (io_write _ _) as [io' [n| |]]; [destruct (n <=? 0)%Z|..]; reflexivity. }
  destruct (i.1 =? handle).
  - destruct (forReading i.2); cbn [negb]; [exact Hnext|].
    destruct (PHYSFS_flush i.2) as [fh1 rc] eqn:Hf. cbn in Hflush.
    destruct rc as [[]| |].
    + destruct (io_flush (fh_io fh1)) as [io2 [[]| |]]; cbn [fst]; [exact Hnext|..];
        intros Hin; apply elem_of_cons in Hin as [->|Hin]; try (apply Hnext, Hin);
        exists i; (split; [left|exact Hflush]).
    + cbn [fst]. intros Hin. apply elem_of_cons in Hin as [->|Hin];
        [exists i; split; [left|exact Hflush] | apply Hnext, Hin].
    + cbn [fst]. intros Hin. apply elem_of_cons in Hin as [->|Hin];
        [exists i; split; [left|exact Hflush] | apply Hnext, Hin].
  - destruct (closeHandleInOpenList next handle) as [next' rc]. cbn [fst] in *.
    intros Hin. apply elem_of_cons in Hin as [->|Hin].
    + exists i. split; [left|reflexivity].
    + destruct (IH Hin) as (h & Hh & Hd). exists h. split; [right; exact Hh|exact Hd].
Qed.

Lemma PHYSFS_close_inv handle (st : PhysfsState S) :
  mount_inv st -> mount_inv (PHYSFS_close handle st).1.
Proof.
  intros [Hn Ha Hw Hh]. unfold PHYSFS_close.
  destruct (closeHandleInOpenList (openReadList st) handle) as [rl rc].
  pose proof (closeHandleInOpenList_handles (openWriteList st) handle) as Hwl.
  destruct (closeHandleInOpenList (openWriteList st) handle) as [wl rc'].
  cbn [fst] in Hwl.
  assert (Hh' : forall h, h ∈ wl -> exists wd, writeDir st = Some wd /\ dirHandle h.2 = wd.1).
  { intros h Hin. destruct (Hwl h Hin) as (h0 & Hin0 & Hd). rewrite Hd. apply Hh, Hin0. }
  destruct (rc =? -1)%Z; [split; assumption|].
  destruct (rc =? 0)%Z; [|split; assumption].
  destruct (rc' =? -1)%Z; [split; assumption|].
  destruct (rc' =? 0)%Z; split; assumption.
Qed.

Lemma closeFileHandleList_handles (l : list (nat * FileHandle S)) h' :
  h' ∈ (closeFileHandleList l).1 ->
  exists h, h ∈ l /\ dirHandle h'.2 = dirHandle h.2.
Proof.
  induction l as [|i next IH]; cbn [closeFileHandleList]; [intros Hin; inversion Hin|].
  destruct (io_flush (fh_io i.2)) as [io' [[]| |]].
  - intros Hin. destruct (IH Hin) as (h & Hh & Hd). exists h. split; [right; exact Hh|exact Hd].
  - cbn [fst]. intros Hin. apply elem_of_cons in Hin as [->|Hin].
    + exists i. split; [left|reflexivity].
    + exists h'. split; [right; exact Hin|reflexivity].
  - cbn [fst]. intros Hin. apply elem_of_cons in Hin as [->|Hin].
    + exists i. split; [left|reflexivity].
    + exists h'. split; [right; exact Hin|reflexivity].
Qed.

Lemma doDeinit_inv (st : PhysfsState S) : mount_inv st -> mount_inv (doDeinit st).1.
Proof.
  intros Hinv. unfold doDeinit.
  pose proof (closeFileHandleList_handles (openWriteList st)) as Hwl.
  destruct (closeFileHandleList (openWriteList st)) as [wl b]. cbn [fst] in Hwl.
  set (st1 := mkState _ _ wl _ _).
  assert (Hinv1 : mount_inv st1).
  { destruct Hinv as [Hn Ha Hw Hh]. split; cbn; try assumption.
    intros h Hin. destruct (Hwl h Hin) as (h0 & Hin0 & Hd). rewrite Hd. apply Hh, Hin0. }
  pose proof (PHYSFS_setWriteDir_inv (Ok tt) None st1 Hinv1) as Hinv2.
  destruct (PHYSFS_setWriteDir (Ok tt) None st1) as [st2 rc]. cbn [fst] in Hinv2.
  destruct rc as [[]| |]; [|exact Hinv2..].
  destruct (closeFileHandleList (openReadList st2)) as [rl b']. cbn [fst].
  destruct Hinv2 as [Hn Ha Hw Hh]. split; cbn; try assumption.
  - constructor.
  - intros i Hi. inversion Hi.
  - intros wd Hwd. destruct (Hw wd Hwd) as [Hlt _]. split; [exact Hlt|].
    intros Hin. inversion Hin.
Qed.

Lemma api_step_inv (st st' : PhysfsState S) :
  api_step st st' -> mount_inv st -> mount_inv st'.
Proof.
  intros Hstep Hinv. destruct Hstep.
  - unfold PHYSFS_mount. destruct newDir; [apply doMount_inv, Hinv|exact Hinv].
  - apply PHYSFS_unmount_inv, Hinv.
  - apply PHYSFS_setWriteDir_inv, Hinv.
  - apply PHYSFS_openRead_inv, Hinv.
  - apply doOpenWrite_inv, Hinv.
  - apply doOpenWrite_inv, Hinv.
  - apply PHYSFS_close_inv, Hinv.
  - apply doDeinit_inv, Hinv.
  - destruct Hinv as [Hn Ha Hw Hh]. split; assumption.
  - destruct Hinv as [Hn Ha Hw Hh]. split; cbn; try assumption.
    intros h Hin. apply elem_of_app in Hin as [Hin|Hin].
    + apply Hh. rewrite H0. apply elem_of_app. left. exact Hin.
    + apply elem_of_cons in Hin as [->|Hin].
      * cbn. rewrite H1. apply (Hh (a, fh)). rewrite H0. apply elem_of_app. right. left.
      * apply Hh. rewrite H0. apply elem_of_app. right. right. exact Hin.
Qed.

Lemma reachable_inv (st : PhysfsState S) : reachable st -> mount_inv st.
Proof.
  unfold reachable. intros Hr.
  refine (rtc_ind_r (fun st => mount_inv st) initial_state _ _ st Hr).
  - apply mount_inv_initial.
  - intros y z _ Hstep Hy. exact (api_step_inv y z Hstep Hy).
Qed.

(** With pairwise different names, the loop of [PHYSFS_unmount] stops at
    the mount that carries the name, and fails there if a read handle
    refers to it. *)
Lemma unmount_loop_busy (path : list (nat * DirHandle)) (rl : list (nat * FileHandle S))
    (m : nat * DirHandle) (h : nat * FileHandle S) :
  NoDup (mount_names path) -> m ∈ path -> h ∈ rl -> dirHandle h.2 = m.1 ->
  unmount_loop (dirName m.2) rl path = Bail PHYSFS_ERR_FILES_STILL_OPEN.
Proof.
  intros Hnd Hm Hh Hd. induction path as [|i next IH]; [inversion Hm|].
  cbn [unmount_loop]. unfold mount_names in Hnd. cbn in Hnd.
  apply NoDup_cons in Hnd as [Hni Hnd].
  apply elem_of_cons in Hm as [<-|Hm].
  - rewrite strcmp_refl. cbn.
    destruct (freeDirHandle_cases m rl) as [Hok| ->]; [|reflexivity].
    apply freeDirHandle_ok with (h := h) in Hok; [contradiction|exact Hh].
  - destruct (Z.eqb_spec (strcmp (dirName i.2) (dirName m.2)) 0) as [Heq|_].
    + apply strcmp_eq in Heq. exfalso. apply Hni. rewrite Heq.
      apply list_elem_of_fmap. exists m. split; [reflexivity|exact Hm].
    + rewrite (IH Hnd Hm). reflexivity.
Qed.

Lemma unmount_loop_free (path : list (nat * DirHandle)) (rl : list (nat * FileHandle S))
    (m : nat * DirHandle) :
  NoDup (mount_names path) -> m ∈ path ->
  (forall h, h ∈ rl -> dirHandle h.2 <> m.1) ->
  exists l1 l2, path = l1 ++ m :: l2 /\ unmount_loop (dirName m.2) rl path = Ok (l1 ++ l2).
Proof.
  intros Hnd Hm Hfree. induction path as [|i next IH]; [inversion Hm|].
  cbn [unmount_loop]. unfold mount_names in Hnd. cbn in Hnd.
  apply NoDup_cons in Hnd as [Hni Hnd].
  apply elem_of_cons in Hm as [<-|Hm].
  - rewrite strcmp_refl. cbn. exists [], next. split; [reflexivity|].
    rewrite (proj2 (freeDirHandle_ok m rl) Hfree). reflexivity.
  - destruct (Z.eqb_spec (strcmp (dirName i.2) (dirName m.2)) 0) as [Heq|_].
    + apply strcmp_eq in Heq. exfalso. apply Hni. rewrite Heq.
      apply list_elem_of_fmap. exists m. split; [reflexivity|exact Hm].
    + destruct (IH Hnd Hm) as (l1 & l2 & -> & ->).
      exists (i :: l1), l2. split; reflexivity.
Qed.

(** C2.  In every reachable state and for every mount [m] of the search
    path: if an open read handle refers to [m], unmounting the name of
    [m] fails with FILES_STILL_OPEN and the state, search path included,
    is unchanged.  The open-write list is not looked at: a handle on it
    refers to the write dir, which is no node of the search path, so it
    never refers to [m]; and when no open read handle refers to [m] the
    unmount succeeds and takes [m] out of the search path, whatever is
    open for writing. *)
Theorem PHYSFS_unmount_open_handle (st : PhysfsState S) (m : nat * DirHandle) :
  reachable st ->
  m ∈ searchPath st ->
  (forall h, h ∈ openReadList st -> dirHandle h.2 = m.1 ->
     PHYSFS_unmount (Some (dirName m.2)) st = (st, Bail PHYSFS_ERR_FILES_STILL_OPEN)) /\
  (forall h, h ∈ openWriteList st ->
     dirHandle h.2 <> m.1 /\ exists wd, writeDir st = Some wd /\ dirHandle h.2 = wd.1) /\
  ((forall h, h ∈ openReadList st -> dirHandle h.2 <> m.1) ->
     exists l1 l2, searchPath st = l1 ++ m :: l2 /\
       PHYSFS_unmount (Some (dirName m.2)) st =
         (mkState (l1 ++ l2) (writeDir st) (openWriteList st) (openReadList st)
                  (next_addr st), Ok tt)).
Proof.
  intros Hr Hm. apply reachable_inv in Hr. destruct Hr as [Hn Ha Hw Hwh].
  split; [|split].
  - intros h Hh Hd. unfold PHYSFS_unmount.
    rewrite (unmount_loop_busy _ _ m h Hn Hm Hh Hd). reflexivity.
  - intros h Hh. destruct (Hwh h Hh) as (wd & Hwd & Hdw). split; [|eauto].
    intros Hd. destruct (Hw wd Hwd) as [_ Hnin]. apply Hnin.
    rewrite <- Hdw, Hd. apply list_elem_of_fmap. exists m. split; [reflexivity|exact Hm].
  - intros Hfree. destruct (unmount_loop_free _ _ m Hn Hm Hfree) as (l1 & l2 & Hp & Hl).
    exists l1, l2. split; [exact Hp|]. unfold PHYSFS_unmount. rewrite Hl. reflexivity.
Qed.

Lemma filter_name_absent (fname : list ascii) (l : list (nat * DirHandle)) :
  fname ∉ mount_names l -> filter (fun i => dirName i.2 = fname) l = [].
Proof.
  induction l as [|i l IH]; [reflexivity|]. unfold mount_names in *.
  rewrite fmap_cons. intros Hnin.
  rewrite filter_cons. destruct (decide (dirName i.2 = fname)) as [Heq|Hne].
  - exfalso. apply Hnin. rewrite Heq. left.
  - apply IH. intros Hin. apply Hnin. right. exact Hin.
Qed.

Lemma filter_name_once (fname : list ascii) (l : list (nat * DirHandle)) :
  NoDup (mount_names l) -> fname ∈ mount_names l ->
  length (filter (fun i => dirName i.2 = fname) l) = 1.
Proof.
  induction l as [|i l IH]; unfold mount_names in *; intros Hn Hin; [inversion Hin|].
  rewrite fmap_cons in Hn, Hin.
  apply NoDup_cons in Hn as [Hni Hn].
  rewrite filter_cons. destruct (decide (dirName i.2 = fname)) as [Heq|Hne].
  - rewrite Heq in Hni. rewrite (filter_name_absent fname l Hni). reflexivity.
  - apply elem_of_cons in Hin as [Heq|Hin]; [congruence|]. apply IH; assumption.
Qed.

(** C6.  In every reachable state, if mounting a source succeeds then
    mounting the same name again, with any mount point, any position and
    whatever the backends would answer, succeeds and leaves the state
    unchanged, and the search path holds exactly one mount of that
    name. *)
Theorem doMount_twice (st st1 : PhysfsState S) opened (fname : list ascii) mp app :
  reachable st ->
  doMount opened (Some fname) mp app st = (st1, Ok tt) ->
  (forall opened' mp' app', doMount opened' (Some fname) mp' app' st1 = (st1, Ok tt)) /\
  length (filter (fun i => dirName i.2 = fname) (searchPath st1)) = 1.
Proof.
  intros Hr Hm.
  assert (Hinv1 : mount_inv st1).
  { replace st1 with (doMount opened (Some fname) mp app st).1 by (rewrite Hm; reflexivity).
    apply doMount_inv, reachable_inv, Hr. }
  assert (Hin : fname ∈ mount_names (searchPath st1)).
  { unfold doMount in Hm.
    destruct (existsb _ (searchPath st)) eqn:Hex.
    - injection Hm as <-. apply mounted_existsb, Hex.
    - destruct (createDirHandle _ _ _) as [dh| |] eqn:Hc; try discriminate.
      apply createDirHandle_dirName in Hc. injection Hm as <-. cbn.
      unfold mount_names. destruct app.
      + rewrite fmap_app. apply elem_of_app. right. cbn. rewrite Hc. left.
      + cbn. rewrite Hc. left. }
  split.
  - intros opened' mp' app'. unfold doMount.
    apply mounted_existsb in Hin. rewrite Hin. reflexivity.
  - apply filter_name_once; [apply (inv_names _ Hinv1)|exact Hin].
Qed.

End MountInvariant.

(** C2, the claim as stated fails for the open-write list.  Mount the
    directory [saves], make it the write dir as well and open a file in
    it for writing.  The handle is on the open-write list and refers to
    the write dir, whose directory is the mounted one; unmounting
    [saves] succeeds all the same and empties the search path, the
    handle staying open. *)
Lemma PHYSFS_unmount_ignores_write_handles :
  let probe := fun (_ : nat * DirHandle) (_ : list ascii) => Ok (mkSinkIo []) in
  let st0 := (PHYSFS_mount (S := SinkIo) (Ok tt) (Some (cstr "saves")) None false
                           initial_state).1 in
  let st1 := (PHYSFS_setWriteDir (Ok tt) (Some (cstr "saves")) st0).1 in
  let st := (PHYSFS_openWrite probe (Some (cstr "quick.sav")) st1).1 in
  @reachable SinkIo sinkIo_interface st /\
  exists m wd h st',
    searchPath st = [m] /\ writeDir st = Some wd /\ openWriteList st = [h] /\
    dirName m.2 = cstr "saves" /\ dirName wd.2 = cstr "saves" /\
    dirHandle h.2 = wd.1 /\ forReading h.2 = false /\
    PHYSFS_unmount (Some (cstr "saves")) st = (st', Ok tt) /\
    searchPath st' = [] /\ openWriteList st' = [h].
Proof.
  intros probe st0 st1 st. split.
  - apply (rtc_l _ _ st0); [apply step_mount|].
    apply (rtc_l _ _ st1); [apply step_setWriteDir|].
    apply (rtc_l _ _ st); [apply step_openWrite|apply rtc_refl].
  - eexists _, _, _, _. vm_compute. repeat split.
Qed.

Lemma PHYSFS_unmount_open_handle_witness :
  let probe := fun (_ : nat * DirHandle) (_ : list ascii) =>
                 Ok (__PHYSFS_createMemoryIo []) in
  let st0 := (PHYSFS_mount (S := MemoryIoInfo) (Ok tt) (Some (cstr "data.grp")) None false
                           initial_state).1 in
  let st := (PHYSFS_openRead probe (Some (cstr "hello.txt")) st0).1 in
  PHYSFS_unmount (Some (cstr "data.grp")) st = (st, Bail PHYSFS_ERR_FILES_STILL_OPEN) /\
  exists st',
    PHYSFS_unmount (Some (cstr "data.grp")) st0 = (st', Ok tt) /\ searchPath st' = [].
Proof.
  intros probe st0 st.
  assert (Hr0 : reachable st0) by (apply rtc_once, step_mount).
  assert (Hr : reachable st).
  { apply (rtc_l _ _ st0); [apply step_mount|].
    apply (rtc_l _ _ st); [apply step_openRead|apply rtc_refl]. }
  split.
  - apply (proj1 (PHYSFS_unmount_open_handle st
                    (0, mkDirHandle (cstr "data.grp") None None) Hr
                    ltac:(vm_compute; left))
             (1, mkFileHandle (__PHYSFS_createMemoryIo []) true 0 None 0 0 0)).
    + vm_compute. left.
    + reflexivity.
  - destruct (proj2 (proj2 (PHYSFS_unmount_open_handle st0
                    (0, mkDirHandle (cstr "data.grp") None None) Hr0
                    ltac:(vm_compute; left))))
      as (l1 & l2 & Hp & Hu).
    + intros h Hh. vm_compute in Hh. inversion Hh.
    + eexists. split; [exact Hu|]. cbn [searchPath].
      vm_compute in Hp. destruct l1 as [|x l1]; [|destruct l1; discriminate].
      injection Hp as <-. reflexivity.
Defined.

Lemma doMount_twice_witness :
  let st1 := (doMount (S := MemoryIoInfo) (Ok tt) (Some (cstr "data.grp")) None false
                      initial_state).1 in
  doMount (Bail PHYSFS_ERR_UNSUPPORTED) (Some (cstr "data.grp")) (Some (cstr "/game")) true st1
    = (st1, Ok tt) /\
  length (filter (fun i => dirName i.2 = cstr "data.grp") (searchPath st1)) = 1.
Proof.
  intros st1.
  destruct (doMount_twice initial_state st1 (Ok tt) (cstr "data.grp") None false) as [H1 H2].
  - apply rtc_refl.
  - vm_compute. reflexivity.
  - split; [apply H1|exact H2].
Defined.

(** ** C4: buffered and unbuffered reads *)

Section BufferedRead.
Context {S : Type} `{PHYSFS_Io S}.



(** *** Streams that read a file

    [content s] is what is left of the file from the position of [s] to
    its end.  A stream reads a file when every read of a positive number
    of bytes returns a prefix of what is left, of at most the requested
    length and not empty unless nothing is left, and moves the position
    behind it.  Short reads are allowed.  [stream_ok] is an invariant of
    the stream that reads preserve. *)
Variable content : S -> list byte.
Variable stream_ok : S -> Prop.

Definition reads_file : Prop :=
  forall (s : S) (n : Z), stream_ok s -> (0 < n)%Z ->
    exists s' d, io_read s n = (s', Ok d) /\ stream_ok s' /\
      content s = d ++ content s' /\
      (Z.of_nat (length d) <= n)%Z /\
      (content s <> [] -> d <> []).

Hypothesis read_spec : reads_file.

(** The bytes a handle has still to deliver: the unread part of its
    buffer, then the rest of the file. *)
Definition buffered (fh : FileHandle S) : list byte :=
  take (buffill fh - bufpos fh) (drop (bufpos fh) (fh_buf fh)).

Definition pending (fh : FileHandle S) : list byte :=
  buffered fh ++ content (fh_io fh).

Definition handle_ok (fh : FileHandle S) : Prop :=
  stream_ok (fh_io fh) /\ forReading fh = true /\
  bufpos fh <= buffill fh /\ buffill fh <= length (fh_buf fh) /\
  (is_Some (buffer fh) -> 0 < bufsize fh).

(** Two handles of the same mode: both buffered with the same buffer
    size, or both unbuffered. *)
Definition same_mode (fh fh' : FileHandle S) : Prop :=
  bufsize fh' = bufsize fh /\ (is_Some (buffer fh') <-> is_Some (buffer fh)).

Lemma take_drop_split (l : list byte) (p c m : nat) :
  c <= m -> take m (drop p l) = take c (drop p l) ++ take (m - c) (drop (p + c) l).
Proof.
  intros Hc. rewrite <- drop_drop. rewrite take_take_drop. f_equal. lia.
Qed.

Lemma memcpy_at_0_length (dst src : list byte) :
  length src <= length (memcpy_at dst 0 src).
Proof. unfold memcpy_at. rewrite take_0, app_nil_l, length_app. lia. Qed.

Lemma memcpy_at_0_take (dst src : list byte) :
  take (length src) (memcpy_at dst 0 src) = src.
Proof. unfold memcpy_at. rewrite take_0, app_nil_l. apply take_app_length. Qed.

Lemma doBufferedRead_spec (fh : FileHandle S) (len : nat) (out : list byte) :
  handle_ok fh -> is_Some (buffer fh) ->
  exists fh' d,
    doBufferedRead fh len out = (fh', Ok (out ++ d)) /\
    pending fh = d ++ pending fh' /\
    length d <= len /\
    (pending fh <> [] -> 0 < len -> d <> []) /\
    handle_ok fh' /\ same_mode fh fh'.
Proof.
  funelim (doBufferedRead fh len out); intros Hok Hbuf.
  - exists fh, []. rewrite app_nil_r.
    split; [reflexivity|]. split; [reflexivity|]. split; [cbn; lia|].
    split; [intros _ Hlt; lia|]. split; [exact Hok|]. split; [reflexivity|tauto].
  - (* bytes are left in the buffer *)
    clear Heqcall. destruct Hok as (Hs & Hr & Hp & Hf & Hb).
    remember (Nat.min (Datatypes.S n) (Datatypes.S a)) as cpy eqn:Hcpy_def.
    cbv zeta in H0.
    assert (Hcpy : 0 < cpy <= Datatypes.S a) by lia.
    remember (take cpy (drop (bufpos fh) (fh_buf fh))) as chunk eqn:Hchunk_def.
    assert (Hchunk : length chunk = cpy).
    { subst chunk. rewrite length_take, length_drop. lia. }
    destruct H0 as (fh' & d & Heq & Hpend & Hlen & _ & Hok' & Hmode).
    { repeat split; cbn [fh_io forReading bufpos buffill buffer bufsize]; try assumption; lia. }
    { exact Hbuf. }
    exists fh', (chunk ++ d). cbv zeta. rewrite Heq.
    rewrite app_assoc. split; [reflexivity|]. split; [|split; [|split; [|split]]].
    + unfold pending at 1. unfold buffered. rewrite e.
      rewrite (take_drop_split _ _ cpy) by lia. rewrite <- Hchunk_def.
      rewrite <- !app_assoc. f_equal.
      rewrite <- Hpend. unfold pending, buffered, fh_buf.
      cbn [fh_io bufpos buffill buffer]. do 2 f_equal. lia.
    + rewrite length_app. lia.
    + intros _ _. destruct chunk; [cbn in Hchunk; lia|discriminate].
    + exact Hok'.
    + destruct Hmode as [Hm1 Hm2]. split; [exact Hm1|exact Hm2].
  - (* the buffer is empty and the stream is at its end *)
    clear Heqcall. destruct Hok as (Hs & Hr & Hp & Hf & Hb).
    destruct (read_spec (fh_io fh) (Z.of_nat (bufsize fh)) Hs) as
      (s' & d & Hrd & Hs' & Hc & _ & Hne); [specialize (Hb Hbuf); lia|].
    rewrite e0 in Hrd. injection Hrd as <- <-.
    assert (Hnil : content (fh_io fh) = []).
    { destruct (content (fh_io fh)) eqn:Hcf; [reflexivity|].
      exfalso. apply Hne; [discriminate|reflexivity]. }
    assert (Hnil' : content io' = []).
    { rewrite Hnil in Hc. cbn in Hc. symmetry. exact Hc. }
    assert (Hpnil : pending fh = []).
    { unfold pending, buffered. rewrite e, Hnil. reflexivity. }
    eexists _, []. split; [|split; [|split; [|split; [|split]]]].
    + rewrite app_nil_r. destruct out; reflexivity.
    + rewrite Hpnil. unfold pending, buffered.
      cbn [fh_io bufpos buffill Nat.sub take app]. rewrite Hnil'. reflexivity.
    + cbn. lia.
    + intros Hpn. exfalso. apply Hpn, Hpnil.
    + repeat split; cbn [fh_io forReading bufpos buffill buffer bufsize fh_buf];
        try assumption; lia.
    + split; cbn [bufsize buffer]; tauto.
  - (* the buffer is empty and the stream delivers *)
    clear Heqcall. destruct Hok as (Hs & Hr & Hp & Hf & Hb).
    destruct (read_spec (fh_io fh) (Z.of_nat (bufsize fh)) Hs) as
      (s' & d & Hrd & Hs' & Hc & Hle & Hne); [specialize (Hb Hbuf); lia|].
    rewrite e0 in Hrd. injection Hrd as <- <-.
    destruct H0 as (fh' & d & Heq & Hpend & Hlen & Hnz & Hok' & Hmode).
    { unfold handle_ok, fh_buf. cbn [fh_io forReading bufpos buffill buffer bufsize default].
      split; [exact Hs'|]. split; [exact Hr|]. split; [lia|].
      split; [apply memcpy_at_0_length|]. intros _. apply Hb, Hbuf. }
    { cbn. eauto. }
    assert (Hsame : pending fh =
              pending (mkFileHandle io' (forReading fh) (dirHandle fh)
                         (Some (memcpy_at (fh_buf fh) 0 (b :: data)))
                         (bufsize fh) (length (b :: data)) 0)).
    { unfold pending, buffered. rewrite e, Hc.
      rewrite take_0, app_nil_l.
      change (fh_buf (mkFileHandle io' (forReading fh) (dirHandle fh)
                        (Some (memcpy_at (fh_buf fh) 0 (b :: data)))
                        (bufsize fh) (length (b :: data)) 0))
        with (memcpy_at (fh_buf fh) 0 (b :: data)).
      rewrite Nat.sub_0_r, drop_0. cbn [buffill fh_io]. rewrite memcpy_at_0_take. reflexivity. }
    exists fh', d. rewrite Heq. rewrite Hsame.
    split; [reflexivity|]. split; [exact Hpend|]. split; [exact Hlen|].
    split; [exact Hnz|]. split; [exact Hok'|].
    destruct Hmode as [Hm1 Hm2]. split; [exact Hm1|].
    rewrite Hm2. cbn [buffer]. split; intros _; [exact Hbuf|eauto].
  - (* the stream fails: excluded for a stream that reads a file *)
    exfalso. destruct Hok as (Hs & Hr & Hp & Hf & Hb).
    destruct (read_spec (fh_io fh) (Z.of_nat (bufsize fh)) Hs) as
      (s' & d & Hrd & _); [specialize (Hb Hbuf); lia|].
    rewrite e0 in Hrd. discriminate.
  - exfalso. destruct Hok as (Hs & Hr & Hp & Hf & Hb).
    destruct (read_spec (fh_io fh) (Z.of_nat (bufsize fh)) Hs) as
      (s' & d & Hrd & _); [specialize (Hb Hbuf); lia|].
    rewrite e0 in Hrd. discriminate.
Qed.


(** One call of [PHYSFS_readBytes] on a read handle, buffered or not:
    it delivers a prefix of what is pending, not empty unless nothing is
    pending. *)
Lemma PHYSFS_readBytes_spec (fh : FileHandle S) (chunk : Z) :
  handle_ok fh -> (0 < chunk <= maxlen)%Z ->
  exists fh' d,
    PHYSFS_readBytes fh chunk = (fh', Ok d) /\
    pending fh = d ++ pending fh' /\
    (pending fh <> [] -> d <> []) /\
    handle_ok fh' /\ same_mode fh fh'.
Proof.
  intros Hok Hchunk. unfold PHYSFS_readBytes.
  destruct (Z.ltb_spec maxlen chunk); [lia|].
  pose proof Hok as (Hs & Hr & Hp & Hf & Hb). rewrite Hr. cbn [negb].
  destruct (Z.eqb_spec chunk 0); [lia|].
  destruct (buffer fh) as [buf|] eqn:Hbuf.
  - destruct (doBufferedRead_spec fh (Z.to_nat chunk) [] Hok) as
      (fh' & d & Heq & Hpend & _ & Hnz & Hok' & Hmode); [rewrite Hbuf; eauto|].
    exists fh', d. rewrite Heq. cbn [app].
    split; [reflexivity|]. split; [exact Hpend|].
    split; [intros Hpn; apply Hnz; [exact Hpn|lia]|]. split; [exact Hok'|exact Hmode].
  - destruct (read_spec (fh_io fh) chunk Hs) as (s' & d & Hrd & Hs' & Hc & _ & Hne); [lia|].
    rewrite Hrd.
    assert (Hnb : forall fh0 : FileHandle S, buffer fh0 = None -> pending fh0 = content (fh_io fh0)).
    { intros fh0 Hn. unfold pending, buffered, fh_buf. rewrite Hn. cbn [default].
      rewrite drop_nil, take_nil. reflexivity. }
    eexists _, d. split; [reflexivity|].
    rewrite (Hnb fh Hbuf). rewrite Hnb by reflexivity. cbn [fh_io].
    split; [exact Hc|]. split; [exact Hne|].
    split.
    + unfold handle_ok, fh_buf. cbn [fh_io forReading bufpos buffill buffer bufsize].
      unfold fh_buf in Hf. rewrite Hbuf in Hf.
      split; [exact Hs'|]. split; [reflexivity|]. split; [exact Hp|]. split; [exact Hf|exact Hb].
    + split; cbn [bufsize buffer]; [reflexivity|]. rewrite Hbuf. tauto.
Qed.

(** Reading to the end delivers everything that is pending. *)
Lemma read_to_eof_spec (fuel : nat) (fh : FileHandle S) (chunk : Z) :
  handle_ok fh -> (0 < chunk <= maxlen)%Z -> length (pending fh) < fuel ->
  read_to_eof fuel fh chunk = Some (pending fh).
Proof.
  revert fh. induction fuel as [|fuel IH]; intros fh Hok Hchunk Hlen; [lia|].
  cbn [read_to_eof].
  destruct (PHYSFS_readBytes_spec fh chunk Hok Hchunk) as
    (fh' & d & Heq & Hpend & Hnz & Hok' & _).
  rewrite Heq. destruct d as [|b data].
  - destruct (pending fh) eqn:Hp; [reflexivity|]. exfalso. apply Hnz; [discriminate|reflexivity].
  - rewrite IH; [|exact Hok'|exact Hchunk|].
    + cbn [mbind option_bind]. rewrite Hpend. reflexivity.
    + rewrite Hpend in Hlen. rewrite length_app in Hlen. cbn [length] in Hlen. lia.
Qed.


End BufferedRead.

(** The memory stream reads a file: its buffer, from its position on. *)
Definition memory_content (info : MemoryIoInfo) : list byte :=
  drop (Z.to_nat (mem_pos info)) (mem_buf info).

Definition memory_ok (info : MemoryIoInfo) : Prop :=
  (0 <= mem_pos info <= mem_len info)%Z /\ (mem_len info < 2 ^ 64)%Z.

Lemma u64_small (z : Z) : (0 <= z < 2 ^ 64)%Z -> u64 z = z.
Proof. intros Hz. unfold u64. apply Z.mod_small. exact Hz. Qed.

Lemma memoryIo_reads_file : reads_file memory_content memory_ok.
Proof.
  intros info n [Hpos Hlen] Hn. cbn [io_read __PHYSFS_memoryIoInterface].
  unfold memoryIo_read. rewrite u64_small by lia.
  destruct (Z.eqb_spec (mem_len info - mem_pos info) 0) as [Hz|Hnz].
  - exists info, []. split; [reflexivity|]. split; [split; assumption|].
    assert (Hc : memory_content info = []).
    { unfold memory_content. apply drop_ge. unfold mem_len in *. lia. }
    rewrite Hc. repeat split; [cbn; lia|tauto].
  - set (k := if (mem_len info - mem_pos info <? n)%Z
              then (mem_len info - mem_pos info)%Z else n).
    assert (Hk : (0 < k <= n)%Z /\ (k <= mem_len info - mem_pos info)%Z).
    { unfold k. destruct (Z.ltb_spec (mem_len info - mem_pos info) n); lia. }
    eexists _, _. split; [reflexivity|]. rewrite u64_small by lia.
    unfold memory_ok, memory_content, mem_len in *. cbn [mem_pos mem_buf].
    split; [lia|]. split; [|split].
    + rewrite Z2Nat.inj_add by lia. rewrite <- drop_drop. symmetry. apply take_drop.
    + rewrite length_take, length_drop. lia.
    + intros _ Hd. apply (f_equal length) in Hd.
      rewrite length_take, length_drop in Hd. cbn [length] in Hd. lia.
Qed.


(** ** Archives held in memory: what the loaders read *)

(** The [len] bytes of a file from offset [off] on. *)
Definition slice (bs : list byte) (off len : nat) : list byte := take len (drop off bs).

Definition memory_at (bs : list byte) (p : nat) : MemoryIoInfo :=
  mkMemoryIoInfo bs (Z.of_nat p).

(** A successful [__PHYSFS_readAll] on a memory stream delivers the next
    [k] bytes of the buffer and moves behind them; it succeeds exactly
    when that many bytes are left. *)
Lemma readAll_memory (bs : list byte) (p k : nat) :
  (Z.of_nat (length bs) < 2 ^ 64)%Z -> p <= length bs -> 0 < k ->
  __PHYSFS_readAll (memory_at bs p) k =
    if decide (p + k <= length bs)
    then (memory_at bs (p + k), Ok (slice bs p k))
    else ((memoryIo_read (memory_at bs p) (Z.of_nat k)).1, Failed).
Proof.
  intros Hlen Hp Hk. unfold __PHYSFS_readAll.
  cbn [io_read __PHYSFS_memoryIoInterface]. unfold memoryIo_read, mem_len, memory_at.
  cbn [mem_buf mem_pos]. rewrite u64_small by lia.
  destruct (Z.eqb_spec (Z.of_nat (length bs) - Z.of_nat p) 0) as [Hz|Hnz].
  - cbn [length]. destruct (decide (p + k <= length bs)); [lia|].
    rewrite bool_decide_eq_false_2 by lia. reflexivity.
  - destruct (Z.ltb_spec (Z.of_nat (length bs) - Z.of_nat p) (Z.of_nat k)) as [Hlt|Hge].
    + destruct (decide (p + k <= length bs)); [lia|].
      rewrite bool_decide_eq_false_2; [reflexivity|].
      rewrite length_take, length_drop. lia.
    + destruct (decide (p + k <= length bs)); [|lia].
      rewrite bool_decide_eq_true_2.
      * rewrite u64_small by lia. rewrite !Nat2Z.id.
        unfold slice. do 2 f_equal. lia.
      * rewrite length_take, length_drop. lia.
Qed.

Lemma readAll_memory_ok (bs : list byte) (p k : nat) (io1 : MemoryIoInfo) (d : list byte) :
  (Z.of_nat (length bs) < 2 ^ 64)%Z -> p <= length bs -> 0 < k ->
  __PHYSFS_readAll (memory_at bs p) k = (io1, Ok d) ->
  p + k <= length bs /\ io1 = memory_at bs (p + k) /\ d = slice bs p k.
Proof.
  intros Hlen Hp Hk. rewrite readAll_memory by assumption.
  destruct (decide (p + k <= length bs)); [|discriminate].
  intros [= <- <-]. repeat split. exact l.
Qed.

Section AddAll.
Context {S : Type} `{PHYSFS_Io S} `{Platform}.

(** The entries of a directory table, added in order; it stops at the
    first entry that cannot be added. *)
Fixpoint UNPK_add_all (recs : list (list ascii * Z * Z)) (arc : UNPKinfo S)
  : option (UNPKinfo S * res unit) :=
  match recs with
  | [] => Some (arc, Ok tt)
  | (nm, pos, size) :: rest =>
      '(arc', r) ← UNPK_addEntry arc nm false (-1) (-1) pos size;
      match r with
      | Ok _ => UNPK_add_all rest arc'
      | f => Some (arc', errpass f)
      end
  end.

(** Adding an entry works on the tree and leaves the stream alone. *)
Lemma UNPK_addEntry_io (t : __PHYSFS_DirTree) (io io2 : S) nm is_dir ct mt pos len :
  UNPK_addEntry (mkUNPKinfo t io) nm is_dir ct mt pos len =
  match UNPK_addEntry (mkUNPKinfo t io2) nm is_dir ct mt pos len with
  | Some (arc, r) => Some (mkUNPKinfo (info_tree arc) io, r)
  | None => None
  end.
Proof.
  unfold UNPK_addEntry. cbn [info_tree info_io].
  destruct (__PHYSFS_DirTreeAdd t nm is_dir) as [[dt [p| |]]|]; cbn; try reflexivity.
  destruct (entries dt !! p); reflexivity.
Qed.

Lemma UNPK_add_all_io (recs : list (list ascii * Z * Z)) (t : __PHYSFS_DirTree) (io io2 : S) :
  UNPK_add_all recs (mkUNPKinfo t io) =
  match UNPK_add_all recs (mkUNPKinfo t io2) with
  | Some (arc, r) => Some (mkUNPKinfo (info_tree arc) io, r)
  | None => None
  end.
Proof.
  revert t io io2.
  induction recs as [|[[nm pos] size] rest IH]; intros t io io2; [reflexivity|].
  cbn [UNPK_add_all]. rewrite (UNPK_addEntry_io t io io2).
  destruct (UNPK_addEntry (mkUNPKinfo t io2) _ _ _ _ _ _) as [[[t' io'] [p| |]]|];
    cbn; try reflexivity.
  apply IH.
Qed.


(** *** The GRP directory, entry by entry *)

Definition grp_count (bs : list byte) : Z := le32 (slice bs 12 4).

(** Entry [i]'s name: its 12-byte field as a C string, cut at the first
    space. *)
Definition grp_name (bs : list byte) (i : nat) : list ascii :=
  cut_at_space (c_str (chars_of_bytes (slice bs (16 + 16 * i) 12))).

(** Entry [i]'s size: the little-endian word after the name. *)
Definition grp_size (bs : list byte) (i : nat) : Z := le32 (slice bs (28 + 16 * i) 4).

(** Entry [i]'s data offset, in 32-bit arithmetic. *)
Fixpoint grp_offset (bs : list byte) (i : nat) : Z :=
  match i with
  | 0 => u32 (16 + 16 * grp_count bs)
  | Datatypes.S j => u32 (grp_offset bs j + grp_size bs j)
  end.

Definition grp_entry (bs : list byte) (i : nat) : list ascii * Z * Z :=
  (grp_name bs i, grp_offset bs i, grp_size bs i).

End AddAll.

Section GrpMemory.
Context `{Platform}.

Lemma grpLoadEntries_loop_memory (bs : list byte) (n i p : nat)
    (t : __PHYSFS_DirTree) (arc : UNPKinfo MemoryIoInfo) :
  (Z.of_nat (length bs) < 2 ^ 64)%Z -> p = 16 + 16 * i -> p <= length bs ->
  grpLoadEntries_loop n (grp_offset bs i) (mkUNPKinfo t (memory_at bs p))
    = Some (arc, Ok tt) ->
  p + 16 * n <= length bs /\
  info_io arc = memory_at bs (p + 16 * n) /\
  UNPK_add_all (map (grp_entry bs) (seq i n)) (mkUNPKinfo t (info_io arc)) = Some (arc, Ok tt).
Proof.
  intros Hlen. revert i p t. induction n as [|n IH]; intros i p t Hp Hi.
  - cbn [grpLoadEntries_loop seq map UNPK_add_all]. intros Heq.
    injection Heq as <-. cbn [info_io].
    replace (p + 16 * 0) with p by lia. split; [exact Hi|]. split; reflexivity.
  - cbn [grpLoadEntries_loop info_io info_tree].
    rewrite readAll_memory by (assumption || lia).
    destruct (decide (p + 12 <= length bs)) as [H12|]; [|discriminate].
    rewrite readAll_memory by (assumption || lia).
    destruct (decide (p + 12 + 4 <= length bs)) as [H16|]; [|discriminate].
    replace (slice bs p 12) with (slice bs (16 + 16 * i) 12) by (rewrite Hp; reflexivity).
    replace (slice bs (p + 12) 4) with (slice bs (28 + 16 * i) 4) by (f_equal; lia).
    fold (grp_name bs i). fold (grp_size bs i).
    destruct (UNPK_addEntry _ _ _ _ _ _ _) as [[arc1 [q| |]]|] eqn:Hadd;
      cbn [mbind option_bind]; try discriminate.
    assert (Hio1 : arc1 = mkUNPKinfo (info_tree arc1) (memory_at bs (p + 12 + 4))).
    { rewrite (UNPK_addEntry_io _ _ (memory_at bs 0)) in Hadd.
      destruct (UNPK_addEntry _ _ _ _ _ _ _) as [[arc0 r0]|]; [|discriminate].
      injection Hadd as <- _. reflexivity. }
    rewrite Hio1.
    change (u32 (grp_offset bs i + grp_size bs i)) with (grp_offset bs (Datatypes.S i)).
    intros Hloop.
    destruct (IH (Datatypes.S i) (p + 12 + 4) _ ltac:(lia) ltac:(lia) Hloop) as (Hb & Hio & Hall).
    replace (p + 12 + 4 + 16 * n) with (p + 16 * Datatypes.S n) in * by lia.
    split; [exact Hb|]. split; [exact Hio|].
    cbn [seq map UNPK_add_all]. unfold grp_entry at 1.
    rewrite (UNPK_addEntry_io _ _ (memory_at bs (p + 12 + 4))).
    rewrite Hadd. cbn [mbind option_bind info_tree]. exact Hall.
Qed.


Lemma le32_bounds (bs : list byte) : (0 <= le32 bs < 2 ^ 32)%Z.
Proof.
  unfold le32. change (2 ^ 32)%Z with 4294967296%Z.
  assert (Hb : forall b : byte, (0 <= Z.of_N (Byte.to_N b) < 256)%Z).
  { intros b. pose proof (Byte.to_N_bounded b). lia. }
  destruct bs as [|b0 [|b1 [|b2 [|b3 rest]]]]; cbn [take fold_right].
  - lia.
  - pose proof (Hb b0). lia.
  - pose proof (Hb b0). pose proof (Hb b1). lia.
  - pose proof (Hb b0). pose proof (Hb b1). pose proof (Hb b2). lia.
  - rewrite take_0. cbn [fold_right].
    pose proof (Hb b0). pose proof (Hb b1). pose proof (Hb b2). pose proof (Hb b3). lia.
Qed.

Lemma u32_idem (z : Z) : u32 (u32 z) = u32 z.
Proof. unfold u32. apply Z.mod_mod. lia. Qed.

Lemma u32_add_l (a b : Z) : u32 (a + u32 b) = u32 (a + b).
Proof. unfold u32. rewrite Z.add_mod_idemp_r by lia. reflexivity. Qed.

(** The sum of the sizes of the entries before entry [i]. *)
Fixpoint grp_sizes_before (bs : list byte) (i : nat) : Z :=
  match i with
  | 0 => 0
  | Datatypes.S j => grp_sizes_before bs j + grp_size bs j
  end.

Lemma grp_sizes_before_nonneg (bs : list byte) (i : nat) : (0 <= grp_sizes_before bs i)%Z.
Proof.
  induction i as [|i IH]; cbn [grp_sizes_before]; [lia|].
  pose proof (le32_bounds (slice bs (28 + 16 * i) 4)). unfold grp_size. lia.
Qed.

(** Without 32-bit overflow the offsets are the plain sums. *)
Lemma grp_offset_exact (bs : list byte) (i : nat) :
  (16 + 16 * grp_count bs + grp_sizes_before bs i < 2 ^ 32)%Z ->
  grp_offset bs i = (16 + 16 * grp_count bs + grp_sizes_before bs i)%Z.
Proof.
  pose proof (le32_bounds (slice bs 12 4)) as Hc. fold (grp_count bs) in Hc.
  induction i as [|i IH]; cbn [grp_offset grp_sizes_before]; intros Hlt.
  - rewrite Z.add_0_r in *. apply u32_small. lia.
  - pose proof (le32_bounds (slice bs (28 + 16 * i) 4)) as Hs. fold (grp_size bs i) in Hs.
    pose proof (grp_sizes_before_nonneg bs i).
    rewrite IH by lia. rewrite u32_small by lia. lia.
Qed.

(** The archive of the scenario: two entries, HELLO.TXT of 5 bytes and
    DATA.BIN of 3 bytes. *)
Definition grp_scenario : list byte :=
  list_byte_of_string "KenSilverman" ++ [x02; x00; x00; x00] ++
  list_byte_of_string "HELLO.TXT   " ++ [x05; x00; x00; x00] ++
  list_byte_of_string "DATA.BIN    " ++ [x03; x00; x00; x00] ++
  list_byte_of_string "world" ++ [x01; x02; x03].

(** Opening an entry of a loaded archive and reading it to the end
    through a user handle. *)
Definition read_entry (arc : UNPKinfo MemoryIoInfo) (nm : list ascii) : option (list byte) :=
  '(_, r) ← UNPK_openRead arc nm;
  match r with
  | Ok finfo => read_to_eof 64 (mkFileHandle finfo true 0 None 0 0 0) 128
  | _ => None
  end.

Definition stat_filesize (arc : UNPKinfo MemoryIoInfo) (nm : list ascii) : option Z :=
  '(_, r) ← UNPK_stat arc nm;
  match r with
  | Ok st => Some (filesize st)
  | _ => None
  end.

End GrpMemory.

(** The archive that loading [grp_scenario] yields. *)
Definition grp_scenario_archive : UNPKinfo MemoryIoInfo :=
  Eval vm_compute in
    match GRP_openArchive (H0 := usascii_platform) (__PHYSFS_createMemoryIo grp_scenario) false with
    | Some (_, _, Ok arc) => arc
    | _ => UNPK_openArchive (__PHYSFS_createMemoryIo []) false true
    end.

Lemma grp_scenario_find `{P : Platform} (nm : list ascii) (p : nat) :
  (forall s, PHYSFS_utf8stricmp s s = 0%Z) ->
  (nm, p) = (cstr "HELLO.TXT", 1) \/ (nm, p) = (cstr "DATA.BIN", 2) ->
  __PHYSFS_DirTreeFind (info_tree grp_scenario_archive) nm
    = Some (info_tree grp_scenario_archive, Ok p).
Proof.
  intros Hrefl Hnm. destruct P as [cs cmp hf]. cbn in Hrefl.
  destruct Hnm as [[= -> ->]|[= -> ->]]; destruct cs;
    vm_compute; rewrite Hrefl; reflexivity.
Qed.

(** C8, as amended.  When a GRP archive held in memory is opened with
    success, the stream has been claimed and stands behind the
    directory, and the archive is the empty one to which the entries 0,
    1, ... of the directory were added in order, entry [i] with the name
    of its 12-byte field cut at the first space (or NUL), the
    little-endian value of its size field, and an offset computed in
    32-bit arithmetic: 16 + 16 * count for entry 0, the offset of entry
    [i] plus its size for entry [i + 1], both modulo 2^32, which are the
    plain sums as long as these stay below 2^32.  In the scenario,
    reading HELLO.TXT yields "world" and DATA.BIN has file size 3. *)
Theorem GRP_openArchive_layout `{P : Platform} (bs : list byte) (io' : MemoryIoInfo)
    (claimed : bool) (arc : UNPKinfo MemoryIoInfo) :
  (Z.of_nat (length bs) < 2 ^ 64)%Z ->
  (forall s, PHYSFS_utf8stricmp s s = 0%Z) ->
  GRP_openArchive (__PHYSFS_createMemoryIo bs) false = Some (io', claimed, Ok arc) ->
  let count := Z.to_nat (grp_count bs) in
  (slice bs 0 12 = GRP_SIG /\ claimed = true /\
   io' = memory_at bs (16 + 16 * count) /\
   UNPK_add_all (map (grp_entry bs) (seq 0 count)) (UNPK_openArchive io' false true)
     = Some (arc, Ok tt)) /\
  (grp_offset bs 0 = u32 (16 + 16 * grp_count bs) /\
   (forall i, grp_offset bs (Datatypes.S i) = u32 (grp_offset bs i + grp_size bs i)) /\
   (forall i, (16 + 16 * grp_count bs + grp_sizes_before bs i < 2 ^ 32)%Z ->
      grp_offset bs i = (16 + 16 * grp_count bs + grp_sizes_before bs i)%Z)) /\
  (GRP_openArchive (__PHYSFS_createMemoryIo grp_scenario) false
     = Some (memory_at grp_scenario 48, true, Ok grp_scenario_archive) /\
   read_entry grp_scenario_archive (cstr "HELLO.TXT") = Some (list_byte_of_string "world") /\
   stat_filesize grp_scenario_archive (cstr "DATA.BIN") = Some 3%Z).
Proof.
  intros Hlen Hrefl Hopen count. split; [|split].
  - unfold GRP_openArchive in Hopen. cbn [negb] in Hopen.
    change (__PHYSFS_createMemoryIo bs) with (memory_at bs 0) in Hopen.
    rewrite readAll_memory in Hopen by (assumption || lia).
    destruct (decide (0 + 12 <= length bs)) as [H12|]; [|discriminate].
    destruct (bool_decide_reflect (slice bs 0 12 = GRP_SIG)) as [Hsig|]; [|discriminate].
    rewrite readAll_memory in Hopen by (assumption || lia).
    destruct (decide (0 + 12 + 4 <= length bs)) as [H16|]; [|discriminate].
    fold (grp_count bs) in Hopen.
    destruct (grpLoadEntries _ _) as [[arc1 [[]| |]]|] eqn:Hload;
      cbn [mbind option_bind] in Hopen; try discriminate.
    injection Hopen as <- <- <-.
    unfold grpLoadEntries, UNPK_openArchive in Hload.
    rewrite u32_add_l in Hload.
    change (u32 (16 + 16 * grp_count bs)) with (grp_offset bs 0) in Hload.
    apply (grpLoadEntries_loop_memory bs _ 0 (0 + 12 + 4)) in Hload as (Hb & Hio & Hall);
      [|assumption|lia|lia].
    fold count in Hb, Hio, Hall.
    split; [exact Hsig|]. split; [reflexivity|].
    split; [rewrite Hio; f_equal; lia|]. exact Hall.
  - split; [reflexivity|]. split; [reflexivity|]. apply grp_offset_exact.
  - clear Hopen. split; [|split].
    + destruct P as [cs cmp hf]. destruct cs; vm_compute; reflexivity.
    + unfold read_entry, UNPK_openRead, findEntry.
      rewrite (grp_scenario_find _ 1 Hrefl) by (left; reflexivity).
      vm_compute. reflexivity.
    + unfold stat_filesize, UNPK_stat, findEntry.
      rewrite (grp_scenario_find _ 2 Hrefl) by (right; reflexivity).
      vm_compute. reflexivity.
Qed.

Lemma usascii_stricmp_refl (s : list ascii) : PHYSFS_utf8stricmp (Platform := usascii_platform) s s = 0%Z.
Proof. apply strcmp_refl. Qed.

Lemma GRP_openArchive_layout_witness :
  exists io arc,
    GRP_openArchive (H0 := usascii_platform) (__PHYSFS_createMemoryIo grp_scenario) false
      = Some (io, true, Ok arc) /\
    io = memory_at grp_scenario 48 /\
    UNPK_add_all (H0 := usascii_platform)
      [(cstr "HELLO.TXT", 48%Z, 5%Z); (cstr "DATA.BIN", 53%Z, 3%Z)]
      (UNPK_openArchive io false true) = Some (arc, Ok tt).
Proof.
  eexists _, _. split; [vm_compute; reflexivity|].
  destruct (GRP_openArchive_layout (P := usascii_platform) grp_scenario
              (memory_at grp_scenario 48) true _
              ltac:(vm_compute; reflexivity) usascii_stricmp_refl
              ltac:(vm_compute; reflexivity)) as [(_ & _ & Hio & Hall) _].
  split; [reflexivity|]. exact Hall.
Defined.

(** A directory of two entries, A of 2^32 - 1 bytes and B of 1 byte. *)
Definition grp_overflow : list byte :=
  list_byte_of_string "KenSilverman" ++ [x02; x00; x00; x00] ++
  list_byte_of_string "A           " ++ [xff; xff; xff; xff] ++
  list_byte_of_string "B           " ++ [x01; x00; x00; x00].

(** C8, the claim as stated fails: the 48-byte archive [grp_overflow] is
    opened with success; its entry 0 has offset 48 and size 2^32 - 1, and
    its entry 1 has offset 47, not 48 + (2^32 - 1). *)
Lemma GRP_offset_wraps_around :
  exists io arc e0 e1,
    GRP_openArchive (H0 := usascii_platform) (__PHYSFS_createMemoryIo grp_overflow) false
      = Some (io, true, Ok arc) /\
    entries (info_tree arc) !! 1 = Some e0 /\ entries (info_tree arc) !! 2 = Some e1 /\
    name (tree e0) = cstr "A" /\ name (tree e1) = cstr "B" /\
    startPos e0 = 48%Z /\ entry_size e0 = 4294967295%Z /\
    startPos e1 = 47%Z /\ startPos e1 <> (startPos e0 + entry_size e0)%Z.
Proof.
  eexists _, _, _, _. split; [vm_compute; reflexivity|].
  split; [vm_compute; reflexivity|]. split; [vm_compute; reflexivity|].
  vm_compute. repeat split; discriminate.
Qed.

(** ** The QPAK directory of an archive in memory *)

Definition qpak_dir_off (bs : list byte) : Z := le32 (slice bs 4 4).
Definition qpak_dir_len (bs : list byte) : Z := le32 (slice bs 8 4).

(** The [n] directory records of 64 bytes found from offset [p] on: a
    56-byte name, a position and a size.  There is no table when a name
    field has no NUL. *)
Fixpoint qpak_table (bs : list byte) (p n : nat) : option (list (list ascii * Z * Z)) :=
  match n with
  | 0 => Some []
  | Datatypes.S n' =>
      nm ← qpak_name (slice bs p 56);
      rest ← qpak_table bs (p + 64) n';
      Some ((nm, le32 (slice bs (p + 56) 4), le32 (slice bs (p + 60) 4)) :: rest)
  end.

Lemma qpak_table_length (bs : list byte) (p n : nat) recs :
  qpak_table bs p n = Some recs -> length recs = n.
Proof.
  revert p recs. induction n as [|n IH]; intros p recs; cbn [qpak_table].
  - intros [= <-]. reflexivity.
  - destruct (qpak_name _); cbn [mbind option_bind]; [|discriminate].
    destruct (qpak_table bs (p + 64) n) eqn:Ht; cbn [mbind option_bind]; [|discriminate].
    intros [= <-]. cbn [length]. f_equal. apply (IH _ _ Ht).
Qed.

Section QpakMemory.
Context `{Platform}.

Lemma qpakLoadEntries_loop_memory (bs : list byte) (n p : nat)
    (t : __PHYSFS_DirTree) (arc : UNPKinfo MemoryIoInfo) :
  (Z.of_nat (length bs) < 2 ^ 64)%Z -> p <= length bs ->
  qpakLoadEntries_loop n (mkUNPKinfo t (memory_at bs p)) = Some (arc, Ok tt) ->
  p + 64 * n <= length bs /\
  info_io arc = memory_at bs (p + 64 * n) /\
  exists recs, qpak_table bs p n = Some recs /\
    UNPK_add_all recs (mkUNPKinfo t (info_io arc)) = Some (arc, Ok tt).
Proof.
  intros Hlen. revert p t. induction n as [|n IH]; intros p t Hp.
  - cbn [qpakLoadEntries_loop qpak_table]. intros Heq. injection Heq as <-. cbn [info_io].
    replace (p + 64 * 0) with p by lia. split; [exact Hp|]. split; [reflexivity|].
    exists []. split; reflexivity.
  - cbn [qpakLoadEntries_loop qpak_table info_io info_tree].
    rewrite readAll_memory by (assumption || lia).
    destruct (decide (p + 56 <= length bs)) as [H56|]; [|discriminate].
    rewrite readAll_memory by (assumption || lia).
    destruct (decide (p + 56 + 4 <= length bs)) as [H60|]; [|discriminate].
    rewrite readAll_memory by (assumption || lia).
    destruct (decide (p + 56 + 4 + 4 <= length bs)) as [H64|]; [|discriminate].
    replace (p + 56 + 4) with (p + 60) by lia.
    destruct (qpak_name (slice bs p 56)) as [nm|]; cbn [mbind option_bind]; [|discriminate].
    destruct (UNPK_addEntry _ _ _ _ _ _ _) as [[arc1 [q| |]]|] eqn:Hadd;
      cbn [mbind option_bind]; try discriminate.
    assert (Hio1 : arc1 = mkUNPKinfo (info_tree arc1) (memory_at bs (p + 60 + 4))).
    { rewrite (UNPK_addEntry_io _ _ (memory_at bs 0)) in Hadd.
      destruct (UNPK_addEntry _ _ _ _ _ _ _) as [[arc0 r0]|]; [|discriminate].
      injection Hadd as <- _. reflexivity. }
    rewrite Hio1. intros Hloop.
    destruct (IH (p + 60 + 4) _ ltac:(lia) Hloop) as (Hb & Hio & recs & Ht & Hall).
    replace (p + 60 + 4 + 64 * n) with (p + 64 * Datatypes.S n) in * by lia.
    replace (p + 60 + 4) with (p + 64) in * by lia.
    split; [exact Hb|]. split; [exact Hio|].
    rewrite Ht. eexists. split; [reflexivity|].
    cbn [UNPK_add_all].
    rewrite (UNPK_addEntry_io _ _ (memory_at bs (p + 64))).
    rewrite Hadd. cbn [mbind option_bind info_tree]. exact Hall.
Qed.

End QpakMemory.

(** A PAK file whose directory length is 65. *)
Definition qpak_corrupt : list byte :=
  list_byte_of_string "PACK" ++ [x0c; x00; x00; x00] ++ [x41; x00; x00; x00] ++
  replicate 65 x00.

(** ** The directory tree: hash chains and what a name stands for *)

(** *** The store seen through the hash links and the names *)

(** The [hashnext] link and the name of the entry at [p], if there is
    one. *)
Definition hnext (es : list UNPKentry) (p : nat) : option (option nat) :=
  (fun e => hashnext (tree e)) <$> es !! p.

Definition ename (es : list UNPKentry) (p : nat) : option (list ascii) :=
  (fun e => name (tree e)) <$> es !! p.

(** [is_seg es a l b]: following [hashnext] from [a] visits the entries
    [l] in order and arrives at [b].  A bucket's chain is a segment that
    arrives at the null pointer. *)
Inductive is_seg (es : list UNPKentry) : option nat -> list nat -> option nat -> Prop :=
  | seg_nil a : is_seg es a [] a
  | seg_cons p nx l b :
      hnext es p = Some nx -> is_seg es nx l b -> is_seg es (Some p) (p :: l) b.

Lemma is_seg_app es a l1 l2 c :
  is_seg es a (l1 ++ l2) c <-> exists b, is_seg es a l1 b /\ is_seg es b l2 c.
Proof.
  split.
  - revert a. induction l1 as [|p l1 IH]; intros a Hs.
    + exists a. split; [constructor|exact Hs].
    + inversion Hs as [|p' nx l' b' Hn Hs']; subst.
      destruct (IH _ Hs') as (b & H1 & H2). exists b. split; [|exact H2].
      econstructor; eassumption.
  - intros (b & H1 & H2). induction H1 as [a|p nx l b Hn H1 IH]; [exact H2|].
    cbn. econstructor; [exact Hn|]. apply IH, H2.
Qed.

Lemma is_seg_frame es es' a l b :
  is_seg es a l b -> (forall p, p ∈ l -> hnext es' p = hnext es p) -> is_seg es' a l b.
Proof.
  intros Hs. induction Hs as [a|p nx l b Hn Hs IH]; intros Hf; [constructor|].
  econstructor.
  - rewrite Hf by left. exact Hn.
  - apply IH. intros q Hq. apply Hf. right. exact Hq.
Qed.

Lemma is_seg_valid es a l b p :
  is_seg es a l b -> p ∈ l -> is_Some (hnext es p).
Proof.
  intros Hs. induction Hs as [a|q nx l b Hn Hs IH]; intros Hp; [inversion Hp|].
  apply elem_of_cons in Hp as [->|Hp]; [eauto|apply IH, Hp].
Qed.

Lemma hnext_Some_lt es p nx : hnext es p = Some nx -> p < length es.
Proof.
  unfold hnext. destruct (es !! p) eqn:He; [|discriminate].
  intros _. apply lookup_lt_Some in He. exact He.
Qed.

Lemma ename_Some_lt es p n : ename es p = Some n -> p < length es.
Proof.
  unfold ename. destruct (es !! p) eqn:He; [|discriminate].
  intros _. apply lookup_lt_Some in He. exact He.
Qed.

Lemma ename_is_Some es p : is_Some (ename es p) <-> p < length es.
Proof.
  unfold ename. rewrite fmap_is_Some. apply lookup_lt_is_Some.
Qed.

Lemma hnext_is_Some es p : is_Some (hnext es p) <-> p < length es.
Proof.
  unfold hnext. rewrite fmap_is_Some. apply lookup_lt_is_Some.
Qed.

(** *** What the updates of the store do to links and names *)

Lemma hnext_set_hashnext es p nx q :
  hnext (set_hashnext p nx es) q =
  if decide (q = p) then (if decide (p < length es) then Some nx else None) else hnext es q.
Proof.
  unfold set_hashnext, hnext. destruct (es !! p) as [e|] eqn:He.
  - pose proof (lookup_lt_Some _ _ _ He) as Hlt.
    destruct (decide (q = p)) as [->|Hne].
    + rewrite list_lookup_insert_eq by exact Hlt. destruct (decide (p < length es)); [reflexivity|lia].
    + rewrite list_lookup_insert_ne by congruence. reflexivity.
  - pose proof (lookup_ge_None_1 _ _ He) as Hge.
    destruct (decide (q = p)) as [->|Hne]; [|reflexivity].
    rewrite He. destruct (decide (p < length es)); [lia|reflexivity].
Qed.

Lemma ename_set_hashnext es p nx q : ename (set_hashnext p nx es) q = ename es q.
Proof.
  unfold set_hashnext, ename. destruct (es !! p) as [e|] eqn:He; [|reflexivity].
  destruct (decide (q = p)) as [->|Hne].
  - rewrite list_lookup_insert_eq by (eapply lookup_lt_Some; exact He). rewrite He. reflexivity.
  - rewrite list_lookup_insert_ne by congruence. reflexivity.
Qed.

Lemma length_set_hashnext es p nx : length (set_hashnext p nx es) = length es.
Proof.
  unfold set_hashnext. destruct (es !! p); [apply length_insert|reflexivity].
Qed.

Lemma hnext_set_children es p c q : hnext (set_children p c es) q = hnext es q.
Proof.
  unfold set_children, hnext. destruct (es !! p) as [e|] eqn:He; [|reflexivity].
  destruct (decide (q = p)) as [->|Hne].
  - rewrite list_lookup_insert_eq by (eapply lookup_lt_Some; exact He). rewrite He. reflexivity.
  - rewrite list_lookup_insert_ne by congruence. reflexivity.
Qed.

Lemma ename_set_children es p c q : ename (set_children p c es) q = ename es q.
Proof.
  unfold set_children, ename. destruct (es !! p) as [e|] eqn:He; [|reflexivity].
  destruct (decide (q = p)) as [->|Hne].
  - rewrite list_lookup_insert_eq by (eapply lookup_lt_Some; exact He). rewrite He. reflexivity.
  - rewrite list_lookup_insert_ne by congruence. reflexivity.
Qed.

Lemma length_set_children es p c : length (set_children p c es) = length es.
Proof.
  unfold set_children. destruct (es !! p); [apply length_insert|reflexivity].
Qed.

(** *** The bucket scan *)

(** The first entry of a chain that satisfies [m], with its predecessor
    ([prev] for the head of the chain). *)
Fixpoint scan (m : nat -> bool) (prev : option nat) (l : list nat)
  : option (option nat * nat) :=
  match l with
  | [] => None
  | p :: l' => if m p then Some (prev, p) else scan m (Some p) l'
  end.

Fixpoint first_match (m : nat -> bool) (l : list nat) : option nat :=
  match l with
  | [] => None
  | p :: l' => if m p then Some p else first_match m l'
  end.

Lemma scan_first_match m prev l : snd <$> scan m prev l = first_match m l.
Proof.
  revert prev. induction l as [|p l IH]; intros prev; cbn; [reflexivity|].
  destruct (m p); [reflexivity|apply IH].
Qed.

Lemma first_match_Some m l p :
  first_match m l = Some p -> p ∈ l /\ m p = true.
Proof.
  induction l as [|q l IH]; cbn; [discriminate|].
  destruct (m q) eqn:Hq.
  - intros [= ->]. split; [left|exact Hq].
  - intros Hf. destruct (IH Hf) as [Hin Hm]. split; [right; exact Hin|exact Hm].
Qed.

Lemma first_match_None m l : first_match m l = None <-> forall p, p ∈ l -> m p = false.
Proof.
  induction l as [|q l IH]; cbn.
  - split; [intros _ p Hp; inversion Hp|reflexivity].
  - destruct (m q) eqn:Hq.
    + split; [discriminate|]. intros Hall. rewrite (Hall q) in Hq by left. discriminate.
    + rewrite IH. split.
      * intros Hall p Hp. apply elem_of_cons in Hp as [->|Hp]; [exact Hq|apply Hall, Hp].
      * intros Hall p Hp. apply Hall. right. exact Hp.
Qed.

(** With at most one entry satisfying [m], the first match does not
    depend on the order. *)
Lemma first_match_unique m l p :
  (forall q, q ∈ l -> m q = true -> q = p) -> p ∈ l -> m p = true ->
  first_match m l = Some p.
Proof.
  intros Hu Hin Hm. destruct (first_match m l) as [q|] eqn:Hf.
  - apply first_match_Some in Hf as [Hq Hmq]. f_equal. apply Hu; assumption.
  - rewrite first_match_None in Hf. rewrite (Hf p Hin) in Hm. discriminate.
Qed.

Lemma first_match_perm m l l' :
  (forall p q, p ∈ l -> q ∈ l -> m p = true -> m q = true -> p = q) ->
  l ≡ₚ l' -> first_match m l = first_match m l'.
Proof.
  intros Hu Hperm. destruct (first_match m l) as [p|] eqn:Hf.
  - apply first_match_Some in Hf as [Hin Hm]. symmetry.
    apply first_match_unique; [|rewrite <- Hperm; exact Hin|exact Hm].
    intros q Hq Hmq. rewrite <- Hperm in Hq. apply Hu; assumption.
  - symmetry. apply first_match_None. intros p Hp. rewrite <- Hperm in Hp.
    rewrite first_match_None in Hf. apply Hf, Hp.
Qed.

Lemma scan_Some m prev l q p :
  scan m prev l = Some (q, p) ->
  exists l1 l2, l = l1 ++ p :: l2 /\ (forall x, x ∈ l1 -> m x = false) /\ m p = true /\
    last (prev :: (Some <$> l1)) = Some q.
Proof.
  revert prev. induction l as [|x l IH]; intros prev; cbn [scan]; [discriminate|].
  destruct (m x) eqn:Hx.
  - intros [= -> ->]. exists [], l. split; [reflexivity|].
    split; [intros y Hy; inversion Hy|]. split; [exact Hx|reflexivity].
  - intros Hs. destruct (IH _ Hs) as (l1 & l2 & -> & Hno & Hp & Hlast).
    exists (x :: l1), l2. split; [reflexivity|]. split; [|split; [exact Hp|]].
    + intros y Hy. apply elem_of_cons in Hy as [->|Hy]; [exact Hx|apply Hno, Hy].
    + rewrite fmap_cons. rewrite last_cons_cons. exact Hlast.
Qed.

(** The number of separators of a name. *)
Definition slashes (nm : list ascii) : nat := length (filter (fun c => is_char c "/" = true) nm).

Lemma slashes_cons (c : ascii) (nm : list ascii) :
  slashes (c :: nm) = (if is_char c "/" then 1 else 0) + slashes nm.
Proof.
  unfold slashes. rewrite filter_cons.
  destruct (is_char c "/") eqn:Hc.
  - destruct (decide (true = true)); [reflexivity|congruence].
  - destruct (decide (false = true)); [discriminate|reflexivity].
Qed.

Lemma chop_last_slash_None (nm : list ascii) : chop_last_slash nm = None -> slashes nm = 0.
Proof.
  induction nm as [|c nm IH]; [reflexivity|]. cbn [chop_last_slash]. rewrite slashes_cons.
  destruct (chop_last_slash nm); [discriminate|].
  destruct (is_char c "/"); [discriminate|]. intros _. rewrite IH by reflexivity. reflexivity.
Qed.

Lemma chop_last_slash_Some (nm pre : list ascii) :
  chop_last_slash nm = Some pre -> length pre < length nm /\ slashes nm = Datatypes.S (slashes pre).
Proof.
  revert pre. induction nm as [|c nm IH]; intros pre; cbn [chop_last_slash]; [discriminate|].
  rewrite slashes_cons.
  destruct (chop_last_slash nm) as [pre'|] eqn:Hc.
  - intros [= <-]. destruct (IH pre' eq_refl) as [Hl Hs].
    rewrite slashes_cons, Hs. cbn [length]. split; lia.
  - destruct (is_char c "/"); [|discriminate]. intros [= <-].
    rewrite (chop_last_slash_None nm Hc). cbn [length]. split; [lia|reflexivity].
Qed.

(** What the development asks of [PHYSFS_utf8stricmp]: equality up to
    case is an equivalence, and it relates only names with the same
    number of separators. *)
Record stricmp_ok `{Platform} : Prop := mkStricmpOk {
  stricmp_refl : forall a, PHYSFS_utf8stricmp a a = 0%Z;
  stricmp_sym : forall a b, PHYSFS_utf8stricmp a b = 0%Z -> PHYSFS_utf8stricmp b a = 0%Z;
  stricmp_trans : forall a b c,
    PHYSFS_utf8stricmp a b = 0%Z -> PHYSFS_utf8stricmp b c = 0%Z ->
    PHYSFS_utf8stricmp a c = 0%Z;
  stricmp_slashes : forall a b, PHYSFS_utf8stricmp a b = 0%Z -> slashes a = slashes b
}.

Section DirTreeProofs.
Context `{Platform}.
Hypothesis Hcmp : stricmp_ok.

Lemma name_matches_refl dt a : name_matches dt a a = true.
Proof.
  unfold name_matches. destruct (case_sensitive dt); apply Z.eqb_eq;
    [apply strcmp_refl|apply (stricmp_refl Hcmp)].
Qed.

Lemma name_matches_sym dt a b : name_matches dt a b = true -> name_matches dt b a = true.
Proof.
  unfold name_matches. destruct (case_sensitive dt); rewrite !Z.eqb_eq.
  - rewrite !strcmp_eq. congruence.
  - apply (stricmp_sym Hcmp).
Qed.

Lemma name_matches_trans dt a b c :
  name_matches dt a b = true -> name_matches dt b c = true -> name_matches dt a c = true.
Proof.
  unfold name_matches. destruct (case_sensitive dt); rewrite !Z.eqb_eq.
  - rewrite !strcmp_eq. congruence.
  - apply (stricmp_trans Hcmp).
Qed.

Lemma name_matches_slashes dt a b : name_matches dt a b = true -> slashes a = slashes b.
Proof.
  unfold name_matches. destruct (case_sensitive dt); rewrite !Z.eqb_eq.
  - rewrite strcmp_eq. congruence.
  - apply (stricmp_slashes Hcmp).
Qed.

(** The test of the bucket scan on the entry at [p]. *)
Definition entry_matches (dt : __PHYSFS_DirTree) (path : list ascii) (p : nat) : bool :=
  match ename (entries dt) p with
  | Some n => name_matches dt n path
  | None => false
  end.

(** The move to front of [p], whose predecessor in the chain of bucket
    [b] is [q]. *)
Definition splice (dt : __PHYSFS_DirTree) (b q p : nat) : __PHYSFS_DirTree :=
  mkDirTree
    (set_hashnext p (bucket_head dt b)
       (set_hashnext q (default None (hnext (entries dt) p)) (entries dt)))
    (root dt) (<[b := Some p]> (hash dt))
    (hashBuckets dt) (case_sensitive dt) (only_usascii dt).

Lemma find_loop_scan (fuel : nat) (dt : __PHYSFS_DirTree) (path : list ascii) (b : nat)
    (prev retval : option nat) (l : list nat) :
  is_seg (entries dt) retval l None -> length l < fuel ->
  find_loop fuel dt path b prev retval =
    Some (match scan (entry_matches dt path) prev l with
          | None => (dt, None)
          | Some (None, p) => (dt, Some p)
          | Some (Some q, p) => (splice dt b q p, Some p)
          end).
Proof.
  revert fuel prev retval. induction l as [|p l IH]; intros fuel prev retval Hseg Hfuel.
  - inversion Hseg; subst. destruct fuel; reflexivity.
  - inversion Hseg as [|p' nx l' b' Hn Hseg']; subst.
    destruct fuel as [|fuel]; [cbn in Hfuel; lia|].
    cbn [find_loop scan]. unfold entry_matches, ename. unfold hnext in Hn.
    destruct (entries dt !! p) as [e|] eqn:He; [|discriminate].
    cbn [mbind option_bind fmap option_fmap option_map] in *.
    injection Hn as <-.
    destruct (name_matches dt (name (tree e)) path).
    + destruct prev as [q|]; [|reflexivity].
      unfold splice, hnext. rewrite He. reflexivity.
    + apply IH; [exact Hseg'|cbn in Hfuel; lia].
Qed.

(** *** The representation invariant

    [ch b] is the chain of bucket [b].  Chains have no repetition; an
    entry sits in the bucket of its own name, which is not empty; and no
    two entries of a chain have matching names. *)
Record bucket_ok (dt : __PHYSFS_DirTree) (b : nat) (l : list nat) : Prop := mkBucketOk {
  bucket_seg : is_seg (entries dt) (bucket_head dt b) l None;
  bucket_nodup : NoDup l;
  bucket_names : forall p, p ∈ l ->
    exists n, ename (entries dt) p = Some n /\ n <> [] /\ hashPathName dt n = b;
  bucket_distinct : forall p q n m, p ∈ l -> q ∈ l -> p <> q ->
    ename (entries dt) p = Some n -> ename (entries dt) q = Some m ->
    name_matches dt n m = false
}.

Record tree_repr (dt : __PHYSFS_DirTree) (ch : nat -> list nat) : Prop := mkTreeRepr {
  repr_buckets : length (hash dt) = hashBuckets dt;
  repr_positive : 0 < hashBuckets dt;
  repr_root : root dt < length (entries dt);
  repr_chains : forall b, b < hashBuckets dt -> bucket_ok dt b (ch b)
}.

Definition tree_ok (dt : __PHYSFS_DirTree) : Prop := exists ch, tree_repr dt ch.

Lemma hashPathName_lt dt nm : 0 < hashBuckets dt -> hashPathName dt nm < hashBuckets dt.
Proof.
  intros Hpos. unfold hashPathName.
  match goal with |- Z.to_nat (?x mod ?y) < _ => pose proof (Z.mod_pos_bound x y) end.
  lia.
Qed.

Lemma tree_repr_init cs ua : tree_repr (__PHYSFS_DirTreeInit cs ua) (fun _ => []).
Proof.
  unfold __PHYSFS_DirTreeInit. split; cbn [hash hashBuckets root entries length].
  - apply length_replicate.
  - lia.
  - lia.
  - intros b Hb. split.
    + unfold bucket_head. cbn [hash]. rewrite lookup_replicate_2 by exact Hb. constructor.
    + constructor.
    + intros p Hp. inversion Hp.
    + intros p q n m Hp. inversion Hp.
Qed.

(** A chain is not longer than the store. *)
Lemma chain_length_le dt b l : bucket_ok dt b l -> length l <= length (entries dt).
Proof.
  intros [Hseg Hnd _ _].
  rewrite <- (length_seq (length (entries dt)) 0).
  apply NoDup_incl_length; [apply NoDup_ListNoDup, Hnd|].
  intros p Hp. apply in_seq. apply list_elem_of_In in Hp.
  destruct (is_seg_valid _ _ _ _ p Hseg Hp) as [nx Hn]. apply hnext_Some_lt in Hn. lia.
Qed.

(** At most one entry of a chain matches a given path. *)
Lemma bucket_match_unique dt b l path p q :
  bucket_ok dt b l -> p ∈ l -> q ∈ l ->
  entry_matches dt path p = true -> entry_matches dt path q = true -> p = q.
Proof.
  intros Hb Hp Hq Hmp Hmq. destruct (decide (p = q)) as [|Hne]; [assumption|exfalso].
  unfold entry_matches in *.
  destruct (ename (entries dt) p) as [n|] eqn:Hn; [|discriminate].
  destruct (ename (entries dt) q) as [m|] eqn:Hm; [|discriminate].
  pose proof (bucket_distinct _ _ _ Hb p q n m Hp Hq Hne Hn Hm) as Hd.
  rewrite (name_matches_trans dt n path m) in Hd; [discriminate|exact Hmp|].
  apply name_matches_sym, Hmq.
Qed.


(** Two trees of the same shape hash and compare names alike. *)
Definition same_shape (dt dt' : __PHYSFS_DirTree) : Prop :=
  hashBuckets dt' = hashBuckets dt /\ case_sensitive dt' = case_sensitive dt /\
  only_usascii dt' = only_usascii dt /\ root dt' = root dt /\
  length (hash dt') = length (hash dt).

Lemma same_shape_refl dt : same_shape dt dt.
Proof. repeat split. Qed.

Lemma same_shape_trans dt1 dt2 dt3 :
  same_shape dt1 dt2 -> same_shape dt2 dt3 -> same_shape dt1 dt3.
Proof. unfold same_shape. intros (?&?&?&?&?) (?&?&?&?&?). repeat split; congruence. Qed.

Lemma same_shape_hash dt dt' nm : same_shape dt dt' -> hashPathName dt' nm = hashPathName dt nm.
Proof. intros (Hb & Hc & Hu & _). unfold hashPathName. rewrite Hb, Hc, Hu. reflexivity. Qed.

Lemma same_shape_matches dt dt' a b :
  same_shape dt dt' -> name_matches dt' a b = name_matches dt a b.
Proof. intros (_ & Hc & _). unfold name_matches. rewrite Hc. reflexivity. Qed.

Lemma entry_matches_ext dt dt' path p :
  same_shape dt dt' -> ename (entries dt') p = ename (entries dt) p ->
  entry_matches dt' path p = entry_matches dt path p.
Proof.
  intros Hs He. unfold entry_matches. rewrite He.
  destruct (ename (entries dt) p); [apply same_shape_matches, Hs|reflexivity].
Qed.

(** A chain keeps its properties when it is relinked in another order
    in a tree with the same names. *)
Lemma bucket_ok_transfer dt dt' b l l' :
  bucket_ok dt b l -> same_shape dt dt' -> l' ≡ₚ l ->
  (forall p, p ∈ l -> ename (entries dt') p = ename (entries dt) p) ->
  is_seg (entries dt') (bucket_head dt' b) l' None ->
  bucket_ok dt' b l'.
Proof.
  intros [Hseg Hnd Hnames Hdist] Hshape Hperm Hen Hseg'. split.
  - exact Hseg'.
  - rewrite Hperm. exact Hnd.
  - intros p Hp. rewrite Hperm in Hp. destruct (Hnames p Hp) as (n & Hn & Hne & Hh).
    exists n. split; [rewrite (Hen p Hp); exact Hn|]. split; [exact Hne|].
    rewrite (same_shape_hash dt dt' n Hshape). exact Hh.
  - intros p q n m Hp Hq Hpq Hn Hm. rewrite Hperm in Hp, Hq.
    rewrite (Hen p Hp) in Hn. rewrite (Hen q Hq) in Hm.
    rewrite (same_shape_matches dt dt' n m Hshape). exact (Hdist p q n m Hp Hq Hpq Hn Hm).
Qed.

Lemma bucket_head_insert dt b b' p (es : list UNPKentry) :
  b < length (hash dt) ->
  bucket_head (mkDirTree es (root dt) (<[b := Some p]> (hash dt))
                         (hashBuckets dt) (case_sensitive dt) (only_usascii dt)) b' =
  if decide (b' = b) then Some p else bucket_head dt b'.
Proof.
  intros Hb. unfold bucket_head. cbn [hash].
  destruct (decide (b' = b)) as [->|Hne].
  - rewrite list_lookup_insert_eq by exact Hb. reflexivity.
  - rewrite list_lookup_insert_ne by congruence. reflexivity.
Qed.

(** The move to front keeps the representation: the chain of the bucket
    is the old one with [p] moved to its head. *)
Lemma splice_repr dt ch b l1 q p l2 :
  tree_repr dt ch -> b < hashBuckets dt -> ch b = l1 ++ q :: p :: l2 ->
  tree_repr (splice dt b q p)
            (fun b' => if decide (b' = b) then p :: l1 ++ q :: l2 else ch b').
Proof.
  intros [Hlen Hpos Hroot Hch] Hb Hl.
  pose proof (Hch b Hb) as Hbok. destruct Hbok as [Hseg Hnd Hnames Hdist].
  rewrite Hl in Hseg, Hnd.
  apply is_seg_app in Hseg as (b0 & Hs1 & Hs2).
  inversion Hs2 as [|q' nxq l' b' Hnq Hs3]; subst.
  inversion Hs3 as [|p' nxp l'' b'' Hnp Hs4]; subst.
  apply NoDup_app in Hnd as (Hnd1 & Hnd12 & Hnd2).
  apply NoDup_cons in Hnd2 as (Hq2 & Hnd2). apply NoDup_cons in Hnd2 as (Hp2 & Hnd2).
  assert (Hqp : q <> p). { intros ->. apply Hq2. left. }
  assert (Hq1 : q ∉ l1). { intros Hin. apply (Hnd12 q Hin). left. }
  assert (Hp1 : p ∉ l1). { intros Hin. apply (Hnd12 p Hin). right. left. }
  assert (Hq3 : q ∉ l2). { intros Hin. apply Hq2. right. exact Hin. }
  pose proof (hnext_Some_lt _ _ _ Hnp) as Hplt.
  pose proof (hnext_Some_lt _ _ _ Hnq) as Hqlt.
  set (es' := set_hashnext p (bucket_head dt b)
                (set_hashnext q (default None (hnext (entries dt) p)) (entries dt))).
  assert (Hhn : forall x, hnext es' x =
            if decide (x = p) then Some (bucket_head dt b)
            else if decide (x = q) then Some nxp else hnext (entries dt) x).
  { intros x. unfold es'. rewrite hnext_set_hashnext, length_set_hashnext.
    destruct (decide (x = p)); [destruct (decide (p < length (entries dt))); [reflexivity|lia]|].
    rewrite hnext_set_hashnext. rewrite Hnp. cbn [default].
    destruct (decide (x = q)); [destruct (decide (q < length (entries dt))); [reflexivity|lia]|].
    reflexivity. }
  assert (Hen : forall x, ename es' x = ename (entries dt) x).
  { intros x. unfold es'. rewrite !ename_set_hashnext. reflexivity. }
  assert (Hshape : same_shape dt (splice dt b q p)).
  { unfold splice. repeat split. cbn [hash]. apply length_insert. }
  assert (Hframe : forall l : list nat, p ∉ l -> q ∉ l ->
            forall x, x ∈ l -> hnext es' x = hnext (entries dt) x).
  { intros l Hpl Hql x Hx. rewrite Hhn.
    destruct (decide (x = p)) as [->|]; [contradiction|].
    destruct (decide (x = q)) as [->|]; [contradiction|reflexivity]. }
  split.
  - unfold splice. cbn [hash hashBuckets]. rewrite length_insert. exact Hlen.
  - exact Hpos.
  - unfold splice. cbn [root entries]. fold es'. unfold es'.
    rewrite !length_set_hashnext. exact Hroot.
  - intros b' Hb'. change (hashBuckets (splice dt b q p)) with (hashBuckets dt) in Hb'.
    destruct (decide (b' = b)) as [->|Hne].
    + apply (bucket_ok_transfer dt _ b (ch b)); [apply Hch, Hb|exact Hshape| | |].
      * rewrite Hl. symmetry.
        etransitivity; [apply Permutation_app_head, perm_swap|].
        symmetry. apply Permutation_middle.
      * intros x _. apply Hen.
      * unfold splice. rewrite bucket_head_insert by lia.
        destruct (decide (b = b)); [|congruence]. cbn [entries]. fold es'.
        econstructor; [rewrite Hhn; destruct (decide (p = p)); [reflexivity|congruence]|].
        apply is_seg_app. exists (Some q). split.
        -- apply (is_seg_frame (entries dt)); [exact Hs1|apply Hframe; assumption].
        -- econstructor.
           ++ rewrite Hhn. destruct (decide (q = p)); [congruence|].
              destruct (decide (q = q)); [reflexivity|congruence].
           ++ apply (is_seg_frame (entries dt)); [exact Hs4|apply Hframe; assumption].
    + pose proof (Hch b' Hb') as Hb'ok.
      assert (Hout : forall x, x ∈ ch b' -> x <> p /\ x <> q).
      { intros x Hx. destruct (bucket_names _ _ _ Hb'ok x Hx) as (n & Hn & _ & Hh).
        assert (Hpin : p ∈ ch b) by (rewrite Hl; apply elem_of_app; right; right; left).
        assert (Hqin : q ∈ ch b) by (rewrite Hl; apply elem_of_app; right; left).
        destruct (Hnames p Hpin) as (np & Hnp' & _ & Hhp).
        destruct (Hnames q Hqin) as (nq & Hnq' & _ & Hhq).
        split; intros ->; congruence. }
      apply (bucket_ok_transfer dt _ b' (ch b')); [exact Hb'ok|exact Hshape|reflexivity| |].
      * intros x _. apply Hen.
      * unfold splice. rewrite bucket_head_insert by lia.
        destruct (decide (b' = b)); [congruence|]. cbn [entries]. fold es'.
        apply (is_seg_frame (entries dt)); [apply (bucket_seg _ _ _ Hb'ok)|].
        intros x Hx. destruct (Hout x Hx) as [Hxp Hxq]. rewrite Hhn.
        destruct (decide (x = p)); [contradiction|].
        destruct (decide (x = q)); [contradiction|reflexivity].
Qed.


(** *** What [__PHYSFS_DirTreeFind] returns *)

(** The entry a path stands for: the root for the empty path, else the
    entry of the path's bucket whose name matches. *)
Definition tree_lookup (dt : __PHYSFS_DirTree) (ch : nat -> list nat) (path : list ascii)
  : option nat :=
  match path with
  | [] => Some (root dt)
  | _ => first_match (entry_matches dt path) (ch (hashPathName dt path))
  end.

Definition find_result (o : option nat) : res nat :=
  match o with
  | Some p => Ok p
  | None => Bail PHYSFS_ERR_NOT_FOUND
  end.

(** Two representations with the same names, and the same chains up to
    their order. *)
Definition same_index (dt : __PHYSFS_DirTree) (ch : nat -> list nat)
    (dt' : __PHYSFS_DirTree) (ch' : nat -> list nat) : Prop :=
  same_shape dt dt' /\ length (entries dt') = length (entries dt) /\
  (forall x, ename (entries dt') x = ename (entries dt) x) /\
  (forall b, ch' b ≡ₚ ch b).

Lemma last_some_snoc (l1 : list nat) (q : nat) :
  last (None :: (Some <$> l1)) = Some (Some q) -> exists l0, l1 = l0 ++ [q].
Proof.
  destruct l1 as [|x l1] using rev_ind; [discriminate|].
  rewrite fmap_app. cbn [fmap list_fmap]. rewrite app_comm_cons, last_snoc.
  intros [= ->]. eauto.
Qed.

Lemma DirTreeFind_spec (dt : __PHYSFS_DirTree) (ch : nat -> list nat) (path : list ascii) :
  tree_repr dt ch ->
  exists dt' ch',
    __PHYSFS_DirTreeFind dt path = Some (dt', find_result (tree_lookup dt ch path)) /\
    tree_repr dt' ch' /\ same_index dt ch dt' ch'.
Proof.
  intros Hrepr.
  assert (Hsame : same_index dt ch dt ch).
  { split; [apply same_shape_refl|]. repeat split; reflexivity. }
  destruct path as [|c path];
    [exists dt, ch; split; [reflexivity|]; split; assumption|].
  unfold __PHYSFS_DirTreeFind, tree_lookup.
  set (nm := c :: path). set (b := hashPathName dt nm).
  assert (Hb : b < hashBuckets dt) by (apply hashPathName_lt, (repr_positive _ _ Hrepr)).
  pose proof (repr_chains _ _ Hrepr b Hb) as Hbok.
  rewrite (find_loop_scan _ dt nm b None _ (ch b));
    [|apply (bucket_seg _ _ _ Hbok)|pose proof (chain_length_le _ _ _ Hbok); lia].
  rewrite <- scan_first_match with (prev := None).
  destruct (scan (entry_matches dt nm) None (ch b)) as [[[q|] p]|] eqn:Hscan;
    cbn [mbind option_bind fmap option_fmap option_map snd find_result].
  - apply scan_Some in Hscan as (l1 & l2 & Hl & _ & _ & Hlast).
    apply last_some_snoc in Hlast as [l0 ->]. rewrite <- app_assoc in Hl. cbn [app] in Hl.
    eexists _, _. split; [reflexivity|]. split; [apply (splice_repr dt ch b l0 q p l2); assumption|].
    split; [unfold splice; repeat split; cbn [hash]; apply length_insert|].
    split; [unfold splice; cbn [entries]; rewrite !length_set_hashnext; reflexivity|].
    split; [intros x; unfold splice; cbn [entries]; rewrite !ename_set_hashnext; reflexivity|].
    intros b'. destruct (decide (b' = b)) as [->|]; [|reflexivity].
    rewrite Hl. symmetry.
    etransitivity; [apply Permutation_app_head, perm_swap|].
    symmetry. apply Permutation_middle.
  - exists dt, ch. split; [reflexivity|]. split; assumption.
  - exists dt, ch. split; [reflexivity|]. split; assumption.
Qed.

(** The entry a path stands for does not depend on the order of the
    chains. *)
Lemma tree_lookup_same_index dt ch dt' ch' path :
  tree_repr dt ch -> same_index dt ch dt' ch' ->
  tree_lookup dt' ch' path = tree_lookup dt ch path.
Proof.
  intros Hrepr (Hshape & _ & Hen & Hperm). unfold tree_lookup.
  destruct path as [|c path]; [f_equal; apply Hshape|].
  rewrite (same_shape_hash dt dt' _ Hshape).
  set (nm := c :: path). set (b := hashPathName dt nm).
  assert (Hb : b < hashBuckets dt) by (apply hashPathName_lt, (repr_positive _ _ Hrepr)).
  pose proof (repr_chains _ _ Hrepr b Hb) as Hbok.
  rewrite (first_match_perm _ (ch' b) (ch b)); [|
    |apply Hperm].
  - clear Hbok. induction (ch b) as [|x l IH]; [reflexivity|]. cbn [first_match].
    rewrite (entry_matches_ext dt dt' nm x Hshape (Hen x)), IH. reflexivity.
  - intros x y Hx Hy Hmx Hmy. rewrite (Hperm b) in Hx, Hy.
    rewrite (entry_matches_ext dt dt' nm x Hshape (Hen x)) in Hmx.
    rewrite (entry_matches_ext dt dt' nm y Hshape (Hen y)) in Hmy.
    exact (bucket_match_unique dt b (ch b) nm x y Hbok Hx Hy Hmx Hmy).
Qed.


Lemma tree_lookup_valid dt ch path p :
  tree_repr dt ch -> tree_lookup dt ch path = Some p -> p < length (entries dt).
Proof.
  intros Hrepr. unfold tree_lookup. destruct path as [|c path].
  - intros [= <-]. apply (repr_root _ _ Hrepr).
  - intros Hf. apply first_match_Some in Hf as [Hin _].
    assert (Hb : hashPathName dt (c :: path) < hashBuckets dt)
      by (apply hashPathName_lt, (repr_positive _ _ Hrepr)).
    destruct (bucket_names _ _ _ (repr_chains _ _ Hrepr _ Hb) p Hin) as (n & Hn & _).
    apply ename_Some_lt in Hn. exact Hn.
Qed.

(** *** Growth of a tree

    [grows dt ch dt' ch' k]: the tree [dt'] has the entries of [dt] under
    the same names, its chains hold those of [dt], and the entries they
    hold in addition are new ones whose names have fewer than [k]
    separators. *)
Definition grows (dt : __PHYSFS_DirTree) (ch : nat -> list nat)
    (dt' : __PHYSFS_DirTree) (ch' : nat -> list nat) (k : nat) : Prop :=
  same_shape dt dt' /\ length (entries dt) <= length (entries dt') /\
  (forall x n, ename (entries dt) x = Some n -> ename (entries dt') x = Some n) /\
  (forall b x, x ∈ ch b -> x ∈ ch' b) /\
  (forall b x, x ∈ ch' b -> x ∉ ch b ->
     length (entries dt) <= x /\
     exists n, ename (entries dt') x = Some n /\ slashes n < k).

Lemma grows_same_index dt ch dt' ch' k : same_index dt ch dt' ch' -> grows dt ch dt' ch' k.
Proof.
  intros (Hshape & Hlen & Hen & Hperm). split; [exact Hshape|]. split; [lia|].
  split; [intros x n; rewrite Hen; tauto|]. split.
  - intros b x Hx. rewrite (Hperm b). exact Hx.
  - intros b x Hx Hnx. rewrite (Hperm b) in Hx. contradiction.
Qed.

Lemma grows_trans dt ch dt1 ch1 dt2 ch2 k :
  grows dt ch dt1 ch1 k -> grows dt1 ch1 dt2 ch2 k -> grows dt ch dt2 ch2 k.
Proof.
  intros (Hs1 & Hl1 & He1 & Hi1 & Hn1) (Hs2 & Hl2 & He2 & Hi2 & Hn2).
  split; [eapply same_shape_trans; eassumption|]. split; [lia|].
  split; [intros x n Hx; apply He2, He1, Hx|]. split; [intros b x Hx; apply Hi2, Hi1, Hx|].
  intros b x Hx Hnx. destruct (decide (x ∈ ch1 b)) as [Hx1|Hx1].
  - destruct (Hn1 b x Hx1 Hnx) as (Hle & n & Hn & Hk). split; [exact Hle|].
    exists n. split; [apply He2, Hn|exact Hk].
  - destruct (Hn2 b x Hx Hx1) as (Hle & n & Hn & Hk). split; [lia|].
    exists n. split; [exact Hn|exact Hk].
Qed.

Lemma grows_mono dt ch dt' ch' k k' : grows dt ch dt' ch' k -> k <= k' -> grows dt ch dt' ch' k'.
Proof.
  intros (Hs & Hl & He & Hi & Hn) Hk. repeat (split; [assumption|]).
  intros b x Hx Hnx. destruct (Hn b x Hx Hnx) as (Hle & n & Hen & Hsl).
  split; [exact Hle|]. exists n. split; [exact Hen|lia].
Qed.


(** *** Insertion of a new entry *)

Lemma hnext_snoc es e x :
  hnext (es ++ [e]) x = if decide (x = length es) then Some (hashnext (tree e)) else hnext es x.
Proof.
  unfold hnext. destruct (decide (x = length es)) as [->|Hne].
  - rewrite lookup_app_r by lia. rewrite Nat.sub_diag. reflexivity.
  - destruct (decide (x < length es)) as [Hlt|Hge].
    + rewrite lookup_app_l by exact Hlt. reflexivity.
    + rewrite !lookup_ge_None_2; [reflexivity|lia|rewrite length_app; cbn [length]; lia].
Qed.

Lemma ename_snoc es e x :
  ename (es ++ [e]) x = if decide (x = length es) then Some (name (tree e)) else ename es x.
Proof.
  unfold ename. destruct (decide (x = length es)) as [->|Hne].
  - rewrite lookup_app_r by lia. rewrite Nat.sub_diag. reflexivity.
  - destruct (decide (x < length es)) as [Hlt|Hge].
    + rewrite lookup_app_l by exact Hlt. reflexivity.
    + rewrite !lookup_ge_None_2; [reflexivity|lia|rewrite length_app; cbn [length]; lia].
Qed.

(** The tree [__PHYSFS_DirTreeAdd] builds when it allocates the entry for
    [nm] under [parent], whose entry is [pe]. *)
Definition push (dt : __PHYSFS_DirTree) (parent : nat) (pe : UNPKentry) (nm : list ascii)
    (is_dir : bool) : __PHYSFS_DirTree :=
  mkDirTree
    (set_children parent (Some (length (entries dt)))
       (entries dt ++
        [mkUNPKentry (mkDirTreeEntry nm (bucket_head dt (hashPathName dt nm)) None
                                     (children (tree pe)) is_dir) 0 0 0 0]))
    (root dt) (<[hashPathName dt nm := Some (length (entries dt))]> (hash dt))
    (hashBuckets dt) (case_sensitive dt) (only_usascii dt).

Lemma chain_member_lt dt ch b x :
  tree_repr dt ch -> b < hashBuckets dt -> x ∈ ch b -> x < length (entries dt).
Proof.
  intros Hrepr Hb Hx.
  destruct (bucket_names _ _ _ (repr_chains _ _ Hrepr b Hb) x Hx) as (n & Hn & _).
  apply ename_Some_lt in Hn. exact Hn.
Qed.

Lemma push_repr dt ch parent pe nm is_dir :
  tree_repr dt ch -> nm <> [] ->
  (forall x, x ∈ ch (hashPathName dt nm) -> entry_matches dt nm x = false) ->
  tree_repr (push dt parent pe nm is_dir)
            (fun b' => if decide (b' = hashPathName dt nm)
                       then length (entries dt) :: ch b' else ch b').
Proof.
  intros Hrepr Hne Hfresh.
  set (b := hashPathName dt nm). set (n := length (entries dt)).
  assert (Hb : b < hashBuckets dt) by (apply hashPathName_lt, (repr_positive _ _ Hrepr)).
  assert (Hshape : same_shape dt (push dt parent pe nm is_dir)).
  { unfold push. repeat split. cbn [hash]. apply length_insert. }
  assert (Hhn : forall x, hnext (entries (push dt parent pe nm is_dir)) x =
                          if decide (x = n) then Some (bucket_head dt b) else hnext (entries dt) x).
  { intros x. unfold push. cbn [entries]. rewrite hnext_set_children, hnext_snoc. reflexivity. }
  assert (Hen : forall x, ename (entries (push dt parent pe nm is_dir)) x =
                          if decide (x = n) then Some nm else ename (entries dt) x).
  { intros x. unfold push. cbn [entries]. rewrite ename_set_children, ename_snoc. reflexivity. }
  assert (Hold : forall b' x, b' < hashBuckets dt -> x ∈ ch b' -> x <> n).
  { intros b' x Hb' Hx. pose proof (chain_member_lt dt ch b' x Hrepr Hb' Hx). unfold n. lia. }
  assert (Hhead : forall b', bucket_head (push dt parent pe nm is_dir) b' =
                             if decide (b' = b) then Some n else bucket_head dt b').
  { intros b'. unfold push. apply bucket_head_insert.
    rewrite (repr_buckets _ _ Hrepr). exact Hb. }
  split.
  - unfold push. cbn [hash hashBuckets]. rewrite length_insert. apply (repr_buckets _ _ Hrepr).
  - apply (repr_positive _ _ Hrepr).
  - unfold push. cbn [root entries]. rewrite length_set_children, length_app. cbn [length].
    pose proof (repr_root _ _ Hrepr). lia.
  - intros b' Hb'. change (hashBuckets (push dt parent pe nm is_dir)) with (hashBuckets dt) in Hb'.
    pose proof (repr_chains _ _ Hrepr b' Hb') as Hbok.
    assert (Hseg' : is_seg (entries (push dt parent pe nm is_dir)) (bucket_head dt b') (ch b') None).
    { apply (is_seg_frame (entries dt)); [apply (bucket_seg _ _ _ Hbok)|].
      intros x Hx. rewrite Hhn. destruct (decide (x = n)) as [Hx'|]; [|reflexivity].
      exfalso. exact (Hold b' x Hb' Hx Hx'). }
    assert (Hen' : forall x, x ∈ ch b' ->
              ename (entries (push dt parent pe nm is_dir)) x = ename (entries dt) x).
    { intros x Hx. rewrite Hen. destruct (decide (x = n)) as [Hx'|]; [|reflexivity].
      exfalso. exact (Hold b' x Hb' Hx Hx'). }
    destruct (decide (b' = b)) as [->|Hbne].
    + split.
      * rewrite Hhead. destruct (decide (b = b)); [|congruence].
        econstructor; [|exact Hseg']. rewrite Hhn.
        destruct (decide (n = n)); [reflexivity|congruence].
      * apply NoDup_cons. split; [|apply (bucket_nodup _ _ _ Hbok)].
        intros Hin. exact (Hold b n Hb Hin eq_refl).
      * intros p Hp. apply elem_of_cons in Hp as [->|Hp].
        -- exists nm. rewrite Hen. destruct (decide (n = n)); [|congruence].
           split; [reflexivity|]. split; [exact Hne|].
           apply (same_shape_hash dt _ nm Hshape).
        -- destruct (bucket_names _ _ _ Hbok p Hp) as (m & Hm & Hme & Hmh).
           exists m. rewrite (Hen' p Hp). split; [exact Hm|]. split; [exact Hme|].
           rewrite (same_shape_hash dt _ m Hshape). exact Hmh.
      * intros p q m1 m2 Hp Hq Hpq Hm1 Hm2.
        rewrite (same_shape_matches dt _ m1 m2 Hshape).
        apply elem_of_cons in Hp as [->|Hp]; apply elem_of_cons in Hq as [->|Hq].
        -- congruence.
        -- rewrite Hen in Hm1. destruct (decide (n = n)); [|congruence].
           injection Hm1 as <-. rewrite (Hen' q Hq) in Hm2.
           pose proof (Hfresh q Hq) as Hf. unfold entry_matches in Hf. rewrite Hm2 in Hf.
           destruct (name_matches dt nm m2) eqn:Hnm; [|reflexivity].
           apply name_matches_sym in Hnm. congruence.
        -- rewrite Hen in Hm2. destruct (decide (n = n)); [|congruence].
           injection Hm2 as <-. rewrite (Hen' p Hp) in Hm1.
           pose proof (Hfresh p Hp) as Hf. unfold entry_matches in Hf. rewrite Hm1 in Hf.
           exact Hf.
        -- rewrite (Hen' p Hp) in Hm1. rewrite (Hen' q Hq) in Hm2.
           exact (bucket_distinct _ _ _ Hbok p q m1 m2 Hp Hq Hpq Hm1 Hm2).
    + apply (bucket_ok_transfer dt _ b' (ch b') (ch b') Hbok Hshape); [reflexivity|exact Hen'|].
      rewrite Hhead. destruct (decide (b' = b)); [congruence|]. exact Hseg'.
Qed.


Lemma push_grows dt ch parent pe nm is_dir :
  tree_repr dt ch ->
  grows dt ch (push dt parent pe nm is_dir)
        (fun b' => if decide (b' = hashPathName dt nm)
                   then length (entries dt) :: ch b' else ch b')
        (Datatypes.S (slashes nm)).
Proof.
  intros Hrepr.
  assert (Hen : forall x, ename (entries (push dt parent pe nm is_dir)) x =
                          if decide (x = length (entries dt)) then Some nm
                          else ename (entries dt) x).
  { intros x. unfold push. cbn [entries]. rewrite ename_set_children, ename_snoc. reflexivity. }
  split; [unfold push; repeat split; cbn [hash]; apply length_insert|].
  split; [unfold push; cbn [entries]; rewrite length_set_children, length_app; lia|].
  split; [|split].
  - intros x n Hx. rewrite Hen. apply ename_Some_lt in Hx as Hlt.
    destruct (decide (x = length (entries dt))); [lia|exact Hx].
  - intros b x Hx. destruct (decide (b = hashPathName dt nm)); [right|]; exact Hx.
  - intros b x Hx Hnx. destruct (decide (b = hashPathName dt nm)); [|contradiction].
    apply elem_of_cons in Hx as [->|Hx]; [|contradiction].
    split; [lia|]. exists nm. rewrite Hen.
    destruct (decide (length (entries dt) = length (entries dt))); [|congruence].
    split; [reflexivity|lia].
Qed.

(** Growth keeps what a path stands for. *)
Lemma grows_lookup dt ch dt' ch' k path p :
  tree_repr dt ch -> tree_repr dt' ch' -> grows dt ch dt' ch' k ->
  tree_lookup dt ch path = Some p -> tree_lookup dt' ch' path = Some p.
Proof.
  intros Hrepr Hrepr' (Hshape & _ & Hen & Hin & _). unfold tree_lookup.
  destruct path as [|c path]; [intros [= <-]; f_equal; apply Hshape|].
  rewrite (same_shape_hash dt dt' _ Hshape).
  set (nm := c :: path). set (b := hashPathName dt nm).
  assert (Hb : b < hashBuckets dt) by (apply hashPathName_lt, (repr_positive _ _ Hrepr)).
  assert (Hb' : b < hashBuckets dt') by (destruct Hshape as [-> _]; exact Hb).
  intros Hf. apply first_match_Some in Hf as [Hp Hm].
  assert (Hm' : entry_matches dt' nm p = true).
  { unfold entry_matches in *. destruct (ename (entries dt) p) as [n|] eqn:Hn; [|discriminate].
    rewrite (Hen p n Hn), (same_shape_matches dt dt' n nm Hshape). exact Hm. }
  apply first_match_unique; [|apply Hin, Hp|exact Hm'].
  intros q Hq Hmq.
  exact (bucket_match_unique dt' b (ch' b) nm q p (repr_chains _ _ Hrepr' b Hb') Hq
           (Hin b p Hp) Hmq Hm').
Qed.

(** *** What [__PHYSFS_DirTreeAdd] returns *)

(** After the addition of [nm] the tree has grown, and the entry
    returned is the one [nm] stands for; when it is a new one, it bears
    the name [nm]. *)
Definition add_post (dt : __PHYSFS_DirTree) (ch : nat -> list nat) (nm : list ascii)
    (dt' : __PHYSFS_DirTree) (ch' : nat -> list nat) (r : res nat) : Prop :=
  tree_repr dt' ch' /\ grows dt ch dt' ch' (Datatypes.S (slashes nm)) /\
  forall p, r = Ok p ->
    tree_lookup dt' ch' nm = Some p /\
    (length (entries dt) <= p -> ename (entries dt') p = Some nm).

Lemma same_index_refl dt ch : same_index dt ch dt ch.
Proof. split; [apply same_shape_refl|]. repeat split; reflexivity. Qed.

Lemma addAncestors_spec add dt ch nm :
  tree_repr dt ch ->
  (forall dt0 ch0 pre d, tree_repr dt0 ch0 -> length pre < length nm ->
     exists dt' ch' r, add dt0 pre d = Some (dt', r) /\ add_post dt0 ch0 pre dt' ch' r) ->
  exists dt' ch' r, addAncestors add dt nm = Some (dt', r) /\ tree_repr dt' ch' /\
    grows dt ch dt' ch' (slashes nm) /\ forall p, r = Ok p -> p < length (entries dt').
Proof.
  intros Hrepr IH. unfold addAncestors.
  destruct (chop_last_slash nm) as [pre|] eqn:Hchop.
  - apply chop_last_slash_Some in Hchop as [Hlen Hsl].
    destruct (DirTreeFind_spec dt ch pre Hrepr) as (dt1 & ch1 & Hfind & Hrepr1 & Hsame).
    rewrite Hfind. cbn [mbind option_bind].
    destruct (tree_lookup dt ch pre) as [p|] eqn:Hlk; cbn [find_result].
    + pose proof (tree_lookup_valid dt ch pre p Hrepr Hlk) as Hp.
      assert (Hp1 : p < length (entries dt1)) by (destruct Hsame as (_ & -> & _); exact Hp).
      destruct (lookup_lt_is_Some_2 _ _ Hp1) as [e He]. rewrite He. cbn [mbind option_bind].
      destruct (isdir (tree e)); exists dt1, ch1; eexists; (split; [reflexivity|]);
        (split; [exact Hrepr1|]); (split; [apply grows_same_index, Hsame|]);
        [intros q [= <-]; exact Hp1|discriminate].
    + destruct (IH dt1 ch1 pre true Hrepr1 Hlen) as (dt2 & ch2 & r & Hadd & Hrepr2 & Hg & Hr).
      exists dt2, ch2, r. split; [exact Hadd|]. split; [exact Hrepr2|]. split.
      * rewrite Hsl. eapply grows_trans; [apply grows_same_index, Hsame|exact Hg].
      * intros p Hp. destruct (Hr p Hp) as [Hlk2 _].
        exact (tree_lookup_valid dt2 ch2 pre p Hrepr2 Hlk2).
  - exists dt, ch, (Ok (root dt)). split; [reflexivity|]. split; [exact Hrepr|].
    split; [apply grows_same_index, same_index_refl|].
    intros p [= <-]. apply (repr_root _ _ Hrepr).
Qed.

Lemma DirTreeAdd_rec_spec fuel : forall dt ch nm d,
  tree_repr dt ch -> length nm < fuel ->
  exists dt' ch' r, DirTreeAdd_rec fuel dt nm d = Some (dt', r) /\ add_post dt ch nm dt' ch' r.
Proof.
  induction fuel as [|fuel IH]; intros dt ch nm d Hrepr Hfuel; [lia|].
  cbn [DirTreeAdd_rec].
  destruct (DirTreeFind_spec dt ch nm Hrepr) as (dt1 & ch1 & Hfind & Hrepr1 & Hsame).
  rewrite Hfind. cbn [mbind option_bind].
  destruct (tree_lookup dt ch nm) as [p|] eqn:Hlk; cbn [find_result].
  { exists dt1, ch1, (Ok p). split; [reflexivity|]. split; [exact Hrepr1|].
    split; [apply grows_same_index, Hsame|]. intros q [= <-]. split.
    - rewrite (tree_lookup_same_index dt ch dt1 ch1 nm Hrepr Hsame). exact Hlk.
    - pose proof (tree_lookup_valid dt ch nm p Hrepr Hlk). lia. }
  assert (Hne : nm <> []) by (intros ->; discriminate).
  destruct (addAncestors_spec (DirTreeAdd_rec fuel) dt1 ch1 nm Hrepr1)
    as (dt2 & ch2 & par & Hanc & Hrepr2 & Hg2 & Hpar).
  { intros dt0 ch0 pre d0 Hrepr0 Hlen. apply IH; [exact Hrepr0|lia]. }
  rewrite Hanc. cbn [mbind option_bind].
  assert (Hg : grows dt ch dt2 ch2 (Datatypes.S (slashes nm))).
  { eapply grows_trans; [apply grows_same_index, Hsame|].
    eapply grows_mono; [exact Hg2|lia]. }
  destruct par as [parent|err|]; cbn [errpass];
    [|exists dt2, ch2; eexists; (split; [reflexivity|]); (split; [exact Hrepr2|]);
      (split; [exact Hg|]); discriminate..].
  destruct (lookup_lt_is_Some_2 _ _ (Hpar parent eq_refl)) as [pe Hpe].
  rewrite Hpe. cbn [mbind option_bind].
  assert (Hshape2 : same_shape dt dt2) by apply Hg.
  assert (Hfresh : forall x, x ∈ ch2 (hashPathName dt2 nm) -> entry_matches dt2 nm x = false).
  { intros x Hx. rewrite (same_shape_hash dt dt2 nm Hshape2) in Hx.
    set (b := hashPathName dt nm) in *.
    assert (Hb : b < hashBuckets dt) by (apply hashPathName_lt, (repr_positive _ _ Hrepr)).
    destruct (decide (x ∈ ch1 b)) as [Hx1|Hx1].
    - assert (Hx0 : x ∈ ch b) by (destruct Hsame as (_ & _ & _ & Hperm); rewrite <- (Hperm b); exact Hx1).
      destruct nm as [|c nm']; [congruence|]. cbn [tree_lookup] in Hlk.
      rewrite first_match_None in Hlk. pose proof (Hlk x Hx0) as Hm.
      destruct (bucket_names _ _ _ (repr_chains _ _ Hrepr b Hb) x Hx0) as (n & Hn & _).
      unfold entry_matches in *. rewrite Hn in Hm.
      destruct Hg as (_ & _ & Hen & _). rewrite (Hen x n Hn).
      rewrite (same_shape_matches dt dt2 _ _ Hshape2). exact Hm.
    - destruct Hg2 as (_ & _ & _ & _ & Hnew).
      destruct (Hnew b x Hx Hx1) as (_ & n & Hn & Hsl).
      unfold entry_matches. rewrite Hn.
      destruct (name_matches dt2 n nm) eqn:Hm; [|reflexivity].
      apply name_matches_slashes in Hm. lia. }
  eexists (push dt2 parent pe nm d), _, (Ok (length (entries dt2))).
  split; [reflexivity|]. split; [exact (push_repr dt2 ch2 parent pe nm d Hrepr2 Hne Hfresh)|].
  split; [eapply grows_trans; [exact Hg|apply push_grows, Hrepr2]|].
  intros q [= <-].
  assert (Hen : ename (entries (push dt2 parent pe nm d)) (length (entries dt2)) = Some nm).
  { unfold push. cbn [entries]. rewrite ename_set_children, ename_snoc.
    destruct (decide (length (entries dt2) = length (entries dt2))); [reflexivity|congruence]. }
  split; [|intros _; exact Hen].
  destruct nm as [|c nm']; [congruence|]. unfold tree_lookup.
  set (nm := c :: nm') in *.
  change (hashPathName (push dt2 parent pe nm d) nm) with (hashPathName dt2 nm).
  destruct (decide (hashPathName dt2 nm = hashPathName dt2 nm)); [|congruence].
  cbn [first_match]. unfold entry_matches at 1. rewrite Hen, name_matches_refl. reflexivity.
Qed.

Lemma DirTreeAdd_spec dt ch nm d :
  tree_repr dt ch ->
  exists dt' ch' r, __PHYSFS_DirTreeAdd dt nm d = Some (dt', r) /\ add_post dt ch nm dt' ch' r.
Proof. intros Hrepr. apply DirTreeAdd_rec_spec; [exact Hrepr|lia]. Qed.


(** *** The life of a tree

    What an archiver does to its tree once it is initialised: it adds
    names, it looks names up, and it writes the fields of an entry that
    follow the tree's own part, as [UNPK_addEntry] does.  Nothing is
    removed before the tree is torn down. *)
Inductive tree_step : __PHYSFS_DirTree -> __PHYSFS_DirTree -> Prop :=
  | tree_add dt nm is_dir dt' r :
      __PHYSFS_DirTreeAdd dt nm is_dir = Some (dt', r) -> tree_step dt dt'
  | tree_find dt path dt' r :
      __PHYSFS_DirTreeFind dt path = Some (dt', r) -> tree_step dt dt'
  | tree_fields dt p e e' :
      entries dt !! p = Some e -> tree e' = tree e ->
      tree_step dt (mkDirTree (<[p := e']> (entries dt)) (root dt) (hash dt)
                              (hashBuckets dt) (case_sensitive dt) (only_usascii dt)).

Lemma fields_repr dt ch p e e' :
  tree_repr dt ch -> entries dt !! p = Some e -> tree e' = tree e ->
  let dt' := mkDirTree (<[p := e']> (entries dt)) (root dt) (hash dt)
                       (hashBuckets dt) (case_sensitive dt) (only_usascii dt) in
  tree_repr dt' ch /\ same_index dt ch dt' ch.
Proof.
  intros Hrepr Hp He dt'.
  assert (Hlt : p < length (entries dt)) by (apply lookup_lt_Some in Hp; exact Hp).
  assert (Hhn : forall x, hnext (entries dt') x = hnext (entries dt) x).
  { intros x. unfold hnext, dt'. cbn [entries]. destruct (decide (x = p)) as [->|Hne].
    - rewrite list_lookup_insert_eq by exact Hlt. rewrite Hp. cbn. rewrite He. reflexivity.
    - rewrite list_lookup_insert_ne by congruence. reflexivity. }
  assert (Hen : forall x, ename (entries dt') x = ename (entries dt) x).
  { intros x. unfold ename, dt'. cbn [entries]. destruct (decide (x = p)) as [->|Hne].
    - rewrite list_lookup_insert_eq by exact Hlt. rewrite Hp. cbn. rewrite He. reflexivity.
    - rewrite list_lookup_insert_ne by congruence. reflexivity. }
  assert (Hshape : same_shape dt dt') by (repeat split).
  split.
  - split.
    + apply (repr_buckets _ _ Hrepr).
    + apply (repr_positive _ _ Hrepr).
    + unfold dt'. cbn [root entries]. rewrite length_insert. apply (repr_root _ _ Hrepr).
    + intros b Hb. pose proof (repr_chains _ _ Hrepr b Hb) as Hbok.
      apply (bucket_ok_transfer dt dt' b (ch b) (ch b) Hbok Hshape); [reflexivity| |].
      * intros x _. apply Hen.
      * apply (is_seg_frame (entries dt)); [apply (bucket_seg _ _ _ Hbok)|].
        intros x _. apply Hhn.
  - split; [exact Hshape|]. split; [unfold dt'; cbn [entries]; apply length_insert|].
    split; [exact Hen|reflexivity].
Qed.

Lemma tree_step_grows dt dt' ch :
  tree_step dt dt' -> tree_repr dt ch ->
  exists ch' k, tree_repr dt' ch' /\ grows dt ch dt' ch' k.
Proof.
  intros Hstep Hrepr. destruct Hstep as [dt nm d dt' r Hadd|dt path dt' r Hfind|dt p e e' Hp He].
  - destruct (DirTreeAdd_spec dt ch nm d Hrepr) as (dt1 & ch1 & r1 & Hadd1 & Hrepr1 & Hg & _).
    rewrite Hadd1 in Hadd. injection Hadd as <- _. eauto.
  - destruct (DirTreeFind_spec dt ch path Hrepr) as (dt1 & ch1 & Hfind1 & Hrepr1 & Hsame).
    rewrite Hfind1 in Hfind. injection Hfind as <- _.
    exists ch1, 0. split; [exact Hrepr1|apply grows_same_index, Hsame].
  - destruct (fields_repr dt ch p e e' Hrepr Hp He) as [Hrepr1 Hsame].
    exists ch, 0. split; [exact Hrepr1|apply grows_same_index, Hsame].
Qed.

Lemma tree_steps_grow dt dt' :
  rtc tree_step dt dt' -> forall ch, tree_repr dt ch ->
  exists ch' k, tree_repr dt' ch' /\ grows dt ch dt' ch' k.
Proof.
  induction 1 as [dt|dt dt1 dt2 Hstep _ IH]; intros ch Hrepr.
  - exists ch, 0. split; [exact Hrepr|apply grows_same_index, same_index_refl].
  - destruct (tree_step_grows dt dt1 ch Hstep Hrepr) as (ch1 & k1 & Hrepr1 & Hg1).
    destruct (IH ch1 Hrepr1) as (ch2 & k2 & Hrepr2 & Hg2).
    exists ch2, (Nat.max k1 k2). split; [exact Hrepr2|].
    eapply grows_trans; (eapply grows_mono; [eassumption|lia]).
Qed.

End DirTreeProofs.

(** The comparison of [usascii_platform] meets [stricmp_ok]. *)
Lemma fold_usascii_slash (c : ascii) : is_char (fold_usascii c) "/" = is_char c "/".
Proof. destruct c as [[] [] [] [] [] [] [] []]; reflexivity. Qed.

Lemma slashes_fold_usascii (a : list ascii) : slashes (map fold_usascii a) = slashes a.
Proof.
  induction a as [|c a IH]; [reflexivity|]. cbn [map].
  rewrite !slashes_cons, fold_usascii_slash, IH. reflexivity.
Qed.

Lemma usascii_stricmp_ok : @stricmp_ok usascii_platform.
Proof.
  split; cbn [PHYSFS_utf8stricmp usascii_platform]; unfold usascii_stricmp.
  - intros a. apply strcmp_refl.
  - intros a b. rewrite !strcmp_eq. congruence.
  - intros a b c. rewrite !strcmp_eq. congruence.
  - intros a b. rewrite strcmp_eq. intros Heq.
    rewrite <- (slashes_fold_usascii a), <- (slashes_fold_usascii b), Heq. reflexivity.
Qed.

(** A tree that folds case, after the addition of [maps/e1.map]. *)
Definition example_tree : __PHYSFS_DirTree :=
  Eval vm_compute in
    match @__PHYSFS_DirTreeAdd usascii_platform (__PHYSFS_DirTreeInit false true)
                               (cstr "maps/e1.map") false with
    | Some (dt, _) => dt
    | None => __PHYSFS_DirTreeInit false true
    end.

(** ** Path sanitation: what comes out *)

Lemma is_char_eq (c : ascii) (d : ascii) :
  is_char c (String d EmptyString) = true <-> c = d.
Proof. cbn [is_char]. apply Ascii.eqb_eq. Qed.

Lemma is_char_neq (c : ascii) (d : ascii) :
  is_char c (String d EmptyString) = false <-> c <> d.
Proof. cbn [is_char]. apply Ascii.eqb_neq. Qed.

(** The characters [sanitizePlatformIndependentPath] refuses. *)
Definition bad_char (c : ascii) : bool := is_char c ":" || is_char c "\".

(** [well_formed cur p]: [p] continues a path whose current segment is
    [cur] so far; it has no refused character, every separator in it is
    followed by a character that is not a separator, and every segment
    that a separator closes is neither "." nor "..". *)
Fixpoint well_formed (cur p : list ascii) : bool :=
  match p with
  | [] => true
  | c :: rest =>
      negb (bad_char c) &&
      if is_char c "/" then
        negb (dot_or_dotdot cur) &&
        match rest with
        | [] => false
        | d :: _ => negb (is_char d "/")
        end &&
        well_formed [] rest
      else well_formed (cur ++ [c]) rest
  end.

Lemma sanitize_loop_nil dst prev : sanitize_loop [] dst prev = Ok dst.
Proof. simp sanitize_loop. reflexivity. Qed.

Lemma sanitize_loop_cons ch src dst prev :
  sanitize_loop (ch :: src) dst prev =
    if is_char ch ":" || is_char ch "\" then Bail PHYSFS_ERR_BAD_FILENAME
    else if is_char ch "/" then
      if dot_or_dotdot (drop prev dst) then Bail PHYSFS_ERR_BAD_FILENAME
      else if bool_decide (skip_slashes src = []) then Ok dst
      else sanitize_loop (skip_slashes src) (dst ++ [ch]) (S (length dst))
    else sanitize_loop src (dst ++ [ch]) prev.
Proof. simp sanitize_loop. reflexivity. Qed.

Lemma drop_snoc_le (dst : list ascii) (c : ascii) (prev : nat) :
  prev <= length dst -> drop prev (dst ++ [c]) = drop prev dst ++ [c].
Proof. intros Hle. rewrite drop_app_le by exact Hle. reflexivity. Qed.

Lemma drop_snoc_all (dst : list ascii) (c : ascii) :
  drop (S (length dst)) (dst ++ [c]) = [].
Proof. apply drop_ge. rewrite length_app. cbn. lia. Qed.

(** A well-formed path goes through the loop unchanged. *)
Lemma sanitize_loop_well_formed src : forall dst prev,
  prev <= length dst -> well_formed (drop prev dst) src = true ->
  sanitize_loop src dst prev = Ok (dst ++ src).
Proof.
  induction src as [|c rest IH]; intros dst prev Hprev Hwf.
  - rewrite sanitize_loop_nil, app_nil_r. reflexivity.
  - rewrite sanitize_loop_cons. cbn [well_formed] in Hwf. unfold bad_char in Hwf.
    apply andb_true_iff in Hwf as [Hbad Hwf]. apply negb_true_iff in Hbad. rewrite Hbad.
    destruct (is_char c "/") eqn:Hc.
    + apply andb_true_iff in Hwf as [Hwf Hrest]. apply andb_true_iff in Hwf as [Hdot Hnext].
      apply negb_true_iff in Hdot. rewrite Hdot.
      destruct rest as [|d rest']; [discriminate|]. apply negb_true_iff in Hnext.
      cbn [skip_slashes]. rewrite Hnext.
      rewrite bool_decide_eq_false_2 by discriminate.
      rewrite IH; [rewrite <- app_assoc; reflexivity|rewrite length_app; cbn; lia|].
      rewrite drop_snoc_all. exact Hrest.
    + rewrite IH; [rewrite <- app_assoc; reflexivity|rewrite length_app; cbn; lia|].
      rewrite drop_snoc_le by exact Hprev. exact Hwf.
Qed.

Lemma skip_slashes_head (src : list ascii) :
  match skip_slashes src with
  | [] => True
  | c :: _ => is_char c "/" = false
  end.
Proof.
  induction src as [|c rest IH]; cbn [skip_slashes]; [exact I|].
  destruct (is_char c "/") eqn:Hc; [exact IH|exact Hc].
Qed.

Lemma skip_slashes_elem (src : list ascii) (c : ascii) :
  c ∈ src -> is_char c "/" = false -> c ∈ skip_slashes src.
Proof.
  induction src as [|d rest IH]; intros Hin Hc; [inversion Hin|].
  cbn [skip_slashes]. destruct (is_char d "/") eqn:Hd; [|exact Hin].
  apply elem_of_cons in Hin as [->|Hin]; [congruence|]. apply IH; assumption.
Qed.

Lemma bad_char_not_slash (c : ascii) : bad_char c = true -> is_char c "/" = false.
Proof.
  unfold bad_char. intros Hb. apply orb_true_iff in Hb as [Hb|Hb];
    apply is_char_eq in Hb; subst c; reflexivity.
Qed.

(** What the loop returns: the destination so far followed by a
    well-formed tail that is not longer than the source and starts as
    the source does; the source has no refused character; and a tail of
    one segment is all of the source unless its segment was checked. *)
Lemma sanitize_loop_Ok (n : nat) : forall src dst prev out,
  length src <= n -> prev <= length dst ->
  sanitize_loop src dst prev = Ok out ->
  exists tail, out = dst ++ tail /\ well_formed (drop prev dst) tail = true /\
    length tail <= length src /\
    match src with
    | [] => tail = []
    | a :: _ => is_char a "/" = false -> head tail = Some a
    end /\
    (forall c, c ∈ src -> bad_char c = false) /\
    ((forall c, c ∈ tail -> is_char c "/" = false) ->
       src = tail \/ dot_or_dotdot (drop prev dst ++ tail) = false).
Proof.
  induction n as [|n IH]; intros src dst prev out Hn Hprev Hres.
  - destruct src; [|cbn in Hn; lia]. rewrite sanitize_loop_nil in Hres. injection Hres as <-.
    exists []. rewrite app_nil_r. split; [reflexivity|]. split; [reflexivity|].
    split; [cbn; lia|]. split; [reflexivity|].
    split; [intros c Hc; inversion Hc|]. intros _. left. reflexivity.
  - destruct src as [|ch src].
    { rewrite sanitize_loop_nil in Hres. injection Hres as <-.
      exists []. rewrite app_nil_r. split; [reflexivity|]. split; [reflexivity|].
      split; [cbn; lia|]. split; [reflexivity|].
      split; [intros c Hc; inversion Hc|]. intros _. left. reflexivity. }
    rewrite sanitize_loop_cons in Hres.
    destruct (is_char ch ":" || is_char ch "\") eqn:Hbad; [discriminate|].
    destruct (is_char ch "/") eqn:Hch.
    + destruct (dot_or_dotdot (drop prev dst)) eqn:Hdot; [discriminate|].
      assert (Hskip : forall c, c ∈ src -> bad_char c = true -> c ∈ skip_slashes src).
      { intros c Hc Hb. apply skip_slashes_elem; [exact Hc|apply bad_char_not_slash, Hb]. }
      destruct (bool_decide_reflect (skip_slashes src = [])) as [Hnil|Hnn].
      * injection Hres as <-. exists []. rewrite app_nil_r.
        split; [reflexivity|]. split; [reflexivity|]. split; [cbn; lia|].
        split; [intros Hc; congruence|]. split.
        -- intros c Hc. apply elem_of_cons in Hc as [->|Hc]; [exact Hbad|].
           destruct (bad_char c) eqn:Hb; [|reflexivity].
           pose proof (Hskip c Hc Hb) as Hin. rewrite Hnil in Hin. inversion Hin.
        -- intros _. right. rewrite app_nil_r. exact Hdot.
      * pose proof (skip_slashes_length src) as Hlen.
        destruct (IH (skip_slashes src) (dst ++ [ch]) (S (length dst)) out)
          as (tail & -> & Hwf & Hlt & Hhead & Hnobad & _);
          [cbn [length] in Hn; lia|rewrite length_app; cbn; lia|exact Hres|].
        rewrite drop_snoc_all in Hwf.
        exists (ch :: tail). split; [rewrite <- app_assoc; reflexivity|].
        split; [|split; [cbn [length]; lia|split; [intros _; reflexivity|split]]].
        -- cbn [well_formed]. unfold bad_char at 1. rewrite Hbad, Hch, Hdot, Hwf.
           cbn [negb andb]. pose proof (skip_slashes_head src) as Hsh.
           destruct (skip_slashes src) as [|a s']; [congruence|].
           destruct tail as [|d tail']; [specialize (Hhead Hsh); discriminate|].
           specialize (Hhead Hsh). cbn [head] in Hhead. injection Hhead as ->.
           rewrite Hsh. reflexivity.
        -- intros c Hc. apply elem_of_cons in Hc as [->|Hc]; [exact Hbad|].
           destruct (bad_char c) eqn:Hb; [|reflexivity].
           rewrite (Hnobad c (Hskip c Hc Hb)) in Hb. discriminate.
        -- intros Hns. rewrite (Hns ch) in Hch by left. discriminate.
    + destruct (IH src (dst ++ [ch]) prev out) as (tail & -> & Hwf & Hlt & Hhead & Hnobad & Hone);
        [cbn [length] in Hn; lia|rewrite length_app; cbn; lia|exact Hres|].
      rewrite drop_snoc_le in Hwf, Hone by exact Hprev.
      exists (ch :: tail). split; [rewrite <- app_assoc; reflexivity|].
      split; [|split; [cbn [length]; lia|split; [intros _; reflexivity|split]]].
      * cbn [well_formed]. unfold bad_char at 1. rewrite Hbad, Hch. exact Hwf.
      * intros c Hc. apply elem_of_cons in Hc as [->|Hc]; [exact Hbad|apply Hnobad, Hc].
      * intros Hns. rewrite <- app_assoc in Hone. cbn [app] in Hone.
        destruct Hone as [->|Hd]; [|left; reflexivity|right; exact Hd].
        intros c Hc. apply Hns. right. exact Hc.
Qed.

(** The loop fails in one way only. *)
Lemma sanitize_loop_fails (n : nat) : forall src dst prev,
  length src <= n ->
  sanitize_loop src dst prev = Bail PHYSFS_ERR_BAD_FILENAME \/
  exists out, sanitize_loop src dst prev = Ok out.
Proof.
  induction n as [|n IH]; intros src dst prev Hn.
  - destruct src; [|cbn in Hn; lia]. right. rewrite sanitize_loop_nil. eauto.
  - destruct src as [|ch src]; [right; rewrite sanitize_loop_nil; eauto|].
    rewrite sanitize_loop_cons.
    destruct (is_char ch ":" || is_char ch "\"); [left; reflexivity|].
    pose proof (skip_slashes_length src) as Hlen. cbn [length] in Hn.
    destruct (is_char ch "/").
    + destruct (dot_or_dotdot (drop prev dst)); [left; reflexivity|].
      destruct (bool_decide (skip_slashes src = [])); [right; eauto|].
      apply IH. lia.
    + apply IH. lia.
Qed.

(** What a well-formed path looks like. *)
Lemma well_formed_shape (p : list ascii) : forall cur,
  well_formed cur p = true ->
  (forall c, c ∈ p -> bad_char c = false) /\
  last p <> Some "/"%char /\
  (forall i, p !! i = Some "/"%char -> p !! S i <> Some "/"%char).
Proof.
  induction p as [|c rest IH]; intros cur Hwf.
  - split; [intros c Hc; inversion Hc|]. split; [discriminate|]. intros i Hi. discriminate.
  - cbn [well_formed] in Hwf. apply andb_true_iff in Hwf as [Hbad Hwf].
    apply negb_true_iff in Hbad.
    assert (Hrest : exists cur', well_formed cur' rest = true /\
              (is_char c "/" = true ->
               match rest with [] => False | d :: _ => is_char d "/" = false end)).
    { destruct (is_char c "/").
      - apply andb_true_iff in Hwf as [Hwf Hr]. apply andb_true_iff in Hwf as [_ Hnext].
        exists []. split; [exact Hr|]. intros _. destruct rest; [discriminate|].
        apply negb_true_iff, Hnext.
      - exists (cur ++ [c]). split; [exact Hwf|]. discriminate. }
    destruct Hrest as (cur' & Hwf' & Hnext).
    destruct (IH cur' Hwf') as (Hb & Hl & Hd).
    split; [|split].
    + intros x Hx. apply elem_of_cons in Hx as [->|Hx]; [exact Hbad|apply Hb, Hx].
    + destruct rest as [|d rest']; [|rewrite last_cons_cons; exact Hl].
      cbn. intros [= ->]. apply Hnext. reflexivity.
    + intros [|i] Hi.
      * cbn in Hi. injection Hi as ->. specialize (Hnext eq_refl).
        destruct rest as [|d rest']; [contradiction|]. cbn. intros [= ->]. discriminate.
      * cbn in Hi |- *. apply Hd, Hi.
Qed.

(** The result of a successful call, in full. *)
Lemma sanitize_Ok (src dst : list ascii) :
  sanitizePlatformIndependentPath src = Ok dst ->
  well_formed [] dst = true /\ length dst <= length src /\
  head dst <> Some "/"%char /\ dot_or_dotdot dst = false /\
  (forall c, c ∈ src -> bad_char c = false).
Proof.
  unfold sanitizePlatformIndependentPath. intros Hres.
  destruct (dot_or_dotdot (skip_slashes src)) eqn:Hdot; [discriminate|].
  destruct (sanitize_loop_Ok _ _ [] 0 dst (le_n _) (Nat.le_0_l _) Hres)
    as (tail & -> & Hwf & Hlen & Hhead & Hnobad & Hone).
  cbn [app drop] in *. pose proof (skip_slashes_length src) as Hsl.
  pose proof (skip_slashes_head src) as Hsh.
  split; [exact Hwf|]. split; [lia|]. split; [|split].
  - destruct (skip_slashes src) as [|a s]; [subst tail; discriminate|].
    rewrite (Hhead Hsh). intros [= ->]. discriminate.
  - destruct (dot_or_dotdot tail) eqn:Ht; [|reflexivity].
    destruct Hone as [Heq|Hf]; [|rewrite Heq in Hdot; congruence|exact Hf].
    intros c Hc. unfold dot_or_dotdot in Ht.
    apply orb_true_iff in Ht as [Ht|Ht]; apply Z.eqb_eq, strcmp_eq in Ht; subst tail;
      repeat (apply elem_of_cons in Hc as [->|Hc]; [reflexivity|]); inversion Hc.
  - intros c Hc. destruct (bad_char c) eqn:Hb; [|reflexivity].
    rewrite (Hnobad c) in Hb; [discriminate|].
    apply skip_slashes_elem; [exact Hc|apply bad_char_not_slash, Hb].
Qed.

(** X1.  A path that [sanitizePlatformIndependentPath] accepts comes out
    no longer than it went in, so it fits the destination buffer, which
    callers allocate with the size of the source.  The output has no
    [:] and no backslash, neither starts nor ends with a separator, has
    no two separators in a row, and is neither "." nor "..". *)
Theorem sanitize_output_clean (src dst : list ascii) :
  sanitizePlatformIndependentPath src = Ok dst ->
  length dst <= length src /\
  (forall c, c ∈ dst -> c <> ":"%char /\ c <> "\"%char) /\
  head dst <> Some "/"%char /\ last dst <> Some "/"%char /\
  (forall i, dst !! i = Some "/"%char -> dst !! S i <> Some "/"%char) /\
  dst <> cstr "." /\ dst <> cstr "..".
Proof.
  intros Hres. destruct (sanitize_Ok src dst Hres) as (Hwf & Hlen & Hhead & Hdot & _).
  destruct (well_formed_shape dst [] Hwf) as (Hb & Hl & Hd).
  split; [exact Hlen|]. split; [|split; [exact Hhead|split; [exact Hl|split; [exact Hd|]]]].
  - intros c Hc. specialize (Hb c Hc). unfold bad_char in Hb.
    apply orb_false_iff in Hb as [H1 H2]. split; apply is_char_neq; assumption.
  - unfold dot_or_dotdot in Hdot. apply orb_false_iff in Hdot as [H1 H2].
    apply Z.eqb_neq in H1, H2. rewrite strcmp_eq in H1, H2. split; assumption.
Qed.

Lemma sanitize_output_clean_witness :
  sanitizePlatformIndependentPath (cstr "//base//maps/e1.map/") = Ok (cstr "base/maps/e1.map") /\
  length (cstr "base/maps/e1.map") <= length (cstr "//base//maps/e1.map/").
Proof.
  split; [vm_compute; reflexivity|].
  apply (sanitize_output_clean (cstr "//base//maps/e1.map/") (cstr "base/maps/e1.map")).
  vm_compute. reflexivity.
Defined.

(** X2.  [sanitizePlatformIndependentPath] either accepts or fails with
    BAD_FILENAME, and it fails on every path that has a [:] or a
    backslash anywhere. *)
Theorem sanitize_rejects_bad_chars (src : list ascii) :
  (sanitizePlatformIndependentPath src = Bail PHYSFS_ERR_BAD_FILENAME \/
   exists dst, sanitizePlatformIndependentPath src = Ok dst) /\
  (forall c, c ∈ src -> c = ":"%char \/ c = "\"%char ->
     sanitizePlatformIndependentPath src = Bail PHYSFS_ERR_BAD_FILENAME).
Proof.
  assert (Hcases : sanitizePlatformIndependentPath src = Bail PHYSFS_ERR_BAD_FILENAME \/
                   exists out, sanitizePlatformIndependentPath src = Ok out).
  { unfold sanitizePlatformIndependentPath.
    destruct (dot_or_dotdot (skip_slashes src)); [left; reflexivity|].
    apply (sanitize_loop_fails _ _ _ _ (le_n _)). }
  split; [exact Hcases|].
  intros c Hc Hbad. destruct Hcases as [Hb|[out Ho]]; [exact Hb|].
  destruct (sanitize_Ok src out Ho) as (_ & _ & _ & _ & Hnobad).
  specialize (Hnobad c Hc). unfold bad_char in Hnobad.
  destruct Hbad as [-> | ->]; discriminate.
Qed.

Lemma sanitize_rejects_bad_chars_witness :
  sanitizePlatformIndependentPath (cstr "saves/c:/autoexec.bat") =
    Bail PHYSFS_ERR_BAD_FILENAME.
Proof.
  apply (proj2 (sanitize_rejects_bad_chars (cstr "saves/c:/autoexec.bat")) ":"%char).
  - vm_compute. do 7 right. left.
  - left. reflexivity.
Defined.

(** X3.  Sanitation is idempotent: a path that comes out of
    [sanitizePlatformIndependentPath] is accepted and returned as it is
    when it is handed in again. *)
Theorem sanitize_idempotent (src dst : list ascii) :
  sanitizePlatformIndependentPath src = Ok dst ->
  sanitizePlatformIndependentPath dst = Ok dst.
Proof.
  intros Hres. destruct (sanitize_Ok src dst Hres) as (Hwf & _ & Hhead & Hdot & _).
  unfold sanitizePlatformIndependentPath.
  assert (Hskip : skip_slashes dst = dst).
  { destruct dst as [|c rest]; [reflexivity|]. cbn [skip_slashes].
    destruct (is_char c "/") eqn:Hc; [|reflexivity].
    apply is_char_eq in Hc. subst c. exfalso. apply Hhead. reflexivity. }
  rewrite Hskip, Hdot.
  apply (sanitize_loop_well_formed dst [] 0); [cbn; lia|exact Hwf].
Qed.

Lemma sanitize_idempotent_witness :
  sanitizePlatformIndependentPath (cstr "base/maps/e1.map") = Ok (cstr "base/maps/e1.map").
Proof.
  apply (sanitize_idempotent (cstr "//base//maps/e1.map/")). vm_compute. reflexivity.
Defined.

(** ** Paths against mount points *)

Lemma strncmp_eq_true (a b : list ascii) (n : nat) :
  strncmp_eq a b n = true <-> take n a = take n b.
Proof. unfold strncmp_eq. rewrite Z.eqb_eq. apply strcmp_eq. Qed.

Lemma slash_at_true (s : list ascii) (i : nat) :
  slash_at s i = true <-> s !! i = Some "/"%char.
Proof.
  unfold slash_at. destruct (s !! i) as [c|]; [|split; discriminate].
  cbn [is_char]. rewrite Ascii.eqb_eq. split; [intros ->; reflexivity|intros [= ->]; reflexivity].
Qed.

Lemma partOfMountPoint_cases (h : DirHandle) (fname : list ascii) :
  partOfMountPoint h fname = true <->
  exists mp, mountPoint h = Some mp /\
    (fname = [] \/ exists rest, rest <> [] /\ mp = fname ++ "/"%char :: rest).
Proof.
  unfold partOfMountPoint. destruct (mountPoint h) as [mp|];
    [|split; [discriminate|intros (mp & Hmp & _); discriminate]].
  destruct fname as [|c fname].
  { split; [intros _; exists mp; split; [reflexivity|left; reflexivity]|reflexivity]. }
  set (f := c :: fname). cbv zeta.
  destruct (Nat.ltb_spec (length mp) (length f)) as [Hlt|Hge].
  { split; [discriminate|]. intros (mp' & [= <-] & [Hf|(rest & _ & Heq)]); [discriminate|].
    apply (f_equal length) in Heq. rewrite length_app in Heq. cbn [length] in Heq. lia. }
  destruct (Nat.eqb_spec (length f + 1) (length mp)) as [Heq1|Hne1].
  { split; [discriminate|]. intros (mp' & [= <-] & [Hf|(rest & Hrest & Heq)]); [discriminate|].
    apply (f_equal length) in Heq. rewrite length_app in Heq. cbn [length] in Heq.
    destruct rest; [congruence|]. cbn [length] in Heq. lia. }
  destruct (strncmp_eq f mp (length f)) eqn:Hcmp; cbn [negb].
  - apply strncmp_eq_true in Hcmp. rewrite firstn_all in Hcmp.
    rewrite slash_at_true. split.
    + intros Hsl. exists mp. split; [reflexivity|]. right.
      exists (drop (S (length f)) mp). split.
      * intros Hd. apply (f_equal length) in Hd. rewrite length_drop in Hd. cbn [length] in Hd.
        apply lookup_lt_Some in Hsl. lia.
      * rewrite Hcmp at 1. symmetry. apply take_drop_middle. exact Hsl.
    + intros (mp' & [= <-] & [Hf|(rest & _ & Heq)]); [discriminate|].
      rewrite Heq. rewrite lookup_app_r by lia. rewrite Nat.sub_diag. reflexivity.
  - split; [discriminate|]. intros (mp' & [= <-] & [Hf|(rest & _ & Heq)]); [discriminate|].
    exfalso. assert (Ht : strncmp_eq f mp (length f) = true); [|congruence].
    apply strncmp_eq_true. rewrite Heq, firstn_all. rewrite take_app_length. reflexivity.
Qed.

Lemma strip_mount_point_Some (h : DirHandle) (mp fname : list ascii) :
  mountPoint h = Some mp -> mp <> [] ->
  strip_mount_point h fname =
    let m := length mp - 1 in
    let len := length fname in
    if len <? m then None
    else if negb (strncmp_eq mp fname m) then None
    else if (m <? len) && negb (slash_at fname m) then None
    else
      let fname' := drop m fname in
      match fname' with
      | c :: rest => if is_char c "/" then Some rest else Some fname'
      | [] => Some []
      end.
Proof.
  intros Hmp Hne. unfold strip_mount_point. rewrite Hmp.
  destruct mp; [congruence|reflexivity].
Qed.

(** The path below a mount point [m ++ "/"]. *)
Lemma strip_mount_point_iff (h : DirHandle) (m fname arc : list ascii) :
  mountPoint h = Some (m ++ [ "/"%char ]) -> m <> [] ->
  strip_mount_point h fname = Some arc <->
  (fname = m /\ arc = []) \/ fname = m ++ "/"%char :: arc.
Proof.
  intros Hmp Hm. rewrite (strip_mount_point_Some h _ fname Hmp) by (destruct m; discriminate).
  replace (length (m ++ ["/"%char]) - 1) with (length m)
    by (rewrite length_app; cbn [length]; lia).
  cbv zeta.
  destruct (Nat.ltb_spec (length fname) (length m)) as [Hlt|Hge].
  { split; [discriminate|]. intros [[-> _]| ->]; [lia|]. rewrite length_app in Hlt. lia. }
  destruct (strncmp_eq (m ++ ["/"%char]) fname (length m)) eqn:Hcmp; cbn [negb].
  2:{ split; [discriminate|]. intros Hf. exfalso.
      assert (Ht : strncmp_eq (m ++ ["/"%char]) fname (length m) = true); [|congruence].
      apply strncmp_eq_true. rewrite take_app_length.
      destruct Hf as [[-> _]| ->]; [rewrite firstn_all|rewrite take_app_length]; reflexivity. }
  apply strncmp_eq_true in Hcmp. rewrite take_app_length in Hcmp.
  assert (Hsplit : fname = m ++ drop (length m) fname).
  { rewrite Hcmp at 1. symmetry. apply take_drop. }
  destruct (drop (length m) fname) as [|c rest] eqn:Hdrop.
  - assert (Hlen : length fname = length m).
    { apply (f_equal length) in Hdrop. rewrite length_drop in Hdrop. cbn [length] in Hdrop. lia. }
    destruct (Nat.ltb_spec (length m) (length fname)); [lia|]. cbn [andb].
    rewrite app_nil_r in Hsplit. split.
    + intros [= <-]. left. split; [exact Hsplit|reflexivity].
    + intros [[_ ->]|Hf]; [reflexivity|].
      apply (f_equal length) in Hf. rewrite length_app in Hf. cbn [length] in Hf. lia.
  - assert (Hlen : length m < length fname).
    { apply (f_equal length) in Hdrop. rewrite length_drop in Hdrop. cbn [length] in Hdrop. lia. }
    destruct (Nat.ltb_spec (length m) (length fname)); [|lia]. cbn [andb].
    assert (Hat : fname !! length m = Some c).
    { rewrite Hsplit. rewrite lookup_app_r by lia. rewrite Nat.sub_diag. reflexivity. }
    unfold slash_at. rewrite Hat.
    destruct (is_char c "/") eqn:Hc; cbn [negb].
    + apply is_char_eq in Hc. subst c. split.
      * intros [= <-]. right. exact Hsplit.
      * intros [[Hf _]|Hf]; [rewrite Hf in Hlen; lia|].
        rewrite Hsplit in Hf. apply app_inv_head in Hf. injection Hf as ->. reflexivity.
    + split; [discriminate|].
      intros [[Hf _]|Hf]; [rewrite Hf in Hlen; lia|].
      rewrite Hsplit in Hf. apply app_inv_head in Hf. injection Hf as -> _. discriminate.
Qed.

(** The loop of [verifyPath] accepts the path it was given and no
    other. *)
Lemma verify_elements_Verified (stat : list ascii -> res PHYSFS_Stat)
    (full : list ascii) (allowMissing : bool) (rest : list ascii) :
  forall cur pre arc,
    verify_elements stat full allowMissing cur pre rest = Verified arc -> arc = full.
Proof.
  induction rest as [|x rest IH]; intros cur pre arc Hv; cbn [verify_elements] in Hv.
  - destruct (check_element stat cur pre); congruence.
  - destruct (is_char x "/"); [|exact (IH _ _ _ Hv)].
    destruct (check_element stat cur pre); try discriminate.
    + destruct allowMissing; congruence.
    + exact (IH _ _ _ Hv).
Qed.

(** X5.  An archive mounted at [m/] and without a root directory is
    only ever asked for paths under its mount point: when [verifyPath]
    accepts a path that is not empty, the path is [m] itself or starts
    with [m/], and the archive is handed what follows.  With symbolic
    links permitted every such path is accepted. *)
Theorem verifyPath_under_mount_point (stat : list ascii -> res PHYSFS_Stat)
    (allowSymLinks allowMissing : bool) (cur : PHYSFS_ErrorCode)
    (h : DirHandle) (m fname : list ascii) :
  mountPoint h = Some (m ++ [ "/"%char ]) -> m <> [] -> dh_root h = None -> fname <> [] ->
  (forall arc, verifyPath stat allowSymLinks h fname allowMissing cur = Verified arc ->
     (fname = m /\ arc = []) \/ fname = m ++ "/"%char :: arc) /\
  (allowSymLinks = true ->
     forall arc, (fname = m /\ arc = []) \/ fname = m ++ "/"%char :: arc ->
     verifyPath stat allowSymLinks h fname allowMissing cur = Verified arc).
Proof.
  intros Hmp Hm Hroot Hf. unfold verifyPath. rewrite Hroot.
  destruct fname as [|c fname]; [congruence|]. set (f := c :: fname) in *.
  unfold prepend_root. rewrite Hroot. split.
  - intros arc Hv.
    destruct (strip_mount_point h f) as [arc0|] eqn:Hs; [|discriminate].
    apply (strip_mount_point_iff h m f arc0 Hmp Hm) in Hs.
    assert (Harc : arc = arc0).
    { destruct allowSymLinks; [injection Hv as <-; reflexivity|].
      exact (verify_elements_Verified stat _ _ _ _ _ _ Hv). }
    subst arc0. exact Hs.
  - intros -> arc Harc.
    apply (strip_mount_point_iff h m f arc Hmp Hm) in Harc. rewrite Harc. reflexivity.
Qed.

Lemma verifyPath_under_mount_point_witness :
  let h := mkDirHandle (cstr "data.grp") (Some (cstr "mods/duke/")) None in
  verifyPath (fun _ => Bail PHYSFS_ERR_NOT_FOUND) true h (cstr "mods/duke/maps/e1.map")
             false PHYSFS_ERR_OK = Verified (cstr "maps/e1.map").
Proof.
  intros h.
  apply (proj2 (verifyPath_under_mount_point (fun _ => Bail PHYSFS_ERR_NOT_FOUND) true false
                  PHYSFS_ERR_OK h (cstr "mods/duke") (cstr "mods/duke/maps/e1.map")
                  eq_refl ltac:(discriminate) eq_refl ltac:(discriminate)) eq_refl).
  right. reflexivity.
Defined.

(** X4.  [partOfMountPoint] holds for a path exactly when the archive
    has a mount point and the path is empty or a proper directory
    prefix of it: the mount point is the path, a separator, and more.
    So the mount point's own directory, its files and everything else
    are not part of it; and a path that is part of the mount point and
    not empty is never passed on to the archive by [verifyPath]. *)
Theorem partOfMountPoint_iff (h : DirHandle) (fname : list ascii) :
  (partOfMountPoint h fname = true <->
   exists mp, mountPoint h = Some mp /\
     (fname = [] \/ exists rest, rest <> [] /\ mp = fname ++ "/"%char :: rest)) /\
  (partOfMountPoint h fname = true -> fname <> [] ->
   forall stat allowSymLinks allowMissing cur,
     verifyPath stat allowSymLinks h fname allowMissing cur = NotUnderMountPoint).
Proof.
  split; [apply partOfMountPoint_cases|].
  intros Hpart Hne stat sym am cur.
  apply partOfMountPoint_cases in Hpart as (mp & Hmp & [Hf|(rest & Hrest & Heq)]); [congruence|].
  assert (Hstrip : strip_mount_point h fname = None).
  { rewrite (strip_mount_point_Some h mp fname Hmp) by (rewrite Heq; destruct fname; discriminate).
    cbv zeta. assert (Hlen : length fname < length mp - 1).
    { rewrite Heq, length_app. cbn [length]. destruct rest; [congruence|]. cbn [length]. lia. }
    destruct (Nat.ltb_spec (length fname) (length mp - 1)); [reflexivity|lia]. }
  unfold verifyPath. rewrite Hstrip.
  destruct fname; [congruence|]. destruct (dh_root h); reflexivity.
Qed.

Lemma partOfMountPoint_iff_witness :
  let h := mkDirHandle (cstr "data.grp") (Some (cstr "mods/duke/")) None in
  partOfMountPoint h (cstr "mods") = true /\
  verifyPath (fun _ => Bail PHYSFS_ERR_NOT_FOUND) false h (cstr "mods") false PHYSFS_ERR_OK
    = NotUnderMountPoint.
Proof.
  intros h. split; [reflexivity|].
  apply (proj2 (partOfMountPoint_iff h (cstr "mods"))); [reflexivity|discriminate].
Defined.

(** [p] ends at an element of [path]: it is [path] itself, or is
    followed in [path] by a separator. *)
Definition element_of_path (p path : list ascii) : Prop :=
  p = path \/ exists rest, path = p ++ "/"%char :: rest.

Lemma verify_elements_symlink (stat : list ascii -> res PHYSFS_Stat)
    (full : list ascii) (allowMissing : bool) (a : list ascii) :
  forall cur pre b st,
    b = [] \/ (exists b', b = "/"%char :: b') ->
    stat (pre ++ a) = Ok st -> filetype st = PHYSFS_FILETYPE_SYMLINK ->
    (forall a1 a2, a = a1 ++ "/"%char :: a2 -> exists sq, stat (pre ++ a1) = Ok sq) ->
    verify_elements stat full allowMissing cur pre (a ++ b) = SymlinkForbidden.
Proof.
  induction a as [|x a IH]; intros cur pre b st Hb Hst Hsym Hbefore.
  - rewrite app_nil_r in Hst. cbn [app].
    assert (Hchk : check_element stat cur pre = ElemSymlink).
    { unfold check_element. rewrite Hst, Hsym. reflexivity. }
    destruct Hb as [->|[b' ->]]; cbn [verify_elements is_char]; rewrite ?Ascii.eqb_refl, Hchk;
      reflexivity.
  - cbn [app verify_elements].
    assert (Hrec : forall cur', verify_elements stat full allowMissing cur' (pre ++ [x]) (a ++ b)
                                = SymlinkForbidden).
    { intros cur'. apply (IH cur' (pre ++ [x]) b st Hb).
      - rewrite <- app_assoc. exact Hst.
      - exact Hsym.
      - intros a1 a2 Ha. rewrite <- app_assoc. apply (Hbefore (x :: a1) a2).
        rewrite Ha. reflexivity. }
    destruct (is_char x "/") eqn:Hx; [|apply Hrec].
    apply is_char_eq in Hx. subst x.
    destruct (Hbefore [] a eq_refl) as [sq Hsq]. rewrite app_nil_r in Hsq.
    unfold check_element. rewrite Hsq.
    destruct (is_symlink (filetype sq)); [reflexivity|apply Hrec].
Qed.

(** X6.  With symbolic links forbidden, [verifyPath] refuses with
    SYMLINK_FORBIDDEN every path that leads to or through a symbolic
    link of the archive: if the archive reports an element of the path
    as a symbolic link, and can stat every element before it, the path
    is not verified. *)
Theorem verifyPath_refuses_symlinks (stat : list ascii -> res PHYSFS_Stat)
    (allowMissing : bool) (cur : PHYSFS_ErrorCode) (h : DirHandle)
    (fname arc p : list ascii) (st : PHYSFS_Stat) :
  fname <> [] ->
  strip_mount_point h fname = Some arc ->
  element_of_path p (prepend_root h arc) ->
  stat p = Ok st -> filetype st = PHYSFS_FILETYPE_SYMLINK ->
  (forall q rest, p = q ++ "/"%char :: rest -> exists sq, stat q = Ok sq) ->
  verifyPath stat false h fname allowMissing cur = SymlinkForbidden.
Proof.
  intros Hne Hstrip Hel Hst Hsym Hbefore. unfold verifyPath. rewrite Hstrip.
  assert (Hloop : verify_elements stat (prepend_root h arc) allowMissing cur []
                    (prepend_root h arc) = SymlinkForbidden).
  { destruct Hel as [Hp|[rest Hp]].
    - rewrite <- (app_nil_r (prepend_root h arc)) at 2. rewrite <- Hp.
      apply (verify_elements_symlink stat _ allowMissing p cur [] [] st);
        [left; reflexivity|exact Hst|exact Hsym|exact Hbefore].
    - rewrite Hp at 2.
      apply (verify_elements_symlink stat _ allowMissing p cur [] _ st);
        [right; eauto|exact Hst|exact Hsym|exact Hbefore]. }
  destruct fname; [congruence|]. destruct (dh_root h); exact Hloop.
Qed.

Lemma verifyPath_refuses_symlinks_witness :
  let h := mkDirHandle (cstr "/home/me/game") None None in
  let link := mkStat 0 0 0 0 PHYSFS_FILETYPE_SYMLINK 0 in
  let dir := mkStat 0 0 0 0 PHYSFS_FILETYPE_DIRECTORY 0 in
  let stat := fun p => if bool_decide (p = cstr "saves") then Ok dir
                       else if bool_decide (p = cstr "saves/etc") then Ok link
                       else Bail PHYSFS_ERR_NOT_FOUND in
  verifyPath stat false h (cstr "saves/etc/passwd") true PHYSFS_ERR_OK = SymlinkForbidden.
Proof.
  intros h link dir stat.
  apply (verifyPath_refuses_symlinks stat true PHYSFS_ERR_OK h (cstr "saves/etc/passwd")
           (cstr "saves/etc/passwd") (cstr "saves/etc") link).
  - discriminate.
  - reflexivity.
  - right. exists (cstr "passwd"). reflexivity.
  - reflexivity.
  - reflexivity.
  - intros q rest Hq. exists dir.
    destruct q as [|c1 q]; [discriminate|]. injection Hq as <- Hq.
    do 4 (destruct q as [|? q]; [discriminate|injection Hq as <- Hq]).
    destruct q as [|? q]; [reflexivity|]. injection Hq as <- Hq.
    do 3 (destruct q as [|? q]; [discriminate|injection Hq as <- Hq]).
    destruct q; discriminate.
Defined.

Lemma has_slash_split (s : list ascii) :
  has_slash s = true ->
  exists rest, s = before_slash s ++ "/"%char :: rest /\
    forall c, c ∈ before_slash s -> c <> "/"%char.
Proof.
  induction s as [|c s IH]; [discriminate|]. cbn [has_slash existsb before_slash].
  destruct (is_char c "/") eqn:Hc.
  - intros _. apply is_char_eq in Hc. subst c. exists s.
    split; [reflexivity|]. intros c Hc. inversion Hc.
  - cbn [orb]. intros Hs. destruct (IH Hs) as (rest & Heq & Hno).
    exists rest. split; [cbn [app]; f_equal; exact Heq|].
    intros x Hx. apply elem_of_cons in Hx as [->|Hx]; [apply is_char_neq, Hc|apply Hno, Hx].
Qed.

Lemma last_slash_has_slash (s : list ascii) : last s = Some "/"%char -> has_slash s = true.
Proof.
  intros Hl. unfold has_slash. apply existsb_exists. exists "/"%char.
  split; [|reflexivity]. apply list_elem_of_In. apply last_Some in Hl as [l' ->].
  apply elem_of_app. right. left.
Qed.

(** X7.  When a path is part of a mount point, which ends with a
    separator, [enumerateFromMountPoint] calls the callback once, with
    the element of the mount point that follows the path: that element
    is the one entry of the virtual directory. *)
Theorem enumerateFromMountPoint_next_element {D : Type} (h : DirHandle)
    (mp arcfname : list ascii)
    (callback : D -> list ascii -> D * PHYSFS_EnumerateCallbackResult) (data : D) :
  mountPoint h = Some mp -> last mp = Some "/"%char ->
  partOfMountPoint h arcfname = true ->
  exists seg rest,
    enumerateFromMountPoint h arcfname callback data = Some (callback data seg) /\
    (forall c, c ∈ seg -> c <> "/"%char) /\
    mp = match arcfname with
         | [] => []
         | _ => arcfname ++ [ "/"%char ]
         end ++ seg ++ "/"%char :: rest.
Proof.
  intros Hmp Hlast Hpart. unfold enumerateFromMountPoint. rewrite Hmp. cbn [mbind option_bind].
  apply partOfMountPoint_cases in Hpart as (mp' & Hmp' & Hcases).
  rewrite Hmp in Hmp'. injection Hmp' as <-.
  destruct arcfname as [|c arc].
  - cbn [length Nat.eqb]. rewrite drop_0.
    rewrite (last_slash_has_slash mp Hlast).
    destruct (has_slash_split mp (last_slash_has_slash mp Hlast)) as (rest & Heq & Hno).
    exists (before_slash mp), rest. split; [reflexivity|]. split; [exact Hno|exact Heq].
  - destruct Hcases as [Hc|(rest0 & Hrest0 & Heq)]; [discriminate|].
    set (f := c :: arc) in *.
    replace (length f =? 0) with false by (symmetry; apply Nat.eqb_neq; cbn; lia).
    assert (Hptr : drop (length f + 1) mp = rest0).
    { rewrite Heq. rewrite drop_app_ge by lia.
      replace (length f + 1 - length f) with 1 by lia. reflexivity. }
    rewrite Hptr.
    assert (Hl0 : last rest0 = Some "/"%char).
    { rewrite Heq in Hlast. rewrite last_app in Hlast.
      destruct rest0 as [|r0 rest0']; [congruence|].
      rewrite last_cons_cons in Hlast.
      destruct (last (r0 :: rest0')) eqn:Hl; [exact Hlast|].
      apply last_None in Hl. discriminate. }
    rewrite (last_slash_has_slash rest0 Hl0).
    destruct (has_slash_split rest0 (last_slash_has_slash rest0 Hl0)) as (rest & Heq0 & Hno).
    exists (before_slash rest0), rest. split; [reflexivity|]. split; [exact Hno|].
    rewrite Heq at 1. rewrite <- app_assoc. cbn [app]. rewrite <- Heq0. reflexivity.
Qed.

Lemma enumerateFromMountPoint_next_element_witness :
  let h := mkDirHandle (cstr "data.grp") (Some (cstr "mods/duke/")) None in
  let cb := fun (d : list (list ascii)) nm => (d ++ [nm], PHYSFS_ENUM_OK) in
  enumerateFromMountPoint h (cstr "mods") cb [] = Some ([cstr "duke"], PHYSFS_ENUM_OK).
Proof.
  intros h cb.
  destruct (enumerateFromMountPoint_next_element h (cstr "mods/duke/") (cstr "mods") cb []
              eq_refl eq_refl eq_refl) as (seg & rest & Hcall & _ & _).
  rewrite Hcall. vm_compute in Hcall. injection Hcall as Hseg. rewrite <- Hseg. reflexivity.
Defined.

(** ** The logical position of a read handle *)

Section SeekableFile.
Context {S : Type} `{PHYSFS_Io S}.

(** *** Streams over a file

    The stream is at offset [pos s] of the file [file], which is
    shorter than 2^63 bytes.  Reads deliver the bytes at the position
    and move it, short reads allowed; [tell] reports the position;
    a seek to an offset within the file, its end included, succeeds. *)
Variable file : list byte.
Variable pos : S -> nat.
Variable stream_ok : S -> Prop.

Record file_stream : Prop := mkFileStream {
  fs_small : (Z.of_nat (length file) < 2 ^ 63)%Z;
  fs_bound : forall s, stream_ok s -> pos s <= length file;
  fs_read : forall s n, stream_ok s -> (0 < n)%Z ->
    exists s' d, io_read s n = (s', Ok d) /\ stream_ok s' /\
      pos s' = pos s + length d /\
      d = take (length d) (drop (pos s) file) /\
      (Z.of_nat (length d) <= n)%Z /\
      (pos s < length file -> d <> []);
  fs_tell : forall s, stream_ok s -> io_tell s = Z.of_nat (pos s);
  fs_seek : forall s off, stream_ok s -> (0 <= off <= Z.of_nat (length file))%Z ->
    exists s', io_seek s off = (s', Ok tt) /\ stream_ok s' /\ pos s' = Z.to_nat off
}.

Hypothesis Hfs : file_stream.

Definition rest_of_file (s : S) : list byte := drop (pos s) file.

Lemma file_stream_reads : reads_file rest_of_file stream_ok.
Proof.
  intros s n Hs Hn.
  destruct (fs_read Hfs s n Hs Hn) as (s' & d & Hrd & Hs' & Hp & Hd & Hle & Hne).
  exists s', d. split; [exact Hrd|]. split; [exact Hs'|]. unfold rest_of_file.
  split; [|split; [exact Hle|]].
  - rewrite Hp. rewrite <- drop_drop. rewrite Hd at 1. symmetry. apply take_drop.
  - intros Hc. apply Hne. destruct (decide (pos s < length file)); [assumption|].
    exfalso. apply Hc. apply drop_ge. lia.
Qed.

(** The buffer of a read handle is a window on the file: it holds the
    [buffill] bytes that end at the position of the stream. *)
Definition window_ok (fh : FileHandle S) : Prop :=
  handle_ok stream_ok fh /\ buffill fh <= pos (fh_io fh) /\
  take (buffill fh) (fh_buf fh) = take (buffill fh) (drop (pos (fh_io fh) - buffill fh) file).

(** The offset in the file of the next byte the handle delivers. *)
Definition logical_pos (fh : FileHandle S) : nat :=
  pos (fh_io fh) - buffill fh + bufpos fh.

Lemma window_pending (fh : FileHandle S) :
  window_ok fh -> pending rest_of_file fh = drop (logical_pos fh) file.
Proof.
  intros ((Hs & Hr & Hp & Hf & Hb) & Hle & Hwin).
  unfold pending, buffered, rest_of_file, logical_pos.
  pose proof (fs_bound Hfs _ Hs) as Hbound.
  set (p := pos (fh_io fh)) in *. set (fill := buffill fh) in *. set (bp := bufpos fh) in *.
  assert (H1 : take (fill - bp) (drop bp (fh_buf fh)) = drop bp (take fill (fh_buf fh))).
  { rewrite skipn_firstn_comm. reflexivity. }
  rewrite H1, Hwin. rewrite skipn_firstn_comm. rewrite drop_drop.
  replace (p - fill + bp + (fill - bp)) with p by lia.
  rewrite <- (take_drop (fill - bp) (drop (p - fill + bp) file)) at 2.
  rewrite drop_drop. replace (p - fill + bp + (fill - bp)) with p by lia. reflexivity.
Qed.

Lemma logical_pos_le (fh : FileHandle S) : window_ok fh -> logical_pos fh <= length file.
Proof.
  intros ((Hs & Hr & Hp & Hf & Hb) & Hle & Hwin). unfold logical_pos.
  pose proof (fs_bound Hfs _ Hs). lia.
Qed.

Lemma s64_small (z : Z) : (0 <= z < 2 ^ 63)%Z -> s64 z = z.
Proof.
  intros Hz. unfold s64. rewrite u64_small by lia.
  destruct (Z.ltb_spec z (2 ^ 63)); [reflexivity|lia].
Qed.

Lemma PHYSFS_tell_logical (fh : FileHandle S) :
  window_ok fh -> PHYSFS_tell fh = Z.of_nat (logical_pos fh).
Proof.
  intros Hw. pose proof (logical_pos_le fh Hw) as Hle.
  destruct Hw as ((Hs & Hr & Hp & Hf & Hb) & Hfill & Hwin).
  unfold PHYSFS_tell, logical_pos in *. rewrite Hr, (fs_tell Hfs _ Hs).
  pose proof (fs_small Hfs). rewrite s64_small by lia. lia.
Qed.

(** A buffered read keeps the window. *)
Lemma doBufferedRead_window (fh : FileHandle S) (len : nat) (out : list byte) :
  window_ok fh -> is_Some (buffer fh) -> window_ok (doBufferedRead fh len out).1.
Proof.
  funelim (doBufferedRead fh len out); intros Hw Hbuf.
  - exact Hw.
  - clear Heqcall. apply H0; [|exact Hbuf].
    destruct Hw as ((Hs & Hr & Hp & Hf & Hb) & Hfill & Hwin).
    split; [|split; [exact Hfill|exact Hwin]].
    repeat split; cbn [fh_io forReading bufpos buffill buffer bufsize]; try assumption; lia.
  - clear Heqcall. destruct Hw as ((Hs & Hr & Hp & Hf & Hb) & Hfill & Hwin).
    destruct (fs_read Hfs (fh_io fh) (Z.of_nat (bufsize fh)) Hs) as
      (s' & d & Hrd & Hs' & _); [specialize (Hb Hbuf); lia|].
    rewrite e0 in Hrd. injection Hrd as <- <-.
    cbn [fst]. split; [|split; cbn [buffill fh_io]; [lia|reflexivity]].
    repeat split; cbn [fh_io forReading bufpos buffill buffer bufsize]; try assumption; lia.
  - clear Heqcall. destruct Hw as ((Hs & Hr & Hp & Hf & Hb) & Hfill & Hwin).
    destruct (fs_read Hfs (fh_io fh) (Z.of_nat (bufsize fh)) Hs) as
      (s' & d & Hrd & Hs' & Hpos & Hd & _); [specialize (Hb Hbuf); lia|].
    rewrite e0 in Hrd. injection Hrd as <- <-.
    apply H0; [|cbn; eauto].
    split; [|split].
    + unfold handle_ok, fh_buf. cbn [fh_io forReading bufpos buffill buffer bufsize default].
      split; [exact Hs'|]. split; [exact Hr|]. split; [lia|].
      split; [apply memcpy_at_0_length|]. intros _. apply Hb, Hbuf.
    + cbn [buffill fh_io]. lia.
    + cbn [buffill fh_io]. unfold fh_buf at 1. cbn [buffer default from_option id].
      rewrite memcpy_at_0_take. rewrite Hpos.
      replace (pos (fh_io fh) + length (b :: data) - length (b :: data)) with (pos (fh_io fh))
        by lia.
      exact Hd.
  - exfalso. destruct Hw as ((Hs & Hr & Hp & Hf & Hb) & _).
    destruct (fs_read Hfs (fh_io fh) (Z.of_nat (bufsize fh)) Hs) as
      (s' & d & Hrd & _); [specialize (Hb Hbuf); lia|].
    rewrite e0 in Hrd. discriminate.
  - exfalso. destruct Hw as ((Hs & Hr & Hp & Hf & Hb) & _).
    destruct (fs_read Hfs (fh_io fh) (Z.of_nat (bufsize fh)) Hs) as
      (s' & d & Hrd & _); [specialize (Hb Hbuf); lia|].
    rewrite e0 in Hrd. discriminate.
Qed.

Lemma PHYSFS_readBytes_window (fh : FileHandle S) (chunk : Z) :
  window_ok fh -> (0 < chunk <= maxlen)%Z -> window_ok (PHYSFS_readBytes fh chunk).1.
Proof.
  intros Hw Hchunk. unfold PHYSFS_readBytes.
  destruct (Z.ltb_spec maxlen chunk); [lia|].
  pose proof Hw as ((Hs & Hr & Hp & Hf & Hb) & Hfill & Hwin). rewrite Hr. cbn [negb].
  destruct (Z.eqb_spec chunk 0); [lia|].
  destruct (buffer fh) as [buf|] eqn:Hbuf.
  - apply doBufferedRead_window; [exact Hw|rewrite Hbuf; eauto].
  - destruct (fs_read Hfs (fh_io fh) chunk Hs) as (s' & d & Hrd & Hs' & Hpos & Hd & _); [lia|].
    rewrite Hrd. cbn [fst].
    assert (Hfill0 : buffill fh = 0).
    { unfold fh_buf in Hf. rewrite Hbuf in Hf. cbn in Hf. lia. }
    split; [|split].
    + unfold handle_ok, fh_buf. cbn [fh_io forReading bufpos buffill buffer bufsize].
      split; [exact Hs'|]. split; [reflexivity|]. split; [exact Hp|]. split; [cbn; lia|].
      intros [x Hx]. discriminate.
    + cbn [buffill fh_io]. lia.
    + cbn [buffill]. rewrite Hfill0. reflexivity.
Qed.

(** X8.  [PHYSFS_tell] on a read handle reports the offset in the file
    of the next byte the handle delivers, whatever is buffered: a call
    of [PHYSFS_readBytes], buffered or not, returns the bytes of the
    file at the position [PHYSFS_tell] reported before it, and
    afterwards [PHYSFS_tell] has advanced by their number. *)
Theorem PHYSFS_tell_tracks_reads (fh : FileHandle S) (chunk : Z) :
  window_ok fh -> (0 < chunk <= maxlen)%Z ->
  exists fh' d,
    PHYSFS_readBytes fh chunk = (fh', Ok d) /\
    d = take (length d) (drop (Z.to_nat (PHYSFS_tell fh)) file) /\
    PHYSFS_tell fh' = (PHYSFS_tell fh + Z.of_nat (length d))%Z /\
    (Z.to_nat (PHYSFS_tell fh) < length file -> d <> []) /\
    window_ok fh'.
Proof.
  intros Hw Hchunk.
  destruct (PHYSFS_readBytes_spec rest_of_file stream_ok file_stream_reads fh chunk
              (proj1 Hw) Hchunk) as (fh' & d & Heq & Hpend & Hnz & _ & _).
  pose proof (PHYSFS_readBytes_window fh chunk Hw Hchunk) as Hw'. rewrite Heq in Hw'.
  cbn [fst] in Hw'. exists fh', d. split; [exact Heq|].
  rewrite (window_pending fh Hw), (window_pending fh' Hw') in Hpend.
  rewrite (PHYSFS_tell_logical fh Hw), (PHYSFS_tell_logical fh' Hw'), Nat2Z.id.
  pose proof (logical_pos_le fh Hw) as Hle. pose proof (logical_pos_le fh' Hw') as Hle'.
  assert (Hlen : length file - logical_pos fh = length d + (length file - logical_pos fh')).
  { apply (f_equal length) in Hpend. rewrite length_app, !length_drop in Hpend. exact Hpend. }
  split; [|split; [lia|split; [|exact Hw']]].
  - rewrite Hpend. rewrite take_app_length. reflexivity.
  - intros Hlt. apply Hnz. rewrite (window_pending fh Hw). intros Hnil.
    apply (f_equal length) in Hnil. rewrite length_drop in Hnil. cbn [length] in Hnil. lia.
Qed.



End SeekableFile.

(** The memory stream is a stream over its buffer. *)
Definition memory_at_file (file : list byte) (info : MemoryIoInfo) : Prop :=
  mem_buf info = file /\ (0 <= mem_pos info <= mem_len info)%Z.

Lemma memoryIo_file_stream (file : list byte) :
  (Z.of_nat (length file) < 2 ^ 63)%Z ->
  file_stream file (fun info => Z.to_nat (mem_pos info)) (memory_at_file file).
Proof.
  intros Hsmall. split.
  - exact Hsmall.
  - intros s [Hb Hp]. unfold mem_len in Hp. rewrite Hb in Hp. lia.
  - intros s n [Hb Hp] Hn.
    destruct (memoryIo_reads_file s n) as (s' & d & Hrd & [Hp' Hl'] & Hc & Hle & Hne);
      [split; [exact Hp|unfold mem_len in *; rewrite Hb; lia]|exact Hn|].
    assert (Hbuf : mem_buf s' = mem_buf s).
    { cbn [io_read __PHYSFS_memoryIoInterface] in Hrd. unfold memoryIo_read in Hrd.
      destruct (u64 (mem_len s - mem_pos s) =? 0)%Z; injection Hrd as <- _; reflexivity. }
    unfold memory_content in Hc, Hne. rewrite Hbuf in Hc.
    assert (Hmp : Z.to_nat (mem_pos s') = Z.to_nat (mem_pos s) + length d).
    { apply (f_equal length) in Hc. rewrite length_app, !length_drop in Hc.
      unfold mem_len in *. rewrite Hbuf in Hp'. lia. }
    exists s', d. split; [exact Hrd|]. split; [split; [congruence|]|].
    { unfold mem_len in *. rewrite Hbuf in Hp' |- *. exact Hp'. }
    split; [exact Hmp|]. rewrite <- Hb. split; [|split; [exact Hle|]].
    + rewrite Hc. rewrite take_app_length. reflexivity.
    + intros Hlt. apply Hne. intros Hnil. apply (f_equal length) in Hnil.
      rewrite length_drop in Hnil. cbn [length] in Hnil. lia.
  - intros s [Hb Hp]. cbn [io_tell __PHYSFS_memoryIoInterface]. unfold memoryIo_tell.
    unfold mem_len in Hp. rewrite Hb in Hp. rewrite s64_small by lia. lia.
  - intros s off [Hb Hp] Hoff. cbn [io_seek __PHYSFS_memoryIoInterface]. unfold memoryIo_seek.
    unfold mem_len in *. rewrite Hb.
    destruct (Z.ltb_spec (Z.of_nat (length file)) off); [lia|].
    eexists. split; [reflexivity|]. split; [|reflexivity].
    split; cbn [mem_buf mem_pos]; [reflexivity|unfold mem_len; cbn [mem_buf]; lia].
Qed.

Lemma PHYSFS_tell_tracks_reads_witness :
  let file := list_byte_of_string "hello, world" in
  let fh := mkFileHandle (__PHYSFS_createMemoryIo file) true 0 (Some (replicate 4 x00)) 4 0 0 in
  exists fh' d,
    PHYSFS_readBytes fh 7 = (fh', Ok d) /\
    d = take (length d) (drop (Z.to_nat (PHYSFS_tell fh)) file) /\
    PHYSFS_tell fh' = (PHYSFS_tell fh + Z.of_nat (length d))%Z.
Proof.
  intros file fh.
  destruct (@PHYSFS_tell_tracks_reads MemoryIoInfo _ file _ _
              (memoryIo_file_stream file ltac:(vm_compute; reflexivity)) fh 7)
    as (fh' & d & Hrd & Hd & Ht & _).
  - split; [|split; [cbn; lia|reflexivity]].
    split; [split; [reflexivity|vm_compute; split; discriminate]|].
    cbn. repeat split; try lia.
  - vm_compute. split; [reflexivity|discriminate].
  - exists fh', d. split; [exact Hrd|]. split; [exact Hd|exact Ht].
Defined.


(** ** Buffered writes *)

Section BufferedSink.
Context {S : Type} `{PHYSFS_Io S}.

(** *** Streams that take what is written

    [written s] is what the stream has received.  Every write of at
    least one byte is taken whole and added at the end. *)
Variable written : S -> list byte.
Variable sink_ok : S -> Prop.

Definition takes_writes : Prop :=
  forall (s : S) (d : list byte), sink_ok s -> d <> [] ->
    exists s', io_write s d = (s', Ok (Z.of_nat (length d))) /\ sink_ok s' /\
      written s' = written s ++ d.

Hypothesis write_spec : takes_writes.

(** A write handle: its buffer, if it has one, holds [buffill] bytes
    from its start, within [bufsize], which the block is large enough
    for. *)
Definition write_ok (fh : FileHandle S) : Prop :=
  sink_ok (fh_io fh) /\ forReading fh = false /\ bufpos fh = 0 /\
  buffill fh <= bufsize fh /\ bufsize fh <= length (fh_buf fh) /\
  (buffer fh = None -> bufsize fh = 0).

(** What has been written through the handle: what the stream has
    received, then what waits in the buffer. *)
Definition delivered (fh : FileHandle S) : list byte :=
  written (fh_io fh) ++ take (buffill fh) (fh_buf fh).

Lemma PHYSFS_flush_write (fh : FileHandle S) :
  write_ok fh ->
  exists fh', PHYSFS_flush fh = (fh', Ok tt) /\ write_ok fh' /\
    written (fh_io fh') = delivered fh /\ buffill fh' = 0 /\
    buffer fh' = buffer fh /\ bufsize fh' = bufsize fh.
Proof.
  intros (Hs & Hr & Hp & Hfill & Hsize & Hnone). unfold PHYSFS_flush, delivered.
  rewrite Hr, Hp. cbn [orb].
  destruct (Nat.eqb_spec 0 (buffill fh)) as [Hz|Hnz].
  - exists fh. rewrite <- Hz, take_0, app_nil_r.
    repeat split; try assumption; lia.
  - rewrite drop_0, Nat.sub_0_r.
    destruct (write_spec (fh_io fh) (take (buffill fh) (fh_buf fh)) Hs) as (s' & Hw & Hs' & Hwr).
    { intros Hnil. apply (f_equal length) in Hnil. rewrite length_take in Hnil.
      cbn [length] in Hnil. lia. }
    rewrite Hw. rewrite length_take.
    destruct (Z.leb_spec (Z.of_nat (buffill fh `min` length (fh_buf fh))) 0); [lia|].
    eexists. split; [reflexivity|]. cbn [fh_io buffill buffer bufsize].
    split; [|repeat split; exact Hwr].
    unfold write_ok, fh_buf in *. cbn [fh_io forReading bufpos buffill buffer bufsize].
    repeat split; try assumption; lia.
Qed.

Lemma memcpy_at_length (dst src : list byte) (at_ : nat) :
  at_ + length src <= length dst -> length (memcpy_at dst at_ src) = length dst.
Proof.
  intros Hle. unfold memcpy_at. rewrite !length_app, length_take, length_drop. lia.
Qed.

Lemma memcpy_at_take (dst src : list byte) (at_ : nat) :
  at_ <= length dst ->
  take (at_ + length src) (memcpy_at dst at_ src) = take at_ dst ++ src.
Proof.
  intros Hle. unfold memcpy_at.
  rewrite take_app_ge by (rewrite length_take; lia).
  rewrite length_take. replace (at_ `min` length dst) with at_ by lia.
  replace (at_ + length src - at_) with (length src) by lia.
  rewrite take_app_length. reflexivity.
Qed.

Lemma PHYSFS_writeBytes_write (fh : FileHandle S) (data : list byte) :
  write_ok fh -> (Z.of_nat (length data) <= maxlen)%Z ->
  exists fh', PHYSFS_writeBytes fh data = (fh', Ok (Z.of_nat (length data))) /\
    write_ok fh' /\ delivered fh' = delivered fh ++ data.
Proof.
  intros Hok Hlen. pose proof Hok as (Hs & Hr & Hp & Hfill & Hsize & Hnone).
  unfold PHYSFS_writeBytes.
  destruct (Z.ltb_spec maxlen (Z.of_nat (length data))); [lia|]. rewrite Hr.
  destruct (Nat.eqb_spec (length data) 0) as [Hz|Hnz].
  { exists fh. rewrite Hz. destruct data; [|discriminate]. rewrite app_nil_r.
    split; [reflexivity|]. split; [exact Hok|reflexivity]. }
  assert (Hne : data <> []) by (intros ->; apply Hnz; reflexivity).
  destruct (buffer fh) as [buf|] eqn:Hbuf.
  - unfold doBufferedWrite.
    destruct (Nat.ltb_spec (buffill fh + length data) (bufsize fh)) as [Hfits|Hover].
    + eexists. split; [reflexivity|]. split.
      * unfold write_ok, fh_buf in *.
        cbn [fh_io forReading bufpos buffill buffer bufsize default from_option id] in *.
        rewrite Hbuf in *. cbn [default from_option id] in *.
        rewrite memcpy_at_length by lia.
        repeat split; try assumption; try lia. discriminate.
      * unfold delivered, fh_buf in *. cbn [fh_io buffill buffer default from_option id] in *.
        rewrite Hbuf in *. cbn [default from_option id] in *.
        rewrite memcpy_at_take by lia. rewrite app_assoc. reflexivity.
    + destruct (PHYSFS_flush_write fh Hok) as (fh1 & Hfl & Hok1 & Hwr1 & Hfill1 & Hb1 & Hsz1).
      rewrite Hfl. pose proof Hok1 as (Hs1 & Hr1 & Hp1 & _ & Hsize1 & Hnone1).
      destruct (write_spec (fh_io fh1) data Hs1 Hne) as (s' & Hw & Hs' & Hwr).
      rewrite Hw. eexists. split; [reflexivity|]. split.
      * unfold write_ok, fh_buf in *.
        cbn [fh_io forReading bufpos buffill buffer bufsize]. repeat split; try assumption; lia.
      * unfold delivered at 1. cbn [fh_io buffill]. rewrite Hfill1, take_0, app_nil_r.
        rewrite Hwr, Hwr1. reflexivity.
  - destruct (write_spec (fh_io fh) data Hs Hne) as (s' & Hw & Hs' & Hwr).
    rewrite Hw. specialize (Hnone eq_refl).
    assert (Hf0 : buffill fh = 0) by lia.
    eexists. split; [reflexivity|]. split.
    + unfold write_ok, fh_buf in *.
      cbn [fh_io forReading bufpos buffill buffer bufsize]. rewrite Hbuf in *.
      repeat split; try assumption; lia.
    + unfold delivered. cbn [fh_io buffill]. rewrite Hf0, !take_0, !app_nil_r. exact Hwr.
Qed.

(** X10.  Buffering does not change what a stream receives.  On a write
    handle over a stream that takes every write whole, buffered with
    any size or unbuffered, every [PHYSFS_writeBytes] reports its
    chunk as written in full, and after a final [PHYSFS_flush] the
    stream has received what it had, what waited in the buffer, and
    the chunks, in the order they were written. *)
Theorem buffered_write_equivalence (chunks : list (list byte)) : forall (fh : FileHandle S),
  write_ok fh -> (forall d, d ∈ chunks -> (Z.of_nat (length d) <= maxlen)%Z) ->
  exists fh1 fh2,
    write_all fh chunks = (fh1, true) /\ PHYSFS_flush fh1 = (fh2, Ok tt) /\
    written (fh_io fh2) = delivered fh ++ concat chunks /\ buffill fh2 = 0.
Proof.
  induction chunks as [|d chunks IH]; intros fh Hok Hlen.
  - destruct (PHYSFS_flush_write fh Hok) as (fh2 & Hfl & _ & Hwr & Hfill & _).
    exists fh, fh2. cbn [concat]. rewrite app_nil_r. repeat split; assumption.
  - destruct (PHYSFS_writeBytes_write fh d Hok) as (fh' & Hw & Hok' & Hdel); [apply Hlen; left|].
    destruct (IH fh' Hok') as (fh1 & fh2 & Hall & Hfl & Hwr & Hfill).
    { intros x Hx. apply Hlen. right. exact Hx. }
    exists fh1, fh2. cbn [write_all concat]. rewrite Hw, Z.eqb_refl.
    split; [exact Hall|]. split; [exact Hfl|]. split; [|exact Hfill].
    rewrite Hwr, Hdel, app_assoc. reflexivity.
Qed.

End BufferedSink.

Lemma sinkIo_takes_writes :
  @takes_writes SinkIo sinkIo_interface sink_data (fun _ => True).
Proof.
  intros s d _ _. eexists. split; [reflexivity|]. split; [exact I|reflexivity].
Qed.

Lemma buffered_write_equivalence_witness :
  let chunks := [list_byte_of_string "hel"; list_byte_of_string "lo, w"; list_byte_of_string "orld"] in
  let fh := mkFileHandle (mkSinkIo []) false 0 (Some (replicate 4 x00)) 4 0 0 in
  exists fh1 fh2,
    @write_all SinkIo sinkIo_interface fh chunks = (fh1, true) /\
    @PHYSFS_flush SinkIo sinkIo_interface fh1 = (fh2, Ok tt) /\
    sink_data (fh_io fh2) = list_byte_of_string "hello, world".
Proof.
  intros chunks fh.
  destruct (@buffered_write_equivalence SinkIo sinkIo_interface sink_data (fun _ => True)
              sinkIo_takes_writes chunks fh) as (fh1 & fh2 & Hall & Hfl & Hwr & _).
  - unfold write_ok. cbn. repeat split; try lia. discriminate.
  - intros d Hd. vm_compute in Hd.
    repeat (apply elem_of_cons in Hd as [->|Hd]; [vm_compute; discriminate|]). inversion Hd.
  - exists fh1, fh2. split; [exact Hall|]. split; [exact Hfl|]. rewrite Hwr. reflexivity.
Defined.

(** ** The search path: order, mount points, precedence *)

Section SearchPath.
Context {S : Type} `{PHYSFS_Io S}.

Lemma getSearchPath_names (st : PhysfsState S) :
  PHYSFS_getSearchPath st = mount_names (searchPath st).
Proof.
  unfold PHYSFS_getSearchPath, PHYSFS_getSearchPathCallback, mount_names.
  assert (Hgen : forall (l : list (nat * DirHandle)) acc,
            fold_left (fun d i => enumStringListCallback d (dirName i.2)) l acc =
            acc ++ ((fun i => dirName i.2) <$> l)).
  { induction l as [|i l IH]; intros acc; cbn [fold_left fmap list_fmap].
    - rewrite app_nil_r. reflexivity.
    - rewrite IH. unfold enumStringListCallback. rewrite <- app_assoc. reflexivity. }
  rewrite Hgen. reflexivity.
Qed.

Lemma getMountPoint_loop_app (dir : list ascii) (l1 l2 : list (nat * DirHandle)) :
  dir ∉ mount_names l1 ->
  getMountPoint_loop dir (l1 ++ l2) = getMountPoint_loop dir l2.
Proof.
  induction l1 as [|i l1 IH]; intros Hnot; [reflexivity|].
  cbn [app getMountPoint_loop].
  destruct (Z.eqb_spec (strcmp (dirName i.2) dir) 0) as [Heq|Hne].
  - exfalso. apply Hnot. apply strcmp_eq in Heq. rewrite <- Heq. left.
  - apply IH. intros Hin. apply Hnot. right. exact Hin.
Qed.

Lemma getMountPoint_loop_snoc (dir : list ascii) (l : list (nat * DirHandle))
    (i : nat * DirHandle) :
  dirName i.2 <> dir ->
  getMountPoint_loop dir (l ++ [i]) = getMountPoint_loop dir l.
Proof.
  intros Hne. induction l as [|j l IH]; cbn [app getMountPoint_loop].
  - destruct (Z.eqb_spec (strcmp (dirName i.2) dir) 0) as [Heq|_]; [|reflexivity].
    apply strcmp_eq in Heq. contradiction.
  - destruct (strcmp (dirName j.2) dir =? 0)%Z; [reflexivity|exact IH].
Qed.

(** What a successful mount of a new name adds to the state. *)
Lemma doMount_new opened (d : list ascii) mp app (st st' : PhysfsState S) :
  d ∉ mount_names (searchPath st) ->
  doMount opened (Some d) mp app st = (st', Ok tt) ->
  exists m,
    sanitizePlatformIndependentPath (default (cstr "/") mp) = Ok m /\
    let node := (next_addr st,
                 mkDirHandle d (match m with
                                | [] => None
                                | _ => Some (m ++ cstr "/")
                                end) None) in
    st' = mkState (if app then searchPath st ++ [node] else node :: searchPath st)
                  (writeDir st) (openWriteList st) (openReadList st) (Datatypes.S (next_addr st)).
Proof.
  intros Hnew. unfold doMount.
  destruct (existsb _ (searchPath st)) eqn:Hex.
  { apply mounted_existsb in Hex. contradiction. }
  unfold createDirHandle.
  destruct (sanitizePlatformIndependentPath (default (cstr "/") mp)) as [m| |] eqn:Hs;
    try discriminate.
  destruct opened as [[]| |]; try discriminate.
  intros [= <-]. exists m. split; [reflexivity|]. destruct m; reflexivity.
Qed.

(** X11.  After a successful mount of a directory that was not
    mounted, [PHYSFS_getSearchPath] lists it last when it was appended
    and first otherwise, with the other mounts in their order;
    [PHYSFS_getMountPoint] returns for it the sanitized mount point
    followed by a separator, or "/" when that is empty; and the mount
    points of the other directories are what they were. *)
Theorem doMount_search_path opened (d : list ascii) mp app (st st' : PhysfsState S) :
  d ∉ mount_names (searchPath st) ->
  doMount opened (Some d) mp app st = (st', Ok tt) ->
  PHYSFS_getSearchPath st' =
    (if app then PHYSFS_getSearchPath st ++ [d] else d :: PHYSFS_getSearchPath st) /\
  (exists m, sanitizePlatformIndependentPath (default (cstr "/") mp) = Ok m /\
     PHYSFS_getMountPoint d st' =
       Ok (match m with
           | [] => cstr "/"
           | _ => m ++ cstr "/"
           end)) /\
  (forall d', d' <> d -> PHYSFS_getMountPoint d' st' = PHYSFS_getMountPoint d' st).
Proof.
  intros Hnew Hm. destruct (doMount_new opened d mp app st st' Hnew Hm) as (m & Hs & ->).
  rewrite !getSearchPath_names. unfold PHYSFS_getMountPoint. cbn [searchPath].
  split; [|split].
  - destruct app; unfold mount_names; [rewrite fmap_app|]; reflexivity.
  - exists m. split; [exact Hs|].
    assert (Hhit : forall rest,
              getMountPoint_loop d
                ((next_addr st,
                  mkDirHandle d (match m with [] => None | _ => Some (m ++ cstr "/") end) None)
                 :: rest) =
              Ok (match m with [] => cstr "/" | _ => m ++ cstr "/" end)).
    { intros rest. cbn [getMountPoint_loop snd dirName mountPoint].
      rewrite strcmp_refl. cbn [Z.eqb]. destruct m; reflexivity. }
    destruct app; [rewrite getMountPoint_loop_app by exact Hnew|]; apply Hhit.
  - intros d' Hd'. destruct app.
    + apply getMountPoint_loop_snoc. cbn. congruence.
    + cbn [getMountPoint_loop snd dirName].
      destruct (Z.eqb_spec (strcmp d d') 0) as [Heq|_]; [|reflexivity].
      apply strcmp_eq in Heq. congruence.
Qed.

(** *** Handles of the reachable states *)

Definition handle_addrs (l : list (nat * FileHandle S)) : list nat := fst <$> l.

(** Handles have addresses of their own, below the allocation counter,
    and read handles refer to addresses below it. *)
Record handles_inv (st : PhysfsState S) : Prop := mkHandlesInv {
  hinv_nodup : NoDup (handle_addrs (openReadList st) ++ handle_addrs (openWriteList st));
  hinv_addrs : forall a, a ∈ handle_addrs (openReadList st) ++ handle_addrs (openWriteList st) ->
    a < next_addr st;
  hinv_mounts : forall h, h ∈ openReadList st -> dirHandle h.2 < next_addr st
}.

Lemma handles_inv_next (st : PhysfsState S) path wd n :
  handles_inv st -> next_addr st <= n ->
  handles_inv (mkState path wd (openWriteList st) (openReadList st) n).
Proof.
  intros [Hnd Ha Hm] Hle. split; cbn [openReadList openWriteList next_addr].
  - exact Hnd.
  - intros a Hin. specialize (Ha a Hin). lia.
  - intros h Hin. specialize (Hm h Hin). lia.
Qed.

Lemma closeHandleInOpenList_sub (l : list (nat * FileHandle S)) (handle : nat) :
  handle_addrs (closeHandleInOpenList l handle).1 `sublist_of` handle_addrs l /\
  (forall h', h' ∈ (closeHandleInOpenList l handle).1 ->
     exists h, h ∈ l /\ h'.1 = h.1 /\ dirHandle h'.2 = dirHandle h.2).
Proof.
  induction l as [|i l [IH1 IH2]]; cbn [closeHandleInOpenList].
  - split; [reflexivity|]. intros h' Hin. inversion Hin.
  - assert (Hkeep : forall fh' : FileHandle S, dirHandle fh' = dirHandle i.2 ->
              handle_addrs ((i.1, fh') :: l) `sublist_of` handle_addrs (i :: l) /\
              (forall h', h' ∈ (i.1, fh') :: l ->
                 exists h, h ∈ i :: l /\ h'.1 = h.1 /\ dirHandle h'.2 = dirHandle h.2)).
    { intros fh' Hd. split; [reflexivity|]. intros h' Hin.
      apply elem_of_cons in Hin as [->|Hin].
      - exists i. split; [left|]. split; [reflexivity|exact Hd].
      - exists h'. split; [right; exact Hin|]. split; reflexivity. }
    assert (Hdrop : handle_addrs l `sublist_of` handle_addrs (i :: l) /\
              (forall h', h' ∈ l ->
                 exists h, h ∈ i :: l /\ h'.1 = h.1 /\ dirHandle h'.2 = dirHandle h.2)).
    { split; [apply sublist_cons, reflexivity|]. intros h' Hin.
      exists h'. split; [right; exact Hin|]. split; reflexivity. }
    destruct (i.1 =? handle).
    + destruct (negb (forReading i.2)); [|exact Hdrop].
      unfold PHYSFS_flush.
      destruct (forReading i.2 || (bufpos i.2 =? buffill i.2)).
      * destruct (io_flush (fh_io i.2)) as [io2 [[]| |]]; [exact Hdrop|apply Hkeep..];
          reflexivity.
      * destruct (io_write _ _) as [io' [n| |]]; [|apply Hkeep; reflexivity..].
        destruct (n <=? 0)%Z; [apply Hkeep; reflexivity|].
        cbn [fh_io]. destruct (io_flush io') as [io2 [[]| |]];
          [exact Hdrop|apply Hkeep; reflexivity..].
    + destruct (closeHandleInOpenList l handle) as [next' rc]. cbn [fst] in *.
      split; [apply sublist_skip, IH1|]. intros h' Hin.
      apply elem_of_cons in Hin as [->|Hin].
      * exists i. split; [left|]. split; reflexivity.
      * destruct (IH2 h' Hin) as (h & Hh & Heq). exists h. split; [right; exact Hh|exact Heq].
Qed.

Lemma closeFileHandleList_sub (l : list (nat * FileHandle S)) :
  handle_addrs (closeFileHandleList l).1 `sublist_of` handle_addrs l /\
  (forall h', h' ∈ (closeFileHandleList l).1 ->
     exists h, h ∈ l /\ h'.1 = h.1 /\ dirHandle h'.2 = dirHandle h.2).
Proof.
  induction l as [|i l [IH1 IH2]]; cbn [closeFileHandleList].
  - split; [reflexivity|]. intros h' Hin. inversion Hin.
  - destruct (io_flush (fh_io i.2)) as [io' [[]| |]].
    + split; [apply sublist_cons, IH1|]. intros h' Hin.
      destruct (IH2 h' Hin) as (h & Hh & Heq). exists h. split; [right; exact Hh|exact Heq].
    + split; [reflexivity|]. intros h' Hin. apply elem_of_cons in Hin as [->|Hin].
      * exists i. split; [left|]. split; reflexivity.
      * exists h'. split; [right; exact Hin|]. split; reflexivity.
    + split; [reflexivity|]. intros h' Hin. apply elem_of_cons in Hin as [->|Hin].
      * exists i. split; [left|]. split; reflexivity.
      * exists h'. split; [right; exact Hin|]. split; reflexivity.
Qed.

(** Lists with fewer handles keep the invariant. *)
Lemma handles_inv_sub (st : PhysfsState S) path wd wl rl :
  handles_inv st ->
  handle_addrs rl `sublist_of` handle_addrs (openReadList st) ->
  handle_addrs wl `sublist_of` handle_addrs (openWriteList st) ->
  (forall h', h' ∈ rl -> exists h, h ∈ openReadList st /\ h'.1 = h.1 /\
                                   dirHandle h'.2 = dirHandle h.2) ->
  handles_inv (mkState path wd wl rl (next_addr st)).
Proof.
  intros [Hnd Ha Hm] Hr Hw Hrd. split; cbn [openReadList openWriteList next_addr].
  - exact (sublist_NoDup _ _ Hnd (sublist_app _ _ _ _ Hr Hw)).
  - intros a Hin. apply Ha. exact (elem_of_sublist _ _ _ Hin (sublist_app _ _ _ _ Hr Hw)).
  - intros h' Hin. destruct (Hrd h' Hin) as (h & Hh & _ & Hd). rewrite Hd. apply Hm, Hh.
Qed.

Lemma handles_inv_initial : handles_inv (initial_state (S := S)).
Proof.
  split; cbn.
  - constructor.
  - intros a Ha. inversion Ha.
  - intros h Hh. inversion Hh.
Qed.

Lemma sub_refl_handles (l : list (nat * FileHandle S)) :
  forall h', h' ∈ l -> exists h, h ∈ l /\ h'.1 = h.1 /\ dirHandle h'.2 = dirHandle h.2.
Proof. intros h' Hin. exists h'. split; [exact Hin|]. split; reflexivity. Qed.

Lemma openRead_loop_addr probe (fname : list ascii) (path : list (nat * DirHandle)) i (io : S) :
  openRead_loop probe fname path = Ok (i, io) -> i ∈ mount_addrs path.
Proof.
  induction path as [|j path IH]; cbn [openRead_loop]; [discriminate|].
  destruct (probe j fname) as [io'| |].
  - intros [= <- <-]. left.
  - intros Hr. right. apply IH, Hr.
  - intros Hr. right. apply IH, Hr.
Qed.

Lemma api_step_handles (st st' : PhysfsState S) :
  api_step st st' -> mount_inv st -> handles_inv st -> handles_inv st'.
Proof.
  intros Hstep Hminv Hinv. destruct Hstep.
  - (* mount *)
    unfold PHYSFS_mount. destruct newDir as [d|]; [|exact Hinv]. unfold doMount.
    destruct (existsb _ _); [exact Hinv|].
    destruct (createDirHandle _ _ _); [|exact Hinv..].
    cbn [fst]. apply (handles_inv_next st); [exact Hinv|lia].
  - (* unmount *)
    unfold PHYSFS_unmount. destruct oldDir as [d|]; [|exact Hinv].
    destruct (unmount_loop _ _ _); [|exact Hinv..].
    cbn [fst]. apply (handles_inv_next st); [exact Hinv|lia].
  - (* setWriteDir *)
    unfold PHYSFS_setWriteDir.
    destruct (match writeDir st with Some wd => _ | None => _ end); [|exact Hinv..].
    destruct newDir as [d|]; [|apply (handles_inv_next st); [exact Hinv|cbn; lia]].
    destruct (createDirHandle _ _ _); cbn [fst];
      apply (handles_inv_next st); try exact Hinv; cbn; lia.
  - (* openRead *)
    unfold PHYSFS_openRead. destruct fname as [f|]; [|exact Hinv].
    destruct (searchPath st) eqn:Hsp; [exact Hinv|]. rewrite <- Hsp.
    destruct (sanitizePlatformIndependentPath f); [|exact Hinv..].
    destruct (openRead_loop probe a (searchPath st)) as [[i io]| |] eqn:Hloop; [|exact Hinv..].
    cbn [fst]. destruct Hinv as [Hnd Ha Hm]. split; cbn [openReadList openWriteList next_addr].
    + cbn [handle_addrs fmap list_fmap fst app]. apply NoDup_cons. split; [|exact Hnd].
      intros Hin. specialize (Ha _ Hin). lia.
    + intros x Hin. cbn [handle_addrs fmap list_fmap fst app] in Hin.
      apply elem_of_cons in Hin as [->|Hin]; [lia|]. specialize (Ha _ Hin). lia.
    + intros h Hin. apply elem_of_cons in Hin as [->|Hin].
      * cbn [snd dirHandle]. apply openRead_loop_addr in Hloop.
        unfold mount_addrs in Hloop. apply list_elem_of_fmap in Hloop as (j & -> & Hj).
        pose proof (inv_addrs _ Hminv j Hj). lia.
      * specialize (Hm h Hin). lia.
  - (* openWrite *)
    unfold PHYSFS_openWrite, doOpenWrite. destruct fname as [f|]; [|exact Hinv].
    destruct (writeDir st); [|exact Hinv].
    destruct (sanitizePlatformIndependentPath f); [|exact Hinv..].
    destruct (probe p a) as [io| |]; [|exact Hinv..].
    cbn [fst]. destruct Hinv as [Hnd Ha Hm]. split; cbn [openReadList openWriteList next_addr].
    + cbn [handle_addrs fmap list_fmap fst]. apply NoDup_app in Hnd as (Hn1 & Hn2 & Hn3).
      apply NoDup_app. split; [exact Hn1|]. split.
      * intros x Hx Hin. apply elem_of_cons in Hin as [->|Hin]; [|exact (Hn2 x Hx Hin)].
        assert (Hlt : next_addr st < next_addr st); [|lia].
        apply Ha. apply elem_of_app. left. exact Hx.
      * apply NoDup_cons. split; [|exact Hn3]. intros Hin.
        assert (Hlt : next_addr st < next_addr st); [|lia].
        apply Ha. apply elem_of_app. right. exact Hin.
    + intros x Hin. cbn [handle_addrs fmap list_fmap fst] in Hin.
      apply elem_of_app in Hin as [Hin|Hin].
      * assert (x < next_addr st); [|lia]. apply Ha. apply elem_of_app. left. exact Hin.
      * apply elem_of_cons in Hin as [->|Hin]; [lia|].
        assert (x < next_addr st); [|lia]. apply Ha. apply elem_of_app. right. exact Hin.
    + intros h Hin. specialize (Hm h Hin). lia.
  - (* openAppend *)
    unfold PHYSFS_openAppend, doOpenWrite. destruct fname as [f|]; [|exact Hinv].
    destruct (writeDir st); [|exact Hinv].
    destruct (sanitizePlatformIndependentPath f); [|exact Hinv..].
    destruct (probe p a) as [io| |]; [|exact Hinv..].
    cbn [fst]. destruct Hinv as [Hnd Ha Hm]. split; cbn [openReadList openWriteList next_addr].
    + cbn [handle_addrs fmap list_fmap fst]. apply NoDup_app in Hnd as (Hn1 & Hn2 & Hn3).
      apply NoDup_app. split; [exact Hn1|]. split.
      * intros x Hx Hin. apply elem_of_cons in Hin as [->|Hin]; [|exact (Hn2 x Hx Hin)].
        assert (Hlt : next_addr st < next_addr st); [|lia].
        apply Ha. apply elem_of_app. left. exact Hx.
      * apply NoDup_cons. split; [|exact Hn3]. intros Hin.
        assert (Hlt : next_addr st < next_addr st); [|lia].
        apply Ha. apply elem_of_app. right. exact Hin.
    + intros x Hin. cbn [handle_addrs fmap list_fmap fst] in Hin.
      apply elem_of_app in Hin as [Hin|Hin].
      * assert (x < next_addr st); [|lia]. apply Ha. apply elem_of_app. left. exact Hin.
      * apply elem_of_cons in Hin as [->|Hin]; [lia|].
        assert (x < next_addr st); [|lia]. apply Ha. apply elem_of_app. right. exact Hin.
    + intros h Hin. specialize (Hm h Hin). lia.
  - (* close *)
    unfold PHYSFS_close.
    destruct (closeHandleInOpenList_sub (openReadList st) handle) as [Hr1 Hr2].
    destruct (closeHandleInOpenList_sub (openWriteList st) handle) as [Hw1 Hw2].
    destruct (closeHandleInOpenList (openReadList st) handle) as [rl rc]. cbn [fst] in *.
    destruct (rc =? -1)%Z; [apply (handles_inv_sub st); auto; reflexivity|].
    destruct (rc =? 0)%Z; [|apply (handles_inv_sub st); auto; reflexivity].
    destruct (closeHandleInOpenList (openWriteList st) handle) as [wl rc']. cbn [fst] in *.
    destruct (rc' =? -1)%Z; [apply (handles_inv_sub st); auto|].
    destruct (rc' =? 0)%Z; apply (handles_inv_sub st); auto.
  - (* deinit *)
    unfold doDeinit.
    destruct (closeFileHandleList_sub (openWriteList st)) as [Hw1 Hw2].
    destruct (closeFileHandleList (openWriteList st)) as [wl b]. cbn [fst] in *.
    assert (Hinv1 : handles_inv (mkState (searchPath st) (writeDir st) wl (openReadList st)
                                         (next_addr st))).
    { apply (handles_inv_sub st); [exact Hinv|reflexivity|exact Hw1|apply sub_refl_handles]. }
    unfold PHYSFS_setWriteDir. cbn [writeDir openWriteList searchPath openReadList next_addr].
    destruct (match writeDir st with Some wd => _ | None => _ end).
    + cbn [openReadList].
      destruct (closeFileHandleList_sub (openReadList st)) as [Hr1 Hr2].
      destruct (closeFileHandleList (openReadList st)) as [rl b']. cbn [fst] in *.
      apply (handles_inv_sub st); auto.
    + exact Hinv1.
    + exact Hinv1.
  - (* a call on a read handle *)
    destruct Hinv as [Hnd Ha Hm]. split; cbn [openReadList openWriteList next_addr].
    + rewrite H0 in Hnd. unfold handle_addrs in *. rewrite fmap_app in *. exact Hnd.
    + intros x Hin. apply Ha. rewrite H0. unfold handle_addrs in *. rewrite fmap_app in *.
      exact Hin.
    + intros h Hin. apply elem_of_app in Hin as [Hin|Hin].
      * apply Hm. rewrite H0. apply elem_of_app. left. exact Hin.
      * apply elem_of_cons in Hin as [->|Hin].
        -- cbn [snd]. rewrite H1. apply (Hm (a, fh)). rewrite H0. apply elem_of_app. right. left.
        -- apply Hm. rewrite H0. apply elem_of_app. right. right. exact Hin.
  - (* a call on a write handle *)
    destruct Hinv as [Hnd Ha Hm]. split; cbn [openReadList openWriteList next_addr].
    + rewrite H0 in Hnd. unfold handle_addrs in *. rewrite !fmap_app in *. exact Hnd.
    + intros x Hin. apply Ha. rewrite H0. unfold handle_addrs in *. rewrite !fmap_app in *.
      exact Hin.
    + exact Hm.
Qed.

Lemma reachable_handles (st : PhysfsState S) : reachable st -> mount_inv st /\ handles_inv st.
Proof.
  unfold reachable. intros Hr.
  refine (rtc_ind_r (fun st => mount_inv st /\ handles_inv st) initial_state _ _ st Hr).
  - split; [apply mount_inv_initial|apply handles_inv_initial].
  - intros y z _ Hstep [Hm Hh].
    split; [exact (api_step_inv y z Hstep Hm)|exact (api_step_handles y z Hstep Hm Hh)].
Qed.

(** *** Mounting and unmounting *)

Lemma unmount_loop_app (d : list ascii) (rl : list (nat * FileHandle S))
    (l1 l2 : list (nat * DirHandle)) :
  d ∉ mount_names l1 ->
  unmount_loop d rl (l1 ++ l2) =
    match unmount_loop d rl l2 with
    | Ok p => Ok (l1 ++ p)
    | f => f
    end.
Proof.
  induction l1 as [|i l1 IH]; intros Hnot.
  - cbn [app]. destruct (unmount_loop d rl l2); reflexivity.
  - cbn [app unmount_loop].
    destruct (Z.eqb_spec (strcmp (dirName i.2) d) 0) as [Heq|Hne].
    + exfalso. apply Hnot. apply strcmp_eq in Heq. rewrite <- Heq. left.
    + rewrite IH by (intros Hin; apply Hnot; right; exact Hin).
      destruct (unmount_loop d rl l2); reflexivity.
Qed.

(** X12.  In a reachable state, mounting a directory that is not
    mounted and unmounting it right away succeeds and gives back the
    search path as it was, whether the mount was appended or not; the
    write dir and the open handles are not touched. *)
Theorem mount_unmount_round_trip opened (d : list ascii) mp app (st st' : PhysfsState S) :
  reachable st -> d ∉ mount_names (searchPath st) ->
  doMount opened (Some d) mp app st = (st', Ok tt) ->
  PHYSFS_unmount (Some d) st' =
    (mkState (searchPath st) (writeDir st) (openWriteList st) (openReadList st)
             (Datatypes.S (next_addr st)), Ok tt).
Proof.
  intros Hreach Hnew Hm.
  destruct (reachable_handles st Hreach) as [_ Hh].
  destruct (doMount_new opened d mp app st st' Hnew Hm) as (m & _ & ->). cbv zeta.
  set (node := (next_addr st, mkDirHandle d _ None)).
  assert (Hfree : freeDirHandle node (openReadList st) = Ok tt).
  { apply freeDirHandle_ok. intros h Hin. pose proof (hinv_mounts _ Hh h Hin). cbn. lia. }
  assert (Hone : forall rest, unmount_loop d (openReadList st) (node :: rest) = Ok rest).
  { intros rest. cbn [unmount_loop]. unfold node at 1. cbn [snd dirName].
    rewrite strcmp_refl. cbn [Z.eqb]. rewrite Hfree. reflexivity. }
  unfold PHYSFS_unmount. cbn [searchPath openReadList writeDir openWriteList next_addr].
  destruct app.
  - rewrite unmount_loop_app by exact Hnew. rewrite Hone, app_nil_r. reflexivity.
  - rewrite Hone. reflexivity.
Qed.

(** The handle that [PHYSFS_openRead] opens for a name, if it opens
    one: the head of the list of open read handles. *)
Definition opened_by (probe : nat * DirHandle -> list ascii -> res S) (_fname : list ascii)
    (st : PhysfsState S) : option (FileHandle S) :=
  match PHYSFS_openRead probe (Some _fname) st with
  | (st1, Ok _) => snd <$> head (openReadList st1)
  | _ => None
  end.

Lemma opened_by_loop (probe : nat * DirHandle -> list ascii -> res S)
    (_fname fname : list ascii) (st : PhysfsState S) :
  sanitizePlatformIndependentPath _fname = Ok fname ->
  opened_by probe _fname st =
    match openRead_loop probe fname (searchPath st) with
    | Ok (i, io) => Some (mkFileHandle io true i None 0 0 0)
    | _ => None
    end.
Proof.
  intros Hs. unfold opened_by, PHYSFS_openRead. rewrite Hs.
  destruct (searchPath st) as [|j path] eqn:Hsp; [reflexivity|].
  destruct (openRead_loop probe fname (j :: path)) as [[i io]| |]; reflexivity.
Qed.

Lemma openRead_loop_app (probe : nat * DirHandle -> list ascii -> res S)
    (fname : list ascii) (l1 l2 : list (nat * DirHandle)) :
  openRead_loop probe fname (l1 ++ l2) =
    match openRead_loop probe fname l1 with
    | Ok r => Ok r
    | _ => openRead_loop probe fname l2
    end.
Proof.
  induction l1 as [|i l1 IH]; [reflexivity|]. cbn [app openRead_loop].
  destruct (probe i fname); [reflexivity|exact IH..].
Qed.

(** X13.  The search path is searched in order, so a mount in front
    overrides the others and a mount at the end is overridden by them:
    after a directory was mounted first, [PHYSFS_openRead] opens a file
    that it holds from it, whatever the other mounts hold; after it was
    mounted last, every file that [PHYSFS_openRead] opened before is
    opened from the same mount as before, as the same stream. *)
Theorem mount_precedence (probe : nat * DirHandle -> list ascii -> res S) opened
    (d : list ascii) mp app (_fname fname : list ascii) (st st' : PhysfsState S) :
  d ∉ mount_names (searchPath st) ->
  doMount opened (Some d) mp app st = (st', Ok tt) ->
  sanitizePlatformIndependentPath _fname = Ok fname ->
  (app = false -> forall node io,
     head (searchPath st') = Some node -> probe node fname = Ok io ->
     opened_by probe _fname st' = Some (mkFileHandle io true (next_addr st) None 0 0 0)) /\
  (app = true -> forall fh,
     opened_by probe _fname st = Some fh -> opened_by probe _fname st' = Some fh).
Proof.
  intros Hnew Hm Hs.
  destruct (doMount_new opened d mp app st st' Hnew Hm) as (m & _ & ->). cbv zeta.
  rewrite !(opened_by_loop probe _fname fname _ Hs). cbn [searchPath]. split.
  - intros -> node io [= <-] Hp. cbn [openRead_loop].
    match goal with
    | |- context [probe ?n fname] =>
        replace (probe n fname) with (Ok io : res S) by (symmetry; exact Hp)
    end.
    reflexivity.
  - intros -> fh. rewrite openRead_loop_app.
    destruct (openRead_loop probe fname (searchPath st)) as [[i io]| |]; [|discriminate..].
    intros Hfh. exact Hfh.
Qed.

(** *** Closing a handle *)

Lemma closeHandleInOpenList_absent (l : list (nat * FileHandle S)) (h : nat) :
  h ∉ handle_addrs l -> closeHandleInOpenList l h = (l, 0%Z).
Proof.
  induction l as [|i l IH]; intros Hnot; [reflexivity|]. cbn [closeHandleInOpenList].
  destruct (Nat.eqb_spec i.1 h) as [Heq|Hne].
  - exfalso. apply Hnot. rewrite <- Heq. left.
  - rewrite IH by (intros Hin; apply Hnot; right; exact Hin). reflexivity.
Qed.

Lemma closeHandleInOpenList_read (l : list (nat * FileHandle S)) (h : nat) (fh : FileHandle S) :
  NoDup (handle_addrs l) -> (h, fh) ∈ l -> forReading fh = true ->
  exists l1 l2, l = l1 ++ (h, fh) :: l2 /\ closeHandleInOpenList l h = (l1 ++ l2, 1%Z) /\
    h ∉ handle_addrs (l1 ++ l2).
Proof.
  induction l as [|i l IH]; intros Hnd Hin Hr; [inversion Hin|].
  cbn [handle_addrs fmap list_fmap] in Hnd. apply NoDup_cons in Hnd as [Hni Hnd].
  cbn [closeHandleInOpenList].
  destruct (Nat.eqb_spec i.1 h) as [Heq|Hne].
  - assert (Hi : i = (h, fh)).
    { apply elem_of_cons in Hin as [Hin|Hin]; [symmetry; exact Hin|].
      exfalso. apply Hni. rewrite Heq. unfold handle_addrs.
      apply list_elem_of_fmap. exists (h, fh). split; [reflexivity|exact Hin]. }
    subst i. cbn [snd]. rewrite Hr. cbn [negb].
    exists [], l. split; [reflexivity|]. split; [reflexivity|]. exact Hni.
  - apply elem_of_cons in Hin as [Hin|Hin]; [subst i; cbn in Hne; congruence|].
    destruct (IH Hnd Hin Hr) as (l1 & l2 & -> & Hc & Hnot).
    rewrite Hc. exists (i :: l1), l2. split; [reflexivity|]. split; [reflexivity|].
    cbn [app handle_addrs fmap list_fmap]. intros Hx.
    apply elem_of_cons in Hx as [Hx|Hx]; [congruence|exact (Hnot Hx)].
Qed.

(** X14.  In a reachable state, [PHYSFS_close] on an open read handle
    succeeds, takes that handle and no other out of the list of open
    read handles, and leaves the rest of the state alone; closing the
    same handle once more fails with INVALID_ARGUMENT and changes
    nothing. *)
Theorem PHYSFS_close_read_handle (st : PhysfsState S) (h : nat) (fh : FileHandle S) :
  reachable st -> (h, fh) ∈ openReadList st -> forReading fh = true ->
  exists l1 l2,
    openReadList st = l1 ++ (h, fh) :: l2 /\
    let st' := mkState (searchPath st) (writeDir st) (openWriteList st) (l1 ++ l2)
                       (next_addr st) in
    PHYSFS_close h st = (st', Ok tt) /\
    PHYSFS_close h st' = (st', Bail PHYSFS_ERR_INVALID_ARGUMENT).
Proof.
  intros Hreach Hin Hr. destruct (reachable_handles st Hreach) as [_ Hh].
  pose proof (hinv_nodup _ Hh) as Hnd. apply NoDup_app in Hnd as (Hnr & Hdisj & Hnw).
  destruct (closeHandleInOpenList_read _ h fh Hnr Hin Hr) as (l1 & l2 & Heq & Hc & Hnot).
  exists l1, l2. split; [exact Heq|]. cbv zeta. split.
  - unfold PHYSFS_close. rewrite Hc. reflexivity.
  - unfold PHYSFS_close. cbn [openReadList openWriteList searchPath writeDir next_addr].
    rewrite (closeHandleInOpenList_absent _ h Hnot). cbn [Z.eqb].
    rewrite (closeHandleInOpenList_absent (openWriteList st) h); [reflexivity|].
    apply Hdisj. unfold handle_addrs. apply list_elem_of_fmap.
    exists (h, fh). split; [reflexivity|exact Hin].
Qed.

(** *** Shutting down *)

Definition flushes (h : nat * FileHandle S) : Prop :=
  exists io', io_flush (fh_io h.2) = (io', Ok tt).

Lemma closeFileHandleList_all (l : list (nat * FileHandle S)) :
  (forall h, h ∈ l -> flushes h) -> closeFileHandleList l = ([], true).
Proof.
  induction l as [|i l IH]; intros Hall; [reflexivity|]. cbn [closeFileHandleList].
  destruct (Hall i) as [io' Hf]; [left|]. rewrite Hf.
  apply IH. intros h Hh. apply Hall. right. exact Hh.
Qed.

Lemma closeFileHandleList_stuck (l : list (nat * FileHandle S)) (h : nat * FileHandle S) :
  h ∈ l -> ~ flushes h ->
  exists i rest, (closeFileHandleList l).1 = i :: rest /\ exists j, j ∈ l /\
    dirHandle i.2 = dirHandle j.2.
Proof.
  induction l as [|i l IH]; intros Hin Hno; [inversion Hin|]. cbn [closeFileHandleList].
  destruct (io_flush (fh_io i.2)) as [io' [[]| |]] eqn:Hf.
  - apply elem_of_cons in Hin as [->|Hin]; [exfalso; apply Hno; exists io'; exact Hf|].
    destruct (IH Hin Hno) as (i' & rest & Heq & j & Hj & Hd).
    exists i', rest. split; [exact Heq|]. exists j. split; [right; exact Hj|exact Hd].
  - eexists _, _. split; [reflexivity|]. exists i. split; [left|reflexivity].
  - eexists _, _. split; [reflexivity|]. exists i. split; [left|reflexivity].
Qed.

(** X15.  [doDeinit] closes everything when every open handle can be
    flushed: it succeeds, and the search path, the write dir and both
    lists of open handles are empty afterwards. *)
Theorem doDeinit_closes_everything (st : PhysfsState S) :
  (forall h, h ∈ openWriteList st -> flushes h) ->
  (forall h, h ∈ openReadList st -> flushes h) ->
  doDeinit st = (mkState [] None [] [] (next_addr st), Ok tt).
Proof.
  intros Hw Hr. unfold doDeinit. rewrite (closeFileHandleList_all _ Hw).
  unfold PHYSFS_setWriteDir. cbn [writeDir openWriteList searchPath openReadList next_addr].
  assert (Hfree : match writeDir st with
                  | Some wd => freeDirHandle (S := S) wd []
                  | None => Ok tt
                  end = Ok tt) by (destruct (writeDir st); reflexivity).
  rewrite Hfree. cbn [openReadList writeDir openWriteList next_addr].
  rewrite (closeFileHandleList_all _ Hr). reflexivity.
Qed.

(** X16.  In a reachable state where an open write handle cannot be
    flushed, [doDeinit] fails with FILES_STILL_OPEN: the search path,
    the write dir and the open read handles are kept, and at least one
    write handle stays open. *)
Theorem doDeinit_files_still_open (st : PhysfsState S) (h : nat * FileHandle S) :
  reachable st -> h ∈ openWriteList st -> ~ flushes h ->
  exists wl, wl <> [] /\
    doDeinit st =
      (mkState (searchPath st) (writeDir st) wl (openReadList st) (next_addr st),
       Bail PHYSFS_ERR_FILES_STILL_OPEN).
Proof.
  intros Hreach Hin Hno. pose proof (reachable_inv st Hreach) as Hinv.
  destruct (closeFileHandleList_stuck _ h Hin Hno) as (i & rest & Heq & j & Hj & Hd).
  destruct (inv_write_handles _ Hinv j Hj) as (wd & Hwd & Hjd).
  unfold doDeinit. destruct (closeFileHandleList (openWriteList st)) as [wl b].
  cbn [fst] in Heq. subst wl.
  unfold PHYSFS_setWriteDir. cbn [writeDir openWriteList searchPath openReadList next_addr].
  rewrite Hwd.
  assert (Hbusy : freeDirHandle wd (i :: rest) = Bail PHYSFS_ERR_FILES_STILL_OPEN).
  { unfold freeDirHandle. cbn [existsb]. rewrite Hd, Hjd, Nat.eqb_refl. reflexivity. }
  rewrite Hbusy. cbn [errpass]. exists (i :: rest). split; [discriminate|reflexivity].
Qed.

End SearchPath.

Lemma mount_unmount_round_trip_witness :
  let st : PhysfsState SparseIo := initial_state in
  exists st', doMount (Ok tt) (Some (cstr "mod.grp")) None true st = (st', Ok tt) /\
    PHYSFS_unmount (Some (cstr "mod.grp")) st' = (mkState [] None [] [] 1, Ok tt).
Proof.
  intros st. eexists. split; [reflexivity|].
  apply (mount_unmount_round_trip (S := SparseIo) (Ok tt) (cstr "mod.grp") None true st).
  - apply rtc_refl.
  - intros Hin. inversion Hin.
  - reflexivity.
Defined.

Lemma mount_precedence_witness :
  let st : PhysfsState SparseIo :=
    mkState [(0, mkDirHandle (cstr "base") None None)] None [] [] 1 in
  let probe := fun (i : nat * DirHandle) (_ : list ascii) => Ok (mkSparseIo (Z.of_nat i.1)) in
  exists st', doMount (Ok tt) (Some (cstr "mod.grp")) None false st = (st', Ok tt) /\
    opened_by probe (cstr "/maps/e1.map") st' =
      Some (mkFileHandle (mkSparseIo 1) true 1 None 0 0 0).
Proof.
  intros st probe. eexists. split; [reflexivity|].
  refine (proj1 (mount_precedence (S := SparseIo) probe (Ok tt) (cstr "mod.grp") None false
                   (cstr "/maps/e1.map") (cstr "maps/e1.map") st _ _ _ _) eq_refl _ _ _ _).
  - intros Hin. apply elem_of_cons in Hin as [Hin|Hin]; [discriminate|inversion Hin].
  - reflexivity.
  - vm_compute. reflexivity.
  - reflexivity.
  - reflexivity.
Defined.

Lemma PHYSFS_close_read_handle_witness :
  let fh := mkFileHandle (mkSparseIo 0) true 0 None 0 0 0 in
  let st : PhysfsState SparseIo :=
    mkState [(0, mkDirHandle (cstr "base") None None)] None [] [(1, fh)] 2 in
  let st' : PhysfsState SparseIo :=
    mkState [(0, mkDirHandle (cstr "base") None None)] None [] [] 2 in
  PHYSFS_close 1 st = (st', Ok tt) /\
  PHYSFS_close 1 st' = (st', Bail PHYSFS_ERR_INVALID_ARGUMENT).
Proof.
  intros fh st st'.
  destruct (PHYSFS_close_read_handle (S := SparseIo) st 1 fh) as (l1 & l2 & Heq & Hc1 & Hc2).
  - eapply rtc_l; [apply (step_mount _ (Ok tt) (Some (cstr "base")) None true)|].
    eapply rtc_l; [apply (step_openRead _ (fun _ _ => Ok (mkSparseIo 0)) (Some (cstr "x")))|].
    apply rtc_refl.
  - left.
  - reflexivity.
  - cbn [openReadList] in Heq. destruct l1 as [|x l1].
    + injection Heq as <-. cbn [app] in Hc1, Hc2. split; [exact Hc1|exact Hc2].
    + exfalso. apply (f_equal length) in Heq. rewrite length_app in Heq. cbn in Heq. lia.
Defined.


Lemma doMount_search_path_witness :
  let st : PhysfsState SparseIo :=
    mkState [(0, mkDirHandle (cstr "base") None None)] None [] [] 1 in
  exists st', doMount (Ok tt) (Some (cstr "mod.grp")) (Some (cstr "/mods//duke/")) false st
              = (st', Ok tt) /\
    PHYSFS_getSearchPath st' = [cstr "mod.grp"; cstr "base"] /\
    PHYSFS_getMountPoint (cstr "mod.grp") st' = Ok (cstr "mods/duke/").
Proof.
  intros st. eexists. split; [reflexivity|].
  edestruct (doMount_search_path (S := SparseIo) (Ok tt) (cstr "mod.grp") (Some (cstr "/mods//duke/")) false st)
    as (Hpath & (m & Hm & Hmp) & _).
  - vm_compute. intros Hin. apply elem_of_cons in Hin as [Hin|Hin]; [discriminate|inversion Hin].
  - reflexivity.
  - split; [exact Hpath|]. rewrite Hmp. vm_compute in Hm. injection Hm as <-. reflexivity.
Defined.


Lemma doDeinit_closes_everything_witness :
  let fh := mkFileHandle (mkSparseIo 0) true 0 None 0 0 0 in
  let st : PhysfsState SparseIo :=
    mkState [(0, mkDirHandle (cstr "base") None None)] None [] [(1, fh)] 2 in
  doDeinit st = (mkState [] None [] [] 2, Ok tt).
Proof.
  intros fh st.
  apply (doDeinit_closes_everything (S := SparseIo) st).
  - intros h Hh. inversion Hh.
  - intros h Hh. exists (mkSparseIo 0).
    apply elem_of_cons in Hh as [->|Hh]; [reflexivity|inversion Hh].
Defined.

(** A stream on a full disk: it takes no byte and cannot be flushed. *)
Record FullDiskIo : Type := mkFullDiskIo { full_pos : Z }.

Definition fullDiskIo_interface : PHYSFS_Io FullDiskIo := {|
  io_read := fun s _ => (s, Bail PHYSFS_ERR_OPEN_FOR_WRITING);
  io_write := fun s _ => (s, Bail PHYSFS_ERR_IO);
  io_seek := fun s _ => (s, Bail PHYSFS_ERR_IO);
  io_tell := fun s => full_pos s;
  io_length := fun s => full_pos s;
  io_duplicate := fun s => Bail PHYSFS_ERR_OPEN_FOR_WRITING;
  io_flush := fun s => (s, Bail PHYSFS_ERR_IO)
|}.

Lemma doDeinit_files_still_open_witness :
  let probe := fun (_ : nat * DirHandle) (_ : list ascii) =>
                 (Ok (mkFullDiskIo 0) : res FullDiskIo) in
  let st0 := (PHYSFS_setWriteDir (S := FullDiskIo) (Ok tt)
                (Some (cstr "save")) initial_state).1 in
  let st := (PHYSFS_openWrite probe (Some (cstr "slot1.dat")) st0).1 in
  exists wl, wl <> [] /\
    @doDeinit FullDiskIo fullDiskIo_interface st =
      (mkState (searchPath st) (writeDir st) wl (openReadList st) (next_addr st),
       Bail PHYSFS_ERR_FILES_STILL_OPEN).
Proof.
  intros probe st0 st.
  apply (@doDeinit_files_still_open FullDiskIo fullDiskIo_interface st
           (1, mkFileHandle (mkFullDiskIo 0) false 0 None 0 0 0)).
  - apply (rtc_l _ _ st0); [apply step_setWriteDir|].
    apply (rtc_l _ _ st); [apply step_openWrite|apply rtc_refl].
  - vm_compute. left.
  - intros [io' Hf]. vm_compute in Hf. discriminate.
Defined.

(** ** The directory tree: children, siblings and enumeration *)

(** The name of the entry at [i], its first child, its next sibling and
    whether it is a directory: what the tree keeps of an entry apart
    from the hash link. *)
Definition kin (es : list UNPKentry) (i : nat)
  : option (list ascii * option nat * option nat * bool) :=
  (fun e => (name (tree e), children (tree e), sibling (tree e), isdir (tree e))) <$> es !! i.

Lemma kin_Some_lt es i k : kin es i = Some k -> i < length es.
Proof.
  unfold kin. destruct (es !! i) eqn:He; [|discriminate].
  intros _. apply lookup_lt_Some in He. exact He.
Qed.

Lemma kin_set_hashnext es p nx i : kin (set_hashnext p nx es) i = kin es i.
Proof.
  unfold set_hashnext, kin. destruct (es !! p) as [e|] eqn:He; [|reflexivity].
  destruct (decide (i = p)) as [->|Hne].
  - rewrite list_lookup_insert_eq by (eapply lookup_lt_Some; exact He). rewrite He. reflexivity.
  - rewrite list_lookup_insert_ne by congruence. reflexivity.
Qed.

Lemma kin_set_children es p c i :
  kin (set_children p c es) i =
  if decide (i = p) then (fun k => (k.1.1.1, c, k.1.2, k.2)) <$> kin es p else kin es i.
Proof.
  unfold set_children, kin. destruct (es !! p) as [e|] eqn:He.
  - destruct (decide (i = p)) as [->|Hne].
    + rewrite list_lookup_insert_eq by (eapply lookup_lt_Some; exact He). reflexivity.
    + rewrite list_lookup_insert_ne by congruence. reflexivity.
  - destruct (decide (i = p)) as [->|Hne]; [rewrite He|]; reflexivity.
Qed.

Lemma kin_snoc es e i :
  kin (es ++ [e]) i =
  if decide (i = length es)
  then Some (name (tree e), children (tree e), sibling (tree e), isdir (tree e))
  else kin es i.
Proof.
  unfold kin. destruct (decide (i = length es)) as [->|Hne].
  - rewrite lookup_app_r by lia. rewrite Nat.sub_diag. reflexivity.
  - destruct (decide (i < length es)) as [Hlt|Hge].
    + rewrite lookup_app_l by exact Hlt. reflexivity.
    + rewrite !lookup_ge_None_2; [reflexivity|lia|rewrite length_app; cbn [length]; lia].
Qed.

Section Kin.
Context `{Platform}.

(** A search moves hash links only. *)
Definition same_kin (dt dt' : __PHYSFS_DirTree) : Prop :=
  root dt' = root dt /\ length (entries dt') = length (entries dt) /\
  forall i, kin (entries dt') i = kin (entries dt) i.

Lemma same_kin_refl dt : same_kin dt dt.
Proof. repeat split. Qed.

Lemma same_kin_trans dt1 dt2 dt3 : same_kin dt1 dt2 -> same_kin dt2 dt3 -> same_kin dt1 dt3.
Proof.
  intros (Hr & Hl & Hk) (Hr' & Hl' & Hk'). split; [congruence|]. split; [congruence|].
  intros i. rewrite Hk'. apply Hk.
Qed.

Lemma find_loop_kin fuel : forall dt path b prev r dt' o,
  find_loop fuel dt path b prev r = Some (dt', o) -> same_kin dt dt'.
Proof.
  induction fuel as [|fuel IH]; intros dt path b prev r dt' o.
  - destruct r; cbn [find_loop]; [discriminate|]. intros [= <- _]. apply same_kin_refl.
  - destruct r as [r|]; cbn [find_loop]; [|intros [= <- _]; apply same_kin_refl].
    destruct (entries dt !! r) as [e|]; [|discriminate]. cbn [mbind option_bind].
    destruct (name_matches dt (name (tree e)) path).
    + destruct prev as [p|]; intros [= <- _]; [|apply same_kin_refl].
      split; [reflexivity|]. cbn [entries]. split.
      * rewrite !length_set_hashnext. reflexivity.
      * intros i. rewrite !kin_set_hashnext. reflexivity.
    + apply IH.
Qed.

Lemma DirTreeFind_kin dt path dt' r :
  __PHYSFS_DirTreeFind dt path = Some (dt', r) -> same_kin dt dt'.
Proof.
  unfold __PHYSFS_DirTreeFind. destruct path as [|c path]; [intros [= <- _]; apply same_kin_refl|].
  destruct (find_loop _ dt (c :: path) _ None _) as [[dt1 o]|] eqn:Hf; [|discriminate].
  cbn [mbind option_bind]. apply find_loop_kin in Hf.
  destruct o; intros [= <- _]; exact Hf.
Qed.


(** *** What an addition is made of *)

(** An addition is a run of searches and of insertions of one new
    entry under an entry of the store. *)
Inductive kin_step (dt : __PHYSFS_DirTree) : __PHYSFS_DirTree -> Prop :=
  | kin_same dt' : same_kin dt dt' -> kin_step dt dt'
  | kin_push parent pe nm is_dir :
      entries dt !! parent = Some pe -> kin_step dt (push dt parent pe nm is_dir).

Lemma addAncestors_steps add dt nm dt' r :
  (forall dt0 pre d dt1 r1, add dt0 pre d = Some (dt1, r1) -> rtc kin_step dt0 dt1) ->
  addAncestors add dt nm = Some (dt', r) -> rtc kin_step dt dt'.
Proof.
  intros IH. unfold addAncestors. destruct (chop_last_slash nm) as [pre|].
  - destruct (__PHYSFS_DirTreeFind dt pre) as [[dt1 r1]|] eqn:Hf; [|discriminate].
    cbn [mbind option_bind]. apply DirTreeFind_kin in Hf.
    destruct r1 as [p| |].
    + destruct (entries dt1 !! p) as [e|]; [|discriminate]. cbn [mbind option_bind].
      destruct (isdir (tree e)); intros [= <- _]; apply rtc_once, kin_same, Hf.
    + intros Hadd. apply (rtc_l _ _ dt1); [apply kin_same, Hf|]. exact (IH _ _ _ _ _ Hadd).
    + intros Hadd. apply (rtc_l _ _ dt1); [apply kin_same, Hf|]. exact (IH _ _ _ _ _ Hadd).
  - intros [= <- _]. apply rtc_refl.
Qed.

Lemma DirTreeAdd_rec_steps fuel : forall dt nm d dt' r,
  DirTreeAdd_rec fuel dt nm d = Some (dt', r) -> rtc kin_step dt dt'.
Proof.
  induction fuel as [|fuel IH]; intros dt nm d dt' r; [discriminate|].
  cbn [DirTreeAdd_rec].
  destruct (__PHYSFS_DirTreeFind dt nm) as [[dt1 found]|] eqn:Hf; [|discriminate].
  cbn [mbind option_bind]. apply DirTreeFind_kin in Hf.
  assert (Hrest :
    match addAncestors (DirTreeAdd_rec fuel) dt1 nm with
    | Some (dt2, par) =>
        match par with
        | Ok parent =>
            pe ← entries dt2 !! parent;
            Some (push dt2 parent pe nm d, Ok (length (entries dt2)))
        | f => Some (dt2, errpass f)
        end
    | None => None
    end = Some (dt', r) -> rtc kin_step dt dt').
  { destruct (addAncestors (DirTreeAdd_rec fuel) dt1 nm) as [[dt2 par]|] eqn:Ha; [|discriminate].
    apply (addAncestors_steps _ _ _ _ _ IH) in Ha.
    assert (H12 : rtc kin_step dt dt2) by (apply (rtc_l _ _ dt1); [apply kin_same, Hf|exact Ha]).
    destruct par as [parent| |]; [|intros [= <- _]; exact H12..].
    destruct (entries dt2 !! parent) as [pe|] eqn:Hpe; [|discriminate].
    cbn [mbind option_bind]. intros [= <- _].
    eapply rtc_r; [exact H12|]. apply kin_push, Hpe. }
  destruct found as [p| |]; [intros [= <- _]; apply rtc_once, kin_same, Hf|exact Hrest..].
Qed.

Lemma tree_step_kin dt dt' : tree_step dt dt' -> rtc kin_step dt dt'.
Proof.
  intros [dt0 nm d dt1 r Hadd|dt0 path dt1 r Hfind|dt0 p e e' Hp He].
  - exact (DirTreeAdd_rec_steps _ _ _ _ _ _ Hadd).
  - apply rtc_once, kin_same, (DirTreeFind_kin _ _ _ _ Hfind).
  - apply rtc_once, kin_same. split; [reflexivity|]. cbn [entries].
    split; [apply length_insert|]. intros i. unfold kin.
    destruct (decide (i = p)) as [->|Hne].
    + rewrite list_lookup_insert_eq by (eapply lookup_lt_Some; exact Hp).
      rewrite Hp. cbn. rewrite He. reflexivity.
    + rewrite list_lookup_insert_ne by congruence. reflexivity.
Qed.

Lemma tree_steps_kin dt dt' : rtc tree_step dt dt' -> rtc kin_step dt dt'.
Proof.
  induction 1 as [dt|dt dt1 dt2 Hstep _ IH]; [apply rtc_refl|].
  etrans; [apply tree_step_kin, Hstep|exact IH].
Qed.

(** The new entry is the first child of its parent, and its next
    sibling is the parent's former first child. *)
Lemma kin_push_eq dt parent pe nm is_dir i :
  entries dt !! parent = Some pe ->
  kin (entries (push dt parent pe nm is_dir)) i =
  if decide (i = length (entries dt)) then Some (nm, None, children (tree pe), is_dir)
  else if decide (i = parent)
       then Some (name (tree pe), Some (length (entries dt)), sibling (tree pe),
                  isdir (tree pe))
       else kin (entries dt) i.
Proof.
  intros Hpe. pose proof (lookup_lt_Some _ _ _ Hpe) as Hlt.
  unfold push. cbn [entries]. rewrite kin_set_children.
  destruct (decide (i = parent)) as [->|Hne].
  - destruct (decide (parent = length (entries dt))); [lia|].
    rewrite kin_snoc. destruct (decide (parent = length (entries dt))); [lia|].
    unfold kin. rewrite Hpe. reflexivity.
  - rewrite kin_snoc. reflexivity.
Qed.

Lemma length_push dt parent pe nm is_dir :
  length (entries (push dt parent pe nm is_dir)) = Datatypes.S (length (entries dt)).
Proof.
  unfold push. cbn [entries]. rewrite length_set_children, length_app. cbn [length]. lia.
Qed.

(** *** Links point the right way

    A child is allocated after its parent and a sibling link leads to
    an older entry, so the walk over the children of an entry ends. *)
Definition links_ok (es : list UNPKentry) : Prop :=
  forall i n c s d, kin es i = Some (n, c, s, d) ->
    (forall c', c = Some c' -> i < c' /\ c' < length es) /\
    (forall s', s = Some s' -> s' < i).

Lemma links_ok_step dt dt' :
  kin_step dt dt' -> links_ok (entries dt) -> links_ok (entries dt').
Proof.
  intros [dt1 (_ & Hl & Hk)|parent pe nm d Hpe] Hok i n c s dd.
  - rewrite Hk, Hl. apply Hok.
  - rewrite (kin_push_eq _ _ _ _ _ _ Hpe), length_push.
    pose proof (lookup_lt_Some _ _ _ Hpe) as Hlt.
    assert (Hkp : kin (entries dt) parent =
                  Some (name (tree pe), children (tree pe), sibling (tree pe),
                        isdir (tree pe))) by (unfold kin; rewrite Hpe; reflexivity).
    destruct (Hok _ _ _ _ _ Hkp) as [Hc Hs].
    destruct (decide (i = length (entries dt))) as [->|Hne].
    + intros [= <- <- <- <-]. split; [discriminate|].
      intros s' Hs'. destruct (Hc s' Hs') as [_ Hlt']. exact Hlt'.
    + destruct (decide (i = parent)) as [->|Hnp].
      * intros [= <- <- <- <-]. split; [intros c' [= <-]; lia|exact Hs].
      * intros Hi. destruct (Hok _ _ _ _ _ Hi) as [Hc' Hs']. split; [|exact Hs'].
        intros c' Hcc. destruct (Hc' c' Hcc). lia.
Qed.

Lemma links_ok_steps dt dt' :
  rtc kin_step dt dt' -> links_ok (entries dt) -> links_ok (entries dt').
Proof.
  induction 1 as [dt|dt dt1 dt2 Hstep _ IH]; [auto|].
  intros Hok. apply IH, (links_ok_step _ _ Hstep Hok).
Qed.

Lemma links_ok_init cs ua : links_ok (entries (__PHYSFS_DirTreeInit cs ua)).
Proof.
  intros i n c s d. unfold __PHYSFS_DirTreeInit, kin. cbn [entries].
  destruct i as [|i]; [|destruct i; discriminate].
  cbn. intros [= <- <- <- <-]. split; discriminate.
Qed.

(** Names, sibling links and the directory flag are never rewritten;
    the first child of an entry is. *)
Definition keeps_kin (es es' : list UNPKentry) : Prop :=
  forall i k, kin es i = Some k -> exists c', kin es' i = Some (k.1.1.1, c', k.1.2, k.2).

Lemma keeps_kin_refl es : keeps_kin es es.
Proof. intros i [[[n c] s] d] Hk. exists c. exact Hk. Qed.

Lemma keeps_kin_trans es1 es2 es3 :
  keeps_kin es1 es2 -> keeps_kin es2 es3 -> keeps_kin es1 es3.
Proof.
  intros H12 H23 i k Hk. destruct (H12 i k Hk) as [c' Hk'].
  destruct (H23 i _ Hk') as [c'' Hk'']. exists c''. exact Hk''.
Qed.

Lemma keeps_kin_same dt dt' : same_kin dt dt' -> keeps_kin (entries dt) (entries dt').
Proof. intros (_ & _ & Hk) i [[[n c] s] d] Hi. exists c. rewrite Hk. exact Hi. Qed.

Lemma keeps_kin_push dt parent pe nm is_dir :
  entries dt !! parent = Some pe ->
  keeps_kin (entries dt) (entries (push dt parent pe nm is_dir)).
Proof.
  intros Hpe i [[[n c] s] d] Hi. rewrite (kin_push_eq _ _ _ _ _ _ Hpe).
  pose proof (kin_Some_lt _ _ _ Hi) as Hlt.
  destruct (decide (i = length (entries dt))); [lia|].
  destruct (decide (i = parent)) as [->|Hne]; [|exists c; exact Hi].
  unfold kin in Hi. rewrite Hpe in Hi. cbn in Hi. injection Hi as <- <- <- <-.
  eexists. reflexivity.
Qed.

Lemma keeps_kin_step dt dt' : kin_step dt dt' -> keeps_kin (entries dt) (entries dt').
Proof.
  intros [dt1 Hs|parent pe nm d Hpe]; [apply keeps_kin_same, Hs|apply keeps_kin_push, Hpe].
Qed.

Lemma keeps_kin_steps dt dt' : rtc kin_step dt dt' -> keeps_kin (entries dt) (entries dt').
Proof.
  induction 1 as [dt|dt dt1 dt2 Hstep _ IH]; [apply keeps_kin_refl|].
  eapply keeps_kin_trans; [apply keeps_kin_step, Hstep|exact IH].
Qed.

Lemma kin_lookup es i n c s d :
  kin es i = Some (n, c, s, d) ->
  exists e, es !! i = Some e /\ name (tree e) = n /\ children (tree e) = c /\
            sibling (tree e) = s /\ isdir (tree e) = d.
Proof.
  unfold kin. destruct (es !! i) as [e|]; [|discriminate]. cbn.
  intros [= <- <- <- <-]. exists e. repeat split.
Qed.

Lemma kin_is_Some es i : i < length es -> exists k, kin es i = Some k.
Proof.
  intros Hlt. destruct (lookup_lt_is_Some_2 _ _ Hlt) as [e He].
  unfold kin. rewrite He. eexists. reflexivity.
Qed.

Lemma links_ok_same dt dt' : same_kin dt dt' -> links_ok (entries dt) -> links_ok (entries dt').
Proof. intros Hs. apply links_ok_step, kin_same, Hs. Qed.

(** *** The walk over the children *)

Section Walk.
Context {D : Type}.
Variable cb : D -> list ascii -> D * PHYSFS_EnumerateCallbackResult.

Lemma enumerate_loop_total es :
  links_ok es -> forall fuel data o,
  (forall i, o = Some i -> i < fuel /\ i < length es) ->
  is_Some (enumerate_loop fuel es cb data o).
Proof.
  intros Hok. induction fuel as [|fuel IH]; intros data o Hb.
  - destruct o as [i|]; [destruct (Hb i eq_refl); lia|]. cbn. eauto.
  - destruct o as [i|]; [|cbn; eauto]. destruct (Hb i eq_refl) as [Hi Hlen].
    cbn [enumerate_loop]. destruct (lookup_lt_is_Some_2 _ _ Hlen) as [e He].
    rewrite He. cbn [mbind option_bind].
    destruct (cb data (after_last_slash (name (tree e)))) as [data' []]; [eauto..|].
    apply IH. intros s Hs.
    assert (Hk : kin es i = Some (name (tree e), children (tree e), sibling (tree e),
                                  isdir (tree e))) by (unfold kin; rewrite He; reflexivity).
    destruct (Hok _ _ _ _ _ Hk) as [_ Hsib]. pose proof (Hsib s Hs). lia.
Qed.

(** With enough fuel the walk does not depend on it. *)
Lemma enumerate_loop_fuel es :
  links_ok es -> forall fuel1 fuel2 data o,
  (forall i, o = Some i -> i < fuel1 /\ i < fuel2) ->
  enumerate_loop fuel1 es cb data o = enumerate_loop fuel2 es cb data o.
Proof.
  intros Hok. induction fuel1 as [|fuel1 IH]; intros fuel2 data o Hb.
  - destruct o as [i|]; [destruct (Hb i eq_refl); lia|]. destruct fuel2; reflexivity.
  - destruct o as [i|]; [|destruct fuel2; reflexivity]. destruct (Hb i eq_refl) as [Hi1 Hi2].
    destruct fuel2 as [|fuel2]; [lia|]. cbn [enumerate_loop].
    destruct (es !! i) as [e|] eqn:He; [|reflexivity]. cbn [mbind option_bind].
    destruct (cb data (after_last_slash (name (tree e)))) as [data' []]; [reflexivity..|].
    apply IH. intros s Hs.
    assert (Hk : kin es i = Some (name (tree e), children (tree e), sibling (tree e),
                                  isdir (tree e))) by (unfold kin; rewrite He; reflexivity).
    destruct (Hok _ _ _ _ _ Hk) as [_ Hsib]. pose proof (Hsib s Hs). lia.
Qed.

(** The walk reads the names and the sibling links of the entries it
    visits, and nothing else. *)
Lemma enumerate_loop_ext es es' :
  links_ok es -> keeps_kin es es' ->
  forall fuel data o, (forall i, o = Some i -> i < length es) ->
  enumerate_loop fuel es' cb data o = enumerate_loop fuel es cb data o.
Proof.
  intros Hok Hkeep. induction fuel as [|fuel IH]; intros data o Hb.
  - destruct o; reflexivity.
  - destruct o as [i|]; [|reflexivity]. pose proof (Hb i eq_refl) as Hi.
    destruct (kin_is_Some es i Hi) as [[[[nm c] s] d] Hk].
    destruct (Hkeep i _ Hk) as [c' Hk']. cbn [fst snd] in Hk'.
    destruct (Hok _ _ _ _ _ Hk) as [_ Hsib].
    apply kin_lookup in Hk as (e & He & Hn & _ & Hs & _).
    apply kin_lookup in Hk' as (e' & He' & Hn' & _ & Hs' & _).
    cbn [enumerate_loop]. rewrite He, He'. cbn [mbind option_bind]. rewrite Hn, Hn'.
    destruct (cb data (after_last_slash nm)) as [data' []]; [reflexivity..|].
    rewrite Hs, Hs'. apply IH. intros x Hx. pose proof (Hsib x Hx). lia.
Qed.

(** The children of an entry are walked the same way in a later state
    of the store, as long as its first child is the same. *)
Lemma enumerate_loop_later es es' fuel fuel' data o :
  links_ok es -> keeps_kin es es' ->
  (forall i, o = Some i -> i < length es) -> length es <= fuel -> length es <= fuel' ->
  enumerate_loop fuel' es' cb data o = enumerate_loop fuel es cb data o.
Proof.
  intros Hok Hkeep Hb Hf Hf'. rewrite (enumerate_loop_ext es es' Hok Hkeep fuel' data o Hb).
  apply enumerate_loop_fuel; [exact Hok|]. intros i Hi. pose proof (Hb i Hi). lia.
Qed.

(** What the walk hands to a callback that takes every name and goes
    on: it ends, and it has handed over every entry on the way. *)
Inductive in_chain (es : list UNPKentry) : option nat -> nat -> Prop :=
  | chain_here x k : kin es x = Some k -> in_chain es (Some x) x
  | chain_next i n c s d x :
      kin es i = Some (n, c, s, d) -> in_chain es s x -> in_chain es (Some i) x.

Lemma in_chain_keeps es es' o x : keeps_kin es es' -> in_chain es o x -> in_chain es' o x.
Proof.
  intros Hkeep. induction 1 as [x k Hk|i n c s d x Hk _ IH].
  - destruct (Hkeep x k Hk) as [c' Hk']. eapply chain_here, Hk'.
  - destruct (Hkeep i _ Hk) as [c' Hk']. eapply chain_next; [exact Hk'|exact IH].
Qed.

End Walk.

Definition collect (names : list (list ascii)) (nm : list ascii)
  : list (list ascii) * PHYSFS_EnumerateCallbackResult :=
  (names ++ [nm], PHYSFS_ENUM_OK).

Lemma enumerate_collect es :
  links_ok es -> forall fuel acc o,
  (forall i, o = Some i -> i < fuel /\ i < length es) ->
  exists names,
    enumerate_loop fuel es collect acc o = Some (acc ++ names, (PHYSFS_ENUM_OK, None)) /\
    forall x n c s d, in_chain es o x -> kin es x = Some (n, c, s, d) ->
      after_last_slash n ∈ names.
Proof.
  intros Hok. induction fuel as [|fuel IH]; intros acc o Hb.
  - destruct o as [i|]; [destruct (Hb i eq_refl); lia|].
    exists []. split; [cbn; rewrite app_nil_r; reflexivity|]. intros x n c s d Hin. inversion Hin.
  - destruct o as [i|].
    2:{ exists []. split; [cbn; rewrite app_nil_r; reflexivity|].
        intros x n c s d Hin. inversion Hin. }
    destruct (Hb i eq_refl) as [Hi Hlen].
    destruct (kin_is_Some es i Hlen) as [[[[n c] s] d] Hk].
    destruct (Hok _ _ _ _ _ Hk) as [_ Hsib].
    destruct (IH (acc ++ [after_last_slash n]) s) as [names [Hrun Hall]].
    { intros j Hj. pose proof (Hsib j Hj). lia. }
    exists (after_last_slash n :: names). split.
    + cbn [enumerate_loop]. pose proof Hk as Hk0.
      apply kin_lookup in Hk0 as (e & He & Hn & _ & Hs & _).
      rewrite He. cbn [mbind option_bind]. unfold collect at 1. rewrite Hn, Hs, Hrun.
      rewrite <- app_assoc. reflexivity.
    + intros x n' c' s' d' Hin Hkx. inversion Hin as [x0 k0 Hk0|i0 n0 c0 s0 d0 x0 Hk0 Hrest]; subst.
      * rewrite Hk in Hkx. injection Hkx as <- _ _ _. left.
      * rewrite Hk in Hk0. injection Hk0 as _ _ <- _. right.
        exact (Hall x n' c' s' d' Hrest Hkx).
Qed.

(** [x] is among the children of [p]. *)
Definition child_of (es : list UNPKentry) (p x : nat) : Prop :=
  exists n c s d, kin es p = Some (n, c, s, d) /\ in_chain es c x.

Lemma child_of_step dt dt' p x :
  kin_step dt dt' -> child_of (entries dt) p x -> child_of (entries dt') p x.
Proof.
  intros Hstep (n & c & s & d & Hk & Hin).
  pose proof (keeps_kin_step _ _ Hstep) as Hkeep.
  destruct Hstep as [dt1 (_ & _ & Hsame)|parent pe nm dd Hpe].
  - exists n, c, s, d. rewrite Hsame. split; [exact Hk|]. exact (in_chain_keeps _ _ _ _ Hkeep Hin).
  - pose proof (kin_Some_lt _ _ _ Hk) as Hlt.
    destruct (decide (p = parent)) as [->|Hne].
    + exists n, (Some (length (entries dt))), s, d. split.
      * rewrite (kin_push_eq _ _ _ _ _ _ Hpe).
        destruct (decide (parent = length (entries dt))); [lia|].
        destruct (decide (parent = parent)); [|congruence].
        unfold kin in Hk. rewrite Hpe in Hk. cbn in Hk. injection Hk as <- _ <- <-. reflexivity.
      * eapply (chain_next _ _ nm None (children (tree pe)) dd).
        -- rewrite (kin_push_eq _ _ _ _ _ _ Hpe).
           destruct (decide (length (entries dt) = length (entries dt))); [reflexivity|congruence].
        -- unfold kin in Hk. rewrite Hpe in Hk. cbn in Hk. injection Hk as _ <- _ _.
           exact (in_chain_keeps _ _ _ _ Hkeep Hin).
    + exists n, c, s, d. split; [|exact (in_chain_keeps _ _ _ _ Hkeep Hin)].
      rewrite (kin_push_eq _ _ _ _ _ _ Hpe).
      destruct (decide (p = length (entries dt))); [lia|].
      destruct (decide (p = parent)); [congruence|exact Hk].
Qed.

Lemma child_of_steps dt dt' p x :
  rtc kin_step dt dt' -> child_of (entries dt) p x -> child_of (entries dt') p x.
Proof.
  induction 1 as [dt|dt dt1 dt2 Hstep _ IH]; [auto|].
  intros Hc. apply IH, (child_of_step _ _ _ _ Hstep Hc).
Qed.

End Kin.

(** *** Where an addition puts the new entry *)

Section Enumerate.
Context `{Platform}.
Hypothesis Hcmp : stricmp_ok.

(** The directory a name lies in: the name up to its last ['/'], and
    the root's empty name when it has none. *)
Definition parent_path (nm : list ascii) : list ascii := default [] (chop_last_slash nm).

(** The root is a directory, and stays one. *)
Definition root_dir (dt : __PHYSFS_DirTree) : Prop :=
  exists n c s, kin (entries dt) (root dt) = Some (n, c, s, true).

Lemma root_dir_init cs ua : root_dir (__PHYSFS_DirTreeInit cs ua).
Proof. eexists _, _, _. reflexivity. Qed.

Lemma root_dir_step dt dt' : kin_step dt dt' -> root_dir dt -> root_dir dt'.
Proof.
  intros Hstep (n & c & s & Hk). pose proof (keeps_kin_step _ _ Hstep _ _ Hk) as [c' Hk'].
  exists n, c', s. destruct Hstep as [dt1 (Hr & _)|parent pe nm d Hpe].
  - rewrite Hr. exact Hk'.
  - exact Hk'.
Qed.

Lemma root_dir_steps dt dt' : rtc kin_step dt dt' -> root_dir dt -> root_dir dt'.
Proof.
  induction 1 as [dt|dt dt1 dt2 Hstep _ IH]; [auto|].
  intros Hr. apply IH, (root_dir_step _ _ Hstep Hr).
Qed.

(** A name that is not in the tree gets a new entry, with the flag it
    was added with. *)
Lemma DirTreeAdd_rec_flag fuel dt ch nm d dt1 e :
  tree_repr dt ch -> DirTreeAdd_rec fuel dt nm d = Some (dt1, Ok e) ->
  tree_lookup dt ch nm = None ->
  exists c s, kin (entries dt1) e = Some (nm, c, s, d).
Proof.
  intros Hrepr. destruct fuel as [|fuel]; [discriminate|]. cbn [DirTreeAdd_rec].
  destruct (DirTreeFind_spec dt ch nm Hrepr) as (dtA & chA & Hfind & _ & _).
  rewrite Hfind. cbn [mbind option_bind]. intros Hadd Hlk. rewrite Hlk in Hadd.
  cbn [find_result] in Hadd.
  destruct (addAncestors (DirTreeAdd_rec fuel) dtA nm) as [[dt2 par]|]; [|discriminate].
  cbn [mbind option_bind] in Hadd. destruct par as [parent| |]; [|discriminate..].
  destruct (entries dt2 !! parent) as [pe|] eqn:Hpe; [|discriminate].
  cbn [mbind option_bind] in Hadd. injection Hadd as <- <-.
  exists None, (children (tree pe)).
  change (kin (entries (push dt2 parent pe nm d)) (length (entries dt2)) =
          Some (nm, None, children (tree pe), d)).
  rewrite (kin_push_eq _ _ _ _ _ _ Hpe).
  destruct (decide (length (entries dt2) = length (entries dt2))); [reflexivity|congruence].
Qed.

Lemma addAncestors_parent fuel dt ch nm :
  tree_repr dt ch -> root_dir dt -> length nm <= fuel ->
  exists dt' ch' r, addAncestors (DirTreeAdd_rec fuel) dt nm = Some (dt', r) /\
    tree_repr dt' ch' /\
    grows dt ch dt' ch' (slashes nm) /\
    (forall p, r = Ok p ->
       tree_lookup dt' ch' (parent_path nm) = Some p /\
       exists n c s, kin (entries dt') p = Some (n, c, s, true)) /\
    (forall q, tree_lookup dt ch (parent_path nm) = Some q ->
       same_kin dt dt' /\
       (r = Bail PHYSFS_ERR_CORRUPT <->
        exists n c s, kin (entries dt) q = Some (n, c, s, false))).
Proof.
  intros Hrepr Hroot Hfuel. unfold addAncestors, parent_path.
  destruct (chop_last_slash nm) as [pre|] eqn:Hchop; cbn [default from_option id].
  - apply chop_last_slash_Some in Hchop as [Hlen Hsl].
    destruct (DirTreeFind_spec dt ch pre Hrepr) as (dt1 & ch1 & Hfind & Hrepr1 & Hsame).
    rewrite Hfind. cbn [mbind option_bind].
    pose proof (DirTreeFind_kin _ _ _ _ Hfind) as Hkin.
    destruct (tree_lookup dt ch pre) as [p|] eqn:Hlk; cbn [find_result].
    + pose proof (tree_lookup_valid dt ch pre p Hrepr Hlk) as Hp.
      assert (Hp1 : p < length (entries dt1)) by (destruct Hsame as (_ & -> & _); exact Hp).
      destruct (lookup_lt_is_Some_2 _ _ Hp1) as [e He]. rewrite He. cbn [mbind option_bind].
      assert (Hke : kin (entries dt) p =
                    Some (name (tree e), children (tree e), sibling (tree e), isdir (tree e))).
      { destruct Hkin as (_ & _ & Hk). rewrite <- Hk. unfold kin. rewrite He. reflexivity. }
      destruct (isdir (tree e)) eqn:Hd; exists dt1, ch1; eexists; (split; [reflexivity|]);
        (split; [exact Hrepr1|]); (split; [apply grows_same_index, Hsame|]); split.
      * intros q [= <-]. split.
        -- rewrite (tree_lookup_same_index Hcmp dt ch dt1 ch1 pre Hrepr Hsame). exact Hlk.
        -- exists (name (tree e)), (children (tree e)), (sibling (tree e)).
           unfold kin. rewrite He. cbn. rewrite Hd. reflexivity.
      * intros q [= <-]. split; [exact Hkin|]. split; [discriminate|].
        intros (n & c & s & Hk). rewrite Hke in Hk. discriminate.
      * discriminate.
      * intros q [= <-]. split; [exact Hkin|]. split; [|reflexivity].
        intros _. eexists _, _, _. exact Hke.
    + destruct (DirTreeAdd_rec_spec Hcmp fuel dt1 ch1 pre true Hrepr1)
        as (dt2 & ch2 & r & Hadd & Hrepr2 & Hg & Hr); [lia|].
      exists dt2, ch2, r. split; [exact Hadd|]. split; [exact Hrepr2|]. split; [|split].
      * rewrite Hsl. eapply grows_trans; [apply grows_same_index, Hsame|exact Hg].
      * intros p Hp. destruct (Hr p Hp) as [Hlk2 _]. split; [exact Hlk2|].
        subst r.
        destruct (DirTreeAdd_rec_flag fuel dt1 ch1 pre true dt2 p Hrepr1 Hadd) as (c & s & Hk).
        { rewrite (tree_lookup_same_index Hcmp dt ch dt1 ch1 pre Hrepr Hsame). exact Hlk. }
        exists pre, c, s. exact Hk.
      * intros q Hq. discriminate.
  - exists dt, ch, (Ok (root dt)). split; [reflexivity|]. split; [exact Hrepr|].
    split; [apply grows_same_index, same_index_refl|]. split.
    + intros p [= <-]. split; [reflexivity|exact Hroot].
    + intros q [= <-]. split; [apply same_kin_refl|]. split; [discriminate|].
      intros (n & c & s & Hk). destruct Hroot as (n' & c' & s' & Hk'). congruence.
Qed.

(** An addition that returns a new entry has put it in front of the
    children of the entry its directory stands for, which is a
    directory. *)
Lemma DirTreeAdd_rec_new fuel dt ch nm d dt1 e :
  tree_repr dt ch -> root_dir dt -> length nm <= fuel ->
  DirTreeAdd_rec (Datatypes.S fuel) dt nm d = Some (dt1, Ok e) ->
  tree_lookup dt ch nm = None ->
  exists dt2 ch2 ch1 parent pe,
    tree_repr dt2 ch2 /\ grows dt ch dt2 ch2 (Datatypes.S (slashes nm)) /\
    rtc kin_step dt dt2 /\
    tree_lookup dt2 ch2 (parent_path nm) = Some parent /\
    entries dt2 !! parent = Some pe /\ isdir (tree pe) = true /\
    dt1 = push dt2 parent pe nm d /\ e = length (entries dt2) /\
    tree_repr dt1 ch1 /\ grows dt2 ch2 dt1 ch1 (Datatypes.S (slashes nm)) /\
    (forall q, tree_lookup dt ch (parent_path nm) = Some q -> same_kin dt dt2).
Proof.
  intros Hrepr Hroot Hfuel. cbn [DirTreeAdd_rec].
  destruct (DirTreeFind_spec dt ch nm Hrepr) as (dtA & chA & Hfind & HreprA & HsameA).
  rewrite Hfind. cbn [mbind option_bind].
  pose proof (DirTreeFind_kin _ _ _ _ Hfind) as HkinA.
  intros Hadd Hlk. rewrite Hlk in Hadd. cbn [find_result] in Hadd. revert Hadd.
  assert (Hne : nm <> []) by (intros ->; discriminate).
  assert (HrootA : root_dir dtA) by (apply (root_dir_step dt); [apply kin_same, HkinA|exact Hroot]).
  destruct (addAncestors_parent fuel dtA chA nm HreprA HrootA Hfuel)
    as (dt2 & ch2 & par & Hanc & Hrepr2 & Hg2 & Hpar & Hold).
  pose proof (addAncestors_steps _ _ _ _ _ (DirTreeAdd_rec_steps fuel) Hanc) as Hsteps.
  rewrite Hanc. cbn [mbind option_bind].
  assert (Hg : grows dt ch dt2 ch2 (Datatypes.S (slashes nm))).
  { eapply grows_trans; [apply grows_same_index, HsameA|].
    eapply grows_mono; [exact Hg2|lia]. }
  destruct par as [parent|err|]; cbn [errpass]; [|discriminate..].
  destruct (Hpar parent eq_refl) as [Hlkp (pn & pc & ps & Hkpar)].
  apply kin_lookup in Hkpar as (pe & Hpe & _ & _ & _ & Hpd).
  rewrite Hpe. cbn [mbind option_bind].
  assert (Hshape2 : same_shape dt dt2) by apply Hg.
  assert (Hfresh : forall x, x ∈ ch2 (hashPathName dt2 nm) -> entry_matches dt2 nm x = false).
  { intros x Hx. rewrite (same_shape_hash dt dt2 nm Hshape2) in Hx.
    set (b := hashPathName dt nm) in *.
    assert (Hb : b < hashBuckets dt) by (apply hashPathName_lt, (repr_positive _ _ Hrepr)).
    destruct (decide (x ∈ chA b)) as [Hx1|Hx1].
    - assert (Hx0 : x ∈ ch b)
        by (destruct HsameA as (_ & _ & _ & Hperm); rewrite <- (Hperm b); exact Hx1).
      destruct nm as [|c nm']; [congruence|]. cbn [tree_lookup] in Hlk.
      rewrite first_match_None in Hlk. pose proof (Hlk x Hx0) as Hm.
      destruct (bucket_names _ _ _ (repr_chains _ _ Hrepr b Hb) x Hx0) as (n & Hn & _).
      unfold entry_matches in *. rewrite Hn in Hm.
      destruct Hg as (_ & _ & Hen & _). rewrite (Hen x n Hn).
      rewrite (same_shape_matches dt dt2 _ _ Hshape2). exact Hm.
    - destruct Hg2 as (_ & _ & _ & _ & Hnew).
      destruct (Hnew b x Hx Hx1) as (_ & n & Hn & Hsl).
      unfold entry_matches. rewrite Hn.
      destruct (name_matches dt2 n nm) eqn:Hm; [|reflexivity].
      apply (name_matches_slashes Hcmp) in Hm. lia. }
  intros [= <- <-].
  exists dt2, ch2. eexists. exists parent, pe.
  split; [exact Hrepr2|]. split; [exact Hg|]. split.
  { apply (rtc_l _ _ dtA); [apply kin_same, HkinA|exact Hsteps]. }
  split; [exact Hlkp|]. split; [exact Hpe|]. split; [exact Hpd|].
  split; [reflexivity|]. split; [reflexivity|].
  split; [exact (push_repr Hcmp dt2 ch2 parent pe nm d Hrepr2 Hne Hfresh)|].
  split; [apply push_grows, Hrepr2|].
  intros q Hq. eapply same_kin_trans; [exact HkinA|]. apply (Hold q).
  rewrite (tree_lookup_same_index Hcmp dt ch dtA chA _ Hrepr HsameA). exact Hq.
Qed.

Lemma DirTreeAdd_new dt ch nm d dt1 e :
  tree_repr dt ch -> root_dir dt ->
  __PHYSFS_DirTreeAdd dt nm d = Some (dt1, Ok e) -> length (entries dt) <= e ->
  exists dt2 ch2 ch1 parent pe,
    tree_repr dt2 ch2 /\ grows dt ch dt2 ch2 (Datatypes.S (slashes nm)) /\
    rtc kin_step dt dt2 /\
    tree_lookup dt2 ch2 (parent_path nm) = Some parent /\
    entries dt2 !! parent = Some pe /\ isdir (tree pe) = true /\
    dt1 = push dt2 parent pe nm d /\ e = length (entries dt2) /\
    tree_repr dt1 ch1 /\ grows dt2 ch2 dt1 ch1 (Datatypes.S (slashes nm)) /\
    (forall q, tree_lookup dt ch (parent_path nm) = Some q -> same_kin dt dt2).
Proof.
  intros Hrepr Hroot Hadd Hnew.
  apply (DirTreeAdd_rec_new (length nm) dt ch nm d dt1 e Hrepr Hroot (le_n _) Hadd).
  destruct (tree_lookup dt ch nm) as [p|] eqn:Hlk; [|reflexivity]. exfalso.
  unfold __PHYSFS_DirTreeAdd in Hadd. cbn [DirTreeAdd_rec] in Hadd.
  destruct (DirTreeFind_spec dt ch nm Hrepr) as (dtA & chA & Hfind & _ & _).
  rewrite Hfind, Hlk in Hadd. cbn in Hadd. injection Hadd as _ <-.
  pose proof (tree_lookup_valid dt ch nm p Hrepr Hlk). lia.
Qed.

Lemma find_result_Ok o p : find_result o = Ok p -> o = Some p.
Proof. destruct o; cbn; congruence. Qed.

Lemma DirTreeFind_lookup dt ch path dt' p :
  tree_repr dt ch -> __PHYSFS_DirTreeFind dt path = Some (dt', Ok p) ->
  tree_lookup dt ch path = Some p.
Proof.
  intros Hrepr Hf. destruct (DirTreeFind_spec dt ch path Hrepr) as (dt1 & ch1 & Hfind & _).
  rewrite Hfind in Hf. injection Hf as _ Hr. apply find_result_Ok, Hr.
Qed.

Lemma reachable_tree cs ua dt :
  rtc tree_step (__PHYSFS_DirTreeInit cs ua) dt ->
  (exists ch, tree_repr dt ch) /\ links_ok (entries dt) /\ root_dir dt.
Proof.
  intros Hreach. split; [|split].
  - destruct (tree_steps_grow Hcmp _ _ Hreach _ (tree_repr_init cs ua)) as (ch & _ & Hrepr & _).
    exists ch. exact Hrepr.
  - apply (links_ok_steps _ _ (tree_steps_kin _ _ Hreach)), links_ok_init.
  - apply (root_dir_steps _ _ (tree_steps_kin _ _ Hreach)), root_dir_init.
Qed.

(** The enumeration of the directory that [path] stands for, when it
    stands for the entry [p]: the walk over the children of [p]. *)
Lemma DirTreeEnumerate_walk {D : Type} dt ch path p
    (cb : D -> list ascii -> D * PHYSFS_EnumerateCallbackResult) data :
  tree_repr dt ch -> links_ok (entries dt) -> tree_lookup dt ch path = Some p ->
  exists dt' n c s d out,
    kin (entries dt) p = Some (n, c, s, d) /\
    enumerate_loop (Datatypes.S (length (entries dt))) (entries dt) cb data c = Some out /\
    __PHYSFS_DirTreeEnumerate dt path cb data = Some (dt', out).
Proof.
  intros Hrepr Hok Hlk.
  destruct (DirTreeFind_spec dt ch path Hrepr) as (dt' & ch' & Hfind & _ & _).
  rewrite Hlk in Hfind. cbn [find_result] in Hfind.
  pose proof (DirTreeFind_kin _ _ _ _ Hfind) as (Hroot & Hlen & Hkin).
  pose proof (tree_lookup_valid dt ch path p Hrepr Hlk) as Hp.
  destruct (kin_is_Some _ p Hp) as [[[[n c] s] d] Hk].
  destruct (Hok _ _ _ _ _ Hk) as [Hc _].
  destruct (enumerate_loop_total cb (entries dt) Hok (Datatypes.S (length (entries dt))) data c)
    as [out Hout].
  { intros i Hi. destruct (Hc i Hi). lia. }
  exists dt', n, c, s, d, out. split; [exact Hk|]. split; [exact Hout|].
  unfold __PHYSFS_DirTreeEnumerate. rewrite Hfind. cbn [mbind option_bind].
  rewrite <- Hkin in Hk. apply kin_lookup in Hk as (e & He & _ & Hce & _).
  rewrite He. cbn [mbind option_bind]. rewrite Hce, Hlen.
  rewrite (enumerate_loop_ext cb (entries dt) (entries dt') Hok).
  - rewrite Hout. reflexivity.
  - intros i k Hi. destruct k as [[[n0 c0] s0] d0]. exists c0. rewrite Hkin. exact Hi.
  - intros i Hi. destruct (Hc i Hi). lia.
Qed.

(** *** Only directories have children *)

Definition dirs_only (es : list UNPKentry) : Prop :=
  forall i n c s d, kin es i = Some (n, Some c, s, d) -> d = true.

Lemma dirs_only_same dt dt' :
  same_kin dt dt' -> dirs_only (entries dt) -> dirs_only (entries dt').
Proof. intros (_ & _ & Hk) Hd i n c s d. rewrite Hk. apply Hd. Qed.

Lemma dirs_only_push dt parent pe nm d :
  entries dt !! parent = Some pe -> isdir (tree pe) = true ->
  dirs_only (entries dt) -> dirs_only (entries (push dt parent pe nm d)).
Proof.
  intros Hpe Hpd Hd i n c s dd. rewrite (kin_push_eq _ _ _ _ _ _ Hpe).
  destruct (decide (i = length (entries dt))); [discriminate|].
  destruct (decide (i = parent)); [intros [= _ _ _ <-]; exact Hpd|apply Hd].
Qed.

Lemma DirTreeAdd_rec_dirs fuel : forall dt ch nm d dt' r,
  tree_repr dt ch -> root_dir dt -> dirs_only (entries dt) -> length nm < fuel ->
  DirTreeAdd_rec fuel dt nm d = Some (dt', r) -> dirs_only (entries dt').
Proof.
  induction fuel as [|fuel IH]; intros dt ch nm d dt' r Hrepr Hroot Hdirs Hfuel; [lia|].
  cbn [DirTreeAdd_rec].
  destruct (DirTreeFind_spec dt ch nm Hrepr) as (dtA & chA & Hfind & HreprA & HsameA).
  rewrite Hfind. cbn [mbind option_bind].
  pose proof (DirTreeFind_kin _ _ _ _ Hfind) as HkinA.
  pose proof (dirs_only_same _ _ HkinA Hdirs) as HdirsA.
  assert (HrootA : root_dir dtA) by (apply (root_dir_step dt); [apply kin_same, HkinA|exact Hroot]).
  destruct (tree_lookup dt ch nm) as [p|]; cbn [find_result]; [intros [= <- _]; exact HdirsA|].
  destruct (addAncestors_parent fuel dtA chA nm HreprA HrootA ltac:(lia))
    as (dt2 & ch2 & par & Hanc & Hrepr2 & _ & Hpar & _).
  rewrite Hanc. cbn [mbind option_bind].
  assert (Hdirs2 : dirs_only (entries dt2)).
  { revert Hanc. unfold addAncestors.
    destruct (chop_last_slash nm) as [pre|] eqn:Hchop; [|intros [= <- _]; exact HdirsA].
    apply chop_last_slash_Some in Hchop as [Hlen _].
    destruct (DirTreeFind_spec dtA chA pre HreprA) as (dtB & chB & HfB & HreprB & HsameB).
    rewrite HfB. cbn [mbind option_bind].
    pose proof (DirTreeFind_kin _ _ _ _ HfB) as HkinB.
    pose proof (dirs_only_same _ _ HkinB HdirsA) as HdirsB.
    assert (HrootB : root_dir dtB)
      by (apply (root_dir_step dtA); [apply kin_same, HkinB|exact HrootA]).
    destruct (tree_lookup dtA chA pre) as [q|]; cbn [find_result].
    - destruct (entries dtB !! q) as [eq|]; [|discriminate]. cbn [mbind option_bind].
      destruct (isdir (tree eq)); intros [= <- _]; exact HdirsB.
    - intros Hrec. apply (IH dtB chB pre true dt2 par HreprB HrootB HdirsB); [lia|exact Hrec]. }
  destruct par as [parent| |]; [|intros [= <- _]; exact Hdirs2..].
  destruct (Hpar parent eq_refl) as [_ (pn & pc & ps & Hkpar)].
  apply kin_lookup in Hkpar as (pe & Hpe & _ & _ & _ & Hpd).
  rewrite Hpe. cbn [mbind option_bind]. intros [= <- _].
  exact (dirs_only_push dt2 parent pe nm d Hpe Hpd Hdirs2).
Qed.

Lemma tree_step_dirs dt dt' ch :
  tree_step dt dt' -> tree_repr dt ch -> root_dir dt -> dirs_only (entries dt) ->
  dirs_only (entries dt').
Proof.
  intros Hstep Hrepr Hroot Hdirs.
  pose proof (tree_step_kin _ _ Hstep) as Hk.
  destruct Hstep as [dt0 nm d dt1 r Hadd|dt0 path dt1 r Hfind|dt0 p e e' Hp He].
  - apply (DirTreeAdd_rec_dirs _ dt0 ch nm d dt1 r Hrepr Hroot Hdirs (Nat.lt_succ_diag_r _) Hadd).
  - exact (dirs_only_same _ _ (DirTreeFind_kin _ _ _ _ Hfind) Hdirs).
  - intros i n c s d. unfold kin. cbn [entries].
    destruct (decide (i = p)) as [->|Hne].
    + rewrite list_lookup_insert_eq by (eapply lookup_lt_Some; exact Hp). cbn. rewrite He.
      intros Hi. apply (Hdirs p n c s d). unfold kin. rewrite Hp. exact Hi.
    + rewrite list_lookup_insert_ne by congruence. apply Hdirs.
Qed.

Lemma tree_steps_dirs dt dt' :
  rtc tree_step dt dt' -> forall ch, tree_repr dt ch -> root_dir dt ->
  dirs_only (entries dt) -> dirs_only (entries dt').
Proof.
  induction 1 as [dt|dt dt1 dt2 Hstep _ IH]; intros ch Hrepr Hroot Hdirs; [exact Hdirs|].
  destruct (tree_step_grows Hcmp dt dt1 ch Hstep Hrepr) as (ch1 & k & Hrepr1 & _).
  apply (IH ch1 Hrepr1).
  - apply (root_dir_steps dt); [apply tree_step_kin, Hstep|exact Hroot].
  - exact (tree_step_dirs dt dt1 ch Hstep Hrepr Hroot Hdirs).
Qed.

Lemma dirs_only_init cs ua : dirs_only (entries (__PHYSFS_DirTreeInit cs ua)).
Proof.
  intros i n c s d. unfold __PHYSFS_DirTreeInit, kin. cbn [entries].
  destruct i as [|i]; [|destruct i; discriminate]. cbn. discriminate.
Qed.

(** X17.  In a tree that was initialised and then only added to,
    searched and had the payload of its entries written, after the
    addition of a new name to a directory that is in the tree,
    [__PHYSFS_DirTreeEnumerate] on that directory hands the callback the
    new name's last element first and then goes on as the enumeration
    before the addition does, stopping at once if the callback says so;
    and the enumeration of every other entry of the tree is what it was
    before. *)
Theorem DirTreeEnumerate_after_add {D : Type} (case_sens usascii : bool)
    (dt dt0 dt1 : __PHYSFS_DirTree) (nm : list ascii) (is_dir : bool) (e p : nat)
    (cb : D -> list ascii -> D * PHYSFS_EnumerateCallbackResult) (data : D) :
  rtc tree_step (__PHYSFS_DirTreeInit case_sens usascii) dt ->
  __PHYSFS_DirTreeAdd dt nm is_dir = Some (dt1, Ok e) -> length (entries dt) <= e ->
  __PHYSFS_DirTreeFind dt (parent_path nm) = Some (dt0, Ok p) ->
  (exists dt2 dt3 out,
     __PHYSFS_DirTreeEnumerate dt (parent_path nm) cb (cb data (after_last_slash nm)).1
       = Some (dt2, out) /\
     __PHYSFS_DirTreeEnumerate dt1 (parent_path nm) cb data =
       Some (dt3,
             match (cb data (after_last_slash nm)).2 with
             | PHYSFS_ENUM_OK => out
             | PHYSFS_ENUM_STOP => ((cb data (after_last_slash nm)).1, (PHYSFS_ENUM_STOP, None))
             | PHYSFS_ENUM_ERROR =>
                 ((cb data (after_last_slash nm)).1,
                  (PHYSFS_ENUM_ERROR, Some ENUM_ERR_APP_CALLBACK))
             end)) /\
  (forall path dt0' p', __PHYSFS_DirTreeFind dt path = Some (dt0', Ok p') -> p' <> p ->
     exists dt2 dt3 out,
       __PHYSFS_DirTreeEnumerate dt path cb data = Some (dt2, out) /\
       __PHYSFS_DirTreeEnumerate dt1 path cb data = Some (dt3, out)).
Proof.
  intros Hreach Hadd Hnew Hfp.
  destruct (reachable_tree _ _ _ Hreach) as ([ch Hrepr] & Hok & Hroot).
  pose proof (DirTreeFind_lookup dt ch _ _ _ Hrepr Hfp) as Hlkp.
  destruct (DirTreeAdd_new dt ch nm is_dir dt1 e Hrepr Hroot Hadd Hnew)
    as (dt2 & ch2 & ch1 & parent & pe & Hrepr2 & Hg & Hsteps & Hlk2 & Hpe & _ & -> & -> &
        Hrepr1 & Hg1 & Hold).
  pose proof (Hold p Hlkp) as (Hroot2 & Hlen2 & Hkin2).
  rewrite (grows_lookup Hcmp dt ch dt2 ch2 _ _ p Hrepr Hrepr2 Hg Hlkp) in Hlk2.
  injection Hlk2 as <-.
  set (dt1 := push dt2 p pe nm is_dir) in *.
  assert (Hok2 : links_ok (entries dt2)) by (apply (links_ok_steps _ _ Hsteps), Hok).
  assert (Hok1 : links_ok (entries dt1)) by (apply (links_ok_step dt2), Hok2; apply kin_push, Hpe).
  assert (Hkeep : keeps_kin (entries dt) (entries dt1)).
  { eapply keeps_kin_trans; [apply keeps_kin_steps, Hsteps|apply keeps_kin_push, Hpe]. }
  assert (Hlen1 : length (entries dt1) = Datatypes.S (length (entries dt)))
    by (unfold dt1; rewrite length_push, Hlen2; reflexivity).
  pose proof (lookup_lt_Some _ _ _ Hpe) as Hplt.
  split.
  - destruct (DirTreeEnumerate_walk dt ch _ p cb (cb data (after_last_slash nm)).1
                Hrepr Hok Hlkp) as (dtA & n & c & s & d & out & Hk & Hout & Henum).
    destruct (DirTreeEnumerate_walk dt1 ch1 _ p cb data Hrepr1 Hok1
                (grows_lookup Hcmp dt2 ch2 dt1 ch1 _ _ p Hrepr2 Hrepr1 Hg1
                   (grows_lookup Hcmp dt ch dt2 ch2 _ _ p Hrepr Hrepr2 Hg Hlkp)))
      as (dtB & n1 & c1 & s1 & d1 & out1 & Hk1 & Hout1 & Henum1).
    exists dtA, dtB, out. split; [exact Henum|]. rewrite Henum1. do 2 f_equal.
    unfold dt1 in Hk1 at 1. rewrite (kin_push_eq _ _ _ _ _ _ Hpe) in Hk1.
    destruct (decide (p = length (entries dt2))); [lia|].
    destruct (decide (p = p)); [|congruence]. injection Hk1 as <- <- <- <-.
    assert (Hkn : kin (entries dt1) (length (entries dt2)) =
                  Some (nm, None, children (tree pe), is_dir)).
    { unfold dt1. rewrite (kin_push_eq _ _ _ _ _ _ Hpe).
      destruct (decide (length (entries dt2) = length (entries dt2))); [reflexivity|congruence]. }
    apply kin_lookup in Hkn as (en & Hen & Hnn & _ & Hsn & _).
    cbn [enumerate_loop] in Hout1. rewrite Hen in Hout1. cbn [mbind option_bind] in Hout1.
    rewrite Hnn, Hsn in Hout1.
    assert (Hc : children (tree pe) = c).
    { rewrite <- Hkin2 in Hk. unfold kin in Hk. rewrite Hpe in Hk. cbn in Hk. congruence. }
    destruct (cb data (after_last_slash nm)) as [data' rc]. cbn [fst snd] in *.
    destruct rc; [congruence..|].
    rewrite Hc in Hout1.
    rewrite (enumerate_loop_later cb (entries dt) (entries dt1) (Datatypes.S (length (entries dt)))
               (length (entries dt1)) data' c Hok Hkeep) in Hout1; [congruence| |lia|lia].
    intros i Hi. destruct (Hok _ _ _ _ _ Hk) as [Hcc _]. destruct (Hcc i Hi). lia.
  - intros path dt0' p' Hf' Hne.
    pose proof (DirTreeFind_lookup dt ch _ _ _ Hrepr Hf') as Hlk'.
    destruct (DirTreeEnumerate_walk dt ch _ p' cb data Hrepr Hok Hlk')
      as (dtA & n & c & s & d & out & Hk & Hout & Henum).
    destruct (DirTreeEnumerate_walk dt1 ch1 _ p' cb data Hrepr1 Hok1
                (grows_lookup Hcmp dt2 ch2 dt1 ch1 _ _ p' Hrepr2 Hrepr1 Hg1
                   (grows_lookup Hcmp dt ch dt2 ch2 _ _ p' Hrepr Hrepr2 Hg Hlk')))
      as (dtB & n1 & c1 & s1 & d1 & out1 & Hk1 & Hout1 & Henum1).
    exists dtA, dtB, out. split; [exact Henum|]. rewrite Henum1. do 2 f_equal.
    pose proof (kin_Some_lt _ _ _ Hk) as Hp'.
    unfold dt1 in Hk1 at 1. rewrite (kin_push_eq _ _ _ _ _ _ Hpe) in Hk1.
    destruct (decide (p' = length (entries dt2))); [lia|].
    destruct (decide (p' = p)); [congruence|]. rewrite Hkin2, Hk in Hk1.
    injection Hk1 as <- <- <- <-.
    rewrite (enumerate_loop_later cb (entries dt) (entries dt1) (Datatypes.S (length (entries dt)))
               (Datatypes.S (length (entries dt1))) data c Hok Hkeep) in Hout1;
      [congruence| |lia|lia].
    intros i Hi. destruct (Hok _ _ _ _ _ Hk) as [Hcc _]. destruct (Hcc i Hi). lia.
Qed.

(** X18.  Nothing is lost from a directory: once a new name was added
    to a tree, every later enumeration of the directory it lies in,
    with a callback that takes each name and goes on, ends with
    [PHYSFS_ENUM_OK] and has handed over the last element of that name,
    whatever was added and searched in between and whether or not the
    directory was in the tree before the addition. *)
Theorem DirTreeEnumerate_lists_added (case_sens usascii : bool)
    (dt dt1 dt2 : __PHYSFS_DirTree) (nm : list ascii) (is_dir : bool) (e : nat) :
  rtc tree_step (__PHYSFS_DirTreeInit case_sens usascii) dt ->
  __PHYSFS_DirTreeAdd dt nm is_dir = Some (dt1, Ok e) -> length (entries dt) <= e ->
  rtc tree_step dt1 dt2 ->
  exists dt3 names,
    __PHYSFS_DirTreeEnumerate dt2 (parent_path nm) collect [] =
      Some (dt3, (names, (PHYSFS_ENUM_OK, None))) /\
    after_last_slash nm ∈ names.
Proof.
  intros Hreach Hadd Hnew Hlater.
  destruct (reachable_tree _ _ _ Hreach) as ([ch Hrepr] & Hok & Hroot).
  destruct (DirTreeAdd_new dt ch nm is_dir dt1 e Hrepr Hroot Hadd Hnew)
    as (dtB & chB & ch1 & parent & pe & HreprB & Hg & Hsteps & HlkB & Hpe & _ & Hdt1 & -> &
        Hrepr1 & Hg1 & _).
  pose proof (grows_lookup Hcmp dtB chB dt1 ch1 _ _ parent HreprB Hrepr1 Hg1 HlkB) as Hlk1.
  destruct (tree_steps_grow Hcmp _ _ Hlater _ Hrepr1) as (ch2 & k2 & Hrepr2 & Hg2).
  pose proof (grows_lookup Hcmp dt1 ch1 dt2 ch2 _ _ parent Hrepr1 Hrepr2 Hg2 Hlk1) as Hlk2.
  assert (Hreach2 : rtc tree_step (__PHYSFS_DirTreeInit case_sens usascii) dt2).
  { etrans; [exact Hreach|]. eapply rtc_l; [|exact Hlater].
    exact (tree_add dt nm is_dir dt1 _ Hadd). }
  destruct (reachable_tree _ _ _ Hreach2) as (_ & Hok2 & _).
  pose proof (lookup_lt_Some _ _ _ Hpe) as Hplt.
  assert (Hke : kin (entries dt1) (length (entries dtB)) =
                Some (nm, None, children (tree pe), is_dir)).
  { rewrite Hdt1, (kin_push_eq _ _ _ _ _ _ Hpe).
    destruct (decide (length (entries dtB) = length (entries dtB))); [reflexivity|congruence]. }
  assert (Hchild : child_of (entries dt1) parent (length (entries dtB))).
  { exists (name (tree pe)), (Some (length (entries dtB))), (sibling (tree pe)), (isdir (tree pe)).
    split; [|eapply chain_here, Hke].
    rewrite Hdt1, (kin_push_eq _ _ _ _ _ _ Hpe).
    destruct (decide (parent = length (entries dtB))); [lia|].
    destruct (decide (parent = parent)); [reflexivity|congruence]. }
  pose proof (tree_steps_kin _ _ Hlater) as Hksteps.
  apply (child_of_steps _ _ _ _ Hksteps) in Hchild as (n & c & s & d & Hkp & Hin).
  destruct (keeps_kin_steps _ _ Hksteps _ _ Hke) as [c' Hke2]. cbn [fst snd] in Hke2.
  destruct (DirTreeEnumerate_walk dt2 ch2 _ parent collect [] Hrepr2 Hok2 Hlk2)
    as (dt3 & n' & c0 & s' & d' & out & Hk & Hout & Henum).
  rewrite Hkp in Hk. injection Hk as <- <- <- <-.
  destruct (Hok2 _ _ _ _ _ Hkp) as [Hc _].
  destruct (enumerate_collect (entries dt2) Hok2 (Datatypes.S (length (entries dt2))) [] c)
    as [names [Hrun Hall]].
  { intros i Hi. destruct (Hc i Hi). lia. }
  rewrite Hrun in Hout. injection Hout as <-. cbn [app] in Henum.
  exists dt3, names. split; [exact Henum|].
  exact (Hall _ _ _ _ _ Hin Hke2).
Qed.

(** X19.  An entry is only ever put under a directory.  When
    [__PHYSFS_DirTreeAdd] returns a new entry, the directory of its name
    is in the tree and is a directory, created on the way if it was not
    there, the new entry is its first child, and it bears the name and
    the directory flag it was added with; when the directory of a name
    that is not in the tree stands for a regular file, the addition
    fails with CORRUPT and allocates nothing. *)
Theorem DirTreeAdd_under_directory (case_sens usascii : bool) (dt : __PHYSFS_DirTree)
    (nm : list ascii) (is_dir : bool) :
  rtc tree_step (__PHYSFS_DirTreeInit case_sens usascii) dt ->
  (forall dt1 e, __PHYSFS_DirTreeAdd dt nm is_dir = Some (dt1, Ok e) ->
     length (entries dt) <= e ->
     exists dt2 p pe en,
       __PHYSFS_DirTreeFind dt1 (parent_path nm) = Some (dt2, Ok p) /\
       entries dt2 !! p = Some pe /\ isdir (tree pe) = true /\
       children (tree pe) = Some e /\
       entries dt2 !! e = Some en /\ name (tree en) = nm /\ isdir (tree en) = is_dir) /\
  (forall dtf dtp p pe,
     __PHYSFS_DirTreeFind dt nm = Some (dtf, Bail PHYSFS_ERR_NOT_FOUND) ->
     __PHYSFS_DirTreeFind dt (parent_path nm) = Some (dtp, Ok p) ->
     entries dtp !! p = Some pe -> isdir (tree pe) = false ->
     exists dt1, __PHYSFS_DirTreeAdd dt nm is_dir = Some (dt1, Bail PHYSFS_ERR_CORRUPT) /\
       length (entries dt1) = length (entries dt)).
Proof.
  intros Hreach. destruct (reachable_tree _ _ _ Hreach) as ([ch Hrepr] & Hok & Hroot). split.
  - intros dt1 e Hadd Hnew.
    destruct (DirTreeAdd_new dt ch nm is_dir dt1 e Hrepr Hroot Hadd Hnew)
      as (dtB & chB & ch1 & parent & pe & HreprB & Hg & Hsteps & HlkB & Hpe & Hpd & Hdt1 & -> &
          Hrepr1 & Hg1 & _).
    pose proof (grows_lookup Hcmp dtB chB dt1 ch1 _ _ parent HreprB Hrepr1 Hg1 HlkB) as Hlk1.
    destruct (DirTreeFind_spec dt1 ch1 (parent_path nm) Hrepr1) as (dt2 & ch2 & Hfind & _ & _).
    rewrite Hlk1 in Hfind. cbn [find_result] in Hfind.
    pose proof (DirTreeFind_kin _ _ _ _ Hfind) as (_ & _ & Hkin).
    pose proof (lookup_lt_Some _ _ _ Hpe) as Hplt.
    assert (Hkp : kin (entries dt2) parent =
                  Some (name (tree pe), Some (length (entries dtB)), sibling (tree pe), true)).
    { rewrite Hkin, Hdt1, (kin_push_eq _ _ _ _ _ _ Hpe).
      destruct (decide (parent = length (entries dtB))); [lia|].
      destruct (decide (parent = parent)); [|congruence]. rewrite Hpd. reflexivity. }
    assert (Hke : kin (entries dt2) (length (entries dtB)) =
                  Some (nm, None, children (tree pe), is_dir)).
    { rewrite Hkin, Hdt1, (kin_push_eq _ _ _ _ _ _ Hpe).
      destruct (decide (length (entries dtB) = length (entries dtB))); [reflexivity|congruence]. }
    apply kin_lookup in Hkp as (pe2 & Hpe2 & _ & Hc2 & _ & Hd2).
    apply kin_lookup in Hke as (en & Hen & Hnn & _ & _ & Hdn).
    exists dt2, parent, pe2, en. repeat split; assumption.
  - intros dtf dtp p pe Hmiss Hfp Hpe Hfile.
    pose proof (DirTreeFind_lookup dt ch _ _ _ Hrepr Hfp) as Hlkp.
    destruct (DirTreeFind_spec dt ch nm Hrepr) as (dtA & chA & Hfind & HreprA & HsameA).
    rewrite Hfind in Hmiss. injection Hmiss as -> Hres.
    pose proof (DirTreeFind_kin _ _ _ _ Hfind) as HkinA.
    assert (HrootA : root_dir dtf)
      by (apply (root_dir_step dt); [apply kin_same, HkinA|exact Hroot]).
    destruct (addAncestors_parent (length nm) dtf chA nm HreprA HrootA (le_n _))
      as (dt2 & ch2 & par & Hanc & _ & _ & _ & Hold).
    destruct (Hold p) as [Hsame2 Hcorrupt].
    { rewrite (tree_lookup_same_index Hcmp dt ch dtf chA _ Hrepr HsameA). exact Hlkp. }
    assert (Hpar : par = Bail PHYSFS_ERR_CORRUPT).
    { apply Hcorrupt. destruct HkinA as (_ & _ & HkA). rewrite HkA.
      pose proof (DirTreeFind_kin _ _ _ _ Hfp) as (_ & _ & Hkp). rewrite <- Hkp.
      exists (name (tree pe)), (children (tree pe)), (sibling (tree pe)).
      unfold kin. rewrite Hpe. cbn. rewrite Hfile. reflexivity. }
    exists dt2. unfold __PHYSFS_DirTreeAdd. cbn [DirTreeAdd_rec].
    rewrite Hfind, Hres. cbn [mbind option_bind]. rewrite Hanc, Hpar. cbn [mbind option_bind errpass].
    split; [reflexivity|]. destruct Hsame2 as (_ & -> & _). destruct HkinA as (_ & -> & _).
    reflexivity.
Qed.

(** X20.  A regular file has no children in a tree that was only added
    to and searched: [__PHYSFS_DirTreeEnumerate] on the name of a regular
    file returns [PHYSFS_ENUM_OK] without an error and without a call of
    the callback. *)
Theorem DirTreeEnumerate_regular_file {D : Type} (case_sens usascii : bool)
    (dt dt' : __PHYSFS_DirTree) (path : list ascii) (p : nat) (e : UNPKentry)
    (cb : D -> list ascii -> D * PHYSFS_EnumerateCallbackResult) (data : D) :
  rtc tree_step (__PHYSFS_DirTreeInit case_sens usascii) dt ->
  __PHYSFS_DirTreeFind dt path = Some (dt', Ok p) ->
  entries dt' !! p = Some e -> isdir (tree e) = false ->
  __PHYSFS_DirTreeEnumerate dt path cb data = Some (dt', (data, (PHYSFS_ENUM_OK, None))).
Proof.
  intros Hreach Hfind He Hfile.
  pose proof (tree_steps_dirs _ _ Hreach _ (tree_repr_init case_sens usascii)
                (root_dir_init _ _) (dirs_only_init _ _)) as Hdirs.
  pose proof (dirs_only_same _ _ (DirTreeFind_kin _ _ _ _ Hfind) Hdirs) as Hdirs'.
  unfold __PHYSFS_DirTreeEnumerate. rewrite Hfind. cbn [mbind option_bind].
  rewrite He. cbn [mbind option_bind].
  destruct (children (tree e)) as [c|] eqn:Hc; [|reflexivity].
  assert (Hk : kin (entries dt') p = Some (name (tree e), Some c, sibling (tree e), false)).
  { unfold kin. rewrite He. cbn. rewrite Hc, Hfile. reflexivity. }
  pose proof (Hdirs' _ _ _ _ _ Hk). discriminate.
Qed.

End Enumerate.

(** The example tree after the addition of [maps/e2.map]. *)
Definition example_tree2 : __PHYSFS_DirTree :=
  Eval vm_compute in
    match @__PHYSFS_DirTreeAdd usascii_platform example_tree (cstr "maps/e2.map") false with
    | Some (dt, _) => dt
    | None => example_tree
    end.

Lemma example_tree_reachable :
  rtc (@tree_step usascii_platform) (__PHYSFS_DirTreeInit false true) example_tree.
Proof.
  apply rtc_once.
  apply (@tree_add usascii_platform _ (cstr "maps/e1.map") false _ (Ok 2)).
  vm_compute. reflexivity.
Qed.

Lemma DirTreeEnumerate_after_add_witness :
  exists dt3,
    @__PHYSFS_DirTreeEnumerate usascii_platform _ example_tree2 (cstr "maps") collect [] =
      Some (dt3, ([cstr "e2.map"; cstr "e1.map"], (PHYSFS_ENUM_OK, None))).
Proof.
  destruct (@DirTreeEnumerate_after_add usascii_platform usascii_stricmp_ok _ false true
              example_tree example_tree example_tree2 (cstr "maps/e2.map") false 3 1
              collect [] example_tree_reachable)
    as [(dt2 & dt3 & out & Hbefore & Hafter) _].
  - vm_compute. reflexivity.
  - vm_compute. lia.
  - vm_compute. reflexivity.
  - exists dt3. vm_compute in Hbefore. injection Hbefore as _ <-. exact Hafter.
Defined.

Lemma DirTreeEnumerate_lists_added_witness :
  exists dt3 names,
    @__PHYSFS_DirTreeEnumerate usascii_platform _ example_tree2 (cstr "maps") collect [] =
      Some (dt3, (names, (PHYSFS_ENUM_OK, None))) /\
    cstr "e2.map" ∈ names.
Proof.
  apply (@DirTreeEnumerate_lists_added usascii_platform usascii_stricmp_ok false true
           example_tree example_tree2 example_tree2 (cstr "maps/e2.map") false 3
           example_tree_reachable).
  - vm_compute. reflexivity.
  - vm_compute. lia.
  - apply rtc_refl.
Defined.


(** A tree where [readme] is a regular file. *)
Definition example_tree3 : __PHYSFS_DirTree :=
  Eval vm_compute in
    match @__PHYSFS_DirTreeAdd usascii_platform (__PHYSFS_DirTreeInit false true)
                               (cstr "readme") false with
    | Some (dt, _) => dt
    | None => __PHYSFS_DirTreeInit false true
    end.

Lemma example_tree3_reachable :
  rtc (@tree_step usascii_platform) (__PHYSFS_DirTreeInit false true) example_tree3.
Proof.
  apply rtc_once.
  apply (@tree_add usascii_platform _ (cstr "readme") false _ (Ok 1)).
  vm_compute. reflexivity.
Qed.

Lemma DirTreeAdd_under_directory_witness :
  (exists dt2 p pe en,
     @__PHYSFS_DirTreeFind usascii_platform example_tree2 (cstr "maps") = Some (dt2, Ok p) /\
     entries dt2 !! p = Some pe /\ isdir (tree pe) = true /\
     children (tree pe) = Some 3 /\
     entries dt2 !! 3 = Some en /\ name (tree en) = cstr "maps/e2.map" /\
     isdir (tree en) = false) /\
  (exists dt1,
     @__PHYSFS_DirTreeAdd usascii_platform example_tree3 (cstr "README/notes") false =
       Some (dt1, Bail PHYSFS_ERR_CORRUPT) /\
     length (entries dt1) = length (entries example_tree3)).
Proof.
  split.
  - apply (proj1 (@DirTreeAdd_under_directory usascii_platform usascii_stricmp_ok false true
                    example_tree (cstr "maps/e2.map") false example_tree_reachable)
                 example_tree2 3).
    + vm_compute. reflexivity.
    + vm_compute. lia.
  - apply (proj2 (@DirTreeAdd_under_directory usascii_platform usascii_stricmp_ok false true
                    example_tree3 (cstr "README/notes") false example_tree3_reachable)
                 example_tree3 example_tree3 1
                 (mkUNPKentry (mkDirTreeEntry (cstr "readme") None None None false) 0 0 0 0)).
    + vm_compute. reflexivity.
    + vm_compute. reflexivity.
    + vm_compute. reflexivity.
    + reflexivity.
Defined.

Lemma DirTreeEnumerate_regular_file_witness :
  @__PHYSFS_DirTreeEnumerate usascii_platform _ example_tree3 (cstr "ReadMe") collect [] =
    Some (example_tree3, ([], (PHYSFS_ENUM_OK, None))).
Proof.
  apply (@DirTreeEnumerate_regular_file usascii_platform usascii_stricmp_ok _ false true
           example_tree3 example_tree3 (cstr "ReadMe") 1
           (mkUNPKentry (mkDirTreeEntry (cstr "readme") None None None false) 0 0 0 0)
           collect [] example_tree3_reachable).
  - vm_compute. reflexivity.
  - vm_compute. reflexivity.
  - reflexivity.
Defined.

(** ** The bytes of an archive entry *)

Lemma take_take_drop {A : Type} (l : list A) (a b : nat) :
  take (a + b) l = take a l ++ take b (drop a l).
Proof.
  revert l. induction a as [|a IH]; intros l; [reflexivity|].
  destruct l as [|x l]; [cbn; destruct b; reflexivity|].
  cbn. rewrite IH. reflexivity.
Qed.

Section EntryStream.
Context {S : Type} `{PHYSFS_Io S}.

(** The archive is the file [file], read through a stream over it that
    also takes a read of no byte and can be duplicated. *)
Variable file : list byte.
Variable pos : S -> nat.
Variable stream_ok : S -> Prop.
Hypothesis Hfs : file_stream file pos stream_ok.
Hypothesis Hzero : forall s, stream_ok s ->
  exists s', io_read s 0 = (s', Ok []) /\ stream_ok s' /\ pos s' = pos s.

(** The entry lies in the file and is shorter than 2^32 bytes, which is
    what the cursor of its stream can count. *)
Variable entry : UNPKentry.
Hypothesis Hstart : (0 <= startPos entry)%Z.
Hypothesis Hsize : (0 <= entry_size entry < 2 ^ 32)%Z.
Hypothesis Hfits : (startPos entry + entry_size entry <= Z.of_nat (length file))%Z.

Definition entry_bytes : list byte :=
  take (Z.to_nat (entry_size entry)) (drop (Z.to_nat (startPos entry)) file).

(** The stream of the entry is at [curPos], and the stream under it at
    the same byte of the archive. *)
Definition entry_ok (finfo : UNPKfileinfo S) : Prop :=
  stream_ok (finfo_io finfo) /\ finfo_entry finfo = entry /\
  (0 <= curPos finfo <= entry_size entry)%Z /\
  pos (finfo_io finfo) = Z.to_nat (startPos entry + curPos finfo).

Definition entry_rest (finfo : UNPKfileinfo S) : list byte :=
  drop (Z.to_nat (curPos finfo)) entry_bytes.

Lemma entry_rest_eq (finfo : UNPKfileinfo S) :
  entry_ok finfo ->
  entry_rest finfo =
  take (Z.to_nat (entry_size entry - curPos finfo)) (drop (pos (finfo_io finfo)) file).
Proof.
  intros (_ & _ & Hc & Hp). unfold entry_rest, entry_bytes.
  rewrite skipn_firstn_comm. change (@skipn byte) with (@drop byte).
  change (@firstn byte) with (@take byte). rewrite drop_drop, Hp.
  f_equal; [lia|]. f_equal. lia.
Qed.

Lemma UNPK_read_entry (finfo : UNPKfileinfo S) (n : Z) :
  entry_ok finfo -> (0 < n)%Z ->
  exists finfo' d,
    UNPK_read finfo n = (finfo', Ok d) /\ entry_ok finfo' /\
    curPos finfo' = (curPos finfo + Z.of_nat (length d))%Z /\
    entry_rest finfo = d ++ entry_rest finfo' /\
    (Z.of_nat (length d) <= n)%Z /\
    (entry_rest finfo <> [] -> d <> []).
Proof.
  intros Hok Hn. pose proof (entry_rest_eq finfo Hok) as Hrest.
  destruct Hok as (Hs & He & Hc & Hp).
  unfold UNPK_read. rewrite He. rewrite u64_small by lia.
  set (rem := (entry_size entry - curPos finfo)%Z) in *.
  destruct (Z.ltb_spec rem n) as [Hlt|Hge].
  - destruct (Z.eq_dec rem 0%Z) as [Hz|Hnz].
    + rewrite Hz. destruct (Hzero _ Hs) as (s' & Hrd & Hs' & Hp').
      rewrite Hrd. eexists _, []. split; [reflexivity|].
      split; [split; [exact Hs'|split; [reflexivity|split; [exact Hc|cbn; lia]]]|].
      split; [cbn; lia|]. split; [reflexivity|]. split; [cbn; lia|].
      intros Hne. exfalso. apply Hne. rewrite Hrest, Hz. reflexivity.
    + destruct (fs_read _ _ _ Hfs (finfo_io finfo) rem Hs ltac:(lia))
        as (s' & d & Hrd & Hs' & Hp' & Hd & Hle & Hne).
      rewrite Hrd. assert (Hdne : d <> []) by (apply Hne; lia).
      destruct d as [|b data]; [congruence|].
      set (d := b :: data) in *.
      rewrite (u32_small (Z.of_nat (length d))) by lia.
      rewrite u32_small by lia.
      eexists _, d. split; [reflexivity|].
      assert (Hok' : entry_ok (mkUNPKfileinfo s' entry (curPos finfo + Z.of_nat (length d)))).
      { split; [exact Hs'|]. split; [reflexivity|]. cbn [curPos finfo_io]. split; lia. }
      split; [exact Hok'|]. split; [reflexivity|]. split; [|split; [lia|intros _; exact Hdne]].
      rewrite Hrest, (entry_rest_eq _ Hok'). cbn [curPos finfo_io].
      rewrite Hp'. rewrite <- drop_drop.
      replace (Z.to_nat rem) with
        (length d + Z.to_nat (entry_size entry - (curPos finfo + Z.of_nat (length d)))) by lia.
      rewrite take_take_drop. f_equal. symmetry. exact Hd.
  - destruct (fs_read _ _ _ Hfs (finfo_io finfo) n Hs Hn)
      as (s' & d & Hrd & Hs' & Hp' & Hd & Hle & Hne).
    rewrite Hrd. assert (Hdne : d <> []) by (apply Hne; lia).
    destruct d as [|b data]; [congruence|].
    set (d := b :: data) in *.
    rewrite (u32_small (Z.of_nat (length d))) by lia.
    rewrite u32_small by lia.
    eexists _, d. split; [reflexivity|].
    assert (Hok' : entry_ok (mkUNPKfileinfo s' entry (curPos finfo + Z.of_nat (length d)))).
    { split; [exact Hs'|]. split; [reflexivity|]. cbn [curPos finfo_io]. split; lia. }
    split; [exact Hok'|]. split; [reflexivity|]. split; [|split; [lia|intros _; exact Hdne]].
    rewrite Hrest, (entry_rest_eq _ Hok'). cbn [curPos finfo_io].
    rewrite Hp'. rewrite <- drop_drop.
    replace (Z.to_nat rem) with
      (length d + Z.to_nat (entry_size entry - (curPos finfo + Z.of_nat (length d)))) by lia.
    rewrite take_take_drop. f_equal. symmetry. exact Hd.
Qed.

Lemma UNPK_reads_file : reads_file (H := UNPK_Io) entry_rest entry_ok.
Proof.
  intros finfo n Hok Hn.
  destruct (UNPK_read_entry finfo n Hok Hn) as (finfo' & d & Hrd & Hok' & _ & Hr & Hle & Hne).
  exists finfo', d. split; [exact Hrd|]. split; [exact Hok'|]. split; [exact Hr|].
  split; [exact Hle|exact Hne].
Qed.

End EntryStream.

(** *** What a search leaves of the entries *)

(** An entry without its hash link. *)
Definition sans_hash (e : UNPKentry) : UNPKentry :=
  with_tree e (mkDirTreeEntry (name (tree e)) None (children (tree e)) (sibling (tree e))
                              (isdir (tree e))).

Lemma set_hashnext_sans es p nx : sans_hash <$> set_hashnext p nx es = sans_hash <$> es.
Proof.
  unfold set_hashnext. destruct (es !! p) as [e|] eqn:He; [|reflexivity].
  rewrite list_fmap_insert. apply list_insert_id.
  rewrite list_lookup_fmap, He. reflexivity.
Qed.

Section EntryLookup.
Context `{Platform}.
Hypothesis Hcmp : stricmp_ok.

Lemma find_loop_sans fuel : forall dt path b prev r dt' o,
  find_loop fuel dt path b prev r = Some (dt', o) ->
  sans_hash <$> entries dt' = sans_hash <$> entries dt.
Proof.
  induction fuel as [|fuel IH]; intros dt path b prev r dt' o.
  - destruct r; cbn [find_loop]; [discriminate|]. intros [= <- _]. reflexivity.
  - destruct r as [r|]; cbn [find_loop]; [|intros [= <- _]; reflexivity].
    destruct (entries dt !! r) as [e|]; [|discriminate]. cbn [mbind option_bind].
    destruct (name_matches dt (name (tree e)) path).
    + destruct prev as [p|]; intros [= <- _]; [|reflexivity].
      cbn [entries]. rewrite !set_hashnext_sans. reflexivity.
    + apply IH.
Qed.

Lemma DirTreeFind_sans dt path dt' r :
  __PHYSFS_DirTreeFind dt path = Some (dt', r) ->
  sans_hash <$> entries dt' = sans_hash <$> entries dt.
Proof.
  unfold __PHYSFS_DirTreeFind. destruct path as [|c path]; [intros [= <- _]; reflexivity|].
  destruct (find_loop _ dt (c :: path) _ None _) as [[dt1 o]|] eqn:Hf; [|discriminate].
  cbn [mbind option_bind]. apply find_loop_sans in Hf.
  destruct o; intros [= <- _]; exact Hf.
Qed.

(** After [UNPK_addEntry] has made a new entry, a search for the name
    finds it, with what was recorded. *)
Lemma UNPK_addEntry_entry {S : Type} (cs ua : bool) (info info1 : UNPKinfo S)
    (nm : list ascii) (d : bool) (ct mt p len : Z) (e : nat) :
  rtc tree_step (__PHYSFS_DirTreeInit cs ua) (info_tree info) ->
  UNPK_addEntry info nm d ct mt p len = Some (info1, Ok e) ->
  length (entries (info_tree info)) <= e ->
  info_io info1 = info_io info /\
  exists dtG eG,
    __PHYSFS_DirTreeFind (info_tree info1) nm = Some (dtG, Ok e) /\
    entries dtG !! e = Some eG /\
    name (tree eG) = nm /\ isdir (tree eG) = d /\
    startPos eG = (if d then 0%Z else p) /\ entry_size eG = (if d then 0%Z else len) /\
    ctime eG = ct /\ mtime eG = mt.
Proof.
  intros Hreach Hadd Hnew.
  destruct (reachable_tree Hcmp _ _ _ Hreach) as ([ch Hrepr] & _ & Hroot).
  unfold UNPK_addEntry in Hadd.
  destruct (__PHYSFS_DirTreeAdd (info_tree info) nm d) as [[dt r]|] eqn:Ha; [|discriminate].
  cbn [mbind option_bind] in Hadd. destruct r as [e'| |]; [|discriminate..].
  destruct (entries dt !! e') as [e0|] eqn:He0; [|discriminate].
  cbn [mbind option_bind] in Hadd. injection Hadd as <- <-. cbn [info_io info_tree].
  split; [reflexivity|].
  destruct (DirTreeAdd_new Hcmp _ ch nm d dt e' Hrepr Hroot Ha Hnew)
    as (dt2 & ch2 & ch1 & parent & pe & Hrepr2 & Hg & _ & Hlk2 & Hpe & _ & Hdt & He' &
        Hrepr1 & Hg1 & _).
  destruct (DirTreeAdd_spec Hcmp _ ch nm d Hrepr) as (dtx & chx & rx & Hax & Hreprx & _ & Hres).
  rewrite Ha in Hax. injection Hax as <- <-.
  destruct (Hres e' eq_refl) as [Hlk _].
  assert (Hk0 : kin (entries dt) e' = Some (nm, None, children (tree pe), d)).
  { rewrite Hdt, (kin_push_eq _ _ _ _ _ _ Hpe), He'.
    destruct (decide (length (entries dt2) = length (entries dt2))); [reflexivity|congruence]. }
  unfold kin in Hk0. rewrite He0 in Hk0. cbn in Hk0. injection Hk0 as Hn0 _ _ Hd0.
  set (e1 := mkUNPKentry (tree e0) (if d then 0%Z else p) (if d then 0%Z else len) ct mt).
  destruct (fields_repr dt chx e' e0 e1 Hreprx He0 eq_refl) as [HreprF HsameF].
  set (dtF := mkDirTree (<[e' := e1]> (entries dt)) (root dt) (hash dt) (hashBuckets dt)
                        (case_sensitive dt) (only_usascii dt)) in *.
  destruct (DirTreeFind_spec dtF chx nm HreprF) as (dtG & chG & Hfind & _ & _).
  rewrite (tree_lookup_same_index Hcmp dt chx dtF chx nm Hreprx HsameF), Hlk in Hfind.
  cbn [find_result] in Hfind.
  pose proof (DirTreeFind_sans _ _ _ _ Hfind) as Hsans.
  assert (HeF : entries dtF !! e' = Some e1).
  { unfold dtF. cbn [entries]. apply list_lookup_insert_eq. eapply lookup_lt_Some, He0. }
  assert (HeG : sans_hash <$> entries dtG !! e' = Some (sans_hash e1)).
  { rewrite <- list_lookup_fmap, Hsans, list_lookup_fmap, HeF. reflexivity. }
  destruct (entries dtG !! e') as [eG|] eqn:HeGl; [|discriminate]. cbn in HeG.
  injection HeG as Hn Hc Hs Hd Hsp Hsz Hct Hmt.
  exists dtG, eG. split; [exact Hfind|]. split; [exact HeGl|].
  cbn in *. repeat split; congruence.
Qed.

End EntryLookup.

Section ArchiveEntry.
Context {S : Type} `{PHYSFS_Io S} `{Platform}.
Hypothesis Hcmp : stricmp_ok.

Variable file : list byte.
Variable pos : S -> nat.
Variable stream_ok : S -> Prop.
Hypothesis Hfs : file_stream file pos stream_ok.
Hypothesis Hzero : forall s, stream_ok s ->
  exists s', io_read s 0 = (s', Ok []) /\ stream_ok s' /\ pos s' = pos s.
Hypothesis Hdup : forall s, stream_ok s -> exists s', io_duplicate s = Ok s' /\ stream_ok s'.

(** The stream that [UNPK_openRead] returns for a name that a search
    finds as a regular file, and what a handle reads from it. *)
Lemma UNPK_openRead_found (info : UNPKinfo S) (nm : list ascii) (dtG : __PHYSFS_DirTree)
    (e : nat) (eG : UNPKentry) (p len : Z) (dh fuel : nat) (chunk : Z) :
  __PHYSFS_DirTreeFind (info_tree info) nm = Some (dtG, Ok e) ->
  entries dtG !! e = Some eG -> isdir (tree eG) = false ->
  startPos eG = p -> entry_size eG = len ->
  stream_ok (info_io info) ->
  (0 <= p)%Z -> (0 <= len < 2 ^ 32)%Z -> (p + len <= Z.of_nat (length file))%Z ->
  (0 < chunk <= maxlen)%Z -> Z.to_nat len < fuel ->
  exists info2 finfo,
    UNPK_openRead info nm = Some (info2, Ok finfo) /\
    info_io info2 = info_io info /\
    UNPK_tell finfo = 0%Z /\ UNPK_length finfo = len /\
    read_to_eof fuel (mkFileHandle finfo true dh None 0 0 0) chunk =
      Some (take (Z.to_nat len) (drop (Z.to_nat p) file)).
Proof.
  intros Hfind HeG Hd Hsp Hsz Hs Hp Hlen Hfit Hchunk Hfuel.
  unfold UNPK_openRead, findEntry. rewrite Hfind. cbn [mbind option_bind info_tree info_io].
  rewrite HeG. cbn [mbind option_bind]. rewrite Hd.
  destruct (Hdup _ Hs) as (io & Hdupio & Hsio). rewrite Hdupio, Hsp.
  destruct (fs_seek _ _ _ Hfs io p Hsio ltac:(lia)) as (io' & Hseek & Hsio' & Hpio').
  rewrite Hseek. eexists _, _. split; [reflexivity|]. split; [reflexivity|].
  split; [reflexivity|]. split.
  { unfold UNPK_length. cbn [finfo_entry]. rewrite Hsz. apply s64_small. lia. }
  set (finfo := mkUNPKfileinfo io' eG 0).
  assert (Hok : entry_ok pos stream_ok eG finfo).
  { split; [exact Hsio'|]. split; [reflexivity|]. unfold finfo. cbn [curPos finfo_io].
    rewrite Hsz, Hsp. split; [lia|]. rewrite Hpio'. f_equal. lia. }
  assert (Hreads : reads_file (H := UNPK_Io) (entry_rest file eG) (entry_ok pos stream_ok eG)).
  { apply (UNPK_reads_file file pos stream_ok Hfs Hzero eG); rewrite ?Hsp, ?Hsz; lia. }
  assert (Hpend : pending (entry_rest file eG) (mkFileHandle finfo true dh None 0 0 0) =
                  take (Z.to_nat len) (drop (Z.to_nat p) file)).
  { unfold pending, buffered, entry_rest, entry_bytes, finfo.
    cbn [buffill bufpos fh_io curPos]. cbn. rewrite Hsp, Hsz. reflexivity. }
  rewrite (read_to_eof_spec (entry_rest file eG) (entry_ok pos stream_ok eG) Hreads fuel _ chunk).
  - rewrite Hpend. reflexivity.
  - split; [exact Hok|]. cbn. repeat split; try lia. intros [x Hx]. discriminate.
  - exact Hchunk.
  - rewrite Hpend, length_take. lia.
Qed.

(** X21.  The bytes of an entry are its range of the archive.  Let the
    archive be read through a stream over a file that can be duplicated
    and takes a read of no byte, and let [UNPK_addEntry] have made a new
    entry for a regular file of [len] bytes at offset [p], in the file
    and shorter than 2^32.  Then [UNPK_openRead] on its name succeeds
    without moving the archive's own stream; the stream it returns is
    at position 0 and reports the length [len]; and reading it to the
    end through a handle, in requests of any size, delivers exactly the
    [len] bytes of the file from offset [p] on. *)
Theorem UNPK_openRead_reads_entry (cs ua : bool) (info info1 : UNPKinfo S)
    (nm : list ascii) (ct mt p len : Z) (e dh fuel : nat) (chunk : Z) :
  rtc tree_step (__PHYSFS_DirTreeInit cs ua) (info_tree info) ->
  stream_ok (info_io info) ->
  UNPK_addEntry info nm false ct mt p len = Some (info1, Ok e) ->
  length (entries (info_tree info)) <= e ->
  (0 <= p)%Z -> (0 <= len < 2 ^ 32)%Z -> (p + len <= Z.of_nat (length file))%Z ->
  (0 < chunk <= maxlen)%Z -> Z.to_nat len < fuel ->
  exists info2 finfo,
    UNPK_openRead info1 nm = Some (info2, Ok finfo) /\
    info_io info2 = info_io info /\
    UNPK_tell finfo = 0%Z /\ UNPK_length finfo = len /\
    read_to_eof fuel (mkFileHandle finfo true dh None 0 0 0) chunk =
      Some (take (Z.to_nat len) (drop (Z.to_nat p) file)).
Proof.
  intros Hreach Hs Hadd Hnew Hp Hlen Hfit Hchunk Hfuel.
  destruct (UNPK_addEntry_entry Hcmp cs ua info info1 nm false ct mt p len e Hreach Hadd Hnew)
    as (Hio & dtG & eG & Hfind & HeG & _ & Hd & Hsp & Hsz & _ & _).
  rewrite <- Hio in Hs |- *.
  exact (UNPK_openRead_found info1 nm dtG e eG p len dh fuel chunk Hfind HeG Hd Hsp Hsz Hs
           Hp Hlen Hfit Hchunk Hfuel).
Qed.


End ArchiveEntry.

Lemma memoryIo_zero_read (file : list byte) (s : MemoryIoInfo) :
  (Z.of_nat (length file) < 2 ^ 63)%Z -> memory_at_file file s ->
  exists s', io_read s 0 = (s', Ok []) /\ memory_at_file file s' /\
             Z.to_nat (mem_pos s') = Z.to_nat (mem_pos s).
Proof.
  intros Hsmall [Hb Hp]. cbn [io_read __PHYSFS_memoryIoInterface]. unfold memoryIo_read.
  assert (Hlen : mem_len s = Z.of_nat (length file)) by (unfold mem_len; rewrite Hb; reflexivity).
  rewrite u64_small by lia.
  destruct (Z.eqb_spec (mem_len s - mem_pos s) 0).
  - exists s. split; [reflexivity|]. split; [split; [exact Hb|exact Hp]|reflexivity].
  - destruct (Z.ltb_spec (mem_len s - mem_pos s) 0); [lia|].
    eexists. split; [reflexivity|]. cbn [mem_pos mem_buf]. rewrite Z.add_0_r.
    rewrite u64_small by lia. split; [split; [exact Hb|exact Hp]|reflexivity].
Qed.

Lemma memoryIo_dup (file : list byte) (s : MemoryIoInfo) :
  memory_at_file file s -> exists s', io_duplicate s = Ok s' /\ memory_at_file file s'.
Proof.
  intros [Hb Hp]. eexists. split; [reflexivity|]. split; [exact Hb|].
  unfold mem_len. cbn [mem_pos mem_buf]. lia.
Qed.

(** An archive of twelve bytes with one entry, [world.txt], of five
    bytes at offset 7. *)
Definition example_archive : UNPKinfo MemoryIoInfo :=
  UNPK_openArchive (__PHYSFS_createMemoryIo (list_byte_of_string "hello, world")) false true.

Definition example_archive1 : UNPKinfo MemoryIoInfo :=
  Eval vm_compute in
    match @UNPK_addEntry MemoryIoInfo usascii_platform example_archive (cstr "world.txt")
                         false 10 20 7 5 with
    | Some (info, _) => info
    | None => example_archive
    end.

Lemma UNPK_openRead_reads_entry_witness :
  exists info2 finfo,
    @UNPK_openRead MemoryIoInfo _ usascii_platform example_archive1 (cstr "world.txt") =
      Some (info2, Ok finfo) /\
    read_to_eof 6 (mkFileHandle finfo true 0 None 0 0 0) 2 =
      Some (list_byte_of_string "world").
Proof.
  set (file := list_byte_of_string "hello, world").
  assert (Hsmall : (Z.of_nat (length file) < 2 ^ 63)%Z) by (vm_compute; reflexivity).
  destruct (@UNPK_openRead_reads_entry MemoryIoInfo _ usascii_platform usascii_stricmp_ok
              file (fun info => Z.to_nat (mem_pos info)) (memory_at_file file)
              (memoryIo_file_stream file Hsmall)
              (fun s Hs => memoryIo_zero_read file s Hsmall Hs)
              (memoryIo_dup file)
              false true example_archive example_archive1 (cstr "world.txt") 10 20 7 5
              1 0 6 2)
    as (info2 & finfo & Hopen & _ & _ & _ & Hread).
  - apply rtc_refl.
  - vm_compute. split; [reflexivity|split; discriminate].
  - vm_compute. reflexivity.
  - vm_compute. lia.
  - lia.
  - lia.
  - vm_compute. discriminate.
  - vm_compute. split; [reflexivity|discriminate].
  - lia.
  - exists info2, finfo. split; [exact Hopen|exact Hread].
Defined.


(** ** Names and case *)

(** The hash that folds US-ASCII is the plain hash of the folded
    name. *)
Lemma hashStringCaseFoldUSAscii_fold (sgn : bool) (s : list ascii) :
  __PHYSFS_hashStringCaseFoldUSAscii sgn s = __PHYSFS_hashString sgn (map fold_usascii s).
Proof.
  unfold __PHYSFS_hashStringCaseFoldUSAscii, __PHYSFS_hashString.
  generalize 5381%Z. induction s as [|c s IH]; intros h; [reflexivity|].
  cbn [fold_left map]. apply IH.
Qed.

Lemma first_match_ext (m m' : nat -> bool) (l : list nat) :
  (forall p, p ∈ l -> m p = m' p) -> first_match m l = first_match m' l.
Proof.
  induction l as [|q l IH]; intros Hext; [reflexivity|]. cbn [first_match].
  rewrite (Hext q) by left. rewrite IH; [reflexivity|].
  intros p Hp. apply Hext. right. exact Hp.
Qed.

Section Case.
Context `{Platform}.
Hypothesis Hcmp : stricmp_ok.

Lemma reachable_shape cs ua dt :
  rtc tree_step (__PHYSFS_DirTreeInit cs ua) dt ->
  case_sensitive dt = cs /\ only_usascii dt = ua.
Proof.
  intros Hreach.
  destruct (tree_steps_grow Hcmp _ _ Hreach _ (tree_repr_init cs ua))
    as (ch & k & _ & (_ & Hc & Hu & _) & _).
  split; [exact Hc|exact Hu].
Qed.

(** X23.  What a search takes for the same name.  In a case-sensitive
    tree the entry found for a path bears exactly that path as its
    name.  In a tree that folds US-ASCII only, two paths that differ in
    the case of US-ASCII letters alone, and that [PHYSFS_utf8stricmp]
    takes for equal, hash to the same bucket and get the same answer
    from [__PHYSFS_DirTreeFind]: the same entry, or NOT_FOUND for
    both. *)
Theorem DirTreeFind_case (cs ua : bool) (dt : __PHYSFS_DirTree) :
  rtc tree_step (__PHYSFS_DirTreeInit cs ua) dt ->
  (cs = true -> forall path dt' p e,
     path <> [] -> __PHYSFS_DirTreeFind dt path = Some (dt', Ok p) ->
     entries dt' !! p = Some e -> name (tree e) = path) /\
  (cs = false -> ua = true -> forall path path' dt1 r,
     map fold_usascii path' = map fold_usascii path ->
     PHYSFS_utf8stricmp path path' = 0%Z ->
     __PHYSFS_DirTreeFind dt path = Some (dt1, r) ->
     hashPathName dt path' = hashPathName dt path /\
     exists dt2, __PHYSFS_DirTreeFind dt path' = Some (dt2, r)).
Proof.
  intros Hreach. destruct (reachable_shape _ _ _ Hreach) as [Hcs Hua].
  destruct (reachable_tree Hcmp _ _ _ Hreach) as ([ch Hrepr] & _ & _).
  split.
  - intros -> path dt' p e Hne Hfind He.
    pose proof (DirTreeFind_lookup dt ch _ _ _ Hrepr Hfind) as Hlk.
    destruct path as [|c path]; [congruence|]. cbn [tree_lookup] in Hlk.
    apply first_match_Some in Hlk as [_ Hm]. unfold entry_matches in Hm.
    destruct (ename (entries dt) p) as [n|] eqn:Hn; [|discriminate].
    unfold name_matches in Hm. rewrite Hcs in Hm. apply Z.eqb_eq, strcmp_eq in Hm.
    pose proof (DirTreeFind_kin _ _ _ _ Hfind) as (_ & _ & Hkin).
    specialize (Hkin p). unfold kin in Hkin. rewrite He in Hkin. cbn in Hkin.
    unfold ename in Hn. destruct (entries dt !! p) as [e0|]; [|discriminate].
    cbn in Hkin, Hn. congruence.
  - intros -> -> path path' dt1 r Hfold Heq Hfind.
    assert (Hhash : hashPathName dt path' = hashPathName dt path).
    { unfold hashPathName. rewrite Hcs, Hua.
      rewrite !hashStringCaseFoldUSAscii_fold, Hfold. reflexivity. }
    split; [exact Hhash|].
    destruct (DirTreeFind_spec dt ch path Hrepr) as (dtA & chA & HfA & _ & _).
    destruct (DirTreeFind_spec dt ch path' Hrepr) as (dtB & chB & HfB & _ & _).
    rewrite HfA in Hfind. injection Hfind as _ <-.
    exists dtB. rewrite HfB. do 3 f_equal.
    assert (Hlen : length path' = length path).
    { apply (f_equal (@length ascii)) in Hfold. rewrite !length_map in Hfold. exact Hfold. }
    destruct path as [|c path], path' as [|c' path']; try discriminate; [reflexivity|].
    cbn [tree_lookup]. rewrite Hhash. apply first_match_ext.
    intros p _. unfold entry_matches. destruct (ename (entries dt) p) as [n|]; [|reflexivity].
    unfold name_matches. rewrite Hcs.
    destruct (Z.eqb_spec (PHYSFS_utf8stricmp n (c :: path)) 0) as [H1|H1];
      destruct (Z.eqb_spec (PHYSFS_utf8stricmp n (c' :: path')) 0) as [H2|H2];
      try reflexivity; exfalso.
    + apply H2. apply (stricmp_trans Hcmp n _ _ H1). exact Heq.
    + apply H1. apply (stricmp_trans Hcmp n _ _ H2). apply (stricmp_sym Hcmp). exact Heq.
Qed.

End Case.

Lemma DirTreeFind_case_witness :
  @hashPathName usascii_platform example_tree (cstr "MAPS/E1.map") =
    @hashPathName usascii_platform example_tree (cstr "maps/e1.map") /\
  exists dt2,
    @__PHYSFS_DirTreeFind usascii_platform example_tree (cstr "MAPS/E1.map") =
      Some (dt2, Ok 2).
Proof.
  apply (proj2 (@DirTreeFind_case usascii_platform usascii_stricmp_ok false true example_tree
                  example_tree_reachable) eq_refl eq_refl
               (cstr "maps/e1.map") (cstr "MAPS/E1.map") example_tree (Ok 2)).
  - vm_compute. reflexivity.
  - vm_compute. reflexivity.
  - vm_compute. reflexivity.
Defined.

(** ** The list of [PHYSFS_enumerateFiles]: sorted, without duplicates *)

(** *** [strcmp] is a strict order *)

Definition slt (a b : list ascii) : Prop := (strcmp a b < 0)%Z.

Lemma N_of_ascii_inj (x y : ascii) : N_of_ascii x = N_of_ascii y -> x = y.
Proof.
  intros Heq. rewrite <- (ascii_N_embedding x), <- (ascii_N_embedding y), Heq. reflexivity.
Qed.

Lemma strcmp_antisym (a b : list ascii) : strcmp b a = (- strcmp a b)%Z.
Proof.
  revert b. induction a as [|x a IH]; intros [|y b]; cbn [strcmp]; try reflexivity.
  destruct (Ascii.eqb_spec x y) as [->|Hne].
  - rewrite Ascii.eqb_refl. apply IH.
  - destruct (Ascii.eqb_spec y x) as [->|_]; [congruence|].
    assert (N_of_ascii x <> N_of_ascii y) by (intros Heq; apply Hne, N_of_ascii_inj, Heq).
    destruct (N.ltb_spec (N_of_ascii x) (N_of_ascii y)), (N.ltb_spec (N_of_ascii y) (N_of_ascii x));
      try reflexivity; lia.
Qed.

Lemma slt_trans (a b c : list ascii) : slt a b -> slt b c -> slt a c.
Proof.
  unfold slt. revert b c. induction a as [|x a IH]; intros [|y b] [|z c]; cbn [strcmp];
    try lia.
  destruct (Ascii.eqb_spec x y) as [->|Hxy].
  - destruct (Ascii.eqb_spec y z) as [->|Hyz]; [apply IH|]. intros _ Hlt. exact Hlt.
  - destruct (N.ltb_spec (N_of_ascii x) (N_of_ascii y)) as [Hlt|Hge]; [|lia]. intros _.
    destruct (Ascii.eqb_spec y z) as [->|Hyz].
    + intros _. destruct (Ascii.eqb_spec x z); [congruence|].
      destruct (N.ltb_spec (N_of_ascii x) (N_of_ascii z)); lia.
    + destruct (N.ltb_spec (N_of_ascii y) (N_of_ascii z)) as [Hlt2|Hge2]; [|lia]. intros _.
      destruct (Ascii.eqb_spec x z) as [->|_]; [lia|].
      destruct (N.ltb_spec (N_of_ascii x) (N_of_ascii z)); lia.
Qed.

Lemma slt_irrefl (a : list ascii) : ~ slt a a.
Proof. unfold slt. rewrite strcmp_refl. lia. Qed.

(** *** Sorted lists *)

Fixpoint sorted (l : list (list ascii)) : Prop :=
  match l with
  | [] => True
  | x :: rest => Forall (slt x) rest /\ sorted rest
  end.

Lemma sorted_app (l1 l2 : list (list ascii)) :
  sorted (l1 ++ l2) <->
  sorted l1 /\ sorted l2 /\ forall x y, x ∈ l1 -> y ∈ l2 -> slt x y.
Proof.
  induction l1 as [|a l1 IH]; cbn [app sorted].
  - split; [intros Hs; split; [exact I|split; [exact Hs|intros x y Hx; inversion Hx]]|tauto].
  - rewrite IH, Forall_app. split.
    + intros ([H1 H2] & Hs1 & Hs2 & Hx). split; [split; assumption|]. split; [exact Hs2|].
      intros x y Hin Hy. apply elem_of_cons in Hin as [->|Hin]; [|apply Hx; assumption].
      rewrite Forall_forall in H2. apply H2, Hy.
    + intros ([H1 Hs1] & Hs2 & Hx). split; [split; [exact H1|]|].
      * rewrite Forall_forall. intros y Hy. apply Hx; [left|exact Hy].
      * split; [exact Hs1|]. split; [exact Hs2|]. intros x y Hin. apply Hx. right. exact Hin.
Qed.

Lemma sorted_lookup (l : list (list ascii)) (i : nat) (s : list ascii) :
  sorted l -> l !! i = Some s ->
  Forall (fun x => slt x s) (take i l) /\ Forall (slt s) (drop (Datatypes.S i) l).
Proof.
  intros Hs Hi. rewrite <- (take_drop_middle l i s Hi) in Hs.
  apply sorted_app in Hs as (_ & Hs2 & Hx). cbn [sorted] in Hs2. destruct Hs2 as [Hlater _].
  split; [|exact Hlater].
  rewrite Forall_forall. intros x Hin. apply Hx; [exact Hin|left].
Qed.

(** *** The binary search *)

Lemma locateInStringList_loop_step (str : list ascii) (strings : list (list ascii))
    (lo len : Z) :
  locateInStringList_loop str strings lo len =
  if (0 <? len)%Z then
    match strings !! Z.to_nat (u32 (lo + Z.shiftr len 1)) with
    | None => None
    | Some s =>
        if (strcmp s str =? 0)%Z then Some None
        else if (0 <? strcmp s str)%Z
             then locateInStringList_loop str strings lo (Z.shiftr len 1)
             else locateInStringList_loop str strings (u32 (u32 (lo + Z.shiftr len 1) + 1))
                                          (u32 (len - u32 (Z.shiftr len 1 + 1)))
    end
  else Some (Some lo).
Proof.
  funelim (locateInStringList_loop str strings lo len); rewrite e; reflexivity.
Qed.

Lemma locateInStringList_loop_spec (str : list ascii) (strings : list (list ascii)) :
  sorted strings -> (Z.of_nat (length strings) < 2 ^ 32)%Z ->
  forall k lo len, len <= k -> lo + len <= length strings ->
  Forall (fun x => slt x str) (take lo strings) ->
  Forall (slt str) (drop (lo + len) strings) ->
  (locateInStringList_loop str strings (Z.of_nat lo) (Z.of_nat len) = Some None /\
   str ∈ strings) \/
  (exists pos, locateInStringList_loop str strings (Z.of_nat lo) (Z.of_nat len)
                 = Some (Some (Z.of_nat pos)) /\
     Forall (fun x => slt x str) (take pos strings) /\ Forall (slt str) (drop pos strings)).
Proof.
  intros Hsorted Hsmall. induction k as [|k IH]; intros lo len Hk Hfit Hlow Hhigh;
    rewrite locateInStringList_loop_step.
  - assert (len = 0) as -> by lia. cbn [Z.of_nat Z.ltb Z.compare].
    right. exists lo. split; [reflexivity|]. rewrite Nat.add_0_r in Hhigh. split; assumption.
  - destruct (Z.ltb_spec 0 (Z.of_nat len)) as [Hpos|Hzero].
    2:{ assert (len = 0) as -> by lia. right. exists lo. split; [reflexivity|].
        rewrite Nat.add_0_r in Hhigh. split; assumption. }
    rewrite Z.shiftr_div_pow2 by lia. change (2 ^ 1)%Z with 2%Z.
    assert (Hhalf : (Z.of_nat len / 2 = Z.of_nat (len / 2))%Z)
      by (rewrite Nat2Z.inj_div; reflexivity).
    assert (Hhl : len / 2 < len) by (apply Nat.div_lt; lia).
    rewrite Hhalf. set (half := len / 2) in *.
    rewrite (u32_small (Z.of_nat lo + Z.of_nat half)) by lia.
    replace (Z.to_nat (Z.of_nat lo + Z.of_nat half)) with (lo + half) by lia.
    destruct (lookup_lt_is_Some_2 strings (lo + half) ltac:(lia)) as [s Hs]. rewrite Hs.
    destruct (sorted_lookup strings (lo + half) s Hsorted Hs) as [Hbefore Hafter].
    destruct (Z.eqb_spec (strcmp s str) 0) as [Heq|Hne].
    { left. split; [reflexivity|]. apply strcmp_eq in Heq. subst s.
      eapply list_elem_of_lookup_2, Hs. }
    destruct (Z.ltb_spec 0 (strcmp s str)) as [Hgt|Hle].
    + apply (IH lo half); [lia|lia|exact Hlow|].
      rewrite (drop_S strings s (lo + half) Hs). constructor.
      * unfold slt. rewrite strcmp_antisym. lia.
      * eapply Forall_impl; [exact Hafter|]. intros x Hx. apply (slt_trans str s x); [|exact Hx].
        unfold slt. rewrite strcmp_antisym. lia.
    + rewrite (u32_small (Z.of_nat half + 1)) by lia.
      rewrite (u32_small (Z.of_nat lo + Z.of_nat half + 1)) by lia.
      rewrite (u32_small (Z.of_nat len - (Z.of_nat half + 1))) by lia.
      replace (Z.of_nat lo + Z.of_nat half + 1)%Z with (Z.of_nat (lo + half + 1)) by lia.
      replace (Z.of_nat len - (Z.of_nat half + 1))%Z with (Z.of_nat (len - half - 1)) by lia.
      apply (IH (lo + half + 1) (len - half - 1)); [lia|lia| |].
      * replace (lo + half + 1) with (Datatypes.S (lo + half)) by lia.
        rewrite (take_S_r strings (lo + half) s Hs). apply Forall_app. split.
        -- eapply Forall_impl; [exact Hbefore|]. intros x Hx. apply (slt_trans x s str Hx).
           unfold slt. lia.
        -- constructor; [unfold slt; lia|constructor].
      * replace (lo + half + 1 + (len - half - 1)) with (lo + len) by lia. exact Hhigh.
Qed.

(** X24.  [enumFilesCallback] keeps the list of [PHYSFS_enumerateFiles]
    in the order of [strcmp] and free of duplicates.  On a list that is
    sorted strictly and shorter than 2^32 - 1 it returns
    [PHYSFS_ENUM_OK]; a string that is in the list leaves it as it is,
    and one that is not is put in, so that the list is sorted strictly
    again and holds the string and what it held before, and nothing
    else. *)
Theorem enumFilesCallback_sorted (strings : list (list ascii)) (str : list ascii) :
  sorted strings -> (Z.of_nat (length strings) < 2 ^ 32 - 1)%Z ->
  exists strings',
    enumFilesCallback strings str = Some (strings', PHYSFS_ENUM_OK) /\
    sorted strings' /\
    (forall x, x ∈ strings' <-> x = str \/ x ∈ strings) /\
    (str ∈ strings -> strings' = strings) /\
    (str ∉ strings -> length strings' = Datatypes.S (length strings)).
Proof.
  intros Hsorted Hsmall. unfold enumFilesCallback, locateInStringList.
  rewrite u32_small by lia.
  destruct (locateInStringList_loop_spec str strings Hsorted ltac:(lia)
              (length strings) 0 (length strings) (le_n _) (le_n _))
    as [[Hrun Hin]|(pos & Hrun & Hlow & Hhigh)].
  - constructor.
  - cbn [Nat.add]. rewrite drop_all. constructor.
  - change (Z.of_nat 0) with 0%Z in Hrun. rewrite Hrun. cbn [mbind option_bind].
    exists strings. split; [reflexivity|]. split; [exact Hsorted|]. split; [|split].
    + intros x. split; [right; assumption|]. intros [->|Hx]; assumption.
    + reflexivity.
    + intros Hnot. contradiction.
  - change (Z.of_nat 0) with 0%Z in Hrun. rewrite Hrun. cbn [mbind option_bind].
    rewrite Nat2Z.id. eexists. split; [reflexivity|].
    assert (Hnot : str ∉ strings).
    { intros Hin. rewrite <- (take_drop pos strings) in Hin.
      apply elem_of_app in Hin as [Hin|Hin].
      - rewrite Forall_forall in Hlow. apply (slt_irrefl str), Hlow, Hin.
      - rewrite Forall_forall in Hhigh. apply (slt_irrefl str), Hhigh, Hin. }
    pose proof Hsorted as Hs2. rewrite <- (take_drop pos strings) in Hs2.
    apply sorted_app in Hs2 as (Hs1 & Hs3 & Hx).
    split; [|split; [|split]].
    + apply sorted_app. split; [exact Hs1|]. split; [cbn [sorted]; split; assumption|].
      intros x y Hxin Hy. apply elem_of_cons in Hy as [->|Hy]; [|apply Hx; assumption].
      rewrite Forall_forall in Hlow. apply Hlow, Hxin.
    + intros x. rewrite elem_of_app, elem_of_cons.
      assert (Hsplit : x ∈ strings <-> x ∈ take pos strings \/ x ∈ drop pos strings)
        by (rewrite <- elem_of_app, take_drop; reflexivity).
      rewrite Hsplit. tauto.
    + intros Hin. contradiction.
    + intros _. rewrite length_app. cbn [length].
      rewrite <- (take_drop pos strings) at 3. rewrite length_app. lia.
Qed.

Lemma enumFilesCallback_sorted_witness :
  exists strings',
    enumFilesCallback [cstr "a.txt"; cstr "c.txt"] (cstr "b.txt") =
      Some (strings', PHYSFS_ENUM_OK) /\
    sorted strings' /\
    (forall x, x ∈ strings' <-> x = cstr "b.txt" \/ x ∈ [cstr "a.txt"; cstr "c.txt"]).
Proof.
  destruct (enumFilesCallback_sorted [cstr "a.txt"; cstr "c.txt"] (cstr "b.txt"))
    as (l & Hrun & Hs & Hin & _).
  - cbn [sorted]. repeat split; repeat constructor.
  - vm_compute. reflexivity.
  - exists l. split; [exact Hrun|]. split; [exact Hs|exact Hin].
Defined.

(** ** Changing the buffer of a read handle *)

Section SetBuffer.
Context {S : Type} `{PHYSFS_Io S}.
Variable file : list byte.
Variable pos : S -> nat.
Variable stream_ok : S -> Prop.
Hypothesis Hfs : file_stream file pos stream_ok.

(** The stream of a read handle after [PHYSFS_setBuffer] has moved it
    to where the handle reads. *)
Lemma setBuffer_stream (fh : FileHandle S) :
  window_ok file pos stream_ok fh ->
  exists io2,
    (if forReading fh && negb (buffill fh =? bufpos fh) then
       if (io_tell (fh_io fh) =? -1)%Z then (fh_io fh, Failed)
       else io_seek (fh_io fh)
                    (u64 ((io_tell (fh_io fh) - Z.of_nat (buffill fh)) +
                          Z.of_nat (bufpos fh)))
     else (fh_io fh, Ok tt)) = (io2, Ok tt) /\
    stream_ok io2 /\ pos io2 = logical_pos pos fh.
Proof.
  intros Hw. pose proof (logical_pos_le file pos stream_ok Hfs fh Hw) as Hle.
  destruct Hw as ((Hs & Hr & Hbp & Hf & Hb) & Hfill & Hwin).
  pose proof (fs_small _ _ _ Hfs) as Hsmall. pose proof (fs_bound _ _ _ Hfs _ Hs) as Hbound.
  unfold logical_pos in *. rewrite Hr. cbn [andb].
  destruct (Nat.eqb_spec (buffill fh) (bufpos fh)) as [Heq|Hne]; cbn [negb].
  - exists (fh_io fh). split; [reflexivity|]. split; [exact Hs|lia].
  - rewrite (fs_tell _ _ _ Hfs _ Hs).
    destruct (Z.eqb_spec (Z.of_nat (pos (fh_io fh))) (-1)); [lia|].
    rewrite u64_small by lia.
    destruct (fs_seek _ _ _ Hfs (fh_io fh)
                (Z.of_nat (pos (fh_io fh)) - Z.of_nat (buffill fh) + Z.of_nat (bufpos fh))
                Hs ltac:(lia)) as (io2 & Hseek & Hs2 & Hp2).
    exists io2. split; [exact Hseek|]. split; [exact Hs2|]. rewrite Hp2. lia.
Qed.

(** X25.  [PHYSFS_setBuffer] on a read handle over a file keeps the
    place the handle reads at.  When the buffer is dropped (size 0) or
    the allocation succeeds, the call succeeds with an empty buffer of
    the new size, after a seek of the stream back over what was
    buffered and not yet read; [PHYSFS_tell] reports what it reported
    before, and the handle has the same bytes to deliver. *)
Theorem PHYSFS_setBuffer_keeps_position (fh : FileHandle S) (size : nat)
    (newbuf : option (list byte)) :
  window_ok file pos stream_ok fh -> (size = 0 \/ is_Some newbuf) ->
  exists fh',
    PHYSFS_setBuffer fh size newbuf = (fh', Ok tt) /\
    window_ok file pos stream_ok fh' /\
    bufsize fh' = size /\ buffill fh' = 0 /\ bufpos fh' = 0 /\
    (buffer fh' = if size =? 0 then None else newbuf) /\
    PHYSFS_tell fh' = PHYSFS_tell fh /\
    pending (rest_of_file file pos) fh' = pending (rest_of_file file pos) fh.
Proof.
  intros Hw Hnew. destruct (setBuffer_stream fh Hw) as (io2 & Hio & Hs2 & Hp2).
  pose proof Hw as ((Hs & Hr & Hbp & Hf & Hb) & Hfill & Hwin).
  unfold PHYSFS_setBuffer, PHYSFS_flush. rewrite Hr. cbn [orb]. rewrite Hio.
  assert (Hgoal : forall b, (is_Some b -> 0 < size) ->
            let fh' := mkFileHandle io2 (forReading fh) (dirHandle fh) b size 0 0 in
            window_ok file pos stream_ok fh' /\
            PHYSFS_tell fh' = PHYSFS_tell fh /\
            pending (rest_of_file file pos) fh' = pending (rest_of_file file pos) fh).
  { intros b Hb' fh'.
    assert (Hw' : window_ok file pos stream_ok fh').
    { split; [|split; [cbn; lia|reflexivity]].
      split; [exact Hs2|]. split; [exact Hr|]. cbn. repeat split; try lia. exact Hb'. }
    split; [exact Hw'|].
    assert (Hlp : logical_pos pos fh' = logical_pos pos fh).
    { unfold logical_pos at 1. cbn [fh_io buffill bufpos fh']. rewrite Hp2. lia. }
    split.
    - rewrite (PHYSFS_tell_logical file pos stream_ok Hfs fh' Hw'),
              (PHYSFS_tell_logical file pos stream_ok Hfs fh Hw), Hlp. reflexivity.
    - rewrite (window_pending file pos stream_ok Hfs fh' Hw'),
              (window_pending file pos stream_ok Hfs fh Hw), Hlp. reflexivity. }
  destruct (Nat.eqb_spec size 0) as [->|Hsz].
  - destruct (Hgoal None) as (Hw' & Ht & Hpd); [intros [x Hx]; discriminate|].
    eexists. split; [reflexivity|]. split; [exact Hw'|].
    split; [reflexivity|]. split; [reflexivity|]. split; [reflexivity|].
    split; [reflexivity|]. split; [exact Ht|exact Hpd].
  - destruct Hnew as [Hz|[b ->]]; [contradiction|].
    destruct (Hgoal (Some b)) as (Hw' & Ht & Hpd); [intros _; lia|].
    eexists. split; [reflexivity|]. split; [exact Hw'|].
    split; [reflexivity|]. split; [reflexivity|]. split; [reflexivity|].
    split; [reflexivity|]. split; [exact Ht|exact Hpd].
Qed.

Lemma s64_signed (z : Z) : (- 2 ^ 63 <= z < 2 ^ 63)%Z -> s64 z = z.
Proof.
  intros Hz. destruct (Z.lt_ge_cases z 0) as [Hneg|Hpos]; [|apply s64_small; lia].
  unfold s64, u64. rewrite <- (Z_mod_plus_full z 1 (2 ^ 64)).
  rewrite Z.mod_small by lia.
  destruct (Z.ltb_spec (z + 1 * 2 ^ 64) (2 ^ 63)); lia.
Qed.

(** X26.  [PHYSFS_setBuffer] on a read handle moves the stream before
    it asks for the new buffer.  When that allocation fails the call
    fails with OUT_OF_MEMORY and keeps the old buffer with its fill and
    position, over a stream that was moved back already: [PHYSFS_tell]
    is then too small by the number of bytes that were buffered and not
    yet read. *)
Theorem PHYSFS_setBuffer_out_of_memory (fh : FileHandle S) (size : nat) :
  window_ok file pos stream_ok fh -> size <> 0 ->
  exists fh',
    PHYSFS_setBuffer fh size None = (fh', Bail PHYSFS_ERR_OUT_OF_MEMORY) /\
    buffer fh' = buffer fh /\ buffill fh' = buffill fh /\ bufpos fh' = bufpos fh /\
    PHYSFS_tell fh' = (PHYSFS_tell fh - Z.of_nat (buffill fh - bufpos fh))%Z.
Proof.
  intros Hw Hsz. destruct (setBuffer_stream fh Hw) as (io2 & Hio & Hs2 & Hp2).
  pose proof (PHYSFS_tell_logical file pos stream_ok Hfs fh Hw) as Htell.
  pose proof (logical_pos_le file pos stream_ok Hfs fh Hw) as Hle.
  pose proof Hw as ((Hs & Hr & Hbp & Hf & Hb) & Hfill & Hwin).
  pose proof (fs_small _ _ _ Hfs) as Hsmall.
  unfold PHYSFS_setBuffer, PHYSFS_flush. rewrite Hr. cbn [orb]. rewrite Hio.
  destruct (Nat.eqb_spec size 0) as [Hz|_]; [contradiction|].
  eexists. split; [reflexivity|]. cbn [buffer buffill bufpos].
  split; [reflexivity|]. split; [reflexivity|]. split; [reflexivity|].
  rewrite Htell. unfold PHYSFS_tell. cbn [fh_io forReading buffill bufpos]. rewrite Hr.
  rewrite (fs_tell _ _ _ Hfs _ Hs2), Hp2. unfold logical_pos in *.
  pose proof (fs_bound _ _ _ Hfs _ Hs) as Hbound.
  rewrite s64_signed by lia. lia.
Qed.

End SetBuffer.

Lemma PHYSFS_setBuffer_keeps_position_witness :
  let file := list_byte_of_string "hello, world" in
  let fh := mkFileHandle (mkMemoryIoInfo file 8) true 0
                         (Some (list_byte_of_string "o, w")) 4 4 1 in
  exists fh',
    PHYSFS_setBuffer fh 8 (Some (replicate 8 x00)) = (fh', Ok tt) /\
    PHYSFS_tell fh' = 5%Z /\ PHYSFS_tell fh = 5%Z.
Proof.
  intros file fh.
  destruct (@PHYSFS_setBuffer_keeps_position MemoryIoInfo _ file _ _
              (memoryIo_file_stream file ltac:(vm_compute; reflexivity)) fh 8
              (Some (replicate 8 x00)))
    as (fh' & Hset & _ & _ & _ & _ & _ & Ht & _).
  - split; [|split; [cbn; lia|reflexivity]].
    split; [split; [reflexivity|vm_compute; split; discriminate]|].
    cbn. repeat split; try lia.
  - right. eexists. reflexivity.
  - exists fh'. split; [exact Hset|]. split; [rewrite Ht|]; reflexivity.
Defined.

Lemma PHYSFS_setBuffer_out_of_memory_witness :
  let file := list_byte_of_string "hello, world" in
  let fh := mkFileHandle (mkMemoryIoInfo file 8) true 0
                         (Some (list_byte_of_string "o, w")) 4 4 1 in
  exists fh',
    PHYSFS_setBuffer fh 8 None = (fh', Bail PHYSFS_ERR_OUT_OF_MEMORY) /\
    PHYSFS_tell fh = 5%Z /\ PHYSFS_tell fh' = 2%Z.
Proof.
  intros file fh.
  destruct (@PHYSFS_setBuffer_out_of_memory MemoryIoInfo _ file _ _
              (memoryIo_file_stream file ltac:(vm_compute; reflexivity)) fh 8)
    as (fh' & Hset & _ & _ & _ & Ht).
  - split; [|split; [cbn; lia|reflexivity]].
    split; [split; [reflexivity|vm_compute; split; discriminate]|].
    cbn. repeat split; try lia.
  - discriminate.
  - exists fh'. split; [exact Hset|]. split; [reflexivity|rewrite Ht; reflexivity].
Defined.

(** ** Every entry of a flat archive can be read *)

(** What an entry is for the archive: whether it is a directory, and
    where its bytes are. *)
Definition payload (e : UNPKentry) : bool * Z * Z :=
  (isdir (tree e), startPos e, entry_size e).

Lemma payload_sans (e e' : UNPKentry) : sans_hash e' = sans_hash e -> payload e' = payload e.
Proof.
  unfold sans_hash, with_tree, payload. intros [= _ _ _ Hd Hp Hs _ _]. congruence.
Qed.

Section FlatArchive.
Context `{Platform}.
Hypothesis Hcmp : stricmp_ok.

(** The addition of a name without ['/'] that is not in the tree: one
    search, then the new entry under the root. *)
Lemma DirTreeAdd_flat dt ch nm d dt1 r :
  tree_repr dt ch -> chop_last_slash nm = None -> tree_lookup dt ch nm = None ->
  __PHYSFS_DirTreeAdd dt nm d = Some (dt1, r) ->
  exists dtA chA pe,
    __PHYSFS_DirTreeFind dt nm = Some (dtA, Bail PHYSFS_ERR_NOT_FOUND) /\
    tree_repr dtA chA /\ same_index dt ch dtA chA /\
    entries dtA !! root dtA = Some pe /\
    dt1 = push dtA (root dtA) pe nm d /\ r = Ok (length (entries dtA)).
Proof.
  intros Hrepr Hchop Hlk. unfold __PHYSFS_DirTreeAdd. cbn [DirTreeAdd_rec].
  destruct (DirTreeFind_spec dt ch nm Hrepr) as (dtA & chA & Hfind & HreprA & HsameA).
  rewrite Hfind, Hlk. cbn [find_result mbind option_bind].
  unfold addAncestors. rewrite Hchop. cbn [mbind option_bind].
  destruct (lookup_lt_is_Some_2 _ _ (repr_root _ _ HreprA)) as [pe Hpe].
  rewrite Hpe. cbn [mbind option_bind]. intros [= <- <-].
  exists dtA, chA, pe.
  split; [reflexivity|]. split; [exact HreprA|]. split; [exact HsameA|].
  split; [exact Hpe|]. split; reflexivity.
Qed.

Lemma push_lookup_old dt parent pe nm d p e :
  entries dt !! parent = Some pe -> entries dt !! p = Some e ->
  exists e', entries (push dt parent pe nm d) !! p = Some e' /\ payload e' = payload e /\
             name (tree e') = name (tree e).
Proof.
  intros Hpe He. pose proof (lookup_lt_Some _ _ _ He) as Hlt.
  unfold push, set_children. cbn [entries].
  rewrite (lookup_app_l _ [_] parent) by (eapply lookup_lt_Some, Hpe). rewrite Hpe.
  destruct (decide (p = parent)) as [->|Hne].
  - rewrite list_lookup_insert_eq by (rewrite length_app; cbn; lia).
    eexists. split; [reflexivity|]. rewrite Hpe in He. injection He as <-. split; reflexivity.
  - rewrite list_lookup_insert_ne by congruence. rewrite lookup_app_l by exact Hlt.
    exists e. split; [exact He|split; reflexivity].
Qed.

(** The state of a flat archive under construction: every hashed entry
    bears one of the names added so far, and every record added so far
    is found under its name, as a regular file with its offset and
    size. *)
Definition flat_inv (dt : __PHYSFS_DirTree) (added : list (list ascii))
    (done : list (list ascii * Z * Z)) : Prop :=
  exists ch, tree_repr dt ch /\
    (forall b x, x ∈ ch b -> exists n, n ∈ added /\ ename (entries dt) x = Some n) /\
    (forall nm pos size, (nm, pos, size) ∈ done ->
       exists p e, tree_lookup dt ch nm = Some p /\ entries dt !! p = Some e /\
                   payload e = (false, pos, size)).

Lemma flat_inv_step {S : Type} (arc arc1 : UNPKinfo S) added done nm pos size r :
  flat_inv (info_tree arc) added done -> case_sensitive (info_tree arc) = false ->
  nm <> [] -> chop_last_slash nm = None ->
  (forall n, n ∈ added -> PHYSFS_utf8stricmp n nm <> 0%Z) ->
  UNPK_addEntry arc nm false (-1) (-1) pos size = Some (arc1, r) ->
  (exists e, r = Ok e) /\ info_io arc1 = info_io arc /\
  case_sensitive (info_tree arc1) = false /\
  flat_inv (info_tree arc1) (nm :: added) ((nm, pos, size) :: done).
Proof.
  intros (ch & Hrepr & Hnames & Hdone) Hcs Hne Hflat Hdistinct Hadd.
  set (dt := info_tree arc) in *.
  assert (Hlk : tree_lookup dt ch nm = None).
  { destruct (tree_lookup dt ch nm) as [p|] eqn:Hlk; [|reflexivity]. exfalso.
    destruct nm as [|c nm']; [congruence|]. cbn [tree_lookup] in Hlk.
    apply first_match_Some in Hlk as [Hin Hm].
    destruct (Hnames _ _ Hin) as (n & Hn & Hen).
    unfold entry_matches in Hm. rewrite Hen in Hm. unfold name_matches in Hm.
    rewrite Hcs in Hm. apply Z.eqb_eq in Hm. exact (Hdistinct n Hn Hm). }
  unfold UNPK_addEntry in Hadd. fold dt in Hadd.
  destruct (__PHYSFS_DirTreeAdd dt nm false) as [[dt1 r1]|] eqn:Ha; [|discriminate].
  cbn [mbind option_bind] in Hadd.
  destruct (DirTreeAdd_flat dt ch nm false dt1 r1 Hrepr Hflat Hlk Ha)
    as (dtA & chA & pe & Hfind & HreprA & HsameA & Hpe & -> & ->).
  set (n0 := length (entries dtA)) in *.
  set (dtP := push dtA (root dtA) pe nm false) in *.
  assert (HlkA : tree_lookup dtA chA nm = None)
    by (rewrite (tree_lookup_same_index Hcmp dt ch dtA chA nm Hrepr HsameA); exact Hlk).
  assert (Hfresh : forall x, x ∈ chA (hashPathName dtA nm) -> entry_matches dtA nm x = false).
  { destruct nm as [|c nm']; [congruence|]. cbn [tree_lookup] in HlkA.
    rewrite first_match_None in HlkA. exact HlkA. }
  set (chP := fun b' => if decide (b' = hashPathName dtA nm) then n0 :: chA b' else chA b').
  pose proof (push_repr Hcmp dtA chA (root dtA) pe nm false HreprA Hne Hfresh) as HreprP.
  pose proof (push_grows dtA chA (root dtA) pe nm false HreprA) as HgP.
  fold n0 chP dtP in HreprP, HgP.
  assert (HenP : forall x, ename (entries dtP) x =
                           if decide (x = n0) then Some nm else ename (entries dtA) x).
  { intros x. unfold dtP, push. cbn [entries]. rewrite ename_set_children, ename_snoc.
    reflexivity. }
  assert (Hn0 : exists e0, entries dtP !! n0 = Some e0).
  { apply lookup_lt_is_Some_2. unfold dtP. rewrite length_push. fold n0. lia. }
  destruct Hn0 as [e0 He0]. rewrite He0 in Hadd. cbn [mbind option_bind] in Hadd.
  injection Hadd as <- <-. cbn [info_io info_tree].
  set (e1 := mkUNPKentry (tree e0) pos size (-1) (-1)).
  change (mkUNPKentry (tree e0) (if false then 0%Z else pos) (if false then 0%Z else size)
                      (-1) (-1)) with e1.
  destruct (fields_repr dtP chP n0 e0 e1 HreprP He0 eq_refl) as [HreprF HsameF].
  set (dtF := mkDirTree (<[n0 := e1]> (entries dtP)) (root dtP) (hash dtP) (hashBuckets dtP)
                        (case_sensitive dtP) (only_usascii dtP)) in *.
  split; [eexists; reflexivity|]. split; [reflexivity|].
  assert (HshapeA : same_shape dt dtA) by apply HsameA.
  split.
  { cbn [case_sensitive dtF dtP push]. destruct HshapeA as (_ & -> & _). exact Hcs. }
  change (flat_inv dtF (nm :: added) ((nm, pos, size) :: done)).
  exists chP. split; [exact HreprF|]. split.
  - intros b x Hx. destruct HsameF as (_ & _ & HenF & _). rewrite HenF, HenP.
    destruct (decide (x = n0)) as [->|Hxn]; [exists nm; split; [left|reflexivity]|].
    assert (HxA : x ∈ chA b).
    { unfold chP in Hx. destruct (decide (b = hashPathName dtA nm)); [|exact Hx].
      apply elem_of_cons in Hx as [->|Hx]; [congruence|exact Hx]. }
    destruct HsameA as (_ & _ & HenA & Hperm). rewrite HenA.
    rewrite (Hperm b) in HxA. destruct (Hnames b x HxA) as (n & Hn & Hen).
    exists n. split; [right; exact Hn|exact Hen].
  - intros nm' pos' size' Hin. apply elem_of_cons in Hin as [[= -> -> ->]|Hin].
    + exists n0, e1. split; [|split; [apply list_lookup_insert_eq; eapply lookup_lt_Some, He0|]].
      * rewrite (tree_lookup_same_index Hcmp dtP chP dtF chP nm HreprP HsameF).
        destruct nm as [|c nm']; [congruence|]. cbn [tree_lookup].
        change (hashPathName dtP (c :: nm')) with (hashPathName dtA (c :: nm')).
        unfold chP. destruct (decide (_ = _)); [|congruence]. cbn [first_match].
        unfold entry_matches. rewrite HenP. destruct (decide (n0 = n0)); [|congruence].
        rewrite (name_matches_refl Hcmp). reflexivity.
      * unfold payload, e1. cbn. f_equal. f_equal.
        assert (Hk : kin (entries dtP) n0 = Some (nm, None, children (tree pe), false)).
        { unfold dtP. rewrite (kin_push_eq _ _ _ _ _ _ Hpe). fold n0.
          destruct (decide (n0 = n0)); [reflexivity|congruence]. }
        unfold kin in Hk. rewrite He0 in Hk. cbn in Hk. congruence.
    + destruct (Hdone nm' pos' size' Hin) as (p & e & Hlkp & He & Hpay).
      assert (HlkF : tree_lookup dtF chP nm' = Some p).
      { rewrite (tree_lookup_same_index Hcmp dtP chP dtF chP nm' HreprP HsameF).
        apply (grows_lookup Hcmp dtA chA dtP chP _ nm' p HreprA HreprP HgP).
        rewrite (tree_lookup_same_index Hcmp dt ch dtA chA nm' Hrepr HsameA). exact Hlkp. }
      pose proof (lookup_lt_Some _ _ _ He) as Hplt.
      pose proof (DirTreeFind_sans _ _ _ _ Hfind) as Hsans.
      assert (HeA : exists eA, entries dtA !! p = Some eA /\ payload eA = payload e).
      { assert (Hl : sans_hash <$> entries dtA !! p = Some (sans_hash e))
          by (rewrite <- list_lookup_fmap, Hsans, list_lookup_fmap, He; reflexivity).
        destruct (entries dtA !! p) as [eA|]; [|discriminate]. cbn in Hl.
        exists eA. split; [reflexivity|]. apply payload_sans. congruence. }
      destruct HeA as (eA & HeA & HpayA).
      destruct (push_lookup_old dtA (root dtA) pe nm false p eA Hpe HeA)
        as (eP & HeP & HpayP & _).
      exists p, eP. split; [exact HlkF|]. split; [|congruence].
      unfold dtF. cbn [entries]. rewrite list_lookup_insert_ne; [exact HeP|].
      apply lookup_lt_Some in HeA. unfold n0. lia.
Qed.

(** The names of the records are told apart by the tree's comparison,
    each from the names before it. *)
Fixpoint names_apart (added : list (list ascii)) (recs : list (list ascii * Z * Z)) : Prop :=
  match recs with
  | [] => True
  | (nm, _, _) :: rest =>
      (forall n, n ∈ added -> PHYSFS_utf8stricmp n nm <> 0%Z) /\ names_apart (nm :: added) rest
  end.

Lemma flat_inv_add_all {S : Type} (recs : list (list ascii * Z * Z)) :
  forall (arc arc' : UNPKinfo S) added done,
  flat_inv (info_tree arc) added done -> case_sensitive (info_tree arc) = false ->
  (forall nm pos size, (nm, pos, size) ∈ recs -> nm <> [] /\ chop_last_slash nm = None) ->
  names_apart added recs ->
  UNPK_add_all recs arc = Some (arc', Ok tt) ->
  info_io arc' = info_io arc /\
  exists added' done', flat_inv (info_tree arc') added' done' /\
    forall r, r ∈ recs \/ r ∈ done -> r ∈ done'.
Proof.
  induction recs as [|[[nm pos] size] rest IH]; intros arc arc' added done Hinv Hcs Hflat Hapart.
  - cbn [UNPK_add_all]. intros [= <-]. split; [reflexivity|].
    exists added, done. split; [exact Hinv|]. intros r [Hr|Hr]; [inversion Hr|exact Hr].
  - cbn [UNPK_add_all]. cbn [names_apart] in Hapart. destruct Hapart as [Hnew Hapart].
    destruct (UNPK_addEntry arc nm false (-1) (-1) pos size) as [[arc1 r1]|] eqn:Hadd;
      [|discriminate].
    cbn [mbind option_bind].
    destruct (Hflat nm pos size) as [Hne Hchop]; [apply elem_of_cons; left; reflexivity|].
    destruct (flat_inv_step arc arc1 added done nm pos size r1 Hinv Hcs Hne Hchop Hnew Hadd)
      as ([e ->] & Hio1 & Hcs1 & Hinv1).
    intros Hrest.
    destruct (IH arc1 arc' (nm :: added) ((nm, pos, size) :: done) Hinv1 Hcs1) as
      (Hio & added' & done' & Hinv' & Hall); [| exact Hapart | exact Hrest |].
    { intros nm' pos' size' Hin. apply (Hflat nm' pos' size'). apply elem_of_cons. right.
      exact Hin. }
    split; [congruence|]. exists added', done'. split; [exact Hinv'|].
    intros r [Hr|Hr]; apply Hall.
    + apply elem_of_cons in Hr as [->|Hr]; [right; apply elem_of_cons; left; reflexivity|left; exact Hr].
    + right. apply elem_of_cons. right. exact Hr.
Qed.

Lemma names_apart_seq (entry : nat -> list ascii * Z * Z) (n : nat) :
  forall start added,
  (forall a j, a ∈ added -> start <= j < start + n ->
     PHYSFS_utf8stricmp a (entry j).1.1 <> 0%Z) ->
  (forall j k, start <= j -> j < k -> k < start + n ->
     PHYSFS_utf8stricmp (entry j).1.1 (entry k).1.1 <> 0%Z) ->
  names_apart added (map entry (seq start n)).
Proof.
  induction n as [|n IH]; intros start added Hadded Hpair; [exact I|].
  cbn [seq map names_apart]. destruct (entry start) as [[nm pos] size] eqn:He.
  split.
  - intros a Ha. specialize (Hadded a start Ha ltac:(lia)). rewrite He in Hadded. exact Hadded.
  - apply IH.
    + intros a j Ha Hj. apply elem_of_cons in Ha as [->|Ha].
      * specialize (Hpair start j ltac:(lia) ltac:(lia) ltac:(lia)). rewrite He in Hpair.
        exact Hpair.
      * apply Hadded; [exact Ha|lia].
    + intros j k Hj Hjk Hk. apply Hpair; lia.
Qed.

(** X27.  Every file of a GRP archive can be read, with its bytes.  Let
    [GRP_openArchive] accept an archive held in memory whose names are
    not empty, have no ['/'] and are told apart by the comparison of
    names.  Then for every entry of the directory whose data lies in the
    archive, [UNPK_openRead] on its name succeeds, the stream has the
    length of the entry's size field, and reading it to the end through
    a handle delivers the bytes of the archive at the entry's offset. *)
Theorem GRP_entries_readable (bs : list byte) (io' : MemoryIoInfo) (claimed : bool)
    (arc : UNPKinfo MemoryIoInfo) (i dh fuel : nat) (chunk : Z) :
  (Z.of_nat (length bs) < 2 ^ 63)%Z ->
  GRP_openArchive (__PHYSFS_createMemoryIo bs) false = Some (io', claimed, Ok arc) ->
  (forall j, j < Z.to_nat (grp_count bs) ->
     grp_name bs j <> [] /\ chop_last_slash (grp_name bs j) = None) ->
  (forall j k, j < k -> k < Z.to_nat (grp_count bs) ->
     PHYSFS_utf8stricmp (grp_name bs j) (grp_name bs k) <> 0%Z) ->
  i < Z.to_nat (grp_count bs) ->
  (grp_offset bs i + grp_size bs i <= Z.of_nat (length bs))%Z ->
  (0 < chunk <= maxlen)%Z -> Z.to_nat (grp_size bs i) < fuel ->
  exists info2 finfo,
    UNPK_openRead arc (grp_name bs i) = Some (info2, Ok finfo) /\
    UNPK_length finfo = grp_size bs i /\
    read_to_eof fuel (mkFileHandle finfo true dh None 0 0 0) chunk =
      Some (slice bs (Z.to_nat (grp_offset bs i)) (Z.to_nat (grp_size bs i))).
Proof.
  intros Hlen Hopen Hflat Hapart Hi Hfit Hchunk Hfuel.
  set (count := Z.to_nat (grp_count bs)) in *.
  assert (Hlen64 : (Z.of_nat (length bs) < 2 ^ 64)%Z) by lia.
  unfold GRP_openArchive in Hopen. cbn [negb] in Hopen.
  change (__PHYSFS_createMemoryIo bs) with (memory_at bs 0) in Hopen.
  rewrite readAll_memory in Hopen by (assumption || lia).
  destruct (decide (0 + 12 <= length bs)) as [H12|]; [|discriminate].
  destruct (bool_decide_reflect (slice bs 0 12 = GRP_SIG)) as [Hsig|]; [|discriminate].
  rewrite readAll_memory in Hopen by (assumption || lia).
  destruct (decide (0 + 12 + 4 <= length bs)) as [H16|]; [|discriminate].
  fold (grp_count bs) in Hopen.
  destruct (grpLoadEntries _ _) as [[arc1 [[]| |]]|] eqn:Hload;
    cbn [mbind option_bind] in Hopen; try discriminate.
  injection Hopen as <- <- <-.
  unfold grpLoadEntries, UNPK_openArchive in Hload.
  rewrite u32_add_l in Hload.
  change (u32 (16 + 16 * grp_count bs)) with (grp_offset bs 0) in Hload.
  apply (grpLoadEntries_loop_memory bs _ 0 (0 + 12 + 4)) in Hload as (Hb & Hio & Hall);
    [|assumption|lia|lia].
  fold count in Hb, Hio, Hall.
  set (arc0 := mkUNPKinfo (__PHYSFS_DirTreeInit false true) (info_io arc1)) in *.
  assert (Hinv0 : flat_inv (info_tree arc0) [] []).
  { exists (fun _ => []). split; [apply tree_repr_init|].
    split; [intros b x Hx; inversion Hx|intros nm p s Hx; inversion Hx]. }
  destruct (flat_inv_add_all (map (grp_entry bs) (seq 0 count)) arc0 arc1 [] [] Hinv0 eq_refl)
    as (_ & added' & done' & (ch & Hrepr & _ & Hdone) & Hin).
  { intros nm pos size Hx. apply list_elem_of_fmap in Hx as (j & Hrec & Hj).
    apply elem_of_seq in Hj. unfold grp_entry in Hrec. injection Hrec as -> _ _.
    apply Hflat. lia. }
  { apply names_apart_seq; [intros a j Ha; inversion Ha|].
    intros j k _ Hjk Hk. apply Hapart; [exact Hjk|lia]. }
  { exact Hall. }
  destruct (Hdone (grp_name bs i) (grp_offset bs i) (grp_size bs i)) as (p & e & Hlk & He & Hpay).
  { apply Hin. left. apply list_elem_of_fmap. exists i. split; [reflexivity|].
    apply elem_of_seq. lia. }
  destruct (DirTreeFind_spec (info_tree arc1) ch (grp_name bs i) Hrepr)
    as (dtG & chG & Hfind & _ & _).
  rewrite Hlk in Hfind. cbn [find_result] in Hfind.
  pose proof (DirTreeFind_sans _ _ _ _ Hfind) as Hsans.
  assert (HeG : exists eG, entries dtG !! p = Some eG /\ payload eG = payload e).
  { assert (Hl : sans_hash <$> entries dtG !! p = Some (sans_hash e))
      by (rewrite <- list_lookup_fmap, Hsans, list_lookup_fmap, He; reflexivity).
    destruct (entries dtG !! p) as [eG|]; [|discriminate]. cbn in Hl.
    exists eG. split; [reflexivity|]. apply payload_sans. congruence. }
  destruct HeG as (eG & HeG & HpayG). rewrite Hpay in HpayG.
  unfold payload in HpayG. injection HpayG as Hd Hsp Hsz.
  assert (Hoff : (0 <= grp_offset bs i)%Z).
  { destruct i; cbn [grp_offset]; unfold u32; apply Z.mod_pos_bound; lia. }
  destruct (UNPK_openRead_found bs (fun info => Z.to_nat (mem_pos info)) (memory_at_file bs)
              (memoryIo_file_stream bs Hlen)
              (fun s Hs => memoryIo_zero_read bs s Hlen Hs) (memoryIo_dup bs)
              arc1 (grp_name bs i) dtG p eG (grp_offset bs i) (grp_size bs i) dh fuel chunk
              Hfind HeG Hd Hsp Hsz)
    as (info2 & finfo & Hopen & _ & _ & Hl & Hread); try assumption.
  - rewrite Hio. split; [reflexivity|]. unfold mem_len, memory_at. cbn [mem_pos mem_buf]. lia.
  - apply le32_bounds.
  - exists info2, finfo. split; [exact Hopen|]. split; [exact Hl|exact Hread].
Qed.

End FlatArchive.

Lemma GRP_entries_readable_witness :
  exists info2 finfo,
    @UNPK_openRead MemoryIoInfo _ usascii_platform grp_scenario_archive (cstr "HELLO.TXT") =
      Some (info2, Ok finfo) /\
    read_to_eof 6 (mkFileHandle finfo true 0 None 0 0 0) 4 =
      Some (list_byte_of_string "world").
Proof.
  destruct (@GRP_entries_readable usascii_platform usascii_stricmp_ok grp_scenario
              (memory_at grp_scenario 48) true grp_scenario_archive 0 0 6 4)
    as (info2 & finfo & Hopen & _ & Hread).
  - vm_compute. reflexivity.
  - vm_compute. reflexivity.
  - intros j Hj. change (Z.to_nat (grp_count grp_scenario)) with 2 in Hj.
    destruct j as [|[|j]]; [split; [discriminate|reflexivity]..|lia].
  - intros j k Hjk Hk. change (Z.to_nat (grp_count grp_scenario)) with 2 in Hk.
    destruct j as [|j]; [|lia]. destruct k as [|[|k]]; [lia| |lia].
    vm_compute. discriminate.
  - vm_compute. lia.
  - vm_compute. discriminate.
  - vm_compute. split; [reflexivity|discriminate].
  - vm_compute. lia.
  - exists info2, finfo. split; [exact Hopen|exact Hread].
Defined.

(** ** The error code of a thread *)

Lemma findError_Some (states : list ErrState) (t p : nat) :
  findErrorForCurrentThread states t = Some p ->
  exists e, states !! p = Some e /\ tid e = t.
Proof.
  revert p. induction states as [|i next IH]; intros p; cbn [findErrorForCurrentThread];
    [discriminate|].
  destruct (Nat.eqb_spec (tid i) t) as [Heq|Hne].
  - intros [= <-]. exists i. split; [reflexivity|exact Heq].
  - destruct (findErrorForCurrentThread next t) as [q|]; [|discriminate].
    cbn. intros [= <-]. destruct (IH q eq_refl) as (e & He & Ht). exists e. split; assumption.
Qed.

(** Writing the code of a node does not change which node a thread
    finds. *)
Lemma findError_insert (states : list ErrState) (p : nat) (e : ErrState) (c : PHYSFS_ErrorCode)
    (t : nat) :
  states !! p = Some e ->
  findErrorForCurrentThread (<[p := mkErrState (tid e) c]> states) t =
  findErrorForCurrentThread states t.
Proof.
  revert p. induction states as [|i next IH]; intros p; [discriminate|].
  destruct p as [|p].
  - intros [= ->]. reflexivity.
  - intros He.
    change (findErrorForCurrentThread (i :: <[p := mkErrState (tid e) c]> next) t =
            findErrorForCurrentThread (i :: next) t).
    cbn [findErrorForCurrentThread]. rewrite (IH p He). reflexivity.
Qed.

Lemma currentErrorCode_insert (states : list ErrState) (p : nat) (e : ErrState)
    (c : PHYSFS_ErrorCode) (t : nat) :
  states !! p = Some e ->
  currentErrorCode (<[p := mkErrState (tid e) c]> states) t =
  if decide (findErrorForCurrentThread states t = Some p) then c
  else currentErrorCode states t.
Proof.
  intros He. unfold currentErrorCode. rewrite (findError_insert states p e c t He).
  pose proof (lookup_lt_Some _ _ _ He) as Hlt.
  destruct (findErrorForCurrentThread states t) as [q|] eqn:Hf.
  - destruct (decide (Some q = Some p)) as [[= ->]|Hne].
    + rewrite list_lookup_insert_eq by exact Hlt. reflexivity.
    + rewrite list_lookup_insert_ne by congruence. reflexivity.
  - destruct (decide (None = Some p)); [discriminate|reflexivity].
Qed.

Lemma findError_other (states : list ErrState) (t t' p : nat) :
  t' <> t -> findErrorForCurrentThread states t = Some p ->
  findErrorForCurrentThread states t' <> Some p.
Proof.
  intros Hne Hf Hf'. apply findError_Some in Hf as (e & He & Ht).
  apply findError_Some in Hf' as (e' & He' & Ht'). congruence.
Qed.

(** X28.  Every thread has its own error code.  After
    [PHYSFS_setErrorCode] with a code other than [PHYSFS_ERR_OK], the
    calling thread's [PHYSFS_getLastErrorCode] returns that code and
    resets it, so that the next call returns [PHYSFS_ERR_OK]; the codes
    of all other threads are what they were, after the one call and
    after the other; and the list of states grows by one node when the
    thread had none and not at all when it had one.
    [PHYSFS_setErrorCode] with [PHYSFS_ERR_OK] changes nothing: it does
    not reset a code. *)
Theorem error_code_per_thread (states : list ErrState) (t : nat) (e : PHYSFS_ErrorCode) :
  e <> PHYSFS_ERR_OK ->
  let s1 := PHYSFS_setErrorCode states t e in
  let s2 := (PHYSFS_getLastErrorCode s1 t).1 in
  currentErrorCode s1 t = e /\
  (PHYSFS_getLastErrorCode s1 t).2 = e /\
  PHYSFS_getLastErrorCode s2 t = (s2, PHYSFS_ERR_OK) /\
  (forall t', t' <> t ->
     currentErrorCode s1 t' = currentErrorCode states t' /\
     currentErrorCode s2 t' = currentErrorCode states t') /\
  length s2 = length s1 /\
  length s1 = match findErrorForCurrentThread states t with
              | Some _ => length states
              | None => Datatypes.S (length states)
              end /\
  PHYSFS_setErrorCode states t PHYSFS_ERR_OK = states.
Proof.
  intros Hne s1 s2.
  assert (Hs1 : exists p n, findErrorForCurrentThread s1 t = Some p /\
                            s1 !! p = Some (mkErrState n e) /\
                            (forall t', t' <> t ->
                               currentErrorCode s1 t' = currentErrorCode states t') /\
                            length s1 = match findErrorForCurrentThread states t with
                                        | Some _ => length states
                                        | None => Datatypes.S (length states)
                                        end).
  { unfold s1, PHYSFS_setErrorCode.
    destruct (findErrorForCurrentThread states t) as [p|] eqn:Hf.
    - destruct (findError_Some states t p Hf) as (e0 & He0 & Ht0). rewrite He0.
      assert (Hgoal : exists p0 n,
                findErrorForCurrentThread (<[p := mkErrState (tid e0) e]> states) t = Some p0 /\
                <[p := mkErrState (tid e0) e]> states !! p0 = Some (mkErrState n e) /\
                (forall t', t' <> t ->
                   currentErrorCode (<[p := mkErrState (tid e0) e]> states) t' =
                   currentErrorCode states t') /\
                length (<[p := mkErrState (tid e0) e]> states) = length states).
      { exists p, (tid e0). rewrite (findError_insert states p e0 e t He0).
        split; [exact Hf|]. split.
        - apply list_lookup_insert_eq. eapply lookup_lt_Some, He0.
        - split; [|apply length_insert]. intros t' Ht'.
          rewrite (currentErrorCode_insert states p e0 e t' He0).
          destruct (decide (findErrorForCurrentThread states t' = Some p)) as [Hf'|];
            [|reflexivity].
          exfalso. exact (findError_other states t t' p Ht' Hf Hf'). }
      destruct e; try exact Hgoal. congruence.
    - assert (Hgoal : exists p0 n,
                findErrorForCurrentThread (mkErrState t e :: states) t = Some p0 /\
                (mkErrState t e :: states) !! p0 = Some (mkErrState n e) /\
                (forall t', t' <> t ->
                   currentErrorCode (mkErrState t e :: states) t' =
                   currentErrorCode states t') /\
                length (mkErrState t e :: states) = Datatypes.S (length states)).
      { exists 0, t. cbn [findErrorForCurrentThread tid]. rewrite Nat.eqb_refl.
        split; [reflexivity|]. split; [reflexivity|]. split; [|reflexivity].
        intros t' Ht'. unfold currentErrorCode. cbn [findErrorForCurrentThread tid].
        destruct (Nat.eqb_spec t t'); [congruence|].
        destruct (findErrorForCurrentThread states t'); reflexivity. }
      destruct e; try exact Hgoal. congruence. }
  destruct Hs1 as (p & n & Hf1 & Hp1 & Hother1 & Hlen1).
  assert (Hget : PHYSFS_getLastErrorCode s1 t =
                 (<[p := mkErrState n PHYSFS_ERR_OK]> s1, e)).
  { unfold PHYSFS_getLastErrorCode. rewrite Hf1, Hp1. reflexivity. }
  assert (Hs2 : s2 = <[p := mkErrState n PHYSFS_ERR_OK]> s1) by (unfold s2; rewrite Hget; reflexivity).
  split; [unfold currentErrorCode; rewrite Hf1, Hp1; reflexivity|].
  split; [rewrite Hget; reflexivity|].
  pose proof (findError_insert s1 p (mkErrState n e) PHYSFS_ERR_OK t Hp1) as Hf2.
  cbn [tid] in Hf2. rewrite <- Hs2 in Hf2.
  assert (Hp2 : s2 !! p = Some (mkErrState n PHYSFS_ERR_OK)).
  { rewrite Hs2. apply list_lookup_insert_eq. eapply lookup_lt_Some, Hp1. }
  split.
  { unfold PHYSFS_getLastErrorCode. rewrite Hf2, Hf1, Hp2. cbn [tid code]. f_equal.
    apply list_insert_id. exact Hp2. }
  split.
  { intros t' Ht'. split; [exact (Hother1 t' Ht')|].
    rewrite Hs2. pose proof (currentErrorCode_insert s1 p (mkErrState n e) PHYSFS_ERR_OK t' Hp1)
      as Hc. cbn [tid] in Hc. rewrite Hc.
    destruct (decide (findErrorForCurrentThread s1 t' = Some p)) as [Hf'|];
      [|exact (Hother1 t' Ht')].
    exfalso. exact (findError_other s1 t t' p Ht' Hf1 Hf'). }
  split; [rewrite Hs2; apply length_insert|]. split; [exact Hlen1|reflexivity].
Qed.

Lemma error_code_per_thread_witness :
  let states := [mkErrState 7 PHYSFS_ERR_NOT_FOUND] in
  let s1 := PHYSFS_setErrorCode states 3 PHYSFS_ERR_CORRUPT in
  (PHYSFS_getLastErrorCode s1 3).2 = PHYSFS_ERR_CORRUPT /\
  currentErrorCode s1 7 = PHYSFS_ERR_NOT_FOUND.
Proof.
  intros states s1.
  destruct (error_code_per_thread states 3 PHYSFS_ERR_CORRUPT ltac:(discriminate))
    as (_ & Hget & _ & Hother & _).
  split; [exact Hget|]. exact (proj1 (Hother 7 ltac:(lia))).
Defined.

(** ** MVL archives held in memory *)

(** *** The MVL directory, entry by entry *)

Definition mvl_count (bs : list byte) : Z := le32 (slice bs 4 4).

(** Entry [i]'s name: the first 12 bytes of its 13-byte field, as a C
    string. *)
Definition mvl_name (bs : list byte) (i : nat) : list ascii :=
  c_str (chars_of_bytes (take 12 (slice bs (8 + 17 * i) 13))).

(** Entry [i]'s size: the little-endian word after the name. *)
Definition mvl_size (bs : list byte) (i : nat) : Z := le32 (slice bs (21 + 17 * i) 4).

(** Entry [i]'s data offset, in 32-bit arithmetic. *)
Fixpoint mvl_offset (bs : list byte) (i : nat) : Z :=
  match i with
  | 0 => u32 (8 + 17 * mvl_count bs)
  | Datatypes.S j => u32 (mvl_offset bs j + mvl_size bs j)
  end.

Definition mvl_entry (bs : list byte) (i : nat) : list ascii * Z * Z :=
  (mvl_name bs i, mvl_offset bs i, mvl_size bs i).

Section MvlMemory.
Context `{Platform}.
Hypothesis Hcmp : stricmp_ok.

Lemma mvlLoadEntries_loop_memory (bs : list byte) (n i p : nat)
    (t : __PHYSFS_DirTree) (arc : UNPKinfo MemoryIoInfo) :
  (Z.of_nat (length bs) < 2 ^ 64)%Z -> p = 8 + 17 * i -> p <= length bs ->
  mvlLoadEntries_loop n (mvl_offset bs i) (mkUNPKinfo t (memory_at bs p))
    = Some (arc, Ok tt) ->
  p + 17 * n <= length bs /\
  info_io arc = memory_at bs (p + 17 * n) /\
  UNPK_add_all (map (mvl_entry bs) (seq i n)) (mkUNPKinfo t (info_io arc)) = Some (arc, Ok tt).
Proof.
  intros Hlen. revert i p t. induction n as [|n IH]; intros i p t Hp Hi.
  - cbn [mvlLoadEntries_loop seq map UNPK_add_all]. intros Heq.
    injection Heq as <-. cbn [info_io].
    replace (p + 17 * 0) with p by lia. split; [exact Hi|]. split; reflexivity.
  - cbn [mvlLoadEntries_loop info_io info_tree].
    rewrite readAll_memory by (assumption || lia).
    destruct (decide (p + 13 <= length bs)) as [H13|]; [|discriminate].
    rewrite readAll_memory by (assumption || lia).
    destruct (decide (p + 13 + 4 <= length bs)) as [H17|]; [|discriminate].
    replace (slice bs p 13) with (slice bs (8 + 17 * i) 13) by (rewrite Hp; reflexivity).
    replace (slice bs (p + 13) 4) with (slice bs (21 + 17 * i) 4) by (f_equal; lia).
    fold (mvl_name bs i). fold (mvl_size bs i).
    destruct (UNPK_addEntry _ _ _ _ _ _ _) as [[arc1 [q| |]]|] eqn:Hadd;
      cbn [mbind option_bind]; try discriminate.
    assert (Hio1 : arc1 = mkUNPKinfo (info_tree arc1) (memory_at bs (p + 13 + 4))).
    { rewrite (UNPK_addEntry_io _ _ (memory_at bs 0)) in Hadd.
      destruct (UNPK_addEntry _ _ _ _ _ _ _) as [[arc0 r0]|]; [|discriminate].
      injection Hadd as <- _. reflexivity. }
    rewrite Hio1.
    change (u32 (mvl_offset bs i + mvl_size bs i)) with (mvl_offset bs (Datatypes.S i)).
    intros Hloop.
    destruct (IH (Datatypes.S i) (p + 13 + 4) _ ltac:(lia) ltac:(lia) Hloop) as (Hb & Hio & Hall).
    replace (p + 13 + 4 + 17 * n) with (p + 17 * Datatypes.S n) in * by lia.
    split; [exact Hb|]. split; [exact Hio|].
    cbn [seq map UNPK_add_all]. unfold mvl_entry at 1.
    rewrite (UNPK_addEntry_io _ _ (memory_at bs (p + 13 + 4))).
    rewrite Hadd. cbn [mbind option_bind info_tree]. exact Hall.
Qed.

(** X29.  What [MVL_openArchive] makes of an archive in memory.  It
    refuses to open for writing (READ_ONLY) and leaves alone what does
    not start with "DMVL" (UNSUPPORTED, not claimed).  When it accepts
    an archive whose names are not empty, have no ['/'] and are told
    apart by the comparison of names, it has claimed it and read the
    whole directory of 17-byte records after the 8-byte header; the data
    of entry 0 is taken to start behind the directory and the data of
    each entry behind that of the one before, in 32-bit arithmetic; and
    for every entry whose data lies in the archive, [UNPK_openRead] on
    its name succeeds and reading to the end delivers the bytes of the
    archive at that offset, as many as the size field says. *)
Theorem MVL_entries_readable (bs : list byte) :
  (Z.of_nat (length bs) < 2 ^ 63)%Z ->
  MVL_openArchive (__PHYSFS_createMemoryIo bs) true =
    Some (__PHYSFS_createMemoryIo bs, false, Bail PHYSFS_ERR_READ_ONLY) /\
  (4 <= length bs -> slice bs 0 4 <> MVL_SIG ->
   MVL_openArchive (__PHYSFS_createMemoryIo bs) false =
     Some (memory_at bs 4, false, Bail PHYSFS_ERR_UNSUPPORTED)) /\
  (forall io' claimed arc,
     MVL_openArchive (__PHYSFS_createMemoryIo bs) false = Some (io', claimed, Ok arc) ->
     (forall j, j < Z.to_nat (mvl_count bs) ->
        mvl_name bs j <> [] /\ chop_last_slash (mvl_name bs j) = None) ->
     (forall j k, j < k -> k < Z.to_nat (mvl_count bs) ->
        PHYSFS_utf8stricmp (mvl_name bs j) (mvl_name bs k) <> 0%Z) ->
     slice bs 0 4 = MVL_SIG /\ claimed = true /\
     io' = memory_at bs (8 + 17 * Z.to_nat (mvl_count bs)) /\
     forall i dh fuel chunk,
       i < Z.to_nat (mvl_count bs) ->
       (mvl_offset bs i + mvl_size bs i <= Z.of_nat (length bs))%Z ->
       (0 < chunk <= maxlen)%Z -> Z.to_nat (mvl_size bs i) < fuel ->
       exists info2 finfo,
         UNPK_openRead arc (mvl_name bs i) = Some (info2, Ok finfo) /\
         UNPK_length finfo = mvl_size bs i /\
         read_to_eof fuel (mkFileHandle finfo true dh None 0 0 0) chunk =
           Some (slice bs (Z.to_nat (mvl_offset bs i)) (Z.to_nat (mvl_size bs i)))).
Proof.
  intros Hlen. assert (Hlen64 : (Z.of_nat (length bs) < 2 ^ 64)%Z) by lia.
  split; [reflexivity|]. split.
  { intros H4 Hsig. unfold MVL_openArchive.
    change (__PHYSFS_createMemoryIo bs) with (memory_at bs 0).
    rewrite readAll_memory by (assumption || lia).
    destruct (decide (0 + 4 <= length bs)); [|lia].
    rewrite bool_decide_eq_false_2 by exact Hsig. reflexivity. }
  intros io' claimed arc Hopen Hflat Hapart.
  set (count := Z.to_nat (mvl_count bs)) in *.
  unfold MVL_openArchive in Hopen.
  change (__PHYSFS_createMemoryIo bs) with (memory_at bs 0) in Hopen.
  rewrite readAll_memory in Hopen by (assumption || lia).
  destruct (decide (0 + 4 <= length bs)) as [H4|]; [|discriminate].
  destruct (bool_decide_reflect (slice bs 0 4 = MVL_SIG)) as [Hsig|]; [|discriminate].
  rewrite readAll_memory in Hopen by (assumption || lia).
  destruct (decide (0 + 4 + 4 <= length bs)) as [H8|]; [|discriminate].
  fold (mvl_count bs) in Hopen.
  destruct (mvlLoadEntries _ _) as [[arc1 [[]| |]]|] eqn:Hload;
    cbn [mbind option_bind] in Hopen; try discriminate.
  injection Hopen as <- <- <-.
  unfold mvlLoadEntries, UNPK_openArchive in Hload.
  rewrite u32_add_l in Hload.
  change (u32 (8 + 17 * mvl_count bs)) with (mvl_offset bs 0) in Hload.
  apply (mvlLoadEntries_loop_memory bs _ 0 (0 + 4 + 4)) in Hload as (Hb & Hio & Hall);
    [|assumption|lia|lia].
  fold count in Hb, Hio, Hall.
  split; [exact Hsig|]. split; [reflexivity|]. split; [rewrite Hio; f_equal; lia|].
  intros i dh fuel chunk Hi Hfit Hchunk Hfuel.
  set (arc0 := mkUNPKinfo (__PHYSFS_DirTreeInit false true) (info_io arc1)) in *.
  assert (Hinv0 : flat_inv (info_tree arc0) [] []).
  { exists (fun _ => []). split; [apply tree_repr_init|].
    split; [intros b x Hx; inversion Hx|intros nm p s Hx; inversion Hx]. }
  destruct (flat_inv_add_all Hcmp (map (mvl_entry bs) (seq 0 count)) arc0 arc1 [] [] Hinv0
              eq_refl)
    as (_ & added' & done' & (ch & Hrepr & _ & Hdone) & Hin).
  { intros nm pos size Hx. apply list_elem_of_fmap in Hx as (j & Hrec & Hj).
    apply elem_of_seq in Hj. unfold mvl_entry in Hrec. injection Hrec as -> _ _.
    apply Hflat. lia. }
  { apply names_apart_seq; [intros a j Ha; inversion Ha|].
    intros j k _ Hjk Hk. apply Hapart; [exact Hjk|lia]. }
  { exact Hall. }
  destruct (Hdone (mvl_name bs i) (mvl_offset bs i) (mvl_size bs i)) as (p & e & Hlk & He & Hpay).
  { apply Hin. left. apply list_elem_of_fmap. exists i. split; [reflexivity|].
    apply elem_of_seq. lia. }
  destruct (DirTreeFind_spec (info_tree arc1) ch (mvl_name bs i) Hrepr)
    as (dtG & chG & Hfind & _ & _).
  rewrite Hlk in Hfind. cbn [find_result] in Hfind.
  pose proof (DirTreeFind_sans _ _ _ _ Hfind) as Hsans.
  assert (HeG : exists eG, entries dtG !! p = Some eG /\ payload eG = payload e).
  { assert (Hl : sans_hash <$> entries dtG !! p = Some (sans_hash e))
      by (rewrite <- list_lookup_fmap, Hsans, list_lookup_fmap, He; reflexivity).
    destruct (entries dtG !! p) as [eG|]; [|discriminate]. cbn in Hl.
    exists eG. split; [reflexivity|]. apply payload_sans. congruence. }
  destruct HeG as (eG & HeG & HpayG). rewrite Hpay in HpayG.
  unfold payload in HpayG. injection HpayG as Hd Hsp Hsz.
  assert (Hoff : (0 <= mvl_offset bs i)%Z).
  { destruct i; cbn [mvl_offset]; unfold u32; apply Z.mod_pos_bound; lia. }
  destruct (UNPK_openRead_found bs (fun info => Z.to_nat (mem_pos info)) (memory_at_file bs)
              (memoryIo_file_stream bs Hlen)
              (fun s Hs => memoryIo_zero_read bs s Hlen Hs) (memoryIo_dup bs)
              arc1 (mvl_name bs i) dtG p eG (mvl_offset bs i) (mvl_size bs i) dh fuel chunk
              Hfind HeG Hd Hsp Hsz)
    as (info2 & finfo & Hopen & _ & _ & Hl & Hread); try assumption.
  - rewrite Hio. split; [reflexivity|]. unfold mem_len, memory_at. cbn [mem_pos mem_buf]. lia.
  - apply le32_bounds.
  - exists info2, finfo. split; [exact Hopen|]. split; [exact Hl|exact Hread].
Qed.

End MvlMemory.

(** An MVL archive with one movie, [INTRO.MVE], of three bytes. *)
Definition mvl_example : list byte :=
  list_byte_of_string "DMVL" ++ [x01; x00; x00; x00] ++
  list_byte_of_string "INTRO.MVE" ++ [x00; x00; x00; x00] ++ [x03; x00; x00; x00] ++
  list_byte_of_string "abc".

Definition mvl_example_archive : UNPKinfo MemoryIoInfo :=
  Eval vm_compute in
    match @MVL_openArchive MemoryIoInfo _ usascii_platform
                           (__PHYSFS_createMemoryIo mvl_example) false with
    | Some (_, _, Ok arc) => arc
    | _ => UNPK_openArchive (__PHYSFS_createMemoryIo mvl_example) false true
    end.

Lemma MVL_entries_readable_witness :
  exists info2 finfo,
    @UNPK_openRead MemoryIoInfo _ usascii_platform mvl_example_archive (cstr "intro.mve") =
      Some (info2, Ok finfo) /\
    read_to_eof 4 (mkFileHandle finfo true 0 None 0 0 0) 2 = Some (list_byte_of_string "abc").
Proof.
  destruct (@MVL_entries_readable usascii_platform usascii_stricmp_ok mvl_example
              ltac:(vm_compute; reflexivity)) as (_ & _ & Hopen).
  destruct (Hopen (memory_at mvl_example 25) true mvl_example_archive) as (_ & _ & _ & Hread).
  - vm_compute. reflexivity.
  - intros j Hj. change (Z.to_nat (mvl_count mvl_example)) with 1 in Hj.
    destruct j as [|j]; [split; [discriminate|reflexivity]|lia].
  - intros j k Hjk Hk. change (Z.to_nat (mvl_count mvl_example)) with 1 in Hk. lia.
  - destruct (Hread 0 0 4 2%Z) as (info2 & finfo & Hop & _ & Hrd).
    + vm_compute. lia.
    + vm_compute. discriminate.
    + vm_compute. split; [reflexivity|discriminate].
    + vm_compute. lia.
    + exists info2, finfo. split; [|exact Hrd].
      exact Hop.
Defined.

(** ** End of file *)

Section EndOfFile.
Context {S : Type} `{PHYSFS_Io S}.
Variable file : list byte.
Variable pos : S -> nat.
Variable stream_ok : S -> Prop.
Hypothesis Hfs : file_stream file pos stream_ok.
Hypothesis Hlength : forall s, stream_ok s -> io_length s = Z.of_nat (length file).

Lemma PHYSFS_eof_logical (fh : FileHandle S) :
  window_ok file pos stream_ok fh ->
  (PHYSFS_eof fh = true <-> logical_pos pos fh = length file).
Proof.
  intros Hw. pose proof Hw as ((Hs & Hr & Hp & Hf & Hb) & Hfill & Hwin).
  pose proof (fs_bound _ _ _ Hfs _ Hs) as Hbound.
  unfold PHYSFS_eof, logical_pos. rewrite Hr. cbn [negb].
  rewrite (fs_tell _ _ _ Hfs _ Hs), (Hlength _ Hs).
  destruct (Nat.eqb_spec (bufpos fh) (buffill fh)) as [He|Hne].
  - destruct (Z.ltb_spec (Z.of_nat (pos (fh_io fh))) 0); [lia|].
    destruct (Z.ltb_spec (Z.of_nat (length file)) 0); [lia|]. cbn [orb].
    rewrite Z.leb_le. lia.
  - split; [discriminate|lia].
Qed.

(** X30.  On a read handle over a file, buffered or not, [PHYSFS_eof]
    says whether anything is left to read: it answers true exactly when
    [PHYSFS_tell] is the length of the file, and exactly when a
    [PHYSFS_readBytes] for a positive number of bytes delivers none;
    after such a read it still answers true, and while it answers false
    a read delivers at least one byte. *)
Theorem PHYSFS_eof_nothing_left (fh : FileHandle S) (chunk : Z) :
  window_ok file pos stream_ok fh -> (0 < chunk <= maxlen)%Z ->
  (PHYSFS_eof fh = true <-> PHYSFS_tell fh = Z.of_nat (length file)) /\
  exists fh' d,
    PHYSFS_readBytes fh chunk = (fh', Ok d) /\
    (PHYSFS_eof fh = true <-> d = []) /\
    (d = [] -> PHYSFS_eof fh' = true).
Proof.
  intros Hw Hchunk.
  pose proof (PHYSFS_eof_logical fh Hw) as Heof.
  split.
  { rewrite (PHYSFS_tell_logical file pos stream_ok Hfs fh Hw). rewrite Heof. lia. }
  destruct (PHYSFS_readBytes_spec (rest_of_file file pos) stream_ok
              (file_stream_reads file pos stream_ok Hfs) fh chunk (proj1 Hw) Hchunk)
    as (fh' & d & Heq & Hpend & Hnz & _ & _).
  pose proof (PHYSFS_readBytes_window file pos stream_ok Hfs fh chunk Hw Hchunk) as Hw'.
  rewrite Heq in Hw'. cbn [fst] in Hw'.
  rewrite (window_pending file pos stream_ok Hfs fh Hw) in Hpend, Hnz.
  rewrite (window_pending file pos stream_ok Hfs fh' Hw') in Hpend.
  pose proof (logical_pos_le file pos stream_ok Hfs fh Hw) as Hle.
  pose proof (logical_pos_le file pos stream_ok Hfs fh' Hw') as Hle'.
  assert (Hlen : length file - logical_pos pos fh
                 = length d + (length file - logical_pos pos fh')).
  { apply (f_equal length) in Hpend. rewrite length_app, !length_drop in Hpend. exact Hpend. }
  exists fh', d. split; [exact Heq|]. split.
  - rewrite Heof. split.
    + intros He. destruct d as [|b d]; [reflexivity|]. cbn [length] in Hlen. lia.
    + intros ->. destruct (decide (logical_pos pos fh = length file)) as [|Hne]; [assumption|].
      exfalso. apply Hnz; [|reflexivity].
      intros Hd. apply (f_equal length) in Hd. rewrite length_drop in Hd. cbn in Hd. lia.
  - intros ->. apply (PHYSFS_eof_logical fh' Hw'). cbn [length] in Hlen.
    destruct (decide (logical_pos pos fh = length file)) as [|Hne]; [lia|].
    exfalso. apply Hnz; [|reflexivity].
    intros Hd. apply (f_equal length) in Hd. rewrite length_drop in Hd. cbn in Hd. lia.
Qed.

End EndOfFile.

Lemma PHYSFS_eof_nothing_left_witness :
  let file := list_byte_of_string "hello, world" in
  let fh := mkFileHandle (memory_at file 12) true 0 (Some (list_byte_of_string "orld")) 4 4 2 in
  (PHYSFS_eof fh = true <-> PHYSFS_tell fh = 12%Z) /\
  exists fh' d,
    PHYSFS_readBytes fh 7 = (fh', Ok d) /\
    (PHYSFS_eof fh = true <-> d = []) /\
    (d = [] -> PHYSFS_eof fh' = true).
Proof.
  intros file fh.
  apply (@PHYSFS_eof_nothing_left MemoryIoInfo _ file _ _
           (memoryIo_file_stream file ltac:(vm_compute; reflexivity))).
  - intros s [Hb _]. cbn. unfold memoryIo_length, mem_len. rewrite Hb. reflexivity.
  - split; [|split; [cbn; lia|reflexivity]].
    split; [split; [reflexivity|vm_compute; split; discriminate]|].
    cbn. repeat split; try lia.
  - vm_compute. split; [reflexivity|discriminate].
Defined.

(** ** C5: what is added is found *)

(** The directories above a name, nearest first: the names that
    [addAncestors] and [__PHYSFS_DirTreeAdd] chop their way through. *)
Fixpoint ancestors_fuel (fuel : nat) (nm : list ascii) : list (list ascii) :=
  match fuel with
  | 0 => []
  | Datatypes.S fuel' =>
      match chop_last_slash nm with
      | Some pre => pre :: ancestors_fuel fuel' pre
      | None => []
      end
  end.

Definition ancestors (nm : list ascii) : list (list ascii) := ancestors_fuel (length nm) nm.

Lemma ancestors_fuel_any (f1 : nat) : forall f2 nm,
  length nm <= f1 -> length nm <= f2 -> ancestors_fuel f1 nm = ancestors_fuel f2 nm.
Proof.
  induction f1 as [|f1 IH]; intros f2 nm H1 H2.
  - destruct nm; [|cbn in H1; lia]. destruct f2; reflexivity.
  - destruct f2 as [|f2].
    + destruct nm; [reflexivity|cbn in H2; lia].
    + cbn [ancestors_fuel]. destruct (chop_last_slash nm) as [pre|] eqn:Hc; [|reflexivity].
      apply chop_last_slash_Some in Hc as [Hl _]. f_equal. apply IH; lia.
Qed.

Lemma ancestors_chop (nm pre : list ascii) :
  chop_last_slash nm = Some pre -> ancestors nm = pre :: ancestors pre.
Proof.
  intros Hc. unfold ancestors. destruct nm as [|c nm]; [discriminate|].
  cbn [length ancestors_fuel]. rewrite Hc. f_equal.
  apply chop_last_slash_Some in Hc as [Hl _]. cbn [length] in Hl.
  apply ancestors_fuel_any; lia.
Qed.

Section AddFind.
Context `{Platform}.
Hypothesis Hcmp : stricmp_ok.

(** Whether a directory above [nm] stands for a regular file in the
    tree. *)
Definition file_above (dt : __PHYSFS_DirTree) (nm : list ascii) : bool :=
  existsb (fun a =>
             match __PHYSFS_DirTreeFind dt a with
             | Some (dta, Ok p) =>
                 match entries dta !! p with
                 | Some ea => negb (isdir (tree ea))
                 | None => false
                 end
             | _ => false
             end) (ancestors nm).

Definition no_file_above (dt : __PHYSFS_DirTree) (ch : nat -> list nat) (nm : list ascii)
  : Prop :=
  forall a p, a ∈ ancestors nm -> tree_lookup dt ch a = Some p ->
    exists n c s, kin (entries dt) p = Some (n, c, s, true).

Lemma file_above_false dt ch nm :
  tree_repr dt ch -> file_above dt nm = false -> no_file_above dt ch nm.
Proof.
  intros Hrepr Hfa a p Ha Hlk. unfold file_above in Hfa.
  destruct (DirTreeFind_spec dt ch a Hrepr) as (dta & cha & Hfind & _ & Hsame).
  rewrite Hlk in Hfind. cbn [find_result] in Hfind.
  pose proof (DirTreeFind_kin _ _ _ _ Hfind) as (_ & _ & Hkin).
  pose proof (tree_lookup_valid dt ch a p Hrepr Hlk) as Hp.
  destruct (lookup_lt_is_Some_2 (entries dta) p) as [ea Hea].
  { destruct Hsame as (_ & -> & _). exact Hp. }
  assert (Hd : isdir (tree ea) = true).
  { destruct (isdir (tree ea)) eqn:Hd; [reflexivity|]. exfalso.
    assert (Hex : existsb (fun a =>
             match __PHYSFS_DirTreeFind dt a with
             | Some (dta, Ok p) =>
                 match entries dta !! p with
                 | Some ea => negb (isdir (tree ea))
                 | None => false
                 end
             | _ => false
             end) (ancestors nm) = true).
    { apply existsb_exists. exists a. split; [apply list_elem_of_In, Ha|].
      rewrite Hfind, Hea, Hd. reflexivity. }
    congruence. }
  exists (name (tree ea)), (children (tree ea)), (sibling (tree ea)).
  rewrite <- Hkin. unfold kin. rewrite Hea. cbn. rewrite Hd. reflexivity.
Qed.

Lemma no_file_above_same dt ch dt' ch' nm :
  tree_repr dt ch -> same_index dt ch dt' ch' -> same_kin dt dt' ->
  no_file_above dt ch nm -> no_file_above dt' ch' nm.
Proof.
  intros Hrepr Hsame (_ & _ & Hkin) Hno a p Ha Hlk.
  rewrite (tree_lookup_same_index Hcmp dt ch dt' ch' a Hrepr Hsame) in Hlk.
  rewrite Hkin. exact (Hno a p Ha Hlk).
Qed.

(** An addition under directories succeeds. *)
Lemma DirTreeAdd_rec_succeeds fuel : forall dt ch nm d,
  tree_repr dt ch -> length nm < fuel -> no_file_above dt ch nm ->
  exists dt1 e, DirTreeAdd_rec fuel dt nm d = Some (dt1, Ok e).
Proof.
  induction fuel as [|fuel IH]; intros dt ch nm d Hrepr Hfuel Hno; [lia|].
  cbn [DirTreeAdd_rec].
  destruct (DirTreeFind_spec dt ch nm Hrepr) as (dtA & chA & Hfind & HreprA & HsameA).
  rewrite Hfind. cbn [mbind option_bind].
  pose proof (DirTreeFind_kin _ _ _ _ Hfind) as HkinA.
  destruct (tree_lookup dt ch nm) as [p|]; cbn [find_result]; [eauto|].
  pose proof (no_file_above_same dt ch dtA chA nm Hrepr HsameA HkinA Hno) as HnoA.
  unfold addAncestors. destruct (chop_last_slash nm) as [pre|] eqn:Hchop.
  - pose proof (ancestors_chop nm pre Hchop) as Hanc.
    apply chop_last_slash_Some in Hchop as [Hlen _].
    destruct (DirTreeFind_spec dtA chA pre HreprA) as (dtB & chB & HfindB & HreprB & HsameB).
    rewrite HfindB. cbn [mbind option_bind].
    pose proof (DirTreeFind_kin _ _ _ _ HfindB) as HkinB.
    destruct (tree_lookup dtA chA pre) as [p|] eqn:Hlk; cbn [find_result].
    + pose proof (tree_lookup_valid dtA chA pre p HreprA Hlk) as Hp.
      destruct (lookup_lt_is_Some_2 (entries dtB) p) as [e He].
      { destruct HsameB as (_ & -> & _). exact Hp. }
      rewrite He. cbn [mbind option_bind].
      destruct (HnoA pre p) as (n & c & s & Hk); [rewrite Hanc; left|exact Hlk|].
      destruct HkinB as (_ & _ & HkB). rewrite <- HkB in Hk. unfold kin in Hk.
      rewrite He in Hk. cbn in Hk. injection Hk as _ _ _ Hd. rewrite Hd.
      cbn [mbind option_bind]. rewrite He. cbn [mbind option_bind]. eauto.
    + destruct (IH dtB chB pre true HreprB ltac:(lia)) as (dt2 & e' & Hadd).
      { apply (no_file_above_same dtA chA dtB chB pre HreprA HsameB HkinB).
        intros a p Ha Hp. apply (HnoA a p); [rewrite Hanc; right; exact Ha|exact Hp]. }
      rewrite Hadd. cbn [mbind option_bind].
      destruct (DirTreeAdd_rec_spec Hcmp fuel dtB chB pre true HreprB ltac:(lia))
        as (dt2' & ch2 & r & Hadd' & Hrepr2 & _ & Hres).
      rewrite Hadd in Hadd'. injection Hadd' as <- <-.
      destruct (Hres e' eq_refl) as [Hlk2 _].
      pose proof (tree_lookup_valid dt2 ch2 pre e' Hrepr2 Hlk2) as He'.
      destruct (lookup_lt_is_Some_2 (entries dt2) e' He') as [pe Hpe].
      rewrite Hpe. cbn [mbind option_bind]. eauto.
  - cbn [mbind option_bind].
    destruct (lookup_lt_is_Some_2 (entries dtA) (root dtA) (repr_root _ _ HreprA)) as [pe Hpe].
    rewrite Hpe. cbn [mbind option_bind]. eauto.
Qed.

(** In a tree that grew from an initialised one the chains hold no
    entry 0: the root is in no bucket. *)
Lemma chains_above_root cs ua dt ch k b x :
  grows (__PHYSFS_DirTreeInit cs ua) (fun _ => []) dt ch k -> x ∈ ch b -> 1 <= x.
Proof.
  intros (_ & _ & _ & _ & Hnew) Hx.
  destruct (Hnew b x Hx) as [Hle _]; [intros Hin; inversion Hin|]. exact Hle.
Qed.

Lemma lookup_above_root cs ua dt ch k nm p :
  grows (__PHYSFS_DirTreeInit cs ua) (fun _ => []) dt ch k -> nm <> [] ->
  tree_lookup dt ch nm = Some p ->
  1 <= p /\ exists n, ename (entries dt) p = Some n /\ name_matches dt n nm = true.
Proof.
  intros Hg Hne Hlk. unfold tree_lookup in Hlk. destruct nm as [|c nm]; [congruence|].
  apply first_match_Some in Hlk as [Hin Hm]. split; [eapply chains_above_root; eassumption|].
  unfold entry_matches in Hm. destruct (ename (entries dt) p) as [n|]; [|discriminate].
  exists n. split; [reflexivity|exact Hm].
Qed.

(** C5.  In a tree that was initialised and then only added to, searched
    and had the payload of its entries written:
    - [__PHYSFS_DirTreeFind] on the empty path returns the root, entry 0;
    - [__PHYSFS_DirTreeAdd] of a name with no regular file among the
      directories above it succeeds;
    - for a name that a search finds, it returns the entry found and the
      tree the search left, allocating nothing;
    - for a name that a search does not find, the entry it returns is a
      new one, the last of the store, which has grown, and it bears the
      name and the directory flag it was added with;
    - the entry [e] that it returns for a name [nm] is the one every
      later [__PHYSFS_DirTreeFind] on [nm] returns, whatever additions,
      searches and writes come in between; when [nm] is not empty, [e]
      is not the root, it keeps the name it has, which equals [nm] under
      the tree's comparison, and a later search returns [e] only for
      paths that equal [nm] under that comparison;
    - after a search, move to front included, every search returns what
      it would have returned before it.
    The comparison [PHYSFS_utf8stricmp] is taken to be an equivalence
    that relates only names with as many separators. *)
Theorem DirTreeFind_returns_added (case_sens usascii : bool) (dt : __PHYSFS_DirTree) :
  rtc tree_step (__PHYSFS_DirTreeInit case_sens usascii) dt ->
  (__PHYSFS_DirTreeFind dt [] = Some (dt, Ok (root dt)) /\ root dt = 0) /\
  (forall nm is_dir, file_above dt nm = false ->
     exists dt1 e, __PHYSFS_DirTreeAdd dt nm is_dir = Some (dt1, Ok e)) /\
  (forall nm is_dir dtf p, __PHYSFS_DirTreeFind dt nm = Some (dtf, Ok p) ->
     __PHYSFS_DirTreeAdd dt nm is_dir = Some (dtf, Ok p) /\
     length (entries dtf) = length (entries dt)) /\
  (forall nm is_dir dtf dt1 e,
     __PHYSFS_DirTreeFind dt nm = Some (dtf, Bail PHYSFS_ERR_NOT_FOUND) ->
     __PHYSFS_DirTreeAdd dt nm is_dir = Some (dt1, Ok e) ->
     length (entries dt) <= e /\ length (entries dt1) = Datatypes.S e /\
     exists en, entries dt1 !! e = Some en /\
       name (tree en) = nm /\ isdir (tree en) = is_dir) /\
  (forall nm is_dir dt1 e, __PHYSFS_DirTreeAdd dt nm is_dir = Some (dt1, Ok e) ->
     (nm <> [] ->
      e <> root dt1 /\
      exists n, ename (entries dt1) e = Some n /\ name_matches dt1 n nm = true) /\
     forall dt2, rtc tree_step dt1 dt2 ->
       (exists dt3, __PHYSFS_DirTreeFind dt2 nm = Some (dt3, Ok e)) /\
       ename (entries dt2) e = ename (entries dt1) e /\
       (nm <> [] -> forall path dt3,
          __PHYSFS_DirTreeFind dt2 path = Some (dt3, Ok e) ->
          name_matches dt2 nm path = true)) /\
  (forall path dt1 r, __PHYSFS_DirTreeFind dt path = Some (dt1, r) ->
     forall path2, exists dt2 dt3 r2,
       __PHYSFS_DirTreeFind dt path2 = Some (dt2, r2) /\
       __PHYSFS_DirTreeFind dt1 path2 = Some (dt3, r2)).
Proof.
  intros Hreach.
  destruct (tree_steps_grow Hcmp _ _ Hreach _ (tree_repr_init case_sens usascii))
    as (ch & k & Hrepr & Hg).
  assert (Hroot : root_dir dt)
    by (apply (root_dir_steps _ _ (tree_steps_kin _ _ Hreach)), root_dir_init).
  split; [split; [reflexivity|apply Hg]|]. split; [|split; [|split; [|split]]].
  - intros nm d Hfa. apply (DirTreeAdd_rec_succeeds _ dt ch nm d Hrepr); [lia|].
    apply file_above_false; assumption.
  - intros nm d dtf p Hfind. unfold __PHYSFS_DirTreeAdd. cbn [DirTreeAdd_rec].
    rewrite Hfind. cbn [mbind option_bind]. split; [reflexivity|].
    apply (DirTreeFind_kin _ _ _ _ Hfind).
  - intros nm d dtf dt1 e Hfind Hadd.
    destruct (DirTreeFind_spec dt ch nm Hrepr) as (dtA & chA & HfindA & _ & _).
    rewrite HfindA in Hfind. injection Hfind as _ Hres.
    assert (Hlk : tree_lookup dt ch nm = None)
      by (destruct (tree_lookup dt ch nm); [discriminate|reflexivity]).
    destruct (DirTreeAdd_rec_new Hcmp (length nm) dt ch nm d dt1 e Hrepr Hroot (le_n _) Hadd Hlk)
      as (dt2 & ch2 & ch1 & parent & pe & _ & (_ & Hlen2 & _) & _ & _ & Hpe & _ & -> & -> & _).
    split; [exact Hlen2|]. split; [apply length_push|].
    assert (Hk : kin (entries (push dt2 parent pe nm d)) (length (entries dt2)) =
                 Some (nm, None, children (tree pe), d)).
    { rewrite (kin_push_eq _ _ _ _ _ _ Hpe).
      destruct (decide (length (entries dt2) = length (entries dt2))); [reflexivity|congruence]. }
    apply kin_lookup in Hk as (en & Hen & Hn & _ & _ & Hd). eauto.
  - intros nm d dt1 e Hadd.
    destruct (DirTreeAdd_spec Hcmp dt ch nm d Hrepr) as (dt1' & ch1 & r & Hadd1 & Hrepr1 & Hg1 & Hres).
    rewrite Hadd1 in Hadd. injection Hadd as -> ->.
    destruct (Hres e eq_refl) as [Hlk _].
    assert (Hg01 : grows (__PHYSFS_DirTreeInit case_sens usascii) (fun _ => []) dt1 ch1
                     (Nat.max k (Datatypes.S (slashes nm)))).
    { eapply grows_trans; (eapply grows_mono; [eassumption|lia]). }
    split.
    { intros Hne. destruct (lookup_above_root _ _ _ _ _ _ _ Hg01 Hne Hlk) as (Hpos & n & Hn & Hm).
      split; [|eauto]. destruct Hg01 as ((_ & _ & _ & -> & _) & _). cbn. lia. }
    intros dt2 Hlater.
    destruct (tree_steps_grow Hcmp _ _ Hlater _ Hrepr1) as (ch2 & k2 & Hrepr2 & Hg2).
    pose proof (grows_lookup Hcmp dt1 ch1 dt2 ch2 k2 nm e Hrepr1 Hrepr2 Hg2 Hlk) as Hlk2.
    assert (Hen : ename (entries dt2) e = ename (entries dt1) e).
    { pose proof (tree_lookup_valid dt1 ch1 nm e Hrepr1 Hlk) as He.
      apply ename_is_Some in He as [n Hn]. rewrite Hn.
      destruct Hg2 as (_ & _ & Hkeep & _). apply Hkeep, Hn. }
    split; [|split; [exact Hen|]].
    + destruct (DirTreeFind_spec dt2 ch2 nm Hrepr2) as (dt3 & _ & Hfind & _).
      rewrite Hlk2 in Hfind. exists dt3. exact Hfind.
    + intros Hne path dt3 Hfind.
      assert (Hg02 : grows (__PHYSFS_DirTreeInit case_sens usascii) (fun _ => []) dt2 ch2
                       (Nat.max (Nat.max k (Datatypes.S (slashes nm))) k2)).
      { eapply grows_trans; (eapply grows_mono; [eassumption|lia]). }
      destruct (lookup_above_root _ _ _ _ _ _ _ Hg02 Hne Hlk2) as (Hpos & n & Hn & Hm).
      pose proof (DirTreeFind_lookup dt2 ch2 path dt3 e Hrepr2 Hfind) as Hlkp.
      destruct path as [|c path].
      { cbn in Hlkp. injection Hlkp as Hr.
        destruct Hg02 as ((_ & _ & _ & Hr0 & _) & _). rewrite Hr0 in Hr. cbn in Hr. lia. }
      assert (Hne' : c :: path <> []) by discriminate.
      destruct (lookup_above_root _ _ _ _ _ _ _ Hg02 Hne' Hlkp) as (_ & n' & Hn' & Hm').
      rewrite Hn in Hn'. injection Hn' as <-.
      apply (name_matches_trans Hcmp dt2 nm n (c :: path)); [|exact Hm'].
      apply (name_matches_sym Hcmp), Hm.
  - intros path dt1 r Hfind path2.
    destruct (DirTreeFind_spec dt ch path Hrepr) as (dt1' & ch1 & Hfind1 & Hrepr1 & Hsame).
    rewrite Hfind1 in Hfind. injection Hfind as -> _.
    destruct (DirTreeFind_spec dt ch path2 Hrepr) as (dt2 & _ & Hf2 & _).
    destruct (DirTreeFind_spec dt1 ch1 path2 Hrepr1) as (dt3 & _ & Hf3 & _).
    rewrite (tree_lookup_same_index Hcmp dt ch dt1 ch1 path2 Hrepr Hsame) in Hf3.
    eauto.
Qed.

End AddFind.

(** The tree [example_tree] after the addition of [maps/e2.map], and
    that one after the addition of [readme.txt] and a search for
    [maps/e1.map]. *)
Definition example_tree_added : __PHYSFS_DirTree :=
  Eval vm_compute in
    match @__PHYSFS_DirTreeAdd usascii_platform example_tree (cstr "maps/e2.map") false with
    | Some (dt, _) => dt
    | None => example_tree
    end.

Definition example_tree_later : __PHYSFS_DirTree :=
  Eval vm_compute in
    match @__PHYSFS_DirTreeAdd usascii_platform example_tree_added (cstr "readme.txt") false with
    | Some (dt, _) =>
        match @__PHYSFS_DirTreeFind usascii_platform dt (cstr "maps/e1.map") with
        | Some (dt', _) => dt'
        | None => dt
        end
    | None => example_tree_added
    end.

Lemma DirTreeFind_returns_added_witness :
  @__PHYSFS_DirTreeAdd usascii_platform example_tree (cstr "maps/e2.map") false
    = Some (example_tree_added, Ok 3) /\
  length (entries example_tree) = 3 /\ length (entries example_tree_added) = 4 /\
  (exists en, entries example_tree_added !! 3 = Some en /\
     name (tree en) = cstr "maps/e2.map" /\ isdir (tree en) = false) /\
  rtc (@tree_step usascii_platform) example_tree_added example_tree_later /\
  (exists dt3, @__PHYSFS_DirTreeFind usascii_platform example_tree_later (cstr "maps/e2.map")
               = Some (dt3, Ok 3)) /\
  ename (entries example_tree_later) 3 = Some (cstr "maps/e2.map").
Proof.
  assert (Hreach : rtc (@tree_step usascii_platform) (__PHYSFS_DirTreeInit false true)
                       example_tree).
  { apply rtc_once.
    apply (@tree_add usascii_platform _ (cstr "maps/e1.map") false _ (Ok 2)).
    vm_compute. reflexivity. }
  destruct (@DirTreeFind_returns_added usascii_platform usascii_stricmp_ok false true
              example_tree Hreach) as (_ & Hsucc & _ & Hnew & Hlater & _).
  destruct (Hsucc (cstr "maps/e2.map") false) as (dt1 & e & Hadd); [vm_compute; reflexivity|].
  assert (Hdt1 : dt1 = example_tree_added /\ e = 3).
  { vm_compute in Hadd. injection Hadd as <- <-. split; reflexivity. }
  destruct Hdt1 as [-> ->].
  assert (Hlater_steps : rtc (@tree_step usascii_platform) example_tree_added
                             example_tree_later).
  { eapply rtc_l.
    - eapply (@tree_add usascii_platform _ (cstr "readme.txt") false _ (Ok 4)).
      vm_compute. reflexivity.
    - apply rtc_once.
      eapply (@tree_find usascii_platform _ (cstr "maps/e1.map") _ (Ok 2)).
      vm_compute. reflexivity. }
  split; [exact Hadd|]. split; [reflexivity|].
  edestruct (Hnew (cstr "maps/e2.map") false) as (_ & Hlen & Hen).
  { vm_compute. reflexivity. }
  { exact Hadd. }
  split; [exact Hlen|]. split; [exact Hen|]. split; [exact Hlater_steps|].
  destruct (Hlater (cstr "maps/e2.map") false _ _ Hadd) as [_ Hl].
  destruct (Hl example_tree_later Hlater_steps) as (Hfind & Hname & _).
  split; [exact Hfind|]. rewrite Hname. reflexivity.
Defined.

(** ** C9: what a QPAK archive holds *)

(** *** What an addition leaves of the store *)

(** What the archive sees of an entry. *)
Definition face (e : UNPKentry) : list ascii * bool * Z * Z * Z * Z :=
  (name (tree e), isdir (tree e), startPos e, entry_size e, ctime e, mtime e).

Lemma face_sans (e e' : UNPKentry) : sans_hash e' = sans_hash e -> face e' = face e.
Proof.
  unfold sans_hash, with_tree, face. intros [= Hn _ _ Hd Hp Hs Hc Hm]. congruence.
Qed.

(** [es1] holds the entries of [es] with their faces, and its further
    entries meet [Q], by index, name and directory flag. *)
Definition extends (Q : nat -> list ascii -> bool -> Prop) (es es1 : list UNPKentry) : Prop :=
  length es <= length es1 /\
  (forall i e, es !! i = Some e -> exists e1, es1 !! i = Some e1 /\ face e1 = face e) /\
  (forall i e1, es1 !! i = Some e1 -> length es <= i ->
     Q i (name (tree e1)) (isdir (tree e1))).

Lemma extends_sans Q (es es1 : list UNPKentry) :
  sans_hash <$> es1 = sans_hash <$> es -> extends Q es es1.
Proof.
  intros Hs. assert (Hlen : length es1 = length es).
  { apply (f_equal length) in Hs. rewrite !length_fmap in Hs. exact Hs. }
  split; [lia|]. split.
  - intros i e He.
    assert (Hl : sans_hash <$> es1 !! i = Some (sans_hash e))
      by (rewrite <- list_lookup_fmap, Hs, list_lookup_fmap, He; reflexivity).
    destruct (es1 !! i) as [e1|]; [|discriminate]. cbn in Hl.
    exists e1. split; [reflexivity|]. apply face_sans. congruence.
  - intros i e1 He1 Hi. apply lookup_lt_Some in He1. lia.
Qed.

Lemma extends_trans (Q Q' Q'' : nat -> list ascii -> bool -> Prop) (es es1 es2 : list UNPKentry) :
  extends Q es es1 -> extends Q' es1 es2 ->
  (forall i n d, Q i n d -> Q'' i n d) -> (forall i n d, Q' i n d -> Q'' i n d) ->
  extends Q'' es es2.
Proof.
  intros (Hl1 & Ho1 & Hn1) (Hl2 & Ho2 & Hn2) HQ HQ'. split; [lia|]. split.
  - intros i e He. destruct (Ho1 i e He) as (e1 & He1 & Hf1).
    destruct (Ho2 i e1 He1) as (e2 & He2 & Hf2). exists e2. split; [exact He2|congruence].
  - intros i e2 He2 Hi. destruct (decide (i < length es1)) as [Hlt|Hge].
    + destruct (lookup_lt_is_Some_2 es1 i Hlt) as [e1 He1].
      destruct (Ho2 i e1 He1) as (e2' & He2' & Hf). rewrite He2 in He2'. injection He2' as <-.
      unfold face in Hf. injection Hf as Hn Hd _ _ _ _. rewrite Hn, Hd.
      apply HQ, (Hn1 i e1 He1 Hi).
    + apply HQ', (Hn2 i e2 He2). lia.
Qed.

Lemma extends_weaken (Q Q' : nat -> list ascii -> bool -> Prop) (es es1 : list UNPKentry) :
  extends Q es es1 -> (forall i n d, Q i n d -> Q' i n d) -> extends Q' es es1.
Proof.
  intros (Hl & Ho & Hn) HQ. split; [exact Hl|]. split; [exact Ho|].
  intros i e1 He1 Hi. apply HQ, (Hn i e1 He1 Hi).
Qed.

Lemma ancestors_shorter (nm a : list ascii) : a ∈ ancestors nm -> length a < length nm.
Proof.
  remember (length nm) as n eqn:Hn. revert nm a Hn.
  induction n as [n IH] using lt_wf_ind. intros nm a -> Ha.
  destruct (chop_last_slash nm) as [pre|] eqn:Hc.
  - rewrite (ancestors_chop nm pre Hc) in Ha. apply chop_last_slash_Some in Hc as [Hl _].
    apply elem_of_cons in Ha as [->|Ha]; [exact Hl|].
    pose proof (IH (length pre) Hl pre a eq_refl Ha). lia.
  - unfold ancestors in Ha. destruct nm as [|c nm]; cbn [length ancestors_fuel] in Ha.
    + inversion Ha.
    + rewrite Hc in Ha. inversion Ha.
Qed.

Section AddTrace.
Context `{Platform}.

Lemma extends_push dt parent pe nm is_dir :
  entries dt !! parent = Some pe ->
  extends (fun i n d => i = length (entries dt) /\ n = nm /\ d = is_dir)
          (entries dt) (entries (push dt parent pe nm is_dir)).
Proof.
  intros Hpe. split; [rewrite length_push; lia|]. split.
  - intros p e He. pose proof (lookup_lt_Some _ _ _ He) as Hlt.
    unfold push, set_children. cbn [entries].
    rewrite (lookup_app_l _ [_] parent) by (eapply lookup_lt_Some, Hpe). rewrite Hpe.
    destruct (decide (p = parent)) as [->|Hne].
    + rewrite list_lookup_insert_eq by (rewrite length_app; cbn; lia).
      eexists. split; [reflexivity|]. rewrite Hpe in He. injection He as <-. reflexivity.
    + rewrite list_lookup_insert_ne by congruence. rewrite lookup_app_l by exact Hlt.
      exists e. split; [exact He|reflexivity].
  - intros i e1 He1 Hi.
    assert (Hi' : i = length (entries dt)).
    { apply lookup_lt_Some in He1. rewrite length_push in He1. lia. }
    split; [exact Hi'|].
    assert (Hk : kin (entries (push dt parent pe nm is_dir)) i =
                 Some (nm, None, children (tree pe), is_dir)).
    { rewrite (kin_push_eq _ _ _ _ _ _ Hpe). destruct (decide (i = length (entries dt)));
        [reflexivity|congruence]. }
    unfold kin in Hk. rewrite He1 in Hk. cbn in Hk. injection Hk as Hn _ _ Hd.
    split; assumption.
Qed.

(** The entries an addition makes: the one it returns, with the name
    and the flag given, and directories above the name. *)
Definition added_by (nm : list ascii) (d : bool) (r : res nat)
  : nat -> list ascii -> bool -> Prop :=
  fun i n dd => (r = Ok i /\ n = nm /\ dd = d) \/ (n ∈ ancestors nm /\ dd = true).

Lemma DirTreeAdd_rec_trace fuel : forall dt nm d dt1 r,
  DirTreeAdd_rec fuel dt nm d = Some (dt1, r) ->
  extends (added_by nm d r) (entries dt) (entries dt1).
Proof.
  induction fuel as [|fuel IH]; intros dt nm d dt1 r; [discriminate|].
  cbn [DirTreeAdd_rec].
  destruct (__PHYSFS_DirTreeFind dt nm) as [[dtA found]|] eqn:Hf; [|discriminate].
  cbn [mbind option_bind]. apply DirTreeFind_sans in Hf.
  assert (Hanc : forall dt2 par,
            addAncestors (DirTreeAdd_rec fuel) dtA nm = Some (dt2, par) ->
            extends (fun _ n dd => n ∈ ancestors nm /\ dd = true) (entries dt) (entries dt2)).
  { intros dt2 par. unfold addAncestors.
    destruct (chop_last_slash nm) as [pre|] eqn:Hchop.
    - pose proof (ancestors_chop nm pre Hchop) as Ha.
      destruct (__PHYSFS_DirTreeFind dtA pre) as [[dtB r1]|] eqn:HfB; [|discriminate].
      cbn [mbind option_bind]. apply DirTreeFind_sans in HfB.
      assert (HsB : sans_hash <$> entries dtB = sans_hash <$> entries dt) by congruence.
      assert (Hrec : DirTreeAdd_rec fuel dtB pre true = Some (dt2, par) ->
                     extends (fun _ n dd => n ∈ ancestors nm /\ dd = true)
                             (entries dt) (entries dt2)).
      { intros Hadd. apply IH in Hadd.
        eapply extends_trans; [apply (extends_sans (fun _ _ _ => False)), HsB|exact Hadd| |].
        - intros i n dd [].
        - intros i n dd [(_ & -> & ->)|(Hn & ->)]; rewrite Ha;
            (split; [|reflexivity]); [left|right; exact Hn]. }
      destruct r1 as [p| |]; [|exact Hrec..].
      destruct (entries dtB !! p) as [e|]; [|discriminate]. cbn [mbind option_bind].
      destruct (isdir (tree e)); intros [= <- _]; apply extends_sans, HsB.
    - intros [= <- _]. apply extends_sans, Hf. }
  assert (Hnew : forall f, (forall p, found <> Ok p) -> found = f ->
    match addAncestors (DirTreeAdd_rec fuel) dtA nm with
    | Some (dt2, par) =>
        match par with
        | Ok parent =>
            pe ← entries dt2 !! parent;
            Some (push dt2 parent pe nm d, Ok (length (entries dt2)))
        | f => Some (dt2, errpass f)
        end
    | None => None
    end = Some (dt1, r) ->
    extends (added_by nm d r) (entries dt) (entries dt1)).
  { intros _ _ _.
    destruct (addAncestors (DirTreeAdd_rec fuel) dtA nm) as [[dt2 par]|] eqn:Ha; [|discriminate].
    specialize (Hanc dt2 par eq_refl).
    destruct par as [parent| |].
    - destruct (entries dt2 !! parent) as [pe|] eqn:Hpe; [|discriminate].
      cbn [mbind option_bind]. intros [= <- <-].
      eapply extends_trans; [exact Hanc|apply (extends_push dt2 parent pe nm d Hpe)| |].
      + intros i n dd Hq. right. exact Hq.
      + intros i n dd (-> & -> & ->). left. repeat split.
    - intros [= <- <-]. eapply extends_weaken; [exact Hanc|]. intros i n dd Hq. right. exact Hq.
    - intros [= <- <-]. eapply extends_weaken; [exact Hanc|]. intros i n dd Hq. right. exact Hq. }
  destruct found as [p| |].
  - intros [= <- <-]. apply extends_sans, Hf.
  - apply (Hnew _ ltac:(discriminate) eq_refl).
  - apply (Hnew _ ltac:(discriminate) eq_refl).
Qed.

End AddTrace.

(** *** An archive of nested names under construction *)

Section NestedArchive.
Context `{Platform}.
Hypothesis Hcmp : stricmp_ok.
Variable ua : bool.

(** In a tree that compares names by [strcmp], a name stands for an
    entry that bears it. *)
Lemma lookup_exact dt ch k nm p :
  grows (__PHYSFS_DirTreeInit true ua) (fun _ => []) dt ch k -> nm <> [] ->
  tree_lookup dt ch nm = Some p ->
  1 <= p /\ exists e, entries dt !! p = Some e /\ name (tree e) = nm.
Proof.
  intros Hg Hne Hlk.
  destruct (lookup_above_root _ _ _ _ _ _ _ Hg Hne Hlk) as (Hp & n & Hn & Hm).
  split; [exact Hp|]. unfold name_matches in Hm.
  destruct Hg as ((_ & Hcs & _) & _). cbn in Hcs. rewrite Hcs in Hm.
  apply Z.eqb_eq, strcmp_eq in Hm. subst n.
  unfold ename in Hn. destruct (entries dt !! p) as [e|]; [|discriminate].
  cbn in Hn. injection Hn as Hn. eauto.
Qed.

(** The state of the archive after the records [done]: every record is
    found under its name as a regular file with its position and size,
    every regular file of the tree is a record, and every directory but
    the root lies above a record. *)
Definition nest_inv (dt : __PHYSFS_DirTree) (done : list (list ascii * Z * Z)) : Prop :=
  root_dir dt /\
  exists ch k, tree_repr dt ch /\
    grows (__PHYSFS_DirTreeInit true ua) (fun _ => []) dt ch k /\
    (forall nm pos size, (nm, pos, size) ∈ done ->
       exists p e, tree_lookup dt ch nm = Some p /\ entries dt !! p = Some e /\
                   face e = (nm, false, pos, size, (-1)%Z, (-1)%Z)) /\
    (forall p e, entries dt !! p = Some e -> 1 <= p ->
       if isdir (tree e) then exists r, r ∈ done /\ name (tree e) ∈ ancestors r.1.1
       else exists pos size, (name (tree e), pos, size) ∈ done).

Lemma nest_inv_init : nest_inv (__PHYSFS_DirTreeInit true ua) [].
Proof.
  split; [apply root_dir_init|]. exists (fun _ => []), 0.
  split; [apply tree_repr_init|]. split; [apply grows_same_index, same_index_refl|]. split.
  - intros nm pos size Hin. inversion Hin.
  - intros p e He Hp. apply lookup_lt_Some in He. cbn in He. lia.
Qed.

Lemma nest_inv_step {S : Type} (arc : UNPKinfo S) done nm pos size :
  nest_inv (info_tree arc) done -> nm <> [] ->
  (forall r, r ∈ done ->
     (r.1.1 <> nm) /\ (r.1.1 ∉ ancestors nm) /\ (nm ∉ ancestors r.1.1)) ->
  exists arc1 e, UNPK_addEntry arc nm false (-1) (-1) pos size = Some (arc1, Ok e) /\
    info_io arc1 = info_io arc /\ nest_inv (info_tree arc1) ((nm, pos, size) :: done).
Proof.
  intros (Hroot & ch & k & Hrepr & Hg & Hdone & Hents) Hne Hind.
  set (dt := info_tree arc) in *.
  assert (Hold_name : forall p e, entries dt !! p = Some e -> 1 <= p ->
            name (tree e) <> nm /\ (name (tree e) ∈ ancestors nm -> isdir (tree e) = true)).
  { intros p e He Hp. pose proof (Hents p e He Hp) as Hc.
    destruct (isdir (tree e)).
    - destruct Hc as (r & Hr & Ha). split; [|reflexivity].
      intros Heq. rewrite Heq in Ha. destruct (Hind r Hr) as (_ & _ & Hn). contradiction.
    - destruct Hc as (pos' & size' & Hin). destruct (Hind _ Hin) as (Hn & Ha & _).
      cbn in Hn, Ha. split; [exact Hn|]. intros Hin'. contradiction. }
  assert (Hlk : tree_lookup dt ch nm = None).
  { destruct (tree_lookup dt ch nm) as [p|] eqn:Hlk; [|reflexivity]. exfalso.
    destruct (lookup_exact dt ch k nm p Hg Hne Hlk) as (Hp & e & He & Hn).
    destruct (Hold_name p e He Hp) as [Hneq _]. contradiction. }
  assert (Hno : no_file_above dt ch nm).
  { intros a p Ha Hlka. destruct a as [|c a'].
    - cbn in Hlka. injection Hlka as <-. exact Hroot.
    - assert (Hne' : c :: a' <> []) by discriminate.
      destruct (lookup_exact dt ch k _ p Hg Hne' Hlka) as (Hp & e & He & Hn).
      destruct (Hold_name p e He Hp) as [_ Hd]. rewrite Hn in Hd. specialize (Hd Ha).
      exists (name (tree e)), (children (tree e)), (sibling (tree e)).
      unfold kin. rewrite He. cbn. rewrite Hd. reflexivity. }
  destruct (DirTreeAdd_rec_succeeds Hcmp (Datatypes.S (length nm)) dt ch nm false Hrepr
              ltac:(lia) Hno) as (dt1 & e & Hadd).
  change (__PHYSFS_DirTreeAdd dt nm false = Some (dt1, Ok e)) in Hadd.
  destruct (DirTreeAdd_spec Hcmp dt ch nm false Hrepr)
    as (dt1' & ch1 & r & Hadd' & Hrepr1 & Hg1 & Hres).
  rewrite Hadd in Hadd'. injection Hadd' as <- <-.
  destruct (Hres e eq_refl) as [Hlk1 _].
  pose proof (DirTreeAdd_rec_trace _ _ _ _ _ _ Hadd) as (Hlen & Hold & Hnewq).
  assert (Hg01 : grows (__PHYSFS_DirTreeInit true ua) (fun _ => []) dt1 ch1
                   (Nat.max k (Datatypes.S (slashes nm)))).
  { eapply grows_trans; (eapply grows_mono; [eassumption|lia]). }
  destruct (lookup_exact dt1 ch1 _ nm e Hg01 Hne Hlk1) as (He1 & e0 & He0 & Hn0).
  assert (He_new : length (entries dt) <= e).
  { destruct (decide (length (entries dt) <= e)) as [|Hlt]; [assumption|exfalso].
    destruct (lookup_lt_is_Some_2 (entries dt) e ltac:(lia)) as [eo Heo].
    destruct (Hold e eo Heo) as (e1' & He1' & Hf). rewrite He0 in He1'. injection He1' as <-.
    unfold face in Hf. injection Hf as Hn _ _ _ _ _.
    destruct (Hold_name e eo Heo He1) as [Hneq _]. congruence. }
  assert (Hd0 : isdir (tree e0) = false).
  { destruct (Hnewq e e0 He0 He_new) as [(_ & _ & Hd)|(Ha & _)]; [exact Hd|exfalso].
    rewrite Hn0 in Ha. apply ancestors_shorter in Ha. lia. }
  unfold UNPK_addEntry. fold dt. rewrite Hadd. cbn [mbind option_bind]. rewrite He0.
  cbn [mbind option_bind].
  set (e1 := mkUNPKentry (tree e0) pos size (-1) (-1)).
  eexists _, e. split; [reflexivity|]. split; [reflexivity|]. cbn [info_tree].
  destruct (fields_repr dt1 ch1 e e0 e1 Hrepr1 He0 eq_refl) as [HreprF HsameF].
  set (dtF := mkDirTree (<[e := e1]> (entries dt1)) (root dt1) (hash dt1) (hashBuckets dt1)
                        (case_sensitive dt1) (only_usascii dt1)) in *.
  pose proof (lookup_lt_Some _ _ _ He0) as Helt.
  split.
  { apply (root_dir_steps dt); [|exact Hroot].
    etrans; [apply (DirTreeAdd_rec_steps _ _ _ _ _ _ Hadd)|].
    apply tree_step_kin. apply (tree_fields dt1 e e0 e1 He0 eq_refl). }
  exists ch1, (Nat.max k (Datatypes.S (slashes nm))).
  split; [exact HreprF|]. split; [|split].
  - eapply grows_trans; [exact Hg01|apply grows_same_index, HsameF].
  - intros nm' pos' size' Hin. apply elem_of_cons in Hin as [[= -> -> ->]|Hin].
    + exists e, e1. split; [|split].
      * rewrite (tree_lookup_same_index Hcmp dt1 ch1 dtF ch1 nm Hrepr1 HsameF). exact Hlk1.
      * unfold dtF. cbn [entries]. apply list_lookup_insert_eq. exact Helt.
      * unfold face, e1. cbn. rewrite Hn0, Hd0. reflexivity.
    + destruct (Hdone nm' pos' size' Hin) as (p & eo & Hlkp & Heo & Hface).
      destruct (Hold p eo Heo) as (e1' & He1' & Hf).
      exists p, e1'. split; [|split].
      * rewrite (tree_lookup_same_index Hcmp dt1 ch1 dtF ch1 nm' Hrepr1 HsameF).
        apply (grows_lookup Hcmp dt ch dt1 ch1 _ nm' p Hrepr Hrepr1 Hg1 Hlkp).
      * unfold dtF. cbn [entries]. rewrite list_lookup_insert_ne; [exact He1'|].
        apply lookup_lt_Some in Heo. lia.
      * congruence.
  - intros p ef Hef Hp. unfold dtF in Hef. cbn [entries] in Hef.
    destruct (decide (p = e)) as [->|Hpe].
    + rewrite list_lookup_insert_eq in Hef by exact Helt. injection Hef as <-.
      unfold e1. cbn [tree]. rewrite Hd0, Hn0. exists pos, size. left.
    + rewrite list_lookup_insert_ne in Hef by congruence.
      destruct (decide (p < length (entries dt))) as [Hlt|Hge].
      * destruct (lookup_lt_is_Some_2 (entries dt) p Hlt) as [eo Heo].
        destruct (Hold p eo Heo) as (e1' & He1' & Hf). rewrite Hef in He1'.
        injection He1' as <-. unfold face in Hf. injection Hf as Hn Hd _ _ _ _.
        rewrite Hn, Hd. pose proof (Hents p eo Heo Hp) as Hc.
        destruct (isdir (tree eo)).
        -- destruct Hc as (r & Hr & Ha). exists r. split; [right; exact Hr|exact Ha].
        -- destruct Hc as (pos' & size' & Hin). exists pos', size'. right. exact Hin.
      * destruct (Hnewq p ef Hef ltac:(lia)) as [(Hr & _ & _)|(Ha & Hd)]; [congruence|].
        rewrite Hd. exists (nm, pos, size). split; [left|exact Ha].
Qed.

End NestedArchive.

(** *** Names that can be added one after the other *)

(** Two names clash when they are equal or one lies above the other. *)
Definition name_clash (a b : list ascii) : bool :=
  bool_decide (a = b) || bool_decide (a ∈ ancestors b) || bool_decide (b ∈ ancestors a).

(** No name is empty, and none clashes with one before it or with one
    of [seen]. *)
Fixpoint names_ok (seen names : list (list ascii)) : bool :=
  match names with
  | [] => true
  | nm :: rest =>
      negb (bool_decide (nm = [])) && forallb (fun s => negb (name_clash s nm)) seen &&
      names_ok (nm :: seen) rest
  end.

Definition rec_name (r : list ascii * Z * Z) : list ascii := r.1.1.

Section NestedAll.
Context `{Platform}.
Hypothesis Hcmp : stricmp_ok.
Variable ua : bool.

Lemma nest_inv_add_all {S : Type} (recs : list (list ascii * Z * Z)) :
  forall (arc : UNPKinfo S) done,
  nest_inv ua (info_tree arc) done ->
  names_ok (map rec_name done) (map rec_name recs) = true ->
  exists arc' done',
    UNPK_add_all recs arc = Some (arc', Ok tt) /\ info_io arc' = info_io arc /\
    nest_inv ua (info_tree arc') done' /\
    (forall r, r ∈ done' <-> r ∈ recs \/ r ∈ done).
Proof.
  induction recs as [|[[nm pos] size] rest IH]; intros arc done Hinv Hok.
  - exists arc, done. split; [reflexivity|]. split; [reflexivity|]. split; [exact Hinv|].
    intros r. split; [tauto|]. intros [Hr|Hr]; [inversion Hr|exact Hr].
  - cbn [map names_ok rec_name fst] in Hok.
    apply andb_true_iff in Hok as [Hok Hrest]. apply andb_true_iff in Hok as [Hne Hseen].
    apply negb_true_iff, bool_decide_eq_false in Hne.
    destruct (nest_inv_step Hcmp ua arc done nm pos size Hinv Hne) as (arc1 & e & Hadd & Hio & Hinv1).
    { intros r Hr. rewrite forallb_forall in Hseen.
      assert (Hc : name_clash (rec_name r) nm = false).
      { apply negb_true_iff, Hseen, in_map, list_elem_of_In, Hr. }
      unfold name_clash in Hc. apply orb_false_iff in Hc as [Hc H3].
      apply orb_false_iff in Hc as [H1 H2].
      apply bool_decide_eq_false in H1, H2, H3. unfold rec_name in *. repeat split; assumption. }
    destruct (IH arc1 ((nm, pos, size) :: done) Hinv1 Hrest)
      as (arc' & done' & Hall & Hio' & Hinv' & Hmem).
    exists arc', done'. cbn [UNPK_add_all]. rewrite Hadd. cbn [mbind option_bind].
    split; [exact Hall|]. split; [congruence|]. split; [exact Hinv'|].
    intros r. rewrite Hmem, !elem_of_cons. tauto.
Qed.

End NestedAll.

(** *** Trees that compare by [strcmp] do not look at the platform's
    comparison *)

(** The platform with [strcmp] for its comparison. *)
Definition strict_platform (P : Platform) : Platform := {|
  char_signed := @char_signed P;
  PHYSFS_utf8stricmp := strcmp;
  __PHYSFS_hashStringCaseFold := @__PHYSFS_hashStringCaseFold P
|}.

Lemma strict_stricmp_ok (P : Platform) : @stricmp_ok (strict_platform P).
Proof.
  split; cbn [PHYSFS_utf8stricmp strict_platform].
  - intros a. apply strcmp_refl.
  - intros a b. rewrite !strcmp_eq. congruence.
  - intros a b c. rewrite !strcmp_eq. congruence.
  - intros a b. rewrite strcmp_eq. congruence.
Qed.

Section Strict.
Context (P : Platform).

Lemma find_loop_strict fuel : forall dt path b prev r,
  case_sensitive dt = true ->
  @find_loop P fuel dt path b prev r = @find_loop (strict_platform P) fuel dt path b prev r.
Proof.
  induction fuel as [|fuel IH]; intros dt path b prev r Hcs;
    destruct r as [r|]; cbn [find_loop]; try reflexivity.
  destruct (entries dt !! r) as [e|]; cbn [mbind option_bind]; [|reflexivity].
  assert (Hm : @name_matches P dt (name (tree e)) path =
               @name_matches (strict_platform P) dt (name (tree e)) path)
    by (unfold name_matches; rewrite Hcs; reflexivity).
  rewrite Hm.
  destruct (@name_matches (strict_platform P) dt (name (tree e)) path); [reflexivity|].
  apply IH, Hcs.
Qed.

Lemma find_loop_cs fuel : forall dt path b prev r dt' o,
  @find_loop P fuel dt path b prev r = Some (dt', o) ->
  case_sensitive dt' = case_sensitive dt.
Proof.
  induction fuel as [|fuel IH]; intros dt path b prev r dt' o;
    destruct r as [r|]; cbn [find_loop]; try discriminate;
    try (intros [= <- _]; reflexivity).
  destruct (entries dt !! r) as [e|]; cbn [mbind option_bind]; [|discriminate].
  destruct (name_matches dt (name (tree e)) path).
  - destruct prev; intros [= <- _]; reflexivity.
  - apply IH.
Qed.

Lemma DirTreeFind_strict dt path :
  case_sensitive dt = true ->
  @__PHYSFS_DirTreeFind P dt path = @__PHYSFS_DirTreeFind (strict_platform P) dt path.
Proof.
  intros Hcs. unfold __PHYSFS_DirTreeFind. destruct path as [|c path]; [reflexivity|].
  rewrite (find_loop_strict _ dt (c :: path) _ None _ Hcs). reflexivity.
Qed.

Lemma DirTreeFind_cs dt path dt' r :
  @__PHYSFS_DirTreeFind P dt path = Some (dt', r) -> case_sensitive dt' = case_sensitive dt.
Proof.
  unfold __PHYSFS_DirTreeFind. destruct path as [|c path]; [intros [= <- _]; reflexivity|].
  destruct (find_loop _ dt (c :: path) _ None _) as [[dt1 o]|] eqn:Hf; [|discriminate].
  cbn [mbind option_bind]. apply find_loop_cs in Hf.
  destruct o; intros [= <- _]; exact Hf.
Qed.

Lemma DirTreeAdd_rec_cs fuel : forall dt nm d dt1 r,
  @DirTreeAdd_rec P fuel dt nm d = Some (dt1, r) -> case_sensitive dt1 = case_sensitive dt.
Proof.
  induction fuel as [|fuel IH]; intros dt nm d dt1 r; [discriminate|].
  cbn [DirTreeAdd_rec].
  destruct (__PHYSFS_DirTreeFind dt nm) as [[dtA found]|] eqn:Hf; [|discriminate].
  cbn [mbind option_bind]. apply DirTreeFind_cs in Hf.
  assert (Hanc : forall dt2 par,
            addAncestors (DirTreeAdd_rec fuel) dtA nm = Some (dt2, par) ->
            case_sensitive dt2 = case_sensitive dt).
  { intros dt2 par. unfold addAncestors. destruct (chop_last_slash nm) as [pre|].
    - destruct (__PHYSFS_DirTreeFind dtA pre) as [[dtB r1]|] eqn:HfB; [|discriminate].
      cbn [mbind option_bind]. apply DirTreeFind_cs in HfB.
      destruct r1 as [p| |].
      + destruct (entries dtB !! p) as [e|]; [|discriminate]. cbn [mbind option_bind].
        destruct (isdir (tree e)); intros [= <- _]; congruence.
      + intros Hadd. apply IH in Hadd. congruence.
      + intros Hadd. apply IH in Hadd. congruence.
    - intros [= <- _]. exact Hf. }
  assert (Hnew :
    match addAncestors (DirTreeAdd_rec fuel) dtA nm with
    | Some (dt2, par) =>
        match par with
        | Ok parent =>
            pe ← entries dt2 !! parent;
            Some (push dt2 parent pe nm d, Ok (length (entries dt2)))
        | f => Some (dt2, errpass f)
        end
    | None => None
    end = Some (dt1, r) -> case_sensitive dt1 = case_sensitive dt).
  { destruct (addAncestors (DirTreeAdd_rec fuel) dtA nm) as [[dt2 par]|] eqn:Ha; [|discriminate].
    specialize (Hanc dt2 par eq_refl). destruct par as [parent| |].
    - destruct (entries dt2 !! parent) as [pe|]; [|discriminate].
      cbn [mbind option_bind]. intros [= <- _]. exact Hanc.
    - intros [= <- _]. exact Hanc.
    - intros [= <- _]. exact Hanc. }
  destruct found as [p| |]; [intros [= <- _]; exact Hf|exact Hnew..].
Qed.

Lemma DirTreeAdd_rec_strict fuel : forall dt nm d,
  case_sensitive dt = true ->
  @DirTreeAdd_rec P fuel dt nm d = @DirTreeAdd_rec (strict_platform P) fuel dt nm d.
Proof.
  induction fuel as [|fuel IH]; intros dt nm d Hcs; [reflexivity|].
  cbn [DirTreeAdd_rec]. rewrite <- (DirTreeFind_strict dt nm Hcs).
  destruct (@__PHYSFS_DirTreeFind P dt nm) as [[dtA found]|] eqn:Hf; [|reflexivity].
  cbn [mbind option_bind]. apply DirTreeFind_cs in Hf. rewrite Hcs in Hf.
  assert (Hanc : @addAncestors P (@DirTreeAdd_rec P fuel) dtA nm =
                 @addAncestors (strict_platform P) (@DirTreeAdd_rec (strict_platform P) fuel)
                               dtA nm).
  { unfold addAncestors. destruct (chop_last_slash nm) as [pre|]; [|reflexivity].
    rewrite <- (DirTreeFind_strict dtA pre Hf).
    destruct (@__PHYSFS_DirTreeFind P dtA pre) as [[dtB r1]|] eqn:HfB; [|reflexivity].
    cbn [mbind option_bind]. apply DirTreeFind_cs in HfB. rewrite Hf in HfB.
    destruct r1; [reflexivity|apply IH, HfB..]. }
  destruct found as [p| |]; [reflexivity|rewrite Hanc; reflexivity..].
Qed.

Lemma UNPK_addEntry_strict {S : Type} (arc : UNPKinfo S) nm d ct mt pos len :
  case_sensitive (info_tree arc) = true ->
  @UNPK_addEntry S P arc nm d ct mt pos len =
  @UNPK_addEntry S (strict_platform P) arc nm d ct mt pos len.
Proof.
  intros Hcs. unfold UNPK_addEntry, __PHYSFS_DirTreeAdd.
  rewrite (DirTreeAdd_rec_strict _ _ nm d Hcs). reflexivity.
Qed.

Lemma UNPK_addEntry_cs {S : Type} (arc arc1 : UNPKinfo S) nm d ct mt pos len r :
  @UNPK_addEntry S P arc nm d ct mt pos len = Some (arc1, r) ->
  case_sensitive (info_tree arc1) = case_sensitive (info_tree arc).
Proof.
  unfold UNPK_addEntry, __PHYSFS_DirTreeAdd.
  destruct (DirTreeAdd_rec _ (info_tree arc) nm d) as [[dt r1]|] eqn:Ha; [|discriminate].
  cbn [mbind option_bind]. apply DirTreeAdd_rec_cs in Ha.
  destruct r1 as [p| |]; try (intros [= <- _]; exact Ha).
  destruct (entries dt !! p); [|discriminate]. cbn [mbind option_bind].
  intros [= <- _]. exact Ha.
Qed.

Lemma UNPK_add_all_strict {S : Type} (recs : list (list ascii * Z * Z)) :
  forall arc : UNPKinfo S,
  case_sensitive (info_tree arc) = true ->
  @UNPK_add_all S P recs arc = @UNPK_add_all S (strict_platform P) recs arc.
Proof.
  induction recs as [|[[nm pos] size] rest IH]; intros arc Hcs; [reflexivity|].
  cbn [UNPK_add_all]. rewrite <- (UNPK_addEntry_strict arc nm false _ _ pos size Hcs).
  destruct (@UNPK_addEntry S P arc nm false (-1) (-1) pos size) as [[arc1 r]|] eqn:Ha;
    [|reflexivity].
  cbn [mbind option_bind]. apply UNPK_addEntry_cs in Ha. rewrite Hcs in Ha.
  destruct r; [apply IH, Ha|reflexivity..].
Qed.

End Strict.

(** *** The QPAK loader on an archive in memory *)

Lemma qpak_table_bounds (bs : list byte) (n : nat) : forall (p : nat) recs nm pos size,
  qpak_table bs p n = Some recs -> (nm, pos, size) ∈ recs ->
  (0 <= pos < 2 ^ 32)%Z /\ (0 <= size < 2 ^ 32)%Z.
Proof.
  induction n as [|n IH]; intros p recs nm pos size; cbn [qpak_table].
  - intros [= <-] Hin. inversion Hin.
  - destruct (qpak_name _) as [nm0|]; cbn [mbind option_bind]; [|discriminate].
    destruct (qpak_table bs (p + 64) n) as [rest|] eqn:Ht; cbn [mbind option_bind];
      [|discriminate].
    intros [= <-] Hin. apply elem_of_cons in Hin as [[= -> -> ->]|Hin].
    + split; apply le32_bounds.
    + apply (IH _ _ _ _ _ Ht Hin).
Qed.

Section QpakHolds.
Context `{P : Platform}.

(** When the table lies in the file and its records can be added, the
    loader adds them. *)
Lemma qpakLoadEntries_loop_adds (bs : list byte) (n : nat) :
  forall (p : nat) (t : __PHYSFS_DirTree) recs (arc : UNPKinfo MemoryIoInfo),
  (Z.of_nat (length bs) < 2 ^ 64)%Z -> p + 64 * n <= length bs ->
  qpak_table bs p n = Some recs ->
  UNPK_add_all recs (mkUNPKinfo t (memory_at bs (p + 64 * n))) = Some (arc, Ok tt) ->
  qpakLoadEntries_loop n (mkUNPKinfo t (memory_at bs p)) = Some (arc, Ok tt).
Proof.
  induction n as [|n IH]; intros p t recs arc Hlen Hb Ht Hall.
  - cbn [qpak_table] in Ht. injection Ht as <-. cbn [UNPK_add_all] in Hall.
    replace (p + 64 * 0) with p in Hall by lia. exact Hall.
  - cbn [qpak_table] in Ht.
    destruct (qpak_name (slice bs p 56)) as [nm|] eqn:Hnm; cbn [mbind option_bind] in Ht;
      [|discriminate].
    destruct (qpak_table bs (p + 64) n) as [rest|] eqn:Hrest; cbn [mbind option_bind] in Ht;
      [|discriminate].
    injection Ht as <-. cbn [UNPK_add_all] in Hall.
    destruct (UNPK_addEntry _ nm false _ _ _ _) as [[arc1 r]|] eqn:Hadd; [|discriminate].
    cbn [mbind option_bind] in Hall. destruct r as [q| |]; try discriminate.
    assert (Hio1 : arc1 = mkUNPKinfo (info_tree arc1)
                                     (memory_at bs (p + 64 * Datatypes.S n))).
    { rewrite (UNPK_addEntry_io _ _ (memory_at bs 0)) in Hadd.
      destruct (UNPK_addEntry _ _ _ _ _ _ _) as [[arc0 r0]|]; [|discriminate].
      injection Hadd as <- _. reflexivity. }
    cbn [qpakLoadEntries_loop info_io info_tree].
    rewrite readAll_memory by (assumption || lia).
    destruct (decide (p + 56 <= length bs)); [|lia].
    rewrite readAll_memory by (assumption || lia).
    destruct (decide (p + 56 + 4 <= length bs)); [|lia].
    rewrite readAll_memory by (assumption || lia).
    destruct (decide (p + 56 + 4 + 4 <= length bs)); [|lia].
    replace (p + 56 + 4) with (p + 60) by lia.
    rewrite Hnm. cbn [mbind option_bind].
    rewrite (UNPK_addEntry_io t _ (memory_at bs (p + 64 * Datatypes.S n))).
    rewrite Hadd. cbn [mbind option_bind info_tree].
    replace (p + 60 + 4) with (p + 64) by lia.
    apply (IH (p + 64) _ rest); [exact Hlen|lia|exact Hrest|].
    replace (p + 64 + 64 * n) with (p + 64 * Datatypes.S n) by lia.
    rewrite <- Hio1. exact Hall.
Qed.

(** C9.  Take an archive held in memory whose 12-byte header starts with
    "PACK", opened for reading.  If the directory length is not a
    multiple of 64 the open claims the stream and fails with CORRUPT.
    If it is, the open goes to [dir_off] and reads [dir_len / 64]
    records of 64 bytes.  It returns an archive only if these lie inside
    the file.  When they do, every name field holds a NUL, no name is
    empty and no two records bear the same name or a name and a
    directory above it, the open succeeds, leaves the stream behind the
    directory, and the archive holds the records: every regular file of
    its tree is one of the records; every record is found by its name,
    as a regular file with the position and the size of the record; and
    when the bytes of a record lie inside the file, [UNPK_openRead] on
    its name succeeds and reading to the end delivers them. *)
Theorem QPAK_openArchive_spec (bs : list byte) :
  (Z.of_nat (length bs) < 2 ^ 64)%Z -> 12 <= length bs ->
  slice bs 0 4 = list_byte_of_string "PACK" ->
  let dir_off := Z.to_nat (qpak_dir_off bs) in
  let count := Z.to_nat (qpak_dir_len bs / 64) in
  ((qpak_dir_len bs mod 64 <> 0)%Z ->
     QPAK_openArchive (__PHYSFS_createMemoryIo bs) false
       = Some (memory_at bs 12, true, Bail PHYSFS_ERR_CORRUPT)) /\
  ((qpak_dir_len bs mod 64 = 0)%Z ->
     (forall io' claimed arc,
        QPAK_openArchive (__PHYSFS_createMemoryIo bs) false = Some (io', claimed, Ok arc) ->
        dir_off + 64 * count <= length bs) /\
     (forall recs,
        dir_off + 64 * count <= length bs ->
        qpak_table bs dir_off count = Some recs ->
        names_ok [] (map rec_name recs) = true ->
        exists arc,
          QPAK_openArchive (__PHYSFS_createMemoryIo bs) false
            = Some (memory_at bs (dir_off + 64 * count), true, Ok arc) /\
          length recs = count /\
          (forall p e, entries (info_tree arc) !! p = Some e -> isdir (tree e) = false ->
             exists pos size, (name (tree e), pos, size) ∈ recs) /\
          forall nm pos size, (nm, pos, size) ∈ recs ->
            (exists dt' p e,
               __PHYSFS_DirTreeFind (info_tree arc) nm = Some (dt', Ok p) /\
               entries dt' !! p = Some e /\
               name (tree e) = nm /\ isdir (tree e) = false /\
               startPos e = pos /\ entry_size e = size) /\
            (forall dh fuel chunk,
               (Z.of_nat (length bs) < 2 ^ 63)%Z ->
               (pos + size <= Z.of_nat (length bs))%Z ->
               (0 < chunk <= maxlen)%Z -> Z.to_nat size < fuel ->
               exists info2 finfo,
                 UNPK_openRead arc nm = Some (info2, Ok finfo) /\
                 UNPK_length finfo = size /\
                 read_to_eof fuel (mkFileHandle finfo true dh None 0 0 0) chunk =
                   Some (slice bs (Z.to_nat pos) (Z.to_nat size))))).
Proof.
  intros Hlen H12 Hsig dir_off count.
  assert (Hhead :
     QPAK_openArchive (__PHYSFS_createMemoryIo bs) false =
       if negb (qpak_dir_len bs mod 64 =? 0)%Z
       then Some (memory_at bs 12, true, Bail PHYSFS_ERR_CORRUPT)
       else
         let '(io4, r4) := io_seek (memory_at bs 12) (qpak_dir_off bs) in
         match r4 with
         | Ok _ =>
             '(arc, r) ← qpakLoadEntries (qpak_dir_len bs / 64)
                                         (UNPK_openArchive io4 true false);
             match r with
             | Ok _ => Some (info_io arc, true, Ok arc)
             | f => Some (info_io arc, true, errpass f)
             end
         | f => Some (io4, true, errpass f)
         end).
  { unfold QPAK_openArchive. cbn [negb].
    change (__PHYSFS_createMemoryIo bs) with (memory_at bs 0).
    rewrite readAll_memory by (assumption || lia).
    destruct (decide (0 + 4 <= length bs)); [|lia].
    rewrite Hsig. change (le32 (list_byte_of_string "PACK") =? QPAK_SIG)%Z with true.
    rewrite readAll_memory by (assumption || lia).
    destruct (decide (0 + 4 + 4 <= length bs)); [|lia].
    rewrite readAll_memory by (assumption || lia).
    destruct (decide (0 + 4 + 4 + 4 <= length bs)); [|lia].
    reflexivity. }
  pose proof (le32_bounds (slice bs 4 4)) as Hoff. fold (qpak_dir_off bs) in Hoff.
  pose proof (le32_bounds (slice bs 8 4)) as Hdl. fold (qpak_dir_len bs) in Hdl.
  split.
  { intros Hmod. rewrite Hhead.
    destruct (Z.eqb_spec (qpak_dir_len bs mod 64) 0); [contradiction|reflexivity]. }
  intros Hmod. rewrite Hhead.
  destruct (Z.eqb_spec (qpak_dir_len bs mod 64) 0) as [_|]; [|contradiction]. cbn [negb].
  cbn [io_seek __PHYSFS_memoryIoInterface].
  unfold memoryIo_seek, mem_len, memory_at. cbn [mem_buf mem_pos].
  split.
  - intros io' claimed arc Hopen.
    destruct (Z.ltb_spec (Z.of_nat (length bs)) (qpak_dir_off bs)); [discriminate|].
    destruct (qpakLoadEntries _ _) as [[arc1 [[]| |]]|] eqn:Hload;
      cbn [mbind option_bind] in Hopen; try discriminate.
    unfold qpakLoadEntries, UNPK_openArchive in Hload.
    replace (mkMemoryIoInfo bs (qpak_dir_off bs)) with (memory_at bs dir_off) in Hload
      by (unfold memory_at, dir_off; rewrite Z2Nat.id by lia; reflexivity).
    fold count in Hload.
    apply qpakLoadEntries_loop_memory in Hload as (Hb & _); [exact Hb|assumption|].
    unfold dir_off. lia.
  - intros recs Hb Ht Hok.
    destruct (Z.ltb_spec (Z.of_nat (length bs)) (qpak_dir_off bs)); [unfold dir_off in Hb; lia|].
    unfold qpakLoadEntries, UNPK_openArchive.
    replace (mkMemoryIoInfo bs (qpak_dir_off bs)) with (memory_at bs dir_off)
      by (unfold memory_at, dir_off; rewrite Z2Nat.id by lia; reflexivity).
    fold count.
    set (arc0 := mkUNPKinfo (__PHYSFS_DirTreeInit true false)
                            (memory_at bs (dir_off + 64 * count))).
    destruct (@nest_inv_add_all (strict_platform P) (strict_stricmp_ok P) false
                MemoryIoInfo recs arc0 [] (nest_inv_init false) Hok)
      as (arc & done' & Hall & Hio & Hinv & Hmem).
    rewrite <- (UNPK_add_all_strict P recs arc0 eq_refl) in Hall.
    rewrite (qpakLoadEntries_loop_adds bs count dir_off _ recs arc Hlen Hb Ht Hall).
    cbn [mbind option_bind]. rewrite Hio. cbn [info_io arc0].
    exists arc. split; [reflexivity|]. split; [apply (qpak_table_length _ _ _ _ Ht)|].
    destruct Hinv as (Hroot & ch & k & Hrepr & Hg & Hdone & Hents).
    assert (Hcs : case_sensitive (info_tree arc) = true) by apply Hg.
    assert (Hr0 : root (info_tree arc) = 0) by apply Hg.
    split.
    + intros p e He Hd. destruct (decide (1 <= p)) as [Hp|Hp].
      * pose proof (Hents p e He Hp) as Hc. rewrite Hd in Hc.
        destruct Hc as (pos & size & Hin). apply Hmem in Hin as [Hin|Hin]; [eauto|inversion Hin].
      * exfalso. destruct Hroot as (n & c & s & Hk). rewrite Hr0 in Hk.
        replace p with 0 in He by lia. unfold kin in Hk. rewrite He in Hk. cbn in Hk.
        congruence.
    + intros nm pos size Hin.
      destruct (Hdone nm pos size) as (p & e & Hlk & He & Hface); [apply Hmem; left; exact Hin|].
      destruct (@DirTreeFind_spec (strict_platform P) (info_tree arc) ch nm Hrepr)
        as (dt' & ch' & Hfind & _ & _).
      rewrite <- (DirTreeFind_strict P _ nm Hcs), Hlk in Hfind. cbn [find_result] in Hfind.
      pose proof (DirTreeFind_sans _ _ _ _ Hfind) as Hsans.
      assert (He' : exists e', entries dt' !! p = Some e' /\ face e' = face e).
      { assert (Hl : sans_hash <$> entries dt' !! p = Some (sans_hash e))
          by (rewrite <- list_lookup_fmap, Hsans, list_lookup_fmap, He; reflexivity).
        destruct (entries dt' !! p) as [e'|]; [|discriminate]. cbn in Hl.
        exists e'. split; [reflexivity|]. apply face_sans. congruence. }
      destruct He' as (e' & He' & Hf'). rewrite Hface in Hf'. unfold face in Hf'.
      injection Hf' as Hn Hd Hsp Hsz _ _.
      split; [exists dt', p, e'; repeat split; assumption|].
      intros dh fuel chunk Hlen63 Hfit Hchunk Hfuel.
      destruct (qpak_table_bounds bs count dir_off recs nm pos size Ht Hin) as [Hpos Hsize].
      destruct (UNPK_openRead_found bs (fun info => Z.to_nat (mem_pos info)) (memory_at_file bs)
                  (memoryIo_file_stream bs Hlen63)
                  (fun s Hs => memoryIo_zero_read bs s Hlen63 Hs) (memoryIo_dup bs)
                  arc nm dt' p e' pos size dh fuel chunk Hfind He' Hd Hsp Hsz)
        as (info2 & finfo & Hopen & _ & _ & Hl & Hread); try assumption; try lia.
      * rewrite Hio. unfold arc0. cbn [info_io]. split; [reflexivity|].
        unfold mem_len, memory_at. cbn [mem_pos mem_buf]. lia.
      * exists info2, finfo. split; [exact Hopen|]. split; [exact Hl|exact Hread].
Qed.

End QpakHolds.

(** A PAK file whose header announces a directory of one record at
    offset 12 and that ends after the header; one whose second record
    lies under the regular file of the first; and one with two records
    under [maps]. *)
Definition qpak_no_directory : list byte :=
  list_byte_of_string "PACK" ++ [x0c; x00; x00; x00] ++ [x40; x00; x00; x00].

Definition qpak_file_above : list byte :=
  list_byte_of_string "PACK" ++ [x0c; x00; x00; x00] ++ [x80; x00; x00; x00] ++
  list_byte_of_string "maps" ++ replicate 52 x00 ++
  [x8c; x00; x00; x00] ++ [x00; x00; x00; x00] ++
  list_byte_of_string "maps/e1m1.bsp" ++ replicate 43 x00 ++
  [x8c; x00; x00; x00] ++ [x04; x00; x00; x00] ++ list_byte_of_string "data".

Definition qpak_two_entries : list byte :=
  list_byte_of_string "PACK" ++ [x0c; x00; x00; x00] ++ [x80; x00; x00; x00] ++
  list_byte_of_string "maps/e1m1.bsp" ++ replicate 43 x00 ++
  [x8c; x00; x00; x00] ++ [x04; x00; x00; x00] ++
  list_byte_of_string "maps/e1m2.bsp" ++ replicate 43 x00 ++
  [x90; x00; x00; x00] ++ [x03; x00; x00; x00] ++
  list_byte_of_string "data" ++ list_byte_of_string "abc".

(** C9, the claim as stated fails: a directory length that is a multiple
    of 64 does not make the archive parse.  [qpak_no_directory] has the
    signature and a directory length of 64, and its directory lies
    behind the end of the file: the open claims the stream and fails on
    the first read.  [qpak_file_above] has the signature, a directory
    length of 128 and both records inside the file: the open claims the
    stream and fails with CORRUPT, as the second name lies under the
    first, a regular file. *)
Lemma QPAK_multiple_of_64_not_parsed :
  (slice qpak_no_directory 0 4 = list_byte_of_string "PACK" /\
   qpak_dir_off qpak_no_directory = 12%Z /\ qpak_dir_len qpak_no_directory = 64%Z /\
   length qpak_no_directory = 12 /\
   QPAK_openArchive (H0 := usascii_platform) (__PHYSFS_createMemoryIo qpak_no_directory) false
     = Some (memory_at qpak_no_directory 12, true, Failed)) /\
  (slice qpak_file_above 0 4 = list_byte_of_string "PACK" /\
   qpak_dir_off qpak_file_above = 12%Z /\ qpak_dir_len qpak_file_above = 128%Z /\
   length qpak_file_above = 144 /\
   qpak_table qpak_file_above 12 2 =
     Some [(cstr "maps", 140%Z, 0%Z); (cstr "maps/e1m1.bsp", 140%Z, 4%Z)] /\
   QPAK_openArchive (H0 := usascii_platform) (__PHYSFS_createMemoryIo qpak_file_above) false
     = Some (memory_at qpak_file_above 140, true, Bail PHYSFS_ERR_CORRUPT)).
Proof. vm_compute. repeat split. Qed.

Lemma QPAK_openArchive_spec_witness :
  QPAK_openArchive (H0 := usascii_platform) (__PHYSFS_createMemoryIo qpak_corrupt) false
    = Some (memory_at qpak_corrupt 12, true, Bail PHYSFS_ERR_CORRUPT) /\
  exists arc info2 finfo,
    QPAK_openArchive (H0 := usascii_platform) (__PHYSFS_createMemoryIo qpak_two_entries) false
      = Some (memory_at qpak_two_entries 140, true, Ok arc) /\
    UNPK_openRead (H0 := usascii_platform) arc (cstr "maps/e1m2.bsp") = Some (info2, Ok finfo) /\
    UNPK_length finfo = 3%Z /\
    read_to_eof 4 (mkFileHandle finfo true 0 None 0 0 0) 2 = Some (list_byte_of_string "abc").
Proof.
  split.
  - apply (QPAK_openArchive_spec (P := usascii_platform) qpak_corrupt);
      vm_compute; (reflexivity || discriminate || lia).
  - destruct (QPAK_openArchive_spec (P := usascii_platform) qpak_two_entries) as [_ Hs];
      [vm_compute; reflexivity | vm_compute; lia | vm_compute; reflexivity|].
    destruct (Hs ltac:(vm_compute; reflexivity)) as [_ Hsucc].
    destruct (Hsucc [(cstr "maps/e1m1.bsp", 140%Z, 4%Z); (cstr "maps/e1m2.bsp", 144%Z, 3%Z)])
      as (arc & Hopen & _ & _ & Hrecs).
    + vm_compute. lia.
    + vm_compute. reflexivity.
    + vm_compute. reflexivity.
    + destruct (Hrecs (cstr "maps/e1m2.bsp") 144%Z 3%Z) as [_ Hread].
      { apply elem_of_cons. right. apply elem_of_cons. left. reflexivity. }
      destruct (Hread 0 4 2%Z) as (info2 & finfo & Hop & Hl & Hrd).
      * vm_compute. reflexivity.
      * vm_compute. discriminate.
      * vm_compute. split; [reflexivity|discriminate].
      * vm_compute. lia.
      * exists arc, info2, finfo. split; [exact Hopen|]. split; [exact Hop|].
        split; [exact Hl|exact Hrd].
Defined.
